(** * Citadel rules engine: a shallow embedding of the position core.

    The development follows the C++ sources of the engine:
    - [core.hpp]        squares, colours, piece and move kinds;
    - [bitboard81.hpp]  the 81-bit square set;
    - [tables.cpp]      geometry tables and Zobrist keys;
    - [position.cpp]    the position, move generation, make / undo;
    - [fen.cpp]         the textual position format;
    - [search.cpp]      the negamax node and quiescence, the search's
                        Zobrist key and its transposition table;
    - [move.cpp]        coordinates and move texts;
    - [perft.cpp]       leaf counting;
    - [citadel_cli.cpp] reading a move token.

    Machine integers are modelled as [Z].  Squares are [uint8] values
    [0..80] with the sentinel [SQ_NONE = 255]; raw board cells are [int8]
    values in [-8..8]; 64-bit words are [Z] with explicit reduction modulo
    [2^64] where the source can wrap. *)

From Stdlib Require Import ZArith List Bool Lia Btauto Permutation.
From Stdlib Require Import Ascii String.
Import ListNotations.

Local Open Scope Z_scope.

(* ===================================================================== *)
(** ** core.hpp *)
(* ===================================================================== *)

Definition N : Z := 9.
Definition SQ_N : Z := N * N.
Definition SQ_NONE : Z := 255.

Inductive Color : Type := White | Black.

Definition other (c : Color) : Color :=
  match c with White => Black | Black => White end.

Definition color_eqb (a b : Color) : bool :=
  match a, b with
  | White, White | Black, Black => true
  | _, _ => false
  end.

(** [static_cast<int>(c)] *)
Definition cidx (c : Color) : Z :=
  match c with White => 0 | Black => 1 end.

Inductive PieceType : Type :=
  Mason | Catapult | Lancer | Pegasus | Minister | Sovereign | Count.

Definition piece_eqb (a b : PieceType) : bool :=
  match a, b with
  | Mason, Mason | Catapult, Catapult | Lancer, Lancer
  | Pegasus, Pegasus | Minister, Minister | Sovereign, Sovereign
  | Count, Count => true
  | _, _ => false
  end.

Definition pidx (p : PieceType) : Z :=
  match p with
  | Mason => 0 | Catapult => 1 | Lancer => 2 | Pegasus => 3
  | Minister => 4 | Sovereign => 5 | Count => 6
  end.

Inductive MoveType : Type :=
  | Normal
  | MasonConstruct
  | MasonCommand
  | CatapultMove
  | CatapultRangedDemolish
  | Bastion.

Inductive WinReason : Type := WinNone | Regicide | Entombment.

Definition inBounds (r c : Z) : bool :=
  (0 <=? r) && (r <? N) && (0 <=? c) && (c <? N).

(** [static_cast<uint8_t>(r * N + c)] *)
Definition sq (r c : Z) : Z := (r * N + c) mod 256.

Definition row (s : Z) : Z := s / N.
Definition col (s : Z) : Z := s mod N.

Definition isKeep (r c : Z) : bool :=
  (3 <=? r) && (r <=? 5) && (3 <=? c) && (c <=? 5).

Definition isKeepSq (s : Z) : bool :=
  negb (s =? SQ_NONE) && isKeep (row s) (col s).

(* ===================================================================== *)
(** ** move.hpp *)
(* ===================================================================== *)

Record Move : Type := mkMove {
  m_type : MoveType;
  m_from : Z;
  m_to : Z;
  m_aux1 : Z;
  m_aux2 : Z
}.

(* ===================================================================== *)
(** ** bitboard81.hpp *)
(* ===================================================================== *)

Record Bitboard81 : Type := mkBB {
  lo : Z;  (* squares 0..63 *)
  hi : Z   (* squares 64..80 in bits 0..16 *)
}.

Definition bb_zero : Bitboard81 := mkBB 0 0.

Definition bb_any (b : Bitboard81) : bool :=
  negb (Z.lor (lo b) (hi b) =? 0).

Definition bb_test (b : Bitboard81) (s : Z) : bool :=
  if s =? SQ_NONE then false
  else if s <? 64 then negb (Z.land (Z.shiftr (lo b) s) 1 =? 0)
  else negb (Z.land (Z.shiftr (hi b) (s - 64)) 1 =? 0).

Definition bb_set (s : Z) (b : Bitboard81) : Bitboard81 :=
  if s =? SQ_NONE then b
  else if s <? 64 then mkBB (Z.lor (lo b) (Z.shiftl 1 s)) (hi b)
  else mkBB (lo b) (Z.lor (hi b) (Z.shiftl 1 (s - 64))).

(** [lo &= ~(1ULL << s)]: on a 64-bit word the complement keeps the
    other 63 bits, which is [Z.land] with [Z.lnot]. *)
Definition bb_reset (s : Z) (b : Bitboard81) : Bitboard81 :=
  if s =? SQ_NONE then b
  else if s <? 64 then mkBB (Z.land (lo b) (Z.lnot (Z.shiftl 1 s))) (hi b)
  else mkBB (lo b) (Z.land (hi b) (Z.lnot (Z.shiftl 1 (s - 64)))).

(** [std::countr_zero] on a non-zero word. *)
Fixpoint countr_zero_pos (p : positive) : Z :=
  match p with
  | xO q => 1 + countr_zero_pos q
  | _ => 0
  end.

Definition countr_zero (x : Z) : Z :=
  match x with
  | Zpos p => countr_zero_pos p
  | _ => 64
  end.

(** [pop_lsb]: returns the least significant set square and the board
    without it. *)
Definition pop_lsb (b : Bitboard81) : Z * Bitboard81 :=
  if negb (lo b =? 0) then
    (countr_zero (lo b), mkBB (Z.land (lo b) (lo b - 1)) (hi b))
  else
    (countr_zero (hi b) + 64, mkBB (lo b) (Z.land (hi b) (hi b - 1))).

(** The idiom [while (bb.any()) { s = bb.pop_lsb(); ... }] collects the
    squares of a board; 81 rounds exhaust any board of 81 squares. *)
Fixpoint bb_squares_fuel (fuel : nat) (b : Bitboard81) : list Z :=
  match fuel with
  | O => []
  | S f =>
      if bb_any b then
        let '(s, b') := pop_lsb b in s :: bb_squares_fuel f b'
      else []
  end.

Definition bb_squares (b : Bitboard81) : list Z := bb_squares_fuel 81 b.

(* ===================================================================== *)
(** ** tables.hpp / tables.cpp *)
(* ===================================================================== *)

(** 0:N, 1:S, 2:W, 3:E, 4:NW, 5:NE, 6:SW, 7:SE *)
Definition DIRS8 : list (Z * Z) :=
  [(-1, 0); (1, 0); (0, -1); (0, 1); (-1, -1); (-1, 1); (1, -1); (1, 1)].

Definition DIRS4 : list (Z * Z) :=
  [(-1, 0); (1, 0); (0, -1); (0, 1)].

Definition KNIGHT : list (Z * Z) :=
  [(-2, -1); (-2, 1); (-1, -2); (-1, 2); (1, -2); (1, 2); (2, -1); (2, 1)].

(** The in-bounds targets of a step list from [(r, c)], in table order. *)
Definition stepTargets (dirs : list (Z * Z)) (r c : Z) : list Z :=
  flat_map (fun d =>
    let rr := r + fst d in
    let cc := c + snd d in
    if inBounds rr cc then [sq rr cc] else []) dirs.

Definition knightTargets (s : Z) : list Z := stepTargets KNIGHT (row s) (col s).
Definition kingTargets (s : Z) : list Z := stepTargets DIRS8 (row s) (col s).

(** [while (inBounds(rr, cc)) { ray[len++] = sq(rr, cc); rr += d.r; cc += d.c; }] *)
Fixpoint rayFrom (fuel : nat) (d : Z * Z) (rr cc : Z) : list Z :=
  match fuel with
  | O => []
  | S f =>
      if inBounds rr cc
      then sq rr cc :: rayFrom f d (rr + fst d) (cc + snd d)
      else []
  end.

Definition ray (s : Z) (dir : nat) : list Z :=
  let d := nth dir DIRS8 (0, 0) in
  rayFrom 9 d (row s + fst d) (col s + snd d).

(** splitmix64 on 64-bit words. *)
Definition W64 : Z := 2 ^ 64.

Definition splitmix64 (x : Z) : Z * Z :=
  let x1 := (x + 0x9E3779B97F4A7C15) mod W64 in
  let z1 := (Z.lxor x1 (Z.shiftr x1 30) * 0xBF58476D1CE4E5B9) mod W64 in
  let z2 := (Z.lxor z1 (Z.shiftr z1 27) * 0x94D049BB133111EB) mod W64 in
  (Z.lxor z2 (Z.shiftr z2 31), x1).

Fixpoint splitmixSeq (n : nat) (seed : Z) : list Z :=
  match n with
  | O => []
  | S k => let '(v, seed') := splitmix64 seed in v :: splitmixSeq k seed'
  end.

(** The keys in the order [buildTables] draws them: per colour the six
    piece planes and then the two wall planes, then the turn key, the two
    bastion keys and the two wall-built-last keys. *)
Definition zobristKeys : list Z :=
  Eval vm_compute in splitmixSeq 1301 0xC17ADE10A5F00D42.

Definition keyAt (i : Z) : Z := nth (Z.to_nat i) zobristKeys 0.
Arguments keyAt _ : simpl never.

Definition pieceKeys (c : Color) (pt : PieceType) (s : Z) : Z :=
  keyAt (cidx c * 648 + pidx pt * 81 + s).
Definition wallKeys (c : Color) (hpIdx : Z) (s : Z) : Z :=
  keyAt (cidx c * 648 + 486 + hpIdx * 81 + s).
Definition turnKey : Z := keyAt 1296.
Definition bastionKeys (c : Color) : Z := keyAt (1297 + cidx c).
Definition wallBuiltLastKeys (c : Color) : Z := keyAt (1299 + cidx c).

(* ===================================================================== *)
(** ** position.hpp: data *)
(* ===================================================================== *)

(** A two-element array indexed by colour, [T x[2]]. *)
Record Arr2 (A : Type) : Type := mkArr2 { a_white : A; a_black : A }.
Arguments mkArr2 {A} _ _.
Arguments a_white {A} _.
Arguments a_black {A} _.

Definition getC {A : Type} (c : Color) (a : Arr2 A) : A :=
  match c with White => a_white a | Black => a_black a end.

Definition setC {A : Type} (c : Color) (v : A) (a : Arr2 A) : Arr2 A :=
  match c with
  | White => mkArr2 v (a_black a)
  | Black => mkArr2 (a_white a) v
  end.

(** [std::array<Bitboard81, PieceType::Count>]; the index [Count] is past
    the end and never used by the source. *)
Record PieceBoards : Type := mkPieceBoards {
  bbMason : Bitboard81;
  bbCatapult : Bitboard81;
  bbLancer : Bitboard81;
  bbPegasus : Bitboard81;
  bbMinister : Bitboard81;
  bbSovereign : Bitboard81
}.

Definition getP (pt : PieceType) (a : PieceBoards) : Bitboard81 :=
  match pt with
  | Mason => bbMason a | Catapult => bbCatapult a | Lancer => bbLancer a
  | Pegasus => bbPegasus a | Minister => bbMinister a
  | Sovereign => bbSovereign a | Count => bb_zero
  end.

Definition setP (pt : PieceType) (v : Bitboard81) (a : PieceBoards) : PieceBoards :=
  match pt with
  | Mason => mkPieceBoards v (bbCatapult a) (bbLancer a) (bbPegasus a) (bbMinister a) (bbSovereign a)
  | Catapult => mkPieceBoards (bbMason a) v (bbLancer a) (bbPegasus a) (bbMinister a) (bbSovereign a)
  | Lancer => mkPieceBoards (bbMason a) (bbCatapult a) v (bbPegasus a) (bbMinister a) (bbSovereign a)
  | Pegasus => mkPieceBoards (bbMason a) (bbCatapult a) (bbLancer a) v (bbMinister a) (bbSovereign a)
  | Minister => mkPieceBoards (bbMason a) (bbCatapult a) (bbLancer a) (bbPegasus a) v (bbSovereign a)
  | Sovereign => mkPieceBoards (bbMason a) (bbCatapult a) (bbLancer a) (bbPegasus a) (bbMinister a) v
  | Count => a
  end.

Definition noPieceBoards : PieceBoards :=
  mkPieceBoards bb_zero bb_zero bb_zero bb_zero bb_zero bb_zero.

Record Position : Type := mkPosition {
  b_ : list Z;                       (* SQ_N raw cells *)
  turn_ : Color;
  bastionRight_ : Arr2 bool;
  wallBuiltLast_ : Arr2 bool;
  sovereignSq_ : Arr2 Z;
  wallTokens_ : Arr2 Z;
  halfmove_ : Z;
  fullmove_ : Z;
  winner_ : Z;                       (* SQ_NONE, or a colour as 0/1 *)
  winReason_ : WinReason;
  pieceBB_ : Arr2 PieceBoards;
  piecesBB_ : Arr2 Bitboard81;
  wallsBB_ : Arr2 Bitboard81;
  wallsReinfBB_ : Arr2 Bitboard81;
  hash_ : Z;
  history_ : list Z
}.

(** Field assignment. *)
Definition set_b (v : list Z) (p : Position) : Position :=
  mkPosition v (turn_ p) (bastionRight_ p) (wallBuiltLast_ p) (sovereignSq_ p)
    (wallTokens_ p) (halfmove_ p) (fullmove_ p) (winner_ p) (winReason_ p)
    (pieceBB_ p) (piecesBB_ p) (wallsBB_ p) (wallsReinfBB_ p) (hash_ p) (history_ p).
Definition set_turn (v : Color) (p : Position) : Position :=
  mkPosition (b_ p) v (bastionRight_ p) (wallBuiltLast_ p) (sovereignSq_ p)
    (wallTokens_ p) (halfmove_ p) (fullmove_ p) (winner_ p) (winReason_ p)
    (pieceBB_ p) (piecesBB_ p) (wallsBB_ p) (wallsReinfBB_ p) (hash_ p) (history_ p).
Definition set_bastionRight (v : Arr2 bool) (p : Position) : Position :=
  mkPosition (b_ p) (turn_ p) v (wallBuiltLast_ p) (sovereignSq_ p)
    (wallTokens_ p) (halfmove_ p) (fullmove_ p) (winner_ p) (winReason_ p)
    (pieceBB_ p) (piecesBB_ p) (wallsBB_ p) (wallsReinfBB_ p) (hash_ p) (history_ p).
Definition set_wallBuiltLast (v : Arr2 bool) (p : Position) : Position :=
  mkPosition (b_ p) (turn_ p) (bastionRight_ p) v (sovereignSq_ p)
    (wallTokens_ p) (halfmove_ p) (fullmove_ p) (winner_ p) (winReason_ p)
    (pieceBB_ p) (piecesBB_ p) (wallsBB_ p) (wallsReinfBB_ p) (hash_ p) (history_ p).
Definition set_sovereignSq (v : Arr2 Z) (p : Position) : Position :=
  mkPosition (b_ p) (turn_ p) (bastionRight_ p) (wallBuiltLast_ p) v
    (wallTokens_ p) (halfmove_ p) (fullmove_ p) (winner_ p) (winReason_ p)
    (pieceBB_ p) (piecesBB_ p) (wallsBB_ p) (wallsReinfBB_ p) (hash_ p) (history_ p).
Definition set_wallTokens (v : Arr2 Z) (p : Position) : Position :=
  mkPosition (b_ p) (turn_ p) (bastionRight_ p) (wallBuiltLast_ p) (sovereignSq_ p)
    v (halfmove_ p) (fullmove_ p) (winner_ p) (winReason_ p)
    (pieceBB_ p) (piecesBB_ p) (wallsBB_ p) (wallsReinfBB_ p) (hash_ p) (history_ p).
Definition set_halfmove (v : Z) (p : Position) : Position :=
  mkPosition (b_ p) (turn_ p) (bastionRight_ p) (wallBuiltLast_ p) (sovereignSq_ p)
    (wallTokens_ p) v (fullmove_ p) (winner_ p) (winReason_ p)
    (pieceBB_ p) (piecesBB_ p) (wallsBB_ p) (wallsReinfBB_ p) (hash_ p) (history_ p).
Definition set_fullmove (v : Z) (p : Position) : Position :=
  mkPosition (b_ p) (turn_ p) (bastionRight_ p) (wallBuiltLast_ p) (sovereignSq_ p)
    (wallTokens_ p) (halfmove_ p) v (winner_ p) (winReason_ p)
    (pieceBB_ p) (piecesBB_ p) (wallsBB_ p) (wallsReinfBB_ p) (hash_ p) (history_ p).
Definition set_winner (v : Z) (p : Position) : Position :=
  mkPosition (b_ p) (turn_ p) (bastionRight_ p) (wallBuiltLast_ p) (sovereignSq_ p)
    (wallTokens_ p) (halfmove_ p) (fullmove_ p) v (winReason_ p)
    (pieceBB_ p) (piecesBB_ p) (wallsBB_ p) (wallsReinfBB_ p) (hash_ p) (history_ p).
Definition set_winReason (v : WinReason) (p : Position) : Position :=
  mkPosition (b_ p) (turn_ p) (bastionRight_ p) (wallBuiltLast_ p) (sovereignSq_ p)
    (wallTokens_ p) (halfmove_ p) (fullmove_ p) (winner_ p) v
    (pieceBB_ p) (piecesBB_ p) (wallsBB_ p) (wallsReinfBB_ p) (hash_ p) (history_ p).
Definition set_pieceBB (v : Arr2 PieceBoards) (p : Position) : Position :=
  mkPosition (b_ p) (turn_ p) (bastionRight_ p) (wallBuiltLast_ p) (sovereignSq_ p)
    (wallTokens_ p) (halfmove_ p) (fullmove_ p) (winner_ p) (winReason_ p)
    v (piecesBB_ p) (wallsBB_ p) (wallsReinfBB_ p) (hash_ p) (history_ p).
Definition set_piecesBB (v : Arr2 Bitboard81) (p : Position) : Position :=
  mkPosition (b_ p) (turn_ p) (bastionRight_ p) (wallBuiltLast_ p) (sovereignSq_ p)
    (wallTokens_ p) (halfmove_ p) (fullmove_ p) (winner_ p) (winReason_ p)
    (pieceBB_ p) v (wallsBB_ p) (wallsReinfBB_ p) (hash_ p) (history_ p).
Definition set_wallsBB (v : Arr2 Bitboard81) (p : Position) : Position :=
  mkPosition (b_ p) (turn_ p) (bastionRight_ p) (wallBuiltLast_ p) (sovereignSq_ p)
    (wallTokens_ p) (halfmove_ p) (fullmove_ p) (winner_ p) (winReason_ p)
    (pieceBB_ p) (piecesBB_ p) v (wallsReinfBB_ p) (hash_ p) (history_ p).
Definition set_wallsReinfBB (v : Arr2 Bitboard81) (p : Position) : Position :=
  mkPosition (b_ p) (turn_ p) (bastionRight_ p) (wallBuiltLast_ p) (sovereignSq_ p)
    (wallTokens_ p) (halfmove_ p) (fullmove_ p) (winner_ p) (winReason_ p)
    (pieceBB_ p) (piecesBB_ p) (wallsBB_ p) v (hash_ p) (history_ p).
Definition set_hash (v : Z) (p : Position) : Position :=
  mkPosition (b_ p) (turn_ p) (bastionRight_ p) (wallBuiltLast_ p) (sovereignSq_ p)
    (wallTokens_ p) (halfmove_ p) (fullmove_ p) (winner_ p) (winReason_ p)
    (pieceBB_ p) (piecesBB_ p) (wallsBB_ p) (wallsReinfBB_ p) v (history_ p).
Definition set_history (v : list Z) (p : Position) : Position :=
  mkPosition (b_ p) (turn_ p) (bastionRight_ p) (wallBuiltLast_ p) (sovereignSq_ p)
    (wallTokens_ p) (halfmove_ p) (fullmove_ p) (winner_ p) (winReason_ p)
    (pieceBB_ p) (piecesBB_ p) (wallsBB_ p) (wallsReinfBB_ p) (hash_ p) v.

(** The saved state of one move.  The parallel arrays [sq]/[prev] with
    their count [sqCount] are the list [u_saved], oldest record first. *)
Record Undo : Type := mkUndo {
  prevTurn : Color;
  prevBastionRight : Arr2 bool;
  prevWallBuiltLast : Arr2 bool;
  prevSovereignSq : Arr2 Z;
  prevWallTokens : Arr2 Z;
  prevHalfmove : Z;
  prevFullmove : Z;
  prevWinner : Z;
  prevWinReason : WinReason;
  u_saved : list (Z * Z)
}.

Definition set_saved (v : list (Z * Z)) (u : Undo) : Undo :=
  mkUndo (prevTurn u) (prevBastionRight u) (prevWallBuiltLast u) (prevSovereignSq u)
    (prevWallTokens u) (prevHalfmove u) (prevFullmove u) (prevWinner u)
    (prevWinReason u) v.

Record NullUndo : Type := mkNullUndo {
  nu_prevTurn : Color;
  nu_prevFullmove : Z
}.

(* ===================================================================== *)
(** ** position.hpp: cell encoding and accessors *)
(* ===================================================================== *)

(** [(v < 0) ? -v : v] *)
Definition absVal (v : Z) : Z := if v <? 0 then - v else v.

Definition isPieceVal (v : Z) : bool :=
  let a := absVal v in (1 <=? a) && (a <=? 6).

Definition isWallVal (v : Z) : bool :=
  let a := absVal v in 7 <=? a.

Definition colorOf (v : Z) : Color := if 0 <? v then White else Black.

(** [static_cast<PieceType>(a - 1)]; only read for piece cells. *)
Definition pieceOf (v : Z) : PieceType :=
  let a := absVal v in
  if a - 1 =? 0 then Mason
  else if a - 1 =? 1 then Catapult
  else if a - 1 =? 2 then Lancer
  else if a - 1 =? 3 then Pegasus
  else if a - 1 =? 4 then Minister
  else if a - 1 =? 5 then Sovereign
  else Count.

Definition wallHp (v : Z) : Z := absVal v - 6.

Definition makePiece (c : Color) (p : PieceType) : Z :=
  let n := 1 + pidx p in
  match c with White => n | Black => - n end.

Definition makeWall (c : Color) (hp : Z) : Z :=
  let n := 6 + hp in
  match c with White => n | Black => - n end.

(** [b_[s]], for a square [s] of the board.  [b_] is a [std::array] of
    81 cells read without a bounds check, so in the source an index
    outside [0..80] reads what lies behind the array; here such a read
    gives 0.  The two agree on the squares [0..80]; a statement below
    whose conclusion depends on the cells an action touches takes the
    action from the move list, whose squares are on the board. *)
Definition cell (b : list Z) (s : Z) : Z := nth (Z.to_nat s) b 0.

(** [b_[s] = v], for a square [s] of the board.  In the source a write
    at an index outside [0..80] lands behind the array; here it is
    dropped.  The two agree on the squares [0..80]. *)
Fixpoint updNat (b : list Z) (i : nat) (v : Z) : list Z :=
  match b, i with
  | [], _ => []
  | _ :: t, O => v :: t
  | x :: t, S j => x :: updNat t j v
  end.

Definition upd (b : list Z) (s : Z) (v : Z) : list Z := updNat b (Z.to_nat s) v.

Definition at_ (p : Position) (s : Z) : Z := cell (b_ p) s.

Definition bastionRight (p : Position) (c : Color) : bool := getC c (bastionRight_ p).
Definition wallBuiltLast (p : Position) (c : Color) : bool := getC c (wallBuiltLast_ p).
Definition wallTokens (p : Position) (c : Color) : Z := getC c (wallTokens_ p).
Definition sovereignSq (p : Position) (c : Color) : Z := getC c (sovereignSq_ p).
Definition pieceBB (p : Position) (c : Color) (pt : PieceType) : Bitboard81 :=
  getP pt (getC c (pieceBB_ p)).

Definition gameOver (p : Position) : bool := negb (winner_ p =? SQ_NONE).

(** Squares [0 .. SQ_N-1] in loop order. *)
Definition allSquares : list Z := map Z.of_nat (seq 0 81).

(* ===================================================================== *)
(** ** position.cpp: derived state *)
(* ===================================================================== *)

Definition bbSetPiece (c : Color) (pt : PieceType) (s : Z) (p : Position) : Position :=
  set_piecesBB (setC c (bb_set s (getC c (piecesBB_ p))) (piecesBB_ p))
    (set_pieceBB (setC c (setP pt (bb_set s (pieceBB p c pt)) (getC c (pieceBB_ p)))
                    (pieceBB_ p)) p).

Definition bbResetPiece (c : Color) (pt : PieceType) (s : Z) (p : Position) : Position :=
  set_piecesBB (setC c (bb_reset s (getC c (piecesBB_ p))) (piecesBB_ p))
    (set_pieceBB (setC c (setP pt (bb_reset s (pieceBB p c pt)) (getC c (pieceBB_ p)))
                    (pieceBB_ p)) p).

Definition bbSetWall (c : Color) (hp : Z) (s : Z) (p : Position) : Position :=
  let p1 := set_wallsBB (setC c (bb_set s (getC c (wallsBB_ p))) (wallsBB_ p)) p in
  if hp =? 2
  then set_wallsReinfBB (setC c (bb_set s (getC c (wallsReinfBB_ p1))) (wallsReinfBB_ p1)) p1
  else p1.

Definition bbResetWall (c : Color) (hp : Z) (s : Z) (p : Position) : Position :=
  let p1 := set_wallsBB (setC c (bb_reset s (getC c (wallsBB_ p))) (wallsBB_ p)) p in
  if hp =? 2
  then set_wallsReinfBB (setC c (bb_reset s (getC c (wallsReinfBB_ p1))) (wallsReinfBB_ p1)) p1
  else p1.

Definition xorHash (k : Z) (p : Position) : Position :=
  set_hash (Z.lxor (hash_ p) k) p.

(** One round of the square loop of [rebuildDerived]. *)
Definition rebuildStep (p : Position) (s : Z) : Position :=
  let v := at_ p s in
  if v =? 0 then p
  else if isPieceVal v then
    let c := colorOf v in
    let pt := pieceOf v in
    let p1 := bbSetPiece c pt s p in
    let p2 := if piece_eqb pt Sovereign
              then set_sovereignSq (setC c s (sovereignSq_ p1)) p1 else p1 in
    xorHash (pieceKeys c pt s) p2
  else if isWallVal v then
    let c := colorOf v in
    let p1 := set_wallsBB (setC c (bb_set s (getC c (wallsBB_ p))) (wallsBB_ p)) p in
    let hp := wallHp v in
    let p2 := set_wallTokens (setC c (getC c (wallTokens_ p1) + hp) (wallTokens_ p1)) p1 in
    let p3 := if hp =? 2
              then set_wallsReinfBB (setC c (bb_set s (getC c (wallsReinfBB_ p2)))
                                       (wallsReinfBB_ p2)) p2
              else p2 in
    xorHash (wallKeys c (hp - 1) s) p3
  else p.

Definition rebuildDerived (p : Position) : Position :=
  let p1 := set_piecesBB (mkArr2 bb_zero bb_zero)
           (set_wallsBB (mkArr2 bb_zero bb_zero)
           (set_wallsReinfBB (mkArr2 bb_zero bb_zero)
           (set_pieceBB (mkArr2 noPieceBoards noPieceBoards) p))) in
  let p2 := set_sovereignSq (mkArr2 SQ_NONE SQ_NONE)
           (set_wallTokens (mkArr2 0 0) p1) in
  let h0 := 0 in
  let h1 := if color_eqb (turn_ p2) Black then Z.lxor h0 turnKey else h0 in
  let h2 := if getC White (bastionRight_ p2) then Z.lxor h1 (bastionKeys White) else h1 in
  let h3 := if getC White (wallBuiltLast_ p2) then Z.lxor h2 (wallBuiltLastKeys White) else h2 in
  let h4 := if getC Black (bastionRight_ p2) then Z.lxor h3 (bastionKeys Black) else h3 in
  let h5 := if getC Black (wallBuiltLast_ p2) then Z.lxor h4 (wallBuiltLastKeys Black) else h4 in
  fold_left rebuildStep allSquares (set_hash h5 p2).

(** [for (auto h : history_) if (h == hash_) if (++count >= 2) return true;] *)
Fixpoint repetitionScan (h : Z) (hist : list Z) (count : Z) : bool :=
  match hist with
  | [] => false
  | x :: rest =>
      if x =? h then
        if 2 <=? count + 1 then true else repetitionScan h rest (count + 1)
      else repetitionScan h rest count
  end.

Definition isRepetition (p : Position) : bool :=
  repetitionScan (hash_ p) (history_ p) 0.

Definition setSquareRaw (s : Z) (v : Z) (p : Position) : Position :=
  let old := at_ p s in
  if old =? v then p
  else
    let p1 :=
      if negb (old =? 0) then
        if isPieceVal old then
          let c := colorOf old in
          let pt := pieceOf old in
          xorHash (pieceKeys c pt s) (bbResetPiece c pt s p)
        else if isWallVal old then
          let c := colorOf old in
          let hp := wallHp old in
          xorHash (wallKeys c (hp - 1) s) (bbResetWall c hp s p)
        else p
      else p in
    let p2 := set_b (upd (b_ p1) s v) p1 in
    if negb (v =? 0) then
      if isPieceVal v then
        let c := colorOf v in
        let pt := pieceOf v in
        xorHash (pieceKeys c pt s) (bbSetPiece c pt s p2)
      else if isWallVal v then
        let c := colorOf v in
        let hp := wallHp v in
        xorHash (wallKeys c (hp - 1) s) (bbSetWall c hp s p2)
      else p2
    else p2.

Definition saveSquare (p : Position) (u : Undo) (s : Z) : Undo :=
  if existsb (fun e => fst e =? s) (u_saved u) then u
  else set_saved (u_saved u ++ [(s, at_ p s)]) u.

Definition hitWall (wallSq : Z) (p : Position) : Position :=
  let v := at_ p wallSq in
  if negb (isWallVal v) then p
  else
    let owner := colorOf v in
    let hp := wallHp v in
    if hp =? 2 then
      let p1 := setSquareRaw wallSq (makeWall owner 1) p in
      set_wallTokens (setC owner (getC owner (wallTokens_ p1) - 1) (wallTokens_ p1)) p1
    else
      let p1 := setSquareRaw wallSq 0 p in
      set_wallTokens (setC owner (getC owner (wallTokens_ p1) - 1) (wallTokens_ p1)) p1.

(* ===================================================================== *)
(** ** position.cpp: ranges, attacks, entombment *)
(* ===================================================================== *)

Definition hasDominance (p : Position) (c : Color) : bool :=
  isKeepSq (sovereignSq p c).

Definition masonMoveRange (p : Position) (masonSq : Z) (c : Color) : Z :=
  if hasDominance p c && isKeepSq masonSq then 2 else 1.

Definition ministerMoveRange (p : Position) (ministerSq : Z) (c : Color) : Z :=
  let dom := hasDominance p c in
  2 + (if dom && isKeepSq ministerSq then 1 else 0).

Definition sovereignMoveRange (p : Position) (sovSq : Z) (c : Color) : Z :=
  if 15 <? wallTokens p c then 0
  else
    let dom := hasDominance p c in
    1 + (if dom && isKeepSq sovSq then 1 else 0).

(** Cell tests shared by the walkers below. *)
Definition isPieceOf (c : Color) (pt : PieceType) (v : Z) : bool :=
  isPieceVal v && color_eqb (colorOf v) c && piece_eqb (pieceOf v) pt.

(** The forward direction of colour [c]'s Masons. *)
Definition forwardOf (c : Color) : Z :=
  match c with White => -1 | Black => 1 end.

(** A rook ray seen from the target: the first piece decides. *)
Fixpoint catapultHits (p : Position) (attacker : Color) (sqs : list Z) : bool :=
  match sqs with
  | [] => false
  | tsq :: rest =>
      let v := at_ p tsq in
      if isWallVal v then false
      else if isPieceVal v then
        color_eqb (colorOf v) attacker && piece_eqb (pieceOf v) Catapult
      else catapultHits p attacker rest
  end.

(** A bishop ray seen from the target: friendly Masons are transparent. *)
Fixpoint lancerHits (p : Position) (attacker : Color) (sqs : list Z) : bool :=
  match sqs with
  | [] => false
  | tsq :: rest =>
      let v := at_ p tsq in
      if isWallVal v then false
      else if isPieceVal v then
        if color_eqb (colorOf v) attacker then
          if piece_eqb (pieceOf v) Lancer then true
          else if piece_eqb (pieceOf v) Mason then lancerHits p attacker rest
          else false
        else false
      else lancerHits p attacker rest
  end.

(** Minister and Sovereign within their range; [step] counts from 0. *)
Fixpoint courtHits (p : Position) (attacker : Color) (sqs : list Z) (step : Z) : bool :=
  match sqs with
  | [] => false
  | tsq :: rest =>
      let v := at_ p tsq in
      if isWallVal v then false
      else if isPieceVal v then
        if color_eqb (colorOf v) attacker then
          let pt := pieceOf v in
          let dist := step + 1 in
          if piece_eqb pt Minister then dist <=? ministerMoveRange p tsq attacker
          else if piece_eqb pt Sovereign then dist <=? sovereignMoveRange p tsq attacker
          else false
        else false
      else courtHits p attacker rest (step + 1)
  end.

Definition isSquareAttackedBy (p : Position) (attacker : Color) (square : Z) : bool :=
  if square =? SQ_NONE then false
  else if isWallVal (at_ p square) then false
  else
    let r := row square in
    let c := col square in
    let f := forwardOf attacker in
    let mr := r - f in
    let byMason :=
      if (0 <=? mr) && (mr <? N) then
        (let c1 := c - 1 in
         if 0 <=? c1 then isPieceOf attacker Mason (at_ p (sq mr c1)) else false)
        || (let c2 := c + 1 in
            if c2 <? N then isPieceOf attacker Mason (at_ p (sq mr c2)) else false)
      else false in
    if byMason then true
    else if existsb (fun from => isPieceOf attacker Pegasus (at_ p from))
                    (knightTargets square) then true
    else if existsb (fun dir => catapultHits p attacker (ray square dir)) (seq 0 4) then true
    else if existsb (fun dir => lancerHits p attacker (ray square dir)) (seq 4 4) then true
    else existsb (fun dir => courtHits p attacker (firstn 3 (ray square dir)) 0) (seq 0 8).

Definition isEntombed (p : Position) (victim : Color) : bool :=
  let k := sovereignSq p victim in
  if k =? SQ_NONE then false
  else forallb (fun adj => isWallVal (at_ p adj)) (kingTargets k).

(** Squares marked along one ray by a slider that stops at the first
    piece; walls are not marked. *)
Fixpoint sliderMarks (p : Position) (sqs : list Z) : list Z :=
  match sqs with
  | [] => []
  | tsq :: rest =>
      let v := at_ p tsq in
      if isWallVal v then []
      else if isPieceVal v then [tsq]
      else tsq :: sliderMarks p rest
  end.

Fixpoint lancerMarks (p : Position) (us : Color) (sqs : list Z) : list Z :=
  match sqs with
  | [] => []
  | tsq :: rest =>
      let v := at_ p tsq in
      if isWallVal v then []
      else if isPieceVal v then
        if color_eqb (colorOf v) us && piece_eqb (pieceOf v) Mason
        then tsq :: lancerMarks p us rest
        else [tsq]
      else tsq :: lancerMarks p us rest
  end.

Definition markAll (sqs : list Z) (attacked : Bitboard81) : Bitboard81 :=
  fold_left (fun acc s => bb_set s acc) sqs attacked.

Definition computeAttacks (p : Position) (attacker : Color) : Bitboard81 :=
  let us := attacker in
  let dom := hasDominance p us in
  let wallCount := wallTokens p us in
  let f := forwardOf us in
  let a1 := markAll
    (flat_map (fun s =>
       flat_map (fun dc =>
         let rr := row s + f in
         let cc := col s + dc in
         if negb (inBounds rr cc) then []
         else if isWallVal (at_ p (sq rr cc)) then []
         else [sq rr cc]) [-1; 1])
       (bb_squares (pieceBB p us Mason))) bb_zero in
  let a2 := markAll
    (flat_map (fun s =>
       filter (fun tsq => negb (isWallVal (at_ p tsq))) (knightTargets s))
       (bb_squares (pieceBB p us Pegasus))) a1 in
  let a3 := markAll
    (flat_map (fun s => flat_map (fun dir => sliderMarks p (ray s dir)) (seq 0 4))
       (bb_squares (pieceBB p us Catapult))) a2 in
  let a4 := markAll
    (flat_map (fun s => flat_map (fun dir => lancerMarks p us (ray s dir)) (seq 4 4))
       (bb_squares (pieceBB p us Lancer))) a3 in
  let a5 := markAll
    (flat_map (fun s =>
       let max := 2 + (if dom && isKeepSq s then 1 else 0) in
       flat_map (fun dir => sliderMarks p (firstn (Z.to_nat max) (ray s dir))) (seq 0 8))
       (bb_squares (pieceBB p us Minister))) a4 in
  if wallCount <=? 15 then
    markAll
      (flat_map (fun s =>
         let max := 1 + (if dom && isKeepSq s then 1 else 0) in
         flat_map (fun dir => sliderMarks p (firstn (Z.to_nat max) (ray s dir))) (seq 0 8))
         (bb_squares (pieceBB p us Sovereign))) a5
  else a5.

Definition finalizeTurn (p : Position) : Position :=
  if negb (winner_ p =? SQ_NONE) then p
  else
    let enemy := other (turn_ p) in
    if isEntombed p enemy then
      set_halfmove 0 (set_winReason Entombment (set_winner (cidx (turn_ p)) p))
    else
      let p1 := xorHash turnKey p in
      let prev := turn_ p1 in
      let p2 := set_turn enemy p1 in
      if color_eqb prev Black then set_fullmove (fullmove_ p2 + 1) p2 else p2.

(* ===================================================================== *)
(** ** position.cpp: move generation *)
(* ===================================================================== *)

Definition normalMove (fromSq tsq : Z) : Move :=
  mkMove Normal fromSq tsq SQ_NONE SQ_NONE.

(** [for (int step = 1; step <= max; ++step)] *)
Definition stepsUpTo (max : Z) : list Z :=
  map (fun k => Z.of_nat k) (seq 1 (Z.to_nat max)).

Fixpoint masonSlide (p : Position) (fromSq r c : Z) (d : Z * Z) (steps : list Z)
  : list Move :=
  match steps with
  | [] => []
  | step :: rest =>
      let rr := r + fst d * step in
      let cc := c + snd d * step in
      if negb (inBounds rr cc) then []
      else
        let tsq := sq rr cc in
        if negb (at_ p tsq =? 0) then []
        else normalMove fromSq tsq :: masonSlide p fromSq r c d rest
  end.

Fixpoint lancerSlide (p : Position) (fromSq : Z) (us them : Color) (sqs : list Z)
  : list Move :=
  match sqs with
  | [] => []
  | tsq :: rest =>
      let v := at_ p tsq in
      if isWallVal v then []
      else if isPieceVal v then
        if color_eqb (colorOf v) us && piece_eqb (pieceOf v) Mason
        then lancerSlide p fromSq us them rest
        else if color_eqb (colorOf v) them then [normalMove fromSq tsq]
        else []
      else normalMove fromSq tsq :: lancerSlide p fromSq us them rest
  end.

Fixpoint courtSlide (p : Position) (fromSq : Z) (them : Color) (sqs : list Z)
  : list Move :=
  match sqs with
  | [] => []
  | tsq :: rest =>
      let v := at_ p tsq in
      if isWallVal v then []
      else if isPieceVal v then
        if color_eqb (colorOf v) them then [normalMove fromSq tsq] else []
      else normalMove fromSq tsq :: courtSlide p fromSq them rest
  end.

Definition genNormalMovesForPiece (p : Position) (fromSq : Z) (pt : PieceType)
  (us : Color) : list Move :=
  let them := other us in
  match pt with
  | Mason =>
      let f := forwardOf us in
      let max := masonMoveRange p fromSq us in
      let r := row fromSq in
      let c := col fromSq in
      flat_map (fun d => masonSlide p fromSq r c d (stepsUpTo max))
               [(f, 0); (0, -1); (0, 1)]
      ++ flat_map (fun dc =>
           let rr := r + f in
           let cc := c + dc in
           if negb (inBounds rr cc) then []
           else
             let tsq := sq rr cc in
             let v := at_ p tsq in
             if isWallVal v then []
             else if isPieceVal v && color_eqb (colorOf v) them
                  then [normalMove fromSq tsq] else []) [-1; 1]
  | Pegasus =>
      flat_map (fun tsq =>
        let v := at_ p tsq in
        if isWallVal v then []
        else if isPieceVal v && color_eqb (colorOf v) us then []
        else [normalMove fromSq tsq]) (knightTargets fromSq)
  | Lancer =>
      flat_map (fun dir => lancerSlide p fromSq us them (ray fromSq dir)) (seq 4 4)
  | Minister =>
      let max := ministerMoveRange p fromSq us in
      flat_map (fun dir =>
        courtSlide p fromSq them (firstn (Z.to_nat max) (ray fromSq dir))) (seq 0 8)
  | Sovereign =>
      let max := sovereignMoveRange p fromSq us in
      if max <=? 0 then []
      else
        flat_map (fun dir =>
          courtSlide p fromSq them (firstn (Z.to_nat max) (ray fromSq dir))) (seq 0 8)
  | Catapult | Count => []
  end.

(** The lambda [considerCommandDest]: the Mason is moved on the board, the
    variants are listed, and the two squares are put back. *)
Definition considerCommandDest (p : Position) (masonSq : Z) (us : Color)
  (canBuild : bool) (destSq : Z) : Position * list Move :=
  let them := other us in
  let dstV := at_ p destSq in
  if isPieceVal dstV && color_eqb (colorOf dstV) them
     && piece_eqb (pieceOf dstV) Sovereign
  then (p, [mkMove MasonCommand masonSq destSq SQ_NONE SQ_NONE])
  else
    let fromV := at_ p masonSq in
    let toV := dstV in
    let p1 := setSquareRaw destSq fromV p in
    let p2 := setSquareRaw masonSq 0 p1 in
    let skip := [mkMove MasonCommand masonSq destSq SQ_NONE SQ_NONE] in
    let builds :=
      if canBuild && negb (isSquareAttackedBy p2 them destSq) then
        let nr := row destSq in
        let nc := col destSq in
        flat_map (fun d =>
          let rr := nr + fst d in
          let cc := nc + snd d in
          if negb (inBounds rr cc) then []
          else
            let wsq := sq rr cc in
            if at_ p2 wsq =? 0
            then [mkMove MasonCommand masonSq destSq wsq SQ_NONE] else []) DIRS4
      else [] in
    let p3 := setSquareRaw masonSq fromV p2 in
    let p4 := setSquareRaw destSq toV p3 in
    (p4, skip ++ builds).

(** Run a list of candidate squares through [considerCommandDest], testing
    each candidate on the board as it is when its turn comes. *)
Fixpoint commandLoop (p : Position) (masonSq : Z) (us : Color) (canBuild : bool)
  (want : Position -> Z -> bool) (cands : list (Z * Z)) : Position * list Move :=
  match cands with
  | [] => (p, [])
  | (rr, cc) :: rest =>
      if negb (inBounds rr cc) then commandLoop p masonSq us canBuild want rest
      else
        let tsq := sq rr cc in
        if want p tsq then
          let '(p1, ms) := considerCommandDest p masonSq us canBuild tsq in
          let '(p2, ms') := commandLoop p1 masonSq us canBuild want rest in
          (p2, ms ++ ms')
        else commandLoop p masonSq us canBuild want rest
  end.

Definition genMasonExtras (p : Position) (masonSq : Z) (us : Color)
  (enemyAttacks : Bitboard81) : Position * list Move :=
  let them := other us in
  let r := row masonSq in
  let c := col masonSq in
  let canBuild := negb (wallBuiltLast p us) in
  let construct :=
    if canBuild && negb (bb_test enemyAttacks masonSq) then
      flat_map (fun d =>
        let rr := r + fst d in
        let cc := c + snd d in
        if negb (inBounds rr cc) then []
        else
          let tsq := sq rr cc in
          if negb (at_ p tsq =? 0) then []
          else [mkMove MasonConstruct masonSq tsq SQ_NONE SQ_NONE]) DIRS4
    else [] in
  let eligible :=
    existsb (fun adj =>
      let v := at_ p adj in
      if negb (isPieceVal v) || negb (color_eqb (colorOf v) us) then false
      else piece_eqb (pieceOf v) Minister) (kingTargets masonSq) in
  if negb eligible then (p, construct)
  else
    let f := forwardOf us in
    let '(p1, orth) :=
      commandLoop p masonSq us canBuild (fun q tsq => at_ q tsq =? 0)
        (map (fun d => (r + fst d, c + snd d)) [(f, 0); (0, -1); (0, 1)]) in
    let '(p2, diag) :=
      commandLoop p1 masonSq us canBuild
        (fun q tsq =>
           let v := at_ q tsq in
           if isWallVal v then false
           else isPieceVal v && color_eqb (colorOf v) them)
        (map (fun dc2 => (r + f, c + dc2)) [-1; 1]) in
    (p2, construct ++ orth ++ diag).

(** Ranged demolish along one ray: pieces block, the first wall is hit. *)
Fixpoint rangedDemolish (p : Position) (catSq : Z) (sqs : list Z) : list Move :=
  match sqs with
  | [] => []
  | tsq :: rest =>
      let v := at_ p tsq in
      if isPieceVal v then []
      else if isWallVal v
           then [mkMove CatapultRangedDemolish catSq tsq SQ_NONE SQ_NONE]
           else rangedDemolish p catSq rest
  end.

(** The walls 8-adjacent to [toSq], in king-table order ([adjWalls]). *)
Definition adjWallsOf (p : Position) (toSq : Z) : list Z :=
  filter (fun adj => isWallVal (at_ p adj)) (kingTargets toSq).

Definition catapultVariants (catSq toSq : Z) (adjWalls : list Z) : list Move :=
  mkMove CatapultMove catSq toSq SQ_NONE SQ_NONE
  :: map (fun w => mkMove CatapultMove catSq toSq w SQ_NONE) adjWalls.

Fixpoint catapultSlide (p : Position) (catSq : Z) (us : Color) (sqs : list Z)
  : list Move :=
  match sqs with
  | [] => []
  | toSq :: rest =>
      let dstV := at_ p toSq in
      if isWallVal dstV then []
      else if isPieceVal dstV then
        if negb (color_eqb (colorOf dstV) us) then
          if piece_eqb (pieceOf dstV) Sovereign
          then [mkMove CatapultMove catSq toSq SQ_NONE SQ_NONE]
          else catapultVariants catSq toSq (adjWallsOf p toSq)
        else []
      else
        let adjWalls := adjWallsOf p toSq in
        (if Z.of_nat (List.length adjWalls) =? 0
         then [mkMove CatapultMove catSq toSq SQ_NONE SQ_NONE]
         else catapultVariants catSq toSq adjWalls)
        ++ catapultSlide p catSq us rest
  end.

Definition genCatapultExtras (p : Position) (catSq : Z) (us : Color) : list Move :=
  flat_map (fun dir => rangedDemolish p catSq (ray catSq dir)) (seq 0 4)
  ++ flat_map (fun dir => catapultSlide p catSq us (ray catSq dir)) (seq 0 4).

(** [for a < ecount: for b in a+1 .. ecount-1] *)
Fixpoint pairsOf (l : list Z) : list (Z * Z) :=
  match l with
  | [] => []
  | a :: t => map (fun b => (a, b)) t ++ pairsOf t
  end.

(** The empties around the Minister's square, the Sovereign's own square
    excluded ([empties], [ecount]). *)
Definition bastionEmpties (p : Position) (sovSq ministerSq : Z) : list Z :=
  filter (fun adj => negb (adj =? sovSq) && (at_ p adj =? 0)) (kingTargets ministerSq).

Definition genBastion (p : Position) (sovSq : Z) (us : Color) : list Move :=
  if wallBuiltLast p us then []
  else if negb (bastionRight p us) then []
  else if 15 <? wallTokens p us then []
  else
    flat_map (fun ministerSq =>
      let v := at_ p ministerSq in
      if negb (isPieceVal v) || negb (color_eqb (colorOf v) us)
         || negb (piece_eqb (pieceOf v) Minister) then []
      else
        let empties := bastionEmpties p sovSq ministerSq in
        if Z.of_nat (List.length empties) <? 2 then []
        else map (fun ab => mkMove Bastion sovSq ministerSq (fst ab) (snd ab))
                 (pairsOf empties)) (kingTargets sovSq).

(** The Mason loop of [generateMoves]; the board is threaded through
    because [genMasonExtras] writes to it. *)
Fixpoint masonLoop (p : Position) (us : Color) (enemyAttacks : Bitboard81)
  (sqs : list Z) : Position * list Move :=
  match sqs with
  | [] => (p, [])
  | s :: rest =>
      let normal := genNormalMovesForPiece p s Mason us in
      let '(p1, extras) := genMasonExtras p s us enemyAttacks in
      let '(p2, more) := masonLoop p1 us enemyAttacks rest in
      (p2, normal ++ extras ++ more)
  end.

Definition generateMoves (p : Position) : Position * list Move :=
  if gameOver p then (p, [])
  else
    let us := turn_ p in
    let them := other us in
    let enemyAttacks := computeAttacks p them in
    let '(p1, masons) :=
      masonLoop p us enemyAttacks (bb_squares (pieceBB p us Mason)) in
    let pegasi :=
      flat_map (fun s => genNormalMovesForPiece p1 s Pegasus us)
               (bb_squares (pieceBB p1 us Pegasus)) in
    let lancers :=
      flat_map (fun s => genNormalMovesForPiece p1 s Lancer us)
               (bb_squares (pieceBB p1 us Lancer)) in
    let catapults :=
      flat_map (fun s => genCatapultExtras p1 s us)
               (bb_squares (pieceBB p1 us Catapult)) in
    let ministers :=
      flat_map (fun s => genNormalMovesForPiece p1 s Minister us)
               (bb_squares (pieceBB p1 us Minister)) in
    let sovereigns :=
      flat_map (fun s => genNormalMovesForPiece p1 s Sovereign us
                           ++ genBastion p1 s us)
               (bb_squares (pieceBB p1 us Sovereign)) in
    (p1, masons ++ pegasi ++ lancers ++ catapults ++ ministers ++ sovereigns).

(** The move list left in [out]. *)
Definition movesOf (p : Position) : list Move := snd (generateMoves p).

(* ===================================================================== *)
(** ** position.cpp: make / undo *)
(* ===================================================================== *)

Definition setWallBuiltLast (c : Color) (v : bool) (p : Position) : Position :=
  if Bool.eqb (getC c (wallBuiltLast_ p)) v then p
  else set_wallBuiltLast (setC c v (wallBuiltLast_ p)) (xorHash (wallBuiltLastKeys c) p).

(** [if (bastionRight_[us]) { hash_ ^= bastionKeys[us]; bastionRight_[us] = false; }] *)
Definition dropBastionRight (us : Color) (p : Position) : Position :=
  if getC us (bastionRight_ p)
  then set_bastionRight (setC us false (bastionRight_ p)) (xorHash (bastionKeys us) p)
  else p.

Definition addWallTokens (c : Color) (hp : Z) (p : Position) : Position :=
  set_wallTokens (setC c (getC c (wallTokens_ p) + hp) (wallTokens_ p)) p.

Definition captureSovereign (m : Move) (us : Color) (toSq srcV : Z)
  (p : Position) (u : Undo) : Position * Undo :=
  let them := other us in
  let u1 := saveSquare p u toSq in
  let u2 := saveSquare p u1 (m_from m) in
  let p1 := setSquareRaw toSq srcV p in
  let p2 := setSquareRaw (m_from m) 0 p1 in
  let p3 :=
    if isPieceVal srcV && piece_eqb (pieceOf srcV) Sovereign
    then dropBastionRight us (set_sovereignSq (setC us toSq (sovereignSq_ p2)) p2)
    else p2 in
  let p4 := set_sovereignSq (setC them SQ_NONE (sovereignSq_ p3)) p3 in
  let p5 := set_halfmove 0 (set_winReason Regicide (set_winner (cidx us) p4)) in
  (setWallBuiltLast us false p5, u2).

(** The common opening of the Normal, MasonCommand and CatapultMove
    cases: save both squares, then move the piece. *)
Definition relocate (m : Move) (srcV : Z) (p : Position) (u : Undo)
  : Position * Undo :=
  let u1 := saveSquare p u (m_from m) in
  let u2 := saveSquare p u1 (m_to m) in
  let p1 := setSquareRaw (m_to m) srcV p in
  let p2 := setSquareRaw (m_from m) 0 p1 in
  (p2, u2).

Definition makeMove (p : Position) (m : Move) : Position * Undo :=
  let p0 := set_history (history_ p ++ [hash_ p]) p in
  let u := mkUndo (turn_ p0) (bastionRight_ p0) (wallBuiltLast_ p0)
             (sovereignSq_ p0) (wallTokens_ p0) (halfmove_ p0) (fullmove_ p0)
             (winner_ p0) (winReason_ p0) [] in
  if gameOver p0 then (p0, u)
  else
    let us := turn_ p0 in
    let them := other us in
    match m_type m with
    | Normal =>
        let srcV := at_ p0 (m_from m) in
        let dstV := at_ p0 (m_to m) in
        let isCap := isPieceVal dstV && color_eqb (colorOf dstV) them in
        if isCap && piece_eqb (pieceOf dstV) Sovereign
        then captureSovereign m us (m_to m) srcV p0 u
        else
          let '(p2, u2) := relocate m srcV p0 u in
          let p3 :=
            if isPieceVal srcV && piece_eqb (pieceOf srcV) Sovereign
            then dropBastionRight us
                   (set_sovereignSq (setC us (m_to m) (sovereignSq_ p2)) p2)
            else p2 in
          let p4 := set_halfmove (if isCap then 0 else halfmove_ p3 + 1) p3 in
          (finalizeTurn (setWallBuiltLast us false p4), u2)
    | MasonConstruct =>
        let hp := if isKeepSq (m_from m) then 2 else 1 in
        let u1 := saveSquare p0 u (m_to m) in
        let p1 := setSquareRaw (m_to m) (makeWall us hp) p0 in
        let p2 := addWallTokens us hp p1 in
        let p3 := set_halfmove 0 p2 in
        (finalizeTurn (setWallBuiltLast us true p3), u1)
    | MasonCommand =>
        let srcV := at_ p0 (m_from m) in
        let dstV := at_ p0 (m_to m) in
        let isCap := isPieceVal dstV && color_eqb (colorOf dstV) them in
        if isCap && piece_eqb (pieceOf dstV) Sovereign
        then captureSovereign m us (m_to m) srcV p0 u
        else
          let '(p2, u2) := relocate m srcV p0 u in
          let '(p3, u3, didWall) :=
            if negb (m_aux1 m =? SQ_NONE) then
              let hp := if isKeepSq (m_to m) then 2 else 1 in
              let u' := saveSquare p2 u2 (m_aux1 m) in
              let p' := setSquareRaw (m_aux1 m) (makeWall us hp) p2 in
              (addWallTokens us hp p', u', true)
            else (p2, u2, false) in
          let p4 := set_halfmove (if isCap || didWall then 0 else halfmove_ p3 + 1) p3 in
          (finalizeTurn (setWallBuiltLast us didWall p4), u3)
    | CatapultRangedDemolish =>
        let u1 := saveSquare p0 u (m_to m) in
        let p1 := hitWall (m_to m) p0 in
        let p2 := set_halfmove 0 p1 in
        (finalizeTurn (setWallBuiltLast us false p2), u1)
    | CatapultMove =>
        let srcV := at_ p0 (m_from m) in
        let dstV := at_ p0 (m_to m) in
        let isCap := isPieceVal dstV && color_eqb (colorOf dstV) them in
        if isCap && piece_eqb (pieceOf dstV) Sovereign
        then captureSovereign m us (m_to m) srcV p0 u
        else
          let '(p2, u2) := relocate m srcV p0 u in
          let '(p3, u3, didDemo) :=
            if negb (m_aux1 m =? SQ_NONE) then
              let u' := saveSquare p2 u2 (m_aux1 m) in
              (hitWall (m_aux1 m) p2, u', true)
            else (p2, u2, false) in
          let p4 := set_halfmove (if isCap || didDemo then 0 else halfmove_ p3 + 1) p3 in
          (finalizeTurn (setWallBuiltLast us false p4), u3)
    | Bastion =>
        let sovV := at_ p0 (m_from m) in
        let minV := at_ p0 (m_to m) in
        let u1 := saveSquare p0 u (m_from m) in
        let u2 := saveSquare p0 u1 (m_to m) in
        let p1 := setSquareRaw (m_to m) sovV p0 in
        let p2 := setSquareRaw (m_from m) minV p1 in
        let p3 := dropBastionRight us
                    (set_sovereignSq (setC us (m_to m) (sovereignSq_ p2)) p2) in
        let u3 := saveSquare p3 u2 (m_aux1 m) in
        let p4 := addWallTokens us 1 (setSquareRaw (m_aux1 m) (makeWall us 1) p3) in
        let u4 := saveSquare p4 u3 (m_aux2 m) in
        let p5 := addWallTokens us 1 (setSquareRaw (m_aux2 m) (makeWall us 1) p4) in
        let p6 := set_halfmove 0 p5 in
        (finalizeTurn (setWallBuiltLast us true p6), u4)
    end.

(** [for (i = 0; i < u.sqCount; ++i) setSquareRaw(u.sq[i], u.prev[i]);] *)
Definition restoreSquares (saved : list (Z * Z)) (p : Position) : Position :=
  fold_left (fun q e => setSquareRaw (fst e) (snd e) q) saved p.

Definition undoMove (p : Position) (u : Undo) : Position :=
  let p1 := restoreSquares (u_saved u) p in
  let p2 :=
    set_winReason (prevWinReason u)
   (set_winner (prevWinner u)
   (set_fullmove (prevFullmove u)
   (set_halfmove (prevHalfmove u)
   (set_wallTokens (prevWallTokens u)
   (set_sovereignSq (prevSovereignSq u)
   (set_wallBuiltLast (prevWallBuiltLast u)
   (set_bastionRight (prevBastionRight u)
   (set_turn (prevTurn u) p1)))))))) in
  match history_ p2 with
  | [] => p2
  | _ :: _ =>
      set_history (removelast (history_ p2))
        (set_hash (last (history_ p2) 0) p2)
  end.

Definition makeNullMove (p : Position) : Position * NullUndo :=
  let u := mkNullUndo (turn_ p) (fullmove_ p) in
  if gameOver p then (p, u)
  else
    let prev := turn_ p in
    let p1 := xorHash turnKey p in
    let p2 := set_turn (other (turn_ p1)) p1 in
    (if color_eqb prev Black then set_fullmove (fullmove_ p2 + 1) p2 else p2, u).


(** [Position::Position()] and [Position::initial()]. *)
Definition emptyPosition : Position :=
  rebuildDerived
    (mkPosition (repeat 0 81) White (mkArr2 true true) (mkArr2 false false)
       (mkArr2 SQ_NONE SQ_NONE) (mkArr2 0 0) 0 1 SQ_NONE WinNone
       (mkArr2 noPieceBoards noPieceBoards) (mkArr2 bb_zero bb_zero)
       (mkArr2 bb_zero bb_zero) (mkArr2 bb_zero bb_zero) 0 []).

Definition backRank : list PieceType :=
  [Catapult; Lancer; Pegasus; Minister; Sovereign; Minister; Pegasus; Lancer; Catapult].

Definition initialBoard : list Z :=
  fold_left (fun b c =>
    let pc := nth (Z.to_nat c) backRank Count in
    upd (upd (upd (upd b (sq 8 c) (makePiece White pc))
                  (sq 7 c) (makePiece White Mason))
             (sq 0 c) (makePiece Black pc))
        (sq 1 c) (makePiece Black Mason))
    (map Z.of_nat (seq 0 9)) (repeat 0 81).

Definition initial : Position :=
  let p := emptyPosition in
  rebuildDerived
    (set_winReason WinNone (set_winner SQ_NONE (set_fullmove 1 (set_halfmove 0
      (set_bastionRight (mkArr2 true true) (set_turn White
        (set_b initialBoard p))))))).

(* ===================================================================== *)
(** * fen.cpp: the textual position format *)
(* ===================================================================== *)

Section Fen.
Local Open Scope string_scope.
Local Open Scope Z_scope.

(** Characters as [unsigned char] codes. *)
Definition code (ch : ascii) : Z := Z.of_nat (nat_of_ascii ch).
Definition chr (n : Z) : ascii := ascii_of_nat (Z.to_nat n).

Definition isUpperCh (ch : ascii) : bool := (65 <=? code ch) && (code ch <=? 90).
Definition isDigitCh (ch : ascii) : bool := (48 <=? code ch) && (code ch <=? 57).
(** [std::isspace] in the C locale. *)
Definition isSpaceCh (ch : ascii) : bool :=
  (code ch =? 32) || ((9 <=? code ch) && (code ch <=? 13)).
Definition toLowerCh (ch : ascii) : ascii :=
  if isUpperCh ch then chr (code ch + 32) else ch.
Definition toUpperCh (ch : ascii) : ascii :=
  if (97 <=? code ch) && (code ch <=? 122) then chr (code ch - 32) else ch.

(** [oss << n] for an [int]: decimal digits, with a sign when negative.
    Ten digits cover every 32-bit value. *)
Fixpoint digitsRev (fuel : nat) (n : Z) : string :=
  match fuel with
  | O => EmptyString
  | S f =>
      if n <? 10 then String (chr (48 + n)) EmptyString
      else String (chr (48 + n mod 10)) (digitsRev f (n / 10))
  end.

Fixpoint revString (s acc : string) : string :=
  match s with
  | EmptyString => acc
  | String ch t => revString t (String ch acc)
  end.

Definition showInt (n : Z) : string :=
  if n <? 0 then String "-"%char (revString (digitsRev 10 (- n)) EmptyString)
  else revString (digitsRev 10 n) EmptyString.

(** The letter of a cell. *)
Definition cellChar (v : Z) : ascii :=
  let ch :=
    if isPieceVal v then
      match pieceOf v with
      | Mason => "M"%char | Catapult => "C"%char | Lancer => "L"%char
      | Pegasus => "P"%char | Minister => "I"%char | Sovereign => "S"%char
      | Count => "?"%char
      end
    else if isWallVal v then (if wallHp v =? 2 then "R"%char else "W"%char)
    else "?"%char in
  if v <? 0 then toLowerCh ch else ch.

(** One rank: the inner loop over files, [empty] counting blanks. *)
Fixpoint fenRank (p : Position) (r : Z) (cols : list Z) (empty : Z) : string :=
  match cols with
  | [] => if negb (empty =? 0) then showInt empty else ""
  | c :: rest =>
      let v := at_ p (sq r c) in
      if v =? 0 then fenRank p r rest (empty + 1)
      else
        (if negb (empty =? 0) then showInt empty else "")
        ++ String (cellChar v) (fenRank p r rest 0)
  end.

Definition files : list Z := map Z.of_nat (seq 0 9).

Definition fenBoard (p : Position) : string :=
  fold_right (fun r acc =>
    fenRank p r files 0 ++ (if negb (r =? N - 1) then "/" else "") ++ acc)
    "" files.

Definition toFEN (p : Position) : string :=
  let rights0 :=
    (if getC White (bastionRight_ p) then "B" else "")
    ++ (if getC Black (bastionRight_ p) then "b" else "") in
  let rights := if (String.length rights0 =? 0)%nat then "-" else rights0 in
  let wallSeq0 :=
    (if wallBuiltLast p White then "w" else "")
    ++ (if wallBuiltLast p Black then "b" else "") in
  let wallSeq := if (String.length wallSeq0 =? 0)%nat then "-" else wallSeq0 in
  fenBoard p ++ " " ++ (if color_eqb (turn_ p) White then "w" else "b") ++ " "
  ++ rights ++ " " ++ wallSeq ++ " " ++ showInt (halfmove_ p) ++ " "
  ++ showInt (fullmove_ p).

(** ** Reading: a string stream is the unread rest, or [None] once an
    extraction has failed. *)
Definition Stream : Type := option string.

Fixpoint skipSpaces (s : string) : string :=
  match s with
  | String ch t => if isSpaceCh ch then skipSpaces t else s
  | EmptyString => s
  end.

Fixpoint takeWord (s : string) : string * string :=
  match s with
  | String ch t =>
      if isSpaceCh ch then (EmptyString, s)
      else let '(w, rest) := takeWord t in (String ch w, rest)
  | EmptyString => (EmptyString, EmptyString)
  end.

(** [iss >> token] *)
Definition readWord (st : Stream) : option string * Stream :=
  match st with
  | None => (None, None)
  | Some s =>
      let '(w, rest) := takeWord (skipSpaces s) in
      match w with
      | EmptyString => (None, None)
      | _ => (Some w, Some rest)
      end
  end.

Fixpoint takeDigits (s : string) (acc : Z) (seen : bool) : Z * bool * string :=
  match s with
  | String ch t =>
      if isDigitCh ch then takeDigits t (acc * 10 + (code ch - 48)) true
      else (acc, seen, s)
  | EmptyString => (acc, seen, s)
  end.

Definition INT_MAX : Z := 2147483647.
Definition INT_MIN : Z := -2147483648.

(** [iss >> n] for an [int]: blanks, an optional sign, digits; a missing
    number or one out of range fails the stream. *)
Definition readInt (st : Stream) : option Z * Stream :=
  match st with
  | None => (None, None)
  | Some s =>
      let s1 := skipSpaces s in
      let '(neg, s2) :=
        match s1 with
        | String "-"%char t => (true, t)
        | String "+"%char t => (false, t)
        | _ => (false, s1)
        end in
      let '(n, seen, rest) := takeDigits s2 0 false in
      let v := if neg : bool then - n else n in
      if negb seen then (None, None)
      else if (v <? INT_MIN) || (INT_MAX <? v) then (None, None)
      else (Some v, Some rest)
  end.

Fixpoint allDigits (s : string) : bool :=
  match s with
  | EmptyString => true
  | String ch t => isDigitCh ch && allDigits t
  end.

(** The lambda [isDigits]. *)
Definition isDigits (s : string) : bool :=
  match s with EmptyString => false | _ => allDigits s end.

(** [std::atoi] on a digit-only token whose value fits an [int]; on a
    longer token [std::atoi] has no defined result, and the value here is
    the unbounded one.  The statements below keep the clocks within
    [0..INT_MAX]. *)
Definition atoiDigits (s : string) : Z := fst (fst (takeDigits s 0 false)).

Fixpoint anyChar (f : ascii -> bool) (s : string) : bool :=
  match s with
  | EmptyString => false
  | String ch t => f ch || anyChar f t
  end.

(** The board loop of [fromFEN]: [(r, c)] is the cursor; [None] is a
    throw. *)
Fixpoint parseBoard (s : string) (b : list Z) (r c : Z) : option (list Z * Z * Z) :=
  match s with
  | EmptyString => Some (b, r, c)
  | String raw t =>
      if (code raw =? 47) then
        if negb (c =? N) then None else parseBoard t b (r + 1) 0
      else if N <=? r then None
      else if (49 <=? code raw) && (code raw <=? 57) then
        let c' := c + (code raw - 48) in
        if N <? c' then None else parseBoard t b r c'
      else
        let isWhite := isUpperCh raw in
        let ch := toUpperCh raw in
        if N <=? c then None
        else
          let col := if isWhite then White else Black in
          let ov :=
            if (code ch =? 77) then Some (makePiece col Mason)
            else if (code ch =? 67) then Some (makePiece col Catapult)
            else if (code ch =? 76) then Some (makePiece col Lancer)
            else if (code ch =? 80) then Some (makePiece col Pegasus)
            else if (code ch =? 73) then Some (makePiece col Minister)
            else if (code ch =? 83) then Some (makePiece col Sovereign)
            else if (code ch =? 87) then Some (makeWall col 1)
            else if (code ch =? 82) then Some (makeWall col 2)
            else None in
          match ov with
          | None => None
          | Some v => parseBoard t (upd b (sq r c) v) r (c + 1)
          end
  end.

Definition headChar (s : string) : option ascii :=
  match s with String ch _ => Some ch | EmptyString => None end.

Definition fromFEN (fen : string) : option Position :=
  let iss : Stream := Some fen in
  let '(oboard, iss1) := readWord iss in
  let '(oturn, iss2) := readWord iss1 in
  match oboard, oturn with
  | Some boardStr, Some turnStr =>
      let '(otok, iss3) := readWord iss2 in
      let '(rightsStr, wallStr, halfmove, fullmove) :=
        match otok with
        | None => ("Bb", "-", 0, 1)
        | Some tok =>
            let '(otok2, iss4) := readWord iss3 in
            match otok2 with
            | None => (tok, "-", 0, 1)
            | Some tok2 =>
                let '(wallStr, halfmove, iss5) :=
                  if isDigits tok2 then ("-", atoiDigits tok2, iss4)
                  else
                    let '(oh, iss5) := readInt iss4 in
                    (tok2, match oh with Some h => h | None => 0 end, iss5) in
                let '(ofull, _) := readInt iss5 in
                (tok, wallStr, halfmove,
                 match ofull with Some f => f | None => 1 end)
            end
        end in
      match headChar turnStr with
      | None => None
      | Some t0 =>
          let t := toLowerCh t0 in
          let oturnC :=
            if code t =? 119 then Some White
            else if code t =? 98 then Some Black
            else None in
          match oturnC with
          | None => None
          | Some turnC =>
              let brW := negb (String.eqb rightsStr "-") && anyChar (fun rc => code rc =? 66) rightsStr in
              let brB := negb (String.eqb rightsStr "-") && anyChar (fun rc => code rc =? 98) rightsStr in
              let wlW := negb (String.eqb wallStr "-")
                         && anyChar (fun rc => code (toLowerCh rc) =? 119) wallStr in
              let wlB := negb (String.eqb wallStr "-")
                         && anyChar (fun rc => code (toLowerCh rc) =? 98) wallStr in
              match parseBoard boardStr (repeat 0%Z 81) 0 0 with
              | None => None
              | Some (b, r, c) =>
                  if negb (r =? N - 1) || negb (c =? N) then None
                  else
                    Some (rebuildDerived
                      (set_fullmove fullmove (set_halfmove halfmove
                        (set_wallBuiltLast (mkArr2 wlW wlB)
                          (set_bastionRight (mkArr2 brW brB)
                            (set_turn turnC
                              (set_winReason WinNone (set_winner SQ_NONE
                                (set_b b emptyPosition)))))))))
              end
          end
      end
  | _, _ => None
  end.
End Fen.

(** A position given by its FEN text (the empty board if it does not parse). *)
Definition positionOf (fen : string) : Position :=
  match fromFEN fen with Some p => p | None => emptyPosition end.

(* ===================================================================== *)
(** * search.cpp: quiescence and negamax *)
(* ===================================================================== *)

Definition INF : Z := 1000000000.
Definition MATE : Z := 100000000.
Definition MAX_PLY : Z := 256.
Definition QS_MAX_DEPTH : nat := 4.

Inductive TTFlag : Type := Exact | Lower | Upper.

Definition flag_eqb (a b : TTFlag) : bool :=
  match a, b with
  | Exact, Exact | Lower, Lower | Upper, Upper => true
  | _, _ => false
  end.

Record TTEntry : Type := mkTTEntry {
  e_key : Z;
  e_score : Z;
  e_depth : Z;
  e_flag : TTFlag;
  e_best : Move
}.

Definition nullMove : Move := mkMove Normal SQ_NONE SQ_NONE SQ_NONE SQ_NONE.

Definition scoreToTT (score ply : Z) : Z :=
  if MATE - 10000 <? score then score + ply
  else if score <? - MATE + 10000 then score - ply
  else score.

Definition scoreFromTT (score ply : Z) : Z :=
  if MATE - 10000 <? score then score - ply
  else if score <? - MATE + 10000 then score + ply
  else score.

Definition mateScore (ply : Z) : Z := MATE - ply.

Definition isNormal (m : Move) : bool :=
  match m_type m with Normal => true | _ => false end.

Definition isQuietMove (pos : Position) (m : Move) : bool :=
  isNormal m && negb (m_to m =? SQ_NONE) && (at_ pos (m_to m) =? 0).

(** [std::popcount] of a [w]-bit word. *)
Definition popcountZ (w : nat) (x : Z) : Z :=
  Z.of_nat (List.length (filter (Z.testbit x) (map Z.of_nat (seq 0 w)))).

Definition popcount (b : Bitboard81) : Z := popcountZ 64 (lo b) + popcountZ 64 (hi b).

Definition pieceCount (pos : Position) (c : Color) (pt : PieceType) : Z :=
  popcount (pieceBB pos c pt).

Definition nonSovPieceCount (pos : Position) (c : Color) : Z :=
  pieceCount pos c Mason + pieceCount pos c Catapult + pieceCount pos c Lancer
  + pieceCount pos c Pegasus + pieceCount pos c Minister.

(** Selection ordering: the index of the first best score among the
    entries after the current one ([bestIdx], [bestSc]). *)
Fixpoint argBest (l : list (Move * Z)) (j bestIdx : nat) (bestSc : Z) : nat :=
  match l with
  | [] => bestIdx
  | (_, s) :: t =>
      if bestSc <? s then argBest t (S j) j s else argBest t (S j) bestIdx bestSc
  end.

Fixpoint setNth {A} (n : nat) (l : list A) (x : A) : list A :=
  match l, n with
  | [], _ => []
  | _ :: t, O => x :: t
  | y :: t, S k => y :: setNth k t x
  end.

(** [std::swap(moves.buf[i], moves.buf[bestIdx])]: the entry searched
    now, and the entries left for the later iterations. *)
Definition selectBest (x : Move * Z) (rest : list (Move * Z))
  : (Move * Z) * list (Move * Z) :=
  match argBest rest 1 0 (snd x) with
  | O => (x, rest)
  | S k => (nth k rest x, setNth k rest x)
  end.

Section Search.

(** The parts of the engine the search is run with: the killer and
    history tables, the limits polled by [shouldStop], the evaluation
    (hand-written or network, the latter with its per-ply accumulators),
    the capture generator and the ordering heuristics, the search's own
    Zobrist key and the table index of a key. *)
Variable Heur : Type.
Variable limitHit : Z -> bool.
Variable useNNUE : bool.
Variable useTT : bool.
Variable evalStm : Position -> Z -> Z.
Variable generateNoisyMoves : Position -> list Move.
Variable moveHeuristic : Position -> Move -> Z.
Variable orderScore : Position -> Move -> Move -> Heur -> Z -> Z.
Variable recordQuietCutoff : Heur -> Move -> Z -> Z -> Heur.
Variable hashAfterMake : Z -> Position -> Undo -> Z.
Variable ttIndex : Z -> Z.
Variable zobristTurn : Z.

(** [SearchContext], with the transposition table. *)
Record SearchContext : Type := mkCtx {
  nodes : Z;
  seldepth : Z;
  aborted : bool;
  TT : Z -> TTEntry;
  heur : Heur
}.

Definition set_aborted (v : bool) (ctx : SearchContext) : SearchContext :=
  mkCtx (nodes ctx) (seldepth ctx) v (TT ctx) (heur ctx).
Definition set_TT (v : Z -> TTEntry) (ctx : SearchContext) : SearchContext :=
  mkCtx (nodes ctx) (seldepth ctx) (aborted ctx) v (heur ctx).
Definition set_heur (v : Heur) (ctx : SearchContext) : SearchContext :=
  mkCtx (nodes ctx) (seldepth ctx) (aborted ctx) (TT ctx) v.

Definition shouldStop (ctx : SearchContext) : bool * SearchContext :=
  if aborted ctx then (true, ctx)
  else if negb (Z.land (nodes ctx) 2047 =? 0) then (false, ctx)
  else if limitHit (nodes ctx) then (true, set_aborted true ctx)
  else (false, ctx).

(** [++ctx.nodes; if (ply > ctx.seldepth) ctx.seldepth = ply;] *)
Definition enterNode (ctx : SearchContext) (ply : Z) : SearchContext :=
  mkCtx (nodes ctx + 1) (if seldepth ctx <? ply then ply else seldepth ctx)
        (aborted ctx) (TT ctx) (heur ctx).

Definition ttSlot (ctx : SearchContext) (key : Z) : TTEntry := TT ctx (ttIndex key).

(** The position is passed by reference; [undoMove] puts it back after
    each child, so every iteration works on [pos]. *)
Fixpoint qLoop
  (child : Position -> Z -> Z -> SearchContext -> Z -> Z -> Z * SearchContext)
  (n : nat) (l : list (Move * Z)) (pos : Position) (alpha beta : Z)
  (ctx : SearchContext) (ply key : Z) : Z * SearchContext :=
  match n, l with
  | S n', x :: rest =>
      let '(ms, rest') := selectBest x rest in
      let m := fst ms in
      let '(pos1, u) := makeMove pos m in
      let key1 := hashAfterMake key pos1 u in
      let '(score, ctx1) :=
        if gameOver pos1 then (mateScore (ply + 1), ctx)
        else
          let '(v, c) := child pos1 (- beta) (- alpha) ctx (ply + 1) key1 in
          (- v, c) in
      if aborted ctx1 then (0, ctx1)
      else if beta <=? score then (beta, ctx1)
      else qLoop child n' rest' pos (if alpha <? score then score else alpha)
                 beta ctx1 ply key
  | _, _ => (alpha, ctx)
  end.

Fixpoint quiescence (qDepth : nat) (pos : Position) (alpha beta : Z)
  (ctx : SearchContext) (ply key : Z) : Z * SearchContext :=
  let ctx1 := enterNode ctx ply in
  let '(stop, ctx2) := shouldStop ctx1 in
  if stop then (0, ctx2)
  else if gameOver pos then (mateScore ply, ctx2)
  else if MAX_PLY <=? ply then (evalStm pos ply, ctx2)
  else
    let claim := (0 <? ply) && isRepetition pos in
    let alpha1 := if claim && (alpha <? 0) then 0 else alpha in
    if claim && (beta <=? alpha1) then (alpha1, ctx2)
    else
      let stand := evalStm pos ply in
      if beta <=? stand then (beta, ctx2)
      else
        let alpha2 := if alpha1 <? stand then stand else alpha1 in
        match qDepth with
        | O => (alpha2, ctx2)
        | S qd =>
            match generateNoisyMoves pos with
            | [] => (alpha2, ctx2)
            | moves =>
                let scored := map (fun m => (m, moveHeuristic pos m)) moves in
                qLoop (quiescence qd) (List.length scored) scored pos alpha2 beta
                      ctx2 ply key
            end
        end.

(** How the move loop of [negamax] ends. *)
Inductive LoopOut : Type :=
| LoopAborted (ctx : SearchContext)
| LoopDone (best : Z) (bestMove : Move) (ctx : SearchContext).

Definition negate (r : option (Z * SearchContext)) : option (Z * SearchContext) :=
  match r with Some (v, c) => Some (- v, c) | None => None end.

(** The score of one move: principal-variation search with late-move
    reductions and the two re-searches. *)
Definition searchMove
  (child : Position -> Z -> Z -> Z -> SearchContext -> Z -> Z -> bool
           -> option (Z * SearchContext))
  (pos1 : Position) (i depth alpha beta : Z) (quiet : bool)
  (ctx : SearchContext) (ply key1 : Z) (pvNode : bool)
  : option (Z * SearchContext) :=
  if gameOver pos1 then Some (mateScore (ply + 1), ctx)
  else
    let newDepth := depth - 1 in
    if pvNode && (i =? 0) then
      negate (child pos1 newDepth (- beta) (- alpha) ctx (ply + 1) key1 true)
    else
      let doLMR := negb pvNode && quiet && (3 <=? depth) && (4 <=? i) in
      let searchDepth :=
        if doLMR then
          let r := 1 + (if 8 <=? i then 1 else 0) + (if 6 <=? depth then 1 else 0) in
          if newDepth - r <? 1 then 1 else newDepth - r
        else newDepth in
      match negate (child pos1 searchDepth (- (alpha + 1)) (- alpha) ctx
                          (ply + 1) key1 false) with
      | None => None
      | Some (s1, c1) =>
          if aborted c1 then Some (s1, c1)
          else if alpha <? s1 then
            match (if doLMR && negb (searchDepth =? newDepth)
                   then negate (child pos1 newDepth (- (alpha + 1)) (- alpha) c1
                                      (ply + 1) key1 false)
                   else Some (s1, c1)) with
            | None => None
            | Some (s2, c2) =>
                if (alpha <? s2) && (s2 <? beta)
                then negate (child pos1 newDepth (- beta) (- alpha) c2
                                   (ply + 1) key1 true)
                else Some (s2, c2)
            end
          else Some (s1, c1)
      end.

Fixpoint nLoop
  (child : Position -> Z -> Z -> Z -> SearchContext -> Z -> Z -> bool
           -> option (Z * SearchContext))
  (n : nat) (l : list (Move * Z)) (i : Z) (pos : Position)
  (depth alpha beta best : Z) (bestMove : Move) (ctx : SearchContext)
  (ply key : Z) (pvNode : bool) : option LoopOut :=
  match n, l with
  | S n', x :: rest =>
      let '(ms, rest') := selectBest x rest in
      let m := fst ms in
      let quiet := isQuietMove pos m in
      if negb pvNode && (depth =? 1) && quiet
         && (evalStm pos ply + (if useNNUE then 340 else 220) <=? alpha)
      then nLoop child n' rest' (i + 1) pos depth alpha beta best bestMove ctx
                 ply key pvNode
      else if negb pvNode && (depth =? 2) && quiet
              && ((if useNNUE then 32 else 20) <=? i)
              && (evalStm pos ply + (if useNNUE then 200 else 140) <=? alpha)
      then nLoop child n' rest' (i + 1) pos depth alpha beta best bestMove ctx
                 ply key pvNode
      else
        let '(pos1, u) := makeMove pos m in
        let key1 := hashAfterMake key pos1 u in
        match searchMove child pos1 i depth alpha beta quiet ctx ply key1 pvNode with
        | None => None
        | Some (score, ctx1) =>
            if aborted ctx1 then Some (LoopAborted ctx1)
            else
              let best' := if best <? score then score else best in
              let bestMove' := if best <? score then m else bestMove in
              let alpha' := if alpha <? best' then best' else alpha in
              if beta <=? alpha' then
                Some (LoopDone best' bestMove'
                        (if quiet
                         then set_heur (recordQuietCutoff (heur ctx1) m ply depth) ctx1
                         else ctx1))
              else nLoop child n' rest' (i + 1) pos depth alpha' beta best' bestMove'
                         ctx1 ply key pvNode
        end
  | _, _ => Some (LoopDone best bestMove ctx)
  end.

(** [if (ctx.useTT) { ... }] at the end of [negamax]. *)
Definition storeTT (ctx : SearchContext) (key depth alphaOrig beta best ply : Z)
  (bestMove : Move) : SearchContext :=
  if useTT then
    let out := ttSlot ctx key in
    let flag := if best <=? alphaOrig then Upper
                else if beta <=? best then Lower else Exact in
    if (e_key out =? 0) || (e_key out =? key) || (e_depth out <=? depth) then
      set_TT (fun k => if k =? ttIndex key
                       then mkTTEntry key (scoreToTT best ply) depth flag bestMove
                       else TT ctx k) ctx
    else ctx
  else ctx.

(** The transposition-table probe: the score to return at once, if any. *)
Definition probeTT (ctx : SearchContext) (key depth alpha beta ply : Z)
  (canClaimDraw : bool) : option Z :=
  let e := ttSlot ctx key in
  if useTT && (e_key e =? key) && (depth <=? e_depth e) then
    let ttScore0 := scoreFromTT (e_score e) ply in
    let ttScore := if canClaimDraw && (ttScore0 <? 0) then 0 else ttScore0 in
    if flag_eqb (e_flag e) Exact && (negb canClaimDraw || negb (ttScore =? 0))
    then Some ttScore
    else if flag_eqb (e_flag e) Lower && (beta <=? ttScore) then Some ttScore
    else if flag_eqb (e_flag e) Upper && (ttScore <=? alpha) then Some ttScore
    else None
  else None.

Fixpoint negamax (fuel : nat) (pos : Position) (depth alpha beta : Z)
  (ctx : SearchContext) (ply key : Z) (pvNode : bool)
  : option (Z * SearchContext) :=
  let canClaimDraw := (0 <? ply) && isRepetition pos in
  if depth <=? 0 then
    let '(q, ctx1) := quiescence QS_MAX_DEPTH pos alpha beta ctx ply key in
    Some ((if canClaimDraw then Z.max 0 q else q), ctx1)
  else
    match fuel with
    | O => None
    | S f =>
        let ctx1 := enterNode ctx ply in
        let '(stop, ctx2) := shouldStop ctx1 in
        if stop then Some (0, ctx2)
        else if gameOver pos then Some (mateScore ply, ctx2)
        else if MAX_PLY <=? ply then Some (evalStm pos ply, ctx2)
        else
          let alphaOrig := alpha in
          let best := if canClaimDraw then 0 else - INF in
          let alpha1 := if canClaimDraw && (alpha <? best) then best else alpha in
          if canClaimDraw && (beta <=? alpha1) then Some (best, ctx2)
          else
            let alpha2 := Z.max alpha1 (- MATE + ply) in
            let beta2 := Z.min beta (MATE - ply - 1) in
            if beta2 <=? alpha2 then Some (alpha2, ctx2)
            else
              let e := ttSlot ctx2 key in
              let ttBest := if useTT && (e_key e =? key) then e_best e else nullMove in
              match probeTT ctx2 key depth alpha2 beta2 ply canClaimDraw with
              | Some s => Some (s, ctx2)
              | None =>
                  let ev := evalStm pos ply in
                  if negb pvNode && (depth <=? 2) && negb useNNUE
                     && (ev + (220 + (depth - 1) * 180) <=? alpha2)
                  then Some (quiescence QS_MAX_DEPTH pos alpha2 beta2 ctx2 ply key)
                  else if negb pvNode && (depth <=? 2) && negb useNNUE
                          && (beta2 <=? ev - (160 + depth * 120))
                  then Some (ev, ctx2)
                  else
                    let nullOut :=
                      if negb pvNode && ((if useNNUE then 4 else 3) <=? depth)
                         && (0 <? ply)
                         && ((if useNNUE then 4 else 3)
                             <=? nonSovPieceCount pos (turn_ pos))
                      then
                        let R := if useNNUE
                                 then 1 + (if 7 <=? depth then 1 else 0)
                                 else 2 + (if 6 <=? depth then 1 else 0) in
                        let '(posN, nu) := makeNullMove pos in
                        let nullKey := Z.lxor key zobristTurn in
                        match negate (negamax f posN (depth - 1 - R) (- beta2)
                                        (- (beta2 - 1)) ctx2 (ply + 1) nullKey false) with
                        | None => None
                        | Some (score, ctx3) =>
                            if aborted ctx3 then Some (Some 0, ctx3)
                            else if beta2 <=? score then Some (Some beta2, ctx3)
                            else Some (None, ctx3)
                        end
                      else Some (None, ctx2) in
                    match nullOut with
                    | None => None
                    | Some (Some s, ctx3) => Some (s, ctx3)
                    | Some (None, ctx3) =>
                        match movesOf pos with
                        | [] => Some (ev, ctx3)
                        | m0 :: _ as moves =>
                            let scored :=
                              map (fun m => (m, orderScore pos m ttBest (heur ctx3) ply))
                                  moves in
                            match nLoop (negamax f) (List.length scored) scored 0 pos
                                        depth alpha2 beta2 best m0 ctx3 ply key pvNode with
                            | None => None
                            | Some (LoopAborted ctx4) => Some (0, ctx4)
                            | Some (LoopDone best' bestMove ctx4) =>
                                Some (best',
                                      storeTT ctx4 key depth alphaOrig beta2 best' ply
                                              bestMove)
                            end
                        end
                    end
              end
    end.

End Search.

Arguments nodes {Heur}.
Arguments seldepth {Heur}.
Arguments aborted {Heur}.
Arguments TT {Heur}.
Arguments heur {Heur}.
Arguments LoopAborted {Heur}.
Arguments LoopDone {Heur}.
Arguments negate {Heur}.

(* ===================================================================== *)
(** * move.cpp: coordinates and actions as text *)
(* ===================================================================== *)

Section MoveText.
Local Open Scope string_scope.
Local Open Scope Z_scope.

(** [static_cast<char>(n)] as a character code. *)
Definition toChar (n : Z) : ascii := chr (n mod 256).

Definition coordToString (s : Z) : string :=
  if s =? SQ_NONE then "--"
  else
    let r := row s in
    let c := col s in
    let file := toChar (65 + c) in
    let rank := toChar (48 + (N - r)) in
    String file (String rank "").

Fixpoint lastCh (s : string) : option ascii :=
  match s with
  | EmptyString => None
  | String ch EmptyString => Some ch
  | String _ t => lastCh t
  end.

Fixpoint dropLast (s : string) : string :=
  match s with
  | EmptyString => EmptyString
  | String _ EmptyString => EmptyString
  | String ch t => String ch (dropLast t)
  end.

(** [while (!sv.empty() && isspace(sv.back())) sv.remove_suffix(1);] *)
Fixpoint trimBack (fuel : nat) (sv : string) : string :=
  match fuel with
  | O => sv
  | S f =>
      match lastCh sv with
      | Some ch => if isSpaceCh ch then trimBack f (dropLast sv) else sv
      | None => sv
      end
  end.

(** The comparisons on [char] give the same verdict for a signed and an
    unsigned [char]: a code above 127 is rejected either way. *)
Definition parseCoord (sv : string) : option Z :=
  let sv1 := skipSpaces sv in
  let sv2 := trimBack (String.length sv1) sv1 in
  match sv2 with
  | String a (String b EmptyString) =>
      let f0 := toUpperCh a in
      let r0 := b in
      if (code f0 <? 65) || (65 + N <=? code f0) then None
      else if (code r0 <? 49) || (57 <? code r0) then None
      else
        let c := code f0 - 65 in
        let rank := code r0 - 48 in
        let r := N - rank in
        if negb (inBounds r c) then None else Some (sq r c)
  | _ => None
  end.

Definition moveToString (m : Move) : string :=
  match m_type m with
  | Normal => coordToString (m_from m) ++ coordToString (m_to m)
  | MasonConstruct =>
      "con " ++ coordToString (m_from m) ++ "@" ++ coordToString (m_to m)
  | MasonCommand =>
      let s := "cmd " ++ coordToString (m_from m) ++ coordToString (m_to m) in
      if negb (m_aux1 m =? SQ_NONE) then s ++ "@" ++ coordToString (m_aux1 m) else s
  | CatapultMove =>
      let s := "cat " ++ coordToString (m_from m) ++ coordToString (m_to m) in
      if negb (m_aux1 m =? SQ_NONE) then s ++ "x" ++ coordToString (m_aux1 m) else s
  | CatapultRangedDemolish =>
      "rd " ++ coordToString (m_from m) ++ "x" ++ coordToString (m_to m)
  | Bastion =>
      "bas " ++ coordToString (m_from m) ++ "<>" ++ coordToString (m_to m)
      ++ "@" ++ coordToString (m_aux1 m) ++ "," ++ coordToString (m_aux2 m)
  end.

(** [s.erase(std::remove(s.begin(), s.end(), ' '), s.end())] *)
Fixpoint removeBlanks (s : string) : string :=
  match s with
  | EmptyString => EmptyString
  | String ch t => if code ch =? 32 then removeBlanks t else String ch (removeBlanks t)
  end.

Definition moveToPgnToken (m : Move) : string := removeBlanks (moveToString m).

End MoveText.

(* ===================================================================== *)
(** * perft.cpp: counting the leaves of the game tree *)
(* ===================================================================== *)

(** Addition on [uint64_t]. *)
Definition add64 (a b : Z) : Z := (a + b) mod W64.

(** [perft(pos, depth)], with the position it leaves; [n] is the depth
    when positive, and 0 stands for every [depth <= 0].  The move list
    holds at most 4096 entries, so [moves.size] is its length. *)
Fixpoint perftAt (n : nat) (pos : Position) : Z * Position :=
  match n with
  | O => (1, pos)
  | S n' =>
      let '(pos0, moves) := generateMoves pos in
      match moves with
      | [] => (0, pos0)
      | _ :: _ =>
          match n' with
          | O => (Z.of_nat (List.length moves), pos0)
          | S _ =>
              fold_left (fun (acc : Z * Position) m =>
                let '(nodes, p) := acc in
                let '(p1, u) := makeMove p m in
                let '(c, p2) := perftAt n' p1 in
                (add64 nodes c, undoMove p2 u)) moves (0, pos0)
          end
      end
  end.

Definition perft (pos : Position) (depth : Z) : Z * Position :=
  perftAt (Z.to_nat depth) pos.

(** [perftDivide(pos, depth)]: the count below each action, in list
    order, and the position left. *)
Definition perftDivide (pos : Position) (depth : Z)
  : list (Move * Z) * Position :=
  if depth <=? 0 then ([], pos)
  else
    let '(pos0, moves) := generateMoves pos in
    fold_left (fun (acc : list (Move * Z) * Position) m =>
      let '(out, p) := acc in
      let '(p1, u) := makeMove p m in
      let '(n, p2) := perft p1 (depth - 1) in
      (out ++ [(m, n)], undoMove p2 u)) moves ([], pos0).

(* ===================================================================== *)
(** ** search.cpp: the Zobrist keys of the search *)
(* ===================================================================== *)

(** [struct ZobristKeys]: sixteen keys per square (six pieces and two wall
    strengths per colour), the turn key and the four flag keys. *)
Record ZobristKeys : Type := mkZobristKeys {
  z_sq : Z -> Z -> Z;
  z_turn : Z;
  z_bastionW : Z;
  z_bastionB : Z;
  z_wallBuiltW : Z;
  z_wallBuiltB : Z
}.

(** The values [buildZobrist] draws, in order, from seed [0xC1ADEC1]. *)
Definition searchKeySeq : list Z :=
  Eval vm_compute in splitmixSeq 1301 0xC1ADEC1.

Definition buildZobrist : ZobristKeys :=
  mkZobristKeys
    (fun s i => nth (Z.to_nat (s * 16 + i)) searchKeySeq 0)
    (nth 1296 searchKeySeq 0)
    (nth 1297 searchKeySeq 0)
    (nth 1298 searchKeySeq 0)
    (nth 1299 searchKeySeq 0)
    (nth 1300 searchKeySeq 0).

Definition zobrist : ZobristKeys := buildZobrist.

Definition zobristIndex (v : Z) : Z :=
  let isWhite := 0 <? v in
  let av := if v <? 0 then - v else v in
  let base := if isWhite then 0 else 8 in
  if (1 <=? av) && (av <=? 6) then base + (av - 1)
  else base + 6 + (av - 7).

Definition hashPosition (pos : Position) : Z :=
  let h :=
    fold_left (fun h s =>
      let v := at_ pos s in
      if v =? 0 then h
      else Z.lxor h (z_sq zobrist s (zobristIndex v))) allSquares 0 in
  let h := if color_eqb (turn_ pos) Black then Z.lxor h (z_turn zobrist) else h in
  let h := if bastionRight pos White then Z.lxor h (z_bastionW zobrist) else h in
  let h := if bastionRight pos Black then Z.lxor h (z_bastionB zobrist) else h in
  let h := if wallBuiltLast pos White then Z.lxor h (z_wallBuiltW zobrist) else h in
  if wallBuiltLast pos Black then Z.lxor h (z_wallBuiltB zobrist) else h.

(** The key of the position after a move, from the key before it, the
    position after it and the undo record of the move. *)
Definition hashAfterMake (h : Z) (pos : Position) (u : Undo) : Z :=
  let h :=
    fold_left (fun h e =>
      let s := fst e in
      let oldV := snd e in
      let newV := at_ pos s in
      let h := if negb (oldV =? 0)
               then Z.lxor h (z_sq zobrist s (zobristIndex oldV)) else h in
      if negb (newV =? 0)
      then Z.lxor h (z_sq zobrist s (zobristIndex newV)) else h)
      (u_saved u) h in
  let h := if negb (color_eqb (prevTurn u) (turn_ pos))
           then Z.lxor h (z_turn zobrist) else h in
  let h := if negb (Bool.eqb (getC White (prevBastionRight u))
                             (bastionRight pos White))
           then Z.lxor h (z_bastionW zobrist) else h in
  let h := if negb (Bool.eqb (getC Black (prevBastionRight u))
                             (bastionRight pos Black))
           then Z.lxor h (z_bastionB zobrist) else h in
  let h := if negb (Bool.eqb (getC White (prevWallBuiltLast u))
                             (wallBuiltLast pos White))
           then Z.lxor h (z_wallBuiltW zobrist) else h in
  if negb (Bool.eqb (getC Black (prevWallBuiltLast u))
                    (wallBuiltLast pos Black))
  then Z.lxor h (z_wallBuiltB zobrist) else h.

(* ===================================================================== *)
(** * citadel_cli.cpp: move tokens *)
(* ===================================================================== *)

Section CliTokens.
Local Open Scope string_scope.
Local Open Scope Z_scope.

(** Drops white space and lowers every other character. *)
Fixpoint normalizeToken (sv : string) : string :=
  match sv with
  | EmptyString => EmptyString
  | String ch t =>
      if isSpaceCh ch then normalizeToken t
      else String (toLowerCh ch) (normalizeToken t)
  end.

Definition moveToUciToken (m : Move) : string :=
  normalizeToken (moveToString m).

Definition uciBestmoveToken (m : Move) : string :=
  if m_to m =? SQ_NONE then "0000" else moveToUciToken m.

(** [parseMoveToken(pos, tok)]: the first listed action written like
    [tok], looked up first by its UCI token and then by its PGN token;
    with the position [generateMoves] leaves. *)
Definition parseMoveToken (pos : Position) (tok : string)
  : option Move * Position :=
  let want := normalizeToken tok in
  match want with
  | EmptyString => (None, pos)
  | String _ _ =>
      let '(pos1, moves) := generateMoves pos in
      match find (fun m => String.eqb (moveToUciToken m) want) moves with
      | Some m => (Some m, pos1)
      | None =>
          match find (fun m =>
                  String.eqb (normalizeToken (moveToPgnToken m)) want) moves with
          | Some m => (Some m, pos1)
          | None => (None, pos1)
          end
      end
  end.

End CliTokens.

(* ===================================================================== *)
(** * Basic facts: cells, two-element arrays, cell values *)
(* ===================================================================== *)

Lemma updNat_length b i v : List.length (updNat b i v) = List.length b.
Proof.
  revert i; induction b as [|x t IH]; intros [|j]; simpl; auto.
Qed.

Lemma nth_updNat_eq b i v :
  (i < List.length b)%nat -> nth i (updNat b i v) 0 = v.
Proof.
  revert i; induction b as [|x t IH]; intros [|j] H; simpl in *; try lia; auto.
  apply IH; lia.
Qed.

Lemma nth_updNat_ne b i j v :
  i <> j -> nth j (updNat b i v) 0 = nth j b 0.
Proof.
  revert i j; induction b as [|x t IH]; intros [|i] [|j] H; simpl; auto;
    try congruence.
Qed.

Lemma updNat_same b i : updNat b i (nth i b 0) = b.
Proof.
  revert i; induction b as [|x t IH]; intros [|j]; simpl; auto.
  f_equal; apply IH.
Qed.

Lemma updNat_twice b i v w : updNat (updNat b i v) i w = updNat b i w.
Proof.
  revert i; induction b as [|x t IH]; intros [|j]; simpl; auto.
  f_equal; apply IH.
Qed.

Lemma updNat_swap b i j v w :
  i <> j -> updNat (updNat b i v) j w = updNat (updNat b j w) i v.
Proof.
  revert i j; induction b as [|x t IH]; intros [|i] [|j] H; simpl; auto;
    try congruence.
  f_equal; apply IH; congruence.
Qed.

Lemma upd_length b s v : List.length (upd b s v) = List.length b.
Proof. apply updNat_length. Qed.

Lemma cell_upd_eq b s v :
  0 <= s < Z.of_nat (List.length b) -> cell (upd b s v) s = v.
Proof. intros H; apply nth_updNat_eq; lia. Qed.

Lemma cell_upd_ne b s t v :
  0 <= s -> 0 <= t -> s <> t -> cell (upd b s v) t = cell b t.
Proof. intros Hs Ht H; apply nth_updNat_ne; lia. Qed.

Lemma upd_same b s : upd b s (cell b s) = b.
Proof. apply updNat_same. Qed.

Lemma upd_twice b s v w : upd (upd b s v) s w = upd b s w.
Proof. apply updNat_twice. Qed.

Lemma upd_swap b s t v w :
  0 <= s -> 0 <= t -> s <> t -> upd (upd b s v) t w = upd (upd b t w) s v.
Proof. intros Hs Ht H; apply updNat_swap; lia. Qed.

Lemma cell_upd b s t v :
  0 <= s < Z.of_nat (List.length b) -> 0 <= t ->
  cell (upd b s v) t = if t =? s then v else cell b t.
Proof.
  intros Hs Ht. destruct (Z.eqb_spec t s) as [->|Hne].
  - now apply cell_upd_eq.
  - apply cell_upd_ne; lia.
Qed.

Lemma getC_setC_eq {A} (c : Color) (v : A) a : getC c (setC c v a) = v.
Proof. now destruct c. Qed.

Lemma getC_setC_ne {A} (c d : Color) (v : A) a :
  c <> d -> getC d (setC c v a) = getC d a.
Proof. destruct c, d; simpl; congruence. Qed.

Lemma getC_setC_other {A} (c : Color) (v : A) a :
  getC (other c) (setC c v a) = getC (other c) a.
Proof. now destruct c. Qed.

Lemma setC_getC {A} (c : Color) (a : Arr2 A) : setC c (getC c a) a = a.
Proof. destruct c, a; reflexivity. Qed.

Lemma Arr2_ext {A} (a b : Arr2 A) :
  (forall c, getC c a = getC c b) -> a = b.
Proof.
  intros H. destruct a as [x y], b as [x' y'].
  generalize (H White), (H Black); simpl; congruence.
Qed.

Lemma color_eqb_eq a b : color_eqb a b = true <-> a = b.
Proof. destruct a, b; simpl; split; congruence. Qed.


Lemma color_eqb_other a : color_eqb a (other a) = false.
Proof. now destruct a. Qed.

Lemma color_eqb_neq a b : color_eqb a b = false <-> a <> b.
Proof. destruct a, b; simpl; split; congruence. Qed.

Lemma piece_eqb_eq a b : piece_eqb a b = true <-> a = b.
Proof. destruct a, b; simpl; split; congruence. Qed.

Lemma other_neq c : other c <> c.
Proof. destruct c; discriminate. Qed.

Lemma other_involutive c : other (other c) = c.
Proof. now destruct c. Qed.

(** Cell values the engine writes: empty, six pieces and two wall
    strengths per colour. *)
Definition validVal (v : Z) : Prop := -8 <= v <= 8.

Lemma validVal_cases v :
  validVal v ->
  v = -8 \/ v = -7 \/ v = -6 \/ v = -5 \/ v = -4 \/ v = -3 \/ v = -2 \/ v = -1 \/
  v = 0 \/ v = 1 \/ v = 2 \/ v = 3 \/ v = 4 \/ v = 5 \/ v = 6 \/ v = 7 \/ v = 8.
Proof. unfold validVal; lia. Qed.

Ltac case_val v H :=
  let E := fresh "E" in
  destruct (validVal_cases v H) as
    [E|[E|[E|[E|[E|[E|[E|[E|[E|[E|[E|[E|[E|[E|[E|[E|E]]]]]]]]]]]]]]]];
  subst v.

Definition validBoard (b : list Z) : Prop :=
  List.length b = 81%nat /\ forall s, 0 <= s < 81 -> validVal (cell b s).

Lemma validBoard_upd b s v :
  validBoard b -> 0 <= s < 81 -> validVal v -> validBoard (upd b s v).
Proof.
  intros [Hl Hv] Hs Hval; split.
  - now rewrite upd_length.
  - intros t Ht. rewrite cell_upd by lia.
    destruct (t =? s); auto.
Qed.

Lemma makePiece_valid c pt : validVal (makePiece c pt).
Proof. destruct c, pt; unfold validVal; simpl; lia. Qed.

Lemma makeWall_valid c hp : 1 <= hp <= 2 -> validVal (makeWall c hp).
Proof. destruct c; unfold validVal, makeWall; lia. Qed.

(* ===================================================================== *)
(** * The 81-bit board: bit-level facts *)
(* ===================================================================== *)

Lemma land_shiftr_1 x s :
  0 <= s -> negb (Z.land (Z.shiftr x s) 1 =? 0) = Z.testbit x s.
Proof.
  intros Hs.
  change 1 with (Z.ones 1) at 1. rewrite Z.land_ones by lia.
  rewrite <- (Z.add_0_l s) at 2.
  rewrite <- Z.shiftr_spec by lia.
  change (2 ^ 1) with 2.
  pose proof (Z.bit0_mod (Z.shiftr x s)) as H.
  destruct (Z.testbit (Z.shiftr x s) 0); simpl in H; rewrite <- H; reflexivity.
Qed.

Lemma testbit_one_shift s n :
  0 <= s -> 0 <= n -> Z.testbit (Z.shiftl 1 s) n = (n =? s).
Proof.
  intros Hs Hn. rewrite Z.shiftl_1_l, Z.pow2_bits_eqb by lia.
  apply Z.eqb_sym.
Qed.

(** No bit outside the 64 + 17 used ones. *)
Definition wfBB (b : Bitboard81) : Prop :=
  (forall n, 64 <= n -> Z.testbit (lo b) n = false) /\
  (forall n, 17 <= n -> Z.testbit (hi b) n = false).

Lemma wfBB_zero : wfBB bb_zero.
Proof. split; intros; apply Z.bits_0. Qed.

Lemma bb_test_lo b s : 0 <= s < 64 -> bb_test b s = Z.testbit (lo b) s.
Proof.
  intros H. unfold bb_test, SQ_NONE.
  destruct (Z.eqb_spec s 255); [lia|].
  destruct (Z.ltb_spec s 64); [|lia].
  apply land_shiftr_1; lia.
Qed.

Lemma bb_test_hi b s : 64 <= s < 81 -> bb_test b s = Z.testbit (hi b) (s - 64).
Proof.
  intros H. unfold bb_test, SQ_NONE.
  destruct (Z.eqb_spec s 255); [lia|].
  destruct (Z.ltb_spec s 64); [lia|].
  apply land_shiftr_1; lia.
Qed.

Lemma bb_ext a b :
  wfBB a -> wfBB b ->
  (forall s, 0 <= s < 81 -> bb_test a s = bb_test b s) -> a = b.
Proof.
  intros [Ha1 Ha2] [Hb1 Hb2] H. destruct a as [la ha], b as [lb hb]; simpl in *.
  f_equal; apply Z.bits_inj'; intros n Hn.
  - destruct (Z.lt_ge_cases n 64).
    + generalize (H n ltac:(lia)). now rewrite !bb_test_lo by lia.
    + now rewrite Ha1, Hb1.
  - destruct (Z.lt_ge_cases n 17).
    + generalize (H (n + 64) ltac:(lia)). rewrite !bb_test_hi by lia.
      simpl. now replace (n + 64 - 64) with n by lia.
    + now rewrite Ha2, Hb2.
Qed.

Lemma bb_test_set b s t :
  0 <= s < 81 -> 0 <= t < 81 ->
  bb_test (bb_set s b) t = (t =? s) || bb_test b t.
Proof.
  intros Hs Ht. unfold bb_set, SQ_NONE.
  destruct (Z.eqb_spec s 255); [lia|].
  destruct (Z.ltb_spec s 64), (Z.lt_ge_cases t 64).
  - rewrite !bb_test_lo by lia. simpl.
    rewrite Z.lor_spec, testbit_one_shift by lia. apply orb_comm.
  - rewrite !bb_test_hi by lia. simpl.
    destruct (Z.eqb_spec t s); [lia|reflexivity].
  - rewrite !bb_test_lo by lia. simpl.
    destruct (Z.eqb_spec t s); [lia|reflexivity].
  - rewrite !bb_test_hi by lia. simpl.
    rewrite Z.lor_spec, testbit_one_shift by lia.
    rewrite orb_comm. f_equal.
    destruct (Z.eqb_spec (t - 64) (s - 64)), (Z.eqb_spec t s); auto; lia.
Qed.

Lemma bb_test_reset b s t :
  0 <= s < 81 -> 0 <= t < 81 ->
  bb_test (bb_reset s b) t = negb (t =? s) && bb_test b t.
Proof.
  intros Hs Ht. unfold bb_reset, SQ_NONE.
  destruct (Z.eqb_spec s 255); [lia|].
  destruct (Z.ltb_spec s 64), (Z.lt_ge_cases t 64).
  - rewrite !bb_test_lo by lia. simpl.
    rewrite Z.land_spec, Z.lnot_spec, testbit_one_shift by lia. apply andb_comm.
  - rewrite !bb_test_hi by lia. simpl.
    destruct (Z.eqb_spec t s); [lia|reflexivity].
  - rewrite !bb_test_lo by lia. simpl.
    destruct (Z.eqb_spec t s); [lia|reflexivity].
  - rewrite !bb_test_hi by lia. simpl.
    rewrite Z.land_spec, Z.lnot_spec, testbit_one_shift by lia.
    rewrite andb_comm. f_equal.
    destruct (Z.eqb_spec (t - 64) (s - 64)), (Z.eqb_spec t s); auto; lia.
Qed.

Lemma wfBB_set b s : 0 <= s < 81 -> wfBB b -> wfBB (bb_set s b).
Proof.
  intros Hs [H1 H2]. unfold bb_set, SQ_NONE.
  destruct (Z.eqb_spec s 255); [lia|].
  destruct (Z.ltb_spec s 64); split; simpl; auto; intros k Hk.
  - rewrite Z.lor_spec, H1, testbit_one_shift by lia.
    destruct (Z.eqb_spec k s); auto; lia.
  - rewrite Z.lor_spec, H2, testbit_one_shift by lia.
    destruct (Z.eqb_spec k (s - 64)); auto; lia.
Qed.

Lemma wfBB_reset b s : 0 <= s < 81 -> wfBB b -> wfBB (bb_reset s b).
Proof.
  intros Hs [H1 H2]. unfold bb_reset, SQ_NONE.
  destruct (Z.eqb_spec s 255); [lia|].
  destruct (Z.ltb_spec s 64); split; simpl; auto; intros k Hk.
  - now rewrite Z.land_spec, H1 by lia.
  - now rewrite Z.land_spec, H2 by lia.
Qed.

(* ===================================================================== *)
(** * [setSquareRaw] as "remove the old feature, write, add the new one" *)
(* ===================================================================== *)

Definition dropFeature (s old : Z) (p : Position) : Position :=
  if negb (old =? 0) then
    if isPieceVal old then
      xorHash (pieceKeys (colorOf old) (pieceOf old) s)
        (bbResetPiece (colorOf old) (pieceOf old) s p)
    else if isWallVal old then
      xorHash (wallKeys (colorOf old) (wallHp old - 1) s)
        (bbResetWall (colorOf old) (wallHp old) s p)
    else p
  else p.

Definition addFeature (s v : Z) (p : Position) : Position :=
  if negb (v =? 0) then
    if isPieceVal v then
      xorHash (pieceKeys (colorOf v) (pieceOf v) s)
        (bbSetPiece (colorOf v) (pieceOf v) s p)
    else if isWallVal v then
      xorHash (wallKeys (colorOf v) (wallHp v - 1) s)
        (bbSetWall (colorOf v) (wallHp v) s p)
    else p
  else p.

(** The Zobrist key of cell content [v] on square [s]; [0] for empty. *)
Definition featKey (s v : Z) : Z :=
  if v =? 0 then 0
  else if isPieceVal v then pieceKeys (colorOf v) (pieceOf v) s
  else if isWallVal v then wallKeys (colorOf v) (wallHp v - 1) s
  else 0.

Definition fPieces (c : Color) (v : Z) : bool :=
  isPieceVal v && color_eqb (colorOf v) c.
Definition fWalls (c : Color) (v : Z) : bool :=
  isWallVal v && color_eqb (colorOf v) c.
Definition fReinf (c : Color) (v : Z) : bool :=
  isWallVal v && color_eqb (colorOf v) c && (wallHp v =? 2).

(** Fields no square write touches. *)
Definition globalsOf (p : Position) :=
  (turn_ p, bastionRight_ p, wallBuiltLast_ p, sovereignSq_ p, wallTokens_ p,
   halfmove_ p, fullmove_ p, winner_ p, winReason_ p, history_ p).

Lemma dropFeature_b s old p : b_ (dropFeature s old p) = b_ p.
Proof.
  unfold dropFeature, bbResetWall.
  repeat match goal with |- context [if ?c then _ else _] => destruct c end;
    reflexivity.
Qed.

Lemma addFeature_b s v p : b_ (addFeature s v p) = b_ p.
Proof.
  unfold addFeature, bbSetWall.
  repeat match goal with |- context [if ?c then _ else _] => destruct c end;
    reflexivity.
Qed.

Lemma dropFeature_globals s old p : globalsOf (dropFeature s old p) = globalsOf p.
Proof.
  unfold dropFeature, bbResetWall.
  repeat match goal with |- context [if ?c then _ else _] => destruct c end;
    reflexivity.
Qed.

Lemma addFeature_globals s v p : globalsOf (addFeature s v p) = globalsOf p.
Proof.
  unfold addFeature, bbSetWall.
  repeat match goal with |- context [if ?c then _ else _] => destruct c end;
    reflexivity.
Qed.

Lemma setSquareRaw_eq s v p :
  setSquareRaw s v p =
  if at_ p s =? v then p
  else addFeature s v (set_b (upd (b_ p) s v) (dropFeature s (at_ p s) p)).
Proof.
  unfold setSquareRaw. destruct (at_ p s =? v); [reflexivity|].
  fold (dropFeature s (at_ p s) p). rewrite dropFeature_b. reflexivity.
Qed.

Lemma setSquareRaw_b s v p : b_ (setSquareRaw s v p) = upd (b_ p) s v.
Proof.
  rewrite setSquareRaw_eq. destruct (Z.eqb_spec (at_ p s) v) as [E|E].
  - rewrite <- E. symmetry. apply upd_same.
  - now rewrite addFeature_b.
Qed.

Lemma setSquareRaw_globals s v p : globalsOf (setSquareRaw s v p) = globalsOf p.
Proof.
  rewrite setSquareRaw_eq. destruct (at_ p s =? v); [reflexivity|].
  rewrite addFeature_globals. unfold globalsOf; simpl.
  apply (dropFeature_globals s (at_ p s) p).
Qed.

Lemma dropFeature_hash s old p :
  hash_ (dropFeature s old p) = Z.lxor (hash_ p) (featKey s old).
Proof.
  unfold dropFeature, featKey, bbResetWall.
  destruct (old =? 0); simpl; [now rewrite Z.lxor_0_r|].
  repeat match goal with |- context [if ?c then _ else _] => destruct c end;
    simpl; auto using Z.lxor_0_r.
Qed.

Lemma addFeature_hash s v p :
  hash_ (addFeature s v p) = Z.lxor (hash_ p) (featKey s v).
Proof.
  unfold addFeature, featKey, bbSetWall.
  destruct (v =? 0); simpl; [now rewrite Z.lxor_0_r|].
  repeat match goal with |- context [if ?c then _ else _] => destruct c end;
    simpl; auto using Z.lxor_0_r.
Qed.

Lemma setSquareRaw_hash s v p :
  hash_ (setSquareRaw s v p) =
  Z.lxor (Z.lxor (hash_ p) (featKey s (at_ p s))) (featKey s v).
Proof.
  rewrite setSquareRaw_eq. destruct (Z.eqb_spec (at_ p s) v) as [E|E].
  - rewrite E, Z.lxor_assoc, Z.lxor_nilpotent, Z.lxor_0_r. reflexivity.
  - rewrite addFeature_hash. simpl. now rewrite dropFeature_hash.
Qed.

(* ===================================================================== *)
(** * The bitboards mirror the board *)
(* ===================================================================== *)

(** [bb] marks exactly the squares whose cell satisfies [f]. *)
Definition BBrep (b : list Z) (bb : Bitboard81) (f : Z -> bool) : Prop :=
  wfBB bb /\ forall s, 0 <= s < 81 -> bb_test bb s = f (cell b s).

Definition BoardsOK (p : Position) : Prop :=
  forall c,
    (forall pt, BBrep (b_ p) (pieceBB p c pt) (isPieceOf c pt)) /\
    BBrep (b_ p) (getC c (piecesBB_ p)) (fPieces c) /\
    BBrep (b_ p) (getC c (wallsBB_ p)) (fWalls c) /\
    BBrep (b_ p) (getC c (wallsReinfBB_ p)) (fReinf c).

(** The class invariant of [Position]: 81 valid cells, bitboards in step. *)
Definition WF (p : Position) : Prop := validBoard (b_ p) /\ BoardsOK p.

Lemma BBrep_inj b bb bb' f : BBrep b bb f -> BBrep b bb' f -> bb = bb'.
Proof.
  intros [W1 H1] [W2 H2]. apply bb_ext; auto.
  intros s Hs. now rewrite H1, H2.
Qed.

Definition condReset (c : bool) (s : Z) (bb : Bitboard81) : Bitboard81 :=
  if c then bb_reset s bb else bb.
Definition condSet (c : bool) (s : Z) (bb : Bitboard81) : Bitboard81 :=
  if c then bb_set s bb else bb.

Lemma BBrep_write b bb f s v :
  List.length b = 81%nat -> 0 <= s < 81 ->
  BBrep b bb f ->
  BBrep (upd b s v) (condSet (f v) s (condReset (f (cell b s)) s bb)) f.
Proof.
  intros Hl Hs [W H]. split.
  - unfold condSet, condReset.
    destruct (f v), (f (cell b s)); auto using wfBB_set, wfBB_reset.
  - intros t Ht. rewrite cell_upd by lia.
    unfold condSet, condReset.
    destruct (Z.eqb_spec t s) as [->|Hne].
    + destruct (f v) eqn:Ev; destruct (f (cell b s)) eqn:Eo;
        rewrite ?bb_test_set, ?bb_test_reset, ?Z.eqb_refl by lia; simpl; auto.
      rewrite H by lia. now rewrite Eo.
    + assert ((t =? s) = false) as E by now apply Z.eqb_neq.
      destruct (f v), (f (cell b s));
        rewrite ?bb_test_set, ?bb_test_reset, ?E by lia; simpl; auto.
Qed.

Lemma isPieceOf_Count c v : validVal v -> isPieceOf c Count v = false.
Proof. intros H. case_val v H; destruct c; reflexivity. Qed.

(** What removing and adding a feature does to each board. *)
Lemma dropFeature_pieceBB s old p c pt :
  validVal old ->
  pieceBB (dropFeature s old p) c pt
  = condReset (isPieceOf c pt old) s (pieceBB p c pt).
Proof. intros H. case_val old H; destruct c, pt; reflexivity. Qed.

Lemma dropFeature_piecesBB s old p c :
  validVal old ->
  getC c (piecesBB_ (dropFeature s old p))
  = condReset (fPieces c old) s (getC c (piecesBB_ p)).
Proof. intros H. case_val old H; destruct c; reflexivity. Qed.

Lemma dropFeature_wallsBB s old p c :
  validVal old ->
  getC c (wallsBB_ (dropFeature s old p))
  = condReset (fWalls c old) s (getC c (wallsBB_ p)).
Proof. intros H. case_val old H; destruct c; reflexivity. Qed.

Lemma dropFeature_wallsReinfBB s old p c :
  validVal old ->
  getC c (wallsReinfBB_ (dropFeature s old p))
  = condReset (fReinf c old) s (getC c (wallsReinfBB_ p)).
Proof. intros H. case_val old H; destruct c; reflexivity. Qed.

Lemma addFeature_pieceBB s v p c pt :
  validVal v ->
  pieceBB (addFeature s v p) c pt
  = condSet (isPieceOf c pt v) s (pieceBB p c pt).
Proof. intros H. case_val v H; destruct c, pt; reflexivity. Qed.

Lemma addFeature_piecesBB s v p c :
  validVal v ->
  getC c (piecesBB_ (addFeature s v p))
  = condSet (fPieces c v) s (getC c (piecesBB_ p)).
Proof. intros H. case_val v H; destruct c; reflexivity. Qed.

Lemma addFeature_wallsBB s v p c :
  validVal v ->
  getC c (wallsBB_ (addFeature s v p))
  = condSet (fWalls c v) s (getC c (wallsBB_ p)).
Proof. intros H. case_val v H; destruct c; reflexivity. Qed.

Lemma addFeature_wallsReinfBB s v p c :
  validVal v ->
  getC c (wallsReinfBB_ (addFeature s v p))
  = condSet (fReinf c v) s (getC c (wallsReinfBB_ p)).
Proof. intros H. case_val v H; destruct c; reflexivity. Qed.

Lemma at_valid p s : validBoard (b_ p) -> 0 <= s < 81 -> validVal (at_ p s).
Proof. intros [_ H] Hs. now apply H. Qed.

Lemma at_valid_any p s : validBoard (b_ p) -> validVal (at_ p s).
Proof.
  intros [Hl H]. destruct (Z_lt_ge_dec s 0); [|destruct (Z_lt_ge_dec s 81)].
  - unfold at_, cell. replace (Z.to_nat s) with O by lia.
    apply (H 0); lia.
  - apply H; lia.
  - unfold at_, cell. rewrite nth_overflow by lia. unfold validVal; lia.
Qed.

Lemma setSquareRaw_BoardsOK s v p :
  WF p -> 0 <= s < 81 -> validVal v -> BoardsOK (setSquareRaw s v p).
Proof.
  intros [[Hl Hb] Hok] Hs Hv.
  assert (Hold : validVal (at_ p s)) by now apply Hb.
  rewrite setSquareRaw_eq. destruct (at_ p s =? v); [assumption|].
  intros c. destruct (Hok c) as (H1 & H2 & H3 & H4).
  rewrite addFeature_b. simpl.
  split; [intros pt|split; [|split]].
  - rewrite addFeature_pieceBB by assumption.
    change (pieceBB (set_b (upd (b_ p) s v) (dropFeature s (at_ p s) p)) c pt)
      with (pieceBB (dropFeature s (at_ p s) p) c pt).
    rewrite dropFeature_pieceBB by assumption.
    apply BBrep_write; auto.
  - rewrite addFeature_piecesBB by assumption. simpl.
    rewrite dropFeature_piecesBB by assumption.
    apply BBrep_write; auto.
  - rewrite addFeature_wallsBB by assumption. simpl.
    rewrite dropFeature_wallsBB by assumption.
    apply BBrep_write; auto.
  - rewrite addFeature_wallsReinfBB by assumption. simpl.
    rewrite dropFeature_wallsReinfBB by assumption.
    apply BBrep_write; auto.
Qed.

Lemma setSquareRaw_WF s v p :
  WF p -> 0 <= s < 81 -> validVal v -> WF (setSquareRaw s v p).
Proof.
  intros H Hs Hv. split.
  - rewrite setSquareRaw_b. apply validBoard_upd; auto. apply H.
  - now apply setSquareRaw_BoardsOK.
Qed.

(* ===================================================================== *)
(** * Sums over the board and what a full rebuild computes *)
(* ===================================================================== *)

Lemma some_inj {A} (a b : A) : Some a = Some b -> a = b.
Proof. intros H. now injection H. Qed.

Lemma pair_inj {A B} (a c : A) (b d : B) : (a, b) = (c, d) -> a = c /\ b = d.
Proof. intros H. now injection H. Qed.

Lemma allSquares_In s : In s allSquares <-> 0 <= s < 81.
Proof.
  unfold allSquares. rewrite in_map_iff. split.
  - intros (k & <- & Hk). apply in_seq in Hk. lia.
  - intros H. exists (Z.to_nat s). split; [lia|]. apply in_seq. lia.
Qed.

Lemma allSquares_NoDup : NoDup allSquares.
Proof.
  unfold allSquares. apply NoDup_map_NoDup_ForallPairs.
  - intros x y _ _ H. lia.
  - apply seq_NoDup.
Qed.

Section CellFold.
Variable op : Z -> Z -> Z.
Variable inv : Z -> Z.
Hypothesis op_assoc : forall a b c, op (op a b) c = op a (op b c).
Hypothesis op_comm : forall a b, op a b = op b a.
Hypothesis op_inv : forall a b, op (op a b) (inv b) = a.
Variable g : Z -> Z -> Z.

Definition cellFold (b : list Z) (l : list Z) (init : Z) : Z :=
  fold_left (fun acc t => op acc (g t (cell b t))) l init.

Lemma cellFold_shift b l init x :
  cellFold b l (op init x) = op (cellFold b l init) x.
Proof.
  revert init; induction l as [|t l IH]; intros init; simpl; auto.
  rewrite <- IH. f_equal.
  rewrite !op_assoc. f_equal. apply op_comm.
Qed.

Lemma cellFold_upd_notin b l init s v :
  0 <= s -> (forall t, In t l -> 0 <= t) -> ~ In s l ->
  cellFold (upd b s v) l init = cellFold b l init.
Proof.
  intros Hs. revert init; induction l as [|t l IH]; intros init Hl Hn; simpl; auto.
  rewrite cell_upd_ne.
  - apply IH; [intros; apply Hl; now right | intros F; apply Hn; now right].
  - assumption.
  - apply Hl; now left.
  - intros ->. apply Hn. now left.
Qed.

Lemma cellFold_upd_in b l init s v :
  0 <= s < Z.of_nat (List.length b) ->
  (forall t, In t l -> 0 <= t) -> NoDup l -> In s l ->
  cellFold (upd b s v) l init
  = op (op (cellFold b l init) (inv (g s (cell b s)))) (g s v).
Proof.
  intros Hs. revert init; induction l as [|t l IH]; intros init Hl Hnd Hin.
  - destruct Hin.
  - inversion Hnd as [|? ? Hnot Hnd']; subst. simpl.
    destruct Hin as [->|Hin].
    + rewrite cell_upd_eq by assumption.
      rewrite cellFold_upd_notin; [|lia|intros; apply Hl; now right|assumption].
      rewrite !cellFold_shift, op_inv. reflexivity.
    + rewrite cell_upd_ne; [|lia|apply Hl; now left|intros ->; contradiction].
      apply IH; auto. intros; apply Hl; now right.
Qed.
End CellFold.

Arguments cellFold : simpl never.

Lemma lxor_cancel a b : Z.lxor (Z.lxor a b) b = a.
Proof. now rewrite Z.lxor_assoc, Z.lxor_nilpotent, Z.lxor_0_r. Qed.

(** The XOR of the keys of all occupied squares. *)
Definition boardHash (b : list Z) : Z := cellFold Z.lxor featKey b allSquares 0.

Definition hpOf (c : Color) (v : Z) : Z := if fWalls c v then wallHp v else 0.

(** The HP sum over colour [c]'s walls. *)
Definition boardTokens (c : Color) (b : list Z) : Z :=
  cellFold Z.add (fun _ v => hpOf c v) b allSquares 0.

(** The last square holding colour [c]'s Sovereign, or [SQ_NONE]. *)
Definition boardSov (c : Color) (b : list Z) : Z :=
  fold_left (fun acc s => if isPieceOf c Sovereign (cell b s) then s else acc)
    allSquares SQ_NONE.

Arguments boardHash : simpl never.
Arguments boardTokens : simpl never.
Arguments boardSov : simpl never.

Lemma boardHash_upd b s v :
  List.length b = 81%nat -> 0 <= s < 81 ->
  boardHash (upd b s v)
  = Z.lxor (Z.lxor (boardHash b) (featKey s (cell b s))) (featKey s v).
Proof.
  intros Hl Hs. unfold boardHash.
  apply (cellFold_upd_in Z.lxor (fun x => x)).
  - apply Z.lxor_assoc.
  - apply Z.lxor_comm.
  - apply lxor_cancel.
  - lia.
  - intros t Ht. apply allSquares_In in Ht. lia.
  - apply allSquares_NoDup.
  - now apply allSquares_In.
Qed.

Lemma boardTokens_upd c b s v :
  List.length b = 81%nat -> 0 <= s < 81 ->
  boardTokens c (upd b s v) = boardTokens c b - hpOf c (cell b s) + hpOf c v.
Proof.
  intros Hl Hs. unfold boardTokens.
  pose proof (cellFold_upd_in Z.add Z.opp
                ltac:(intros; lia) ltac:(intros; lia) ltac:(intros; lia)) as H.
  rewrite H.
  - cbv beta. lia.
  - lia.
  - intros t Ht. apply allSquares_In in Ht. lia.
  - apply allSquares_NoDup.
  - now apply allSquares_In.
Qed.

(** The Sovereign of colour [c] is on [k] and nowhere else; [k] is
    [SQ_NONE] when there is none. *)
Definition SovAt (b : list Z) (c : Color) (k : Z) : Prop :=
  (k = SQ_NONE /\ forall s, 0 <= s < 81 -> isPieceOf c Sovereign (cell b s) = false)
  \/ (0 <= k < 81 /\ isPieceOf c Sovereign (cell b k) = true /\
      forall s, 0 <= s < 81 -> isPieceOf c Sovereign (cell b s) = true -> s = k).

Lemma sovFold_none (f : Z -> bool) l init :
  (forall s, In s l -> f s = false) ->
  fold_left (fun acc s => if f s then s else acc) l init = init.
Proof.
  revert init; induction l as [|t l IH]; intros init H; simpl; auto.
  rewrite (H t) by now left. apply IH. intros; apply H; now right.
Qed.

Lemma sovFold_unique (f : Z -> bool) l init k :
  In k l -> f k = true -> (forall s, In s l -> f s = true -> s = k) ->
  fold_left (fun acc s => if f s then s else acc) l init = k.
Proof.
  revert init; induction l as [|t l IH]; intros init Hin Hk Hu; [destruct Hin|].
  simpl. destruct (f t) eqn:Et.
  - assert (t = k) as -> by (apply Hu; [now left|assumption]).
    destruct (in_dec Z.eq_dec k l) as [Hi|Hi].
    + apply IH; auto. intros; apply Hu; auto. now right.
    + apply sovFold_none. intros s Hs.
      destruct (f s) eqn:Es; auto.
      assert (s = k) by (apply Hu; [now right|assumption]). subst. contradiction.
  - destruct Hin as [->|Hin]; [congruence|].
    apply IH; auto. intros; apply Hu; auto. now right.
Qed.

Lemma SovAt_boardSov b c k : SovAt b c k -> boardSov c b = k.
Proof.
  unfold boardSov. intros [[-> H]|(Hk & Hsov & Hu)].
  - apply sovFold_none. intros s Hs. apply H. now apply allSquares_In.
  - apply (sovFold_unique (fun s => isPieceOf c Sovereign (cell b s))); auto.
    + now apply allSquares_In.
    + intros s Hs. apply Hu. now apply allSquares_In.
Qed.

Lemma SovAt_fun b c k k' : SovAt b c k -> SovAt b c k' -> k = k'.
Proof.
  intros H H'. apply SovAt_boardSov in H, H'. congruence.
Qed.

(** ** One round of the rebuild loop, field by field *)

Definition flagsOf (p : Position) :=
  (turn_ p, bastionRight_ p, wallBuiltLast_ p, halfmove_ p, fullmove_ p,
   winner_ p, winReason_ p, history_ p).

Ltac all_ifs :=
  repeat match goal with |- context [if ?c then _ else _] => destruct c end.

Lemma rebuildStep_b p s : b_ (rebuildStep p s) = b_ p.
Proof. unfold rebuildStep. all_ifs; reflexivity. Qed.

Lemma rebuildStep_flags p s : flagsOf (rebuildStep p s) = flagsOf p.
Proof. unfold rebuildStep. all_ifs; reflexivity. Qed.

Lemma rebuildStep_hash p s :
  hash_ (rebuildStep p s) = Z.lxor (hash_ p) (featKey s (at_ p s)).
Proof.
  unfold rebuildStep, featKey.
  destruct (at_ p s =? 0); simpl; [now rewrite Z.lxor_0_r|].
  all_ifs; simpl; auto using Z.lxor_0_r.
Qed.

Lemma rebuildStep_tokens p s c :
  validVal (at_ p s) ->
  wallTokens (rebuildStep p s) c = wallTokens p c + hpOf c (at_ p s).
Proof.
  unfold rebuildStep. generalize (at_ p s). intros v H.
  unfold wallTokens.
  case_val v H; destruct c; simpl;
    repeat match goal with
    | |- context [hpOf ?c ?v] =>
        let x := eval vm_compute in (hpOf c v) in change (hpOf c v) with x
    | |- context [wallHp ?v] =>
        let x := eval vm_compute in (wallHp v) in change (wallHp v) with x
    end; lia.
Qed.

Lemma rebuildStep_sov p s c :
  validVal (at_ p s) ->
  sovereignSq (rebuildStep p s) c
  = if isPieceOf c Sovereign (at_ p s) then s else sovereignSq p c.
Proof.
  unfold rebuildStep. generalize (at_ p s). intros v H.
  case_val v H; destruct c; reflexivity.
Qed.

Lemma rebuildStep_pieceBB p s c pt :
  validVal (at_ p s) ->
  pieceBB (rebuildStep p s) c pt
  = condSet (isPieceOf c pt (at_ p s)) s (pieceBB p c pt).
Proof.
  unfold rebuildStep. generalize (at_ p s). intros v H.
  case_val v H; destruct c, pt; reflexivity.
Qed.

Lemma rebuildStep_piecesBB p s c :
  validVal (at_ p s) ->
  getC c (piecesBB_ (rebuildStep p s))
  = condSet (fPieces c (at_ p s)) s (getC c (piecesBB_ p)).
Proof.
  unfold rebuildStep. generalize (at_ p s). intros v H.
  case_val v H; destruct c; reflexivity.
Qed.

Lemma rebuildStep_wallsBB p s c :
  validVal (at_ p s) ->
  getC c (wallsBB_ (rebuildStep p s))
  = condSet (fWalls c (at_ p s)) s (getC c (wallsBB_ p)).
Proof.
  unfold rebuildStep. generalize (at_ p s). intros v H.
  case_val v H; destruct c; reflexivity.
Qed.

Lemma rebuildStep_wallsReinfBB p s c :
  validVal (at_ p s) ->
  getC c (wallsReinfBB_ (rebuildStep p s))
  = condSet (fReinf c (at_ p s)) s (getC c (wallsReinfBB_ p)).
Proof.
  unfold rebuildStep. generalize (at_ p s). intros v H.
  case_val v H; destruct c; reflexivity.
Qed.

(** The board a fold of [condSet] builds. *)
Definition markFold (b : list Z) (f : Z -> bool) (l : list Z) (bb : Bitboard81) :=
  fold_left (fun acc s => condSet (f (cell b s)) s acc) l bb.

Lemma markFold_wf b f l bb :
  (forall s, In s l -> 0 <= s < 81) -> wfBB bb -> wfBB (markFold b f l bb).
Proof.
  revert bb; induction l as [|t l IH]; intros bb Hl W; simpl; auto.
  apply IH; [intros; apply Hl; now right|].
  unfold condSet. destruct (f (cell b t)); auto.
  apply wfBB_set; auto. apply Hl; now left.
Qed.

Lemma markFold_test b f l bb t :
  (forall s, In s l -> 0 <= s < 81) -> 0 <= t < 81 ->
  bb_test (markFold b f l bb) t
  = bb_test bb t || (existsb (fun s => s =? t) l && f (cell b t)).
Proof.
  intros Hl Ht. revert bb; induction l as [|x l IH]; intros bb; simpl.
  - now rewrite orb_false_r.
  - rewrite IH by (intros; apply Hl; now right).
    assert (0 <= x < 81) by (apply Hl; now left).
    unfold condSet. destruct (Z.eqb_spec x t) as [->|Hne].
    + destruct (f (cell b t)).
      * rewrite bb_test_set, Z.eqb_refl by lia. simpl.
        now rewrite orb_true_r.
      * simpl. now rewrite andb_false_r.
    + destruct (f (cell b x)); simpl; auto.
      rewrite bb_test_set by lia.
      destruct (Z.eqb_spec t x); [congruence|reflexivity].
Qed.

Lemma markFold_rep b f :
  BBrep b (markFold b f allSquares bb_zero) f.
Proof.
  split.
  - apply markFold_wf; [apply allSquares_In | apply wfBB_zero].
  - intros t Ht. rewrite markFold_test; auto; [|apply allSquares_In].
    assert (E : existsb (fun s => s =? t) allSquares = true).
    { apply existsb_exists. exists t. split; [now apply allSquares_In|apply Z.eqb_refl]. }
    rewrite E. simpl.
    replace (bb_test bb_zero t) with false; [reflexivity|].
    symmetry. destruct (Z.lt_ge_cases t 64).
    + rewrite bb_test_lo by lia. apply Z.bits_0.
    + rewrite bb_test_hi by lia. apply Z.bits_0.
Qed.

(** The state after the rebuild loop has run over [l]. *)
Lemma rebuildFold l : forall p,
  validBoard (b_ p) -> (forall s, In s l -> 0 <= s < 81) ->
  let r := fold_left rebuildStep l p in
  b_ r = b_ p /\ flagsOf r = flagsOf p /\
  hash_ r = cellFold Z.lxor featKey (b_ p) l (hash_ p) /\
  (forall c, wallTokens r c
             = cellFold Z.add (fun _ v => hpOf c v) (b_ p) l (wallTokens p c)) /\
  (forall c, sovereignSq r c
             = fold_left (fun acc s =>
                 if isPieceOf c Sovereign (cell (b_ p) s) then s else acc)
                 l (sovereignSq p c)) /\
  (forall c pt, pieceBB r c pt
                = markFold (b_ p) (isPieceOf c pt) l (pieceBB p c pt)) /\
  (forall c, getC c (piecesBB_ r)
             = markFold (b_ p) (fPieces c) l (getC c (piecesBB_ p))) /\
  (forall c, getC c (wallsBB_ r)
             = markFold (b_ p) (fWalls c) l (getC c (wallsBB_ p))) /\
  (forall c, getC c (wallsReinfBB_ r)
             = markFold (b_ p) (fReinf c) l (getC c (wallsReinfBB_ p))).
Proof.
  induction l as [|t l IH]; intros p Hb Hl; simpl.
  - repeat split; reflexivity.
  - assert (Ht : 0 <= t < 81) by (apply Hl; now left).
    assert (Hv : validVal (at_ p t)) by now apply at_valid.
    destruct (IH (rebuildStep p t)) as (B & F & H & T & S & P1 & P2 & P3 & P4).
    { now rewrite rebuildStep_b. }
    { intros; apply Hl; now right. }
    rewrite rebuildStep_b in *.
    repeat split.
    + exact B.
    + now rewrite F, rebuildStep_flags.
    + now rewrite H, rebuildStep_hash.
    + intros c. now rewrite T, rebuildStep_tokens.
    + intros c. now rewrite S, rebuildStep_sov.
    + intros c pt. now rewrite P1, rebuildStep_pieceBB.
    + intros c. now rewrite P2, rebuildStep_piecesBB.
    + intros c. now rewrite P3, rebuildStep_wallsBB.
    + intros c. now rewrite P4, rebuildStep_wallsReinfBB.
Qed.

(** ** Two positions with the same fields are the same position *)

Lemma position_ext p q :
  b_ p = b_ q -> flagsOf p = flagsOf q ->
  sovereignSq_ p = sovereignSq_ q -> wallTokens_ p = wallTokens_ q ->
  pieceBB_ p = pieceBB_ q -> piecesBB_ p = piecesBB_ q ->
  wallsBB_ p = wallsBB_ q -> wallsReinfBB_ p = wallsReinfBB_ q ->
  hash_ p = hash_ q -> p = q.
Proof.
  destruct p, q; unfold flagsOf; simpl.
  intros -> E -> -> -> -> -> -> ->. now inversion E; subst.
Qed.

Lemma PieceBoards_ext (a b : PieceBoards) :
  (forall pt, getP pt a = getP pt b) -> a = b.
Proof.
  intros H. destruct a, b.
  generalize (H Mason), (H Catapult), (H Lancer), (H Pegasus), (H Minister),
    (H Sovereign); simpl; congruence.
Qed.

Lemma BoardsOK_ext p q :
  BoardsOK p -> BoardsOK q -> b_ p = b_ q ->
  pieceBB_ p = pieceBB_ q /\ piecesBB_ p = piecesBB_ q /\
  wallsBB_ p = wallsBB_ q /\ wallsReinfBB_ p = wallsReinfBB_ q.
Proof.
  intros Hp Hq E.
  repeat split; apply Arr2_ext; intros c;
    destruct (Hp c) as (P1 & P2 & P3 & P4); destruct (Hq c) as (Q1 & Q2 & Q3 & Q4);
    rewrite <- E in *.
  - apply PieceBoards_ext. intros pt.
    apply (BBrep_inj _ _ _ _ (P1 pt) (Q1 pt)).
  - eapply BBrep_inj; eauto.
  - eapply BBrep_inj; eauto.
  - eapply BBrep_inj; eauto.
Qed.

(** Equal boards, flags, counters and hash, with bitboards in step on both
    sides: equal positions. *)
Lemma WF_position_ext p q :
  WF p -> WF q -> b_ p = b_ q -> globalsOf p = globalsOf q ->
  hash_ p = hash_ q -> p = q.
Proof.
  intros [_ Hp] [_ Hq] Eb Eg Eh.
  destruct (BoardsOK_ext p q Hp Hq Eb) as (E1 & E2 & E3 & E4).
  unfold globalsOf in Eg. inversion Eg.
  apply position_ext; auto. unfold flagsOf. congruence.
Qed.

(** ** What [rebuildDerived] computes *)

Definition flagsHash (p : Position) : Z :=
  let h1 := if color_eqb (turn_ p) Black then Z.lxor 0 turnKey else 0 in
  let h2 := if getC White (bastionRight_ p) then Z.lxor h1 (bastionKeys White) else h1 in
  let h3 := if getC White (wallBuiltLast_ p) then Z.lxor h2 (wallBuiltLastKeys White) else h2 in
  let h4 := if getC Black (bastionRight_ p) then Z.lxor h3 (bastionKeys Black) else h3 in
  if getC Black (wallBuiltLast_ p) then Z.lxor h4 (wallBuiltLastKeys Black) else h4.

Lemma rebuildDerived_spec p :
  validBoard (b_ p) ->
  let r := rebuildDerived p in
  b_ r = b_ p /\ flagsOf r = flagsOf p /\
  hash_ r = Z.lxor (boardHash (b_ p)) (flagsHash p) /\
  (forall c, wallTokens r c = boardTokens c (b_ p)) /\
  (forall c, sovereignSq r c = boardSov c (b_ p)) /\
  BoardsOK r.
Proof.
  intros Hb. unfold rebuildDerived.
  match goal with |- context [fold_left rebuildStep allSquares ?q] =>
    set (p0 := q) end.
  destruct (rebuildFold allSquares p0 Hb (fun s H => proj1 (allSquares_In s) H))
    as (B & F & H & T & S & P1 & P2 & P3 & P4).
  assert (Eh : hash_ p0 = flagsHash p) by reflexivity.
  assert (Et : forall c, wallTokens p0 c = 0) by (intros []; reflexivity).
  assert (Es : forall c, sovereignSq p0 c = SQ_NONE) by (intros []; reflexivity).
  assert (E1 : forall c pt, pieceBB p0 c pt = bb_zero) by (intros [] []; reflexivity).
  assert (E2 : forall c, getC c (piecesBB_ p0) = bb_zero) by (intros []; reflexivity).
  assert (E3 : forall c, getC c (wallsBB_ p0) = bb_zero) by (intros []; reflexivity).
  assert (E4 : forall c, getC c (wallsReinfBB_ p0) = bb_zero) by (intros []; reflexivity).
  assert (Eb : b_ p0 = b_ p) by reflexivity.
  assert (Ef : flagsOf p0 = flagsOf p) by reflexivity.
  clearbody p0. cbv zeta. rewrite Eb in *.
  split; [exact B|]. split; [congruence|].
  split; [|split; [|split]].
  - rewrite H, Eh. unfold boardHash.
    rewrite <- (cellFold_shift Z.lxor Z.lxor_assoc Z.lxor_comm).
    now rewrite Z.lxor_0_l.
  - intros c. rewrite T, Et. unfold boardTokens. reflexivity.
  - intros c. rewrite S, Es. unfold boardSov. reflexivity.
  - intros c. rewrite B.
    split; [intros pt|split; [|split]].
    + rewrite P1, E1. apply markFold_rep.
    + rewrite P2, E2. apply markFold_rep.
    + rewrite P3, E3. apply markFold_rep.
    + rewrite P4, E4. apply markFold_rep.
Qed.

Lemma rebuildDerived_WF p : validBoard (b_ p) -> WF (rebuildDerived p).
Proof.
  intros Hb. destruct (rebuildDerived_spec p Hb) as (B & _ & _ & _ & _ & Hok).
  split; [now rewrite B | exact Hok].
Qed.

(** The derived state agrees with the board. *)
Definition Consistent (p : Position) : Prop :=
  WF p /\
  (forall c, wallTokens p c = boardTokens c (b_ p)) /\
  (forall c, sovereignSq p c = boardSov c (b_ p)) /\
  hash_ p = Z.lxor (boardHash (b_ p)) (flagsHash p).

Lemma Consistent_rebuild p : Consistent p -> rebuildDerived p = p.
Proof.
  intros ([Hb Hok] & T & S & H).
  destruct (rebuildDerived_spec p Hb) as (B & F & H' & T' & S' & Hok').
  destruct (BoardsOK_ext _ _ Hok' Hok B) as (E1 & E2 & E3 & E4).
  apply position_ext; auto.
  - apply Arr2_ext. intros c. fold (sovereignSq (rebuildDerived p) c).
    fold (sovereignSq p c). now rewrite S, S'.
  - apply Arr2_ext. intros c. fold (wallTokens (rebuildDerived p) c).
    fold (wallTokens p c). now rewrite T, T'.
  - now rewrite H, H'.
Qed.

Lemma rebuild_Consistent p :
  validBoard (b_ p) -> rebuildDerived p = p -> Consistent p.
Proof.
  intros Hb E.
  destruct (rebuildDerived_spec p Hb) as (B & F & H' & T' & S' & Hok').
  rewrite E in *. split; [split; assumption|]. repeat split; auto.
Qed.

(* ===================================================================== *)
(** * [pop_lsb] loops visit exactly the marked squares, lowest first *)
(* ===================================================================== *)

Lemma countr_zero_pos_nonneg p : 0 <= countr_zero_pos p.
Proof. induction p; cbn [countr_zero_pos]; lia. Qed.

Lemma countr_zero_pos_spec p :
  Z.testbit (Zpos p) (countr_zero_pos p) = true /\
  (forall i, 0 <= i < countr_zero_pos p -> Z.testbit (Zpos p) i = false) /\
  (forall n, 0 <= n ->
     Z.testbit (Z.land (Zpos p) (Zpos p - 1)) n
     = Z.testbit (Zpos p) n && negb (n =? countr_zero_pos p)).
Proof.
  induction p as [p IH|p IH|].
  - (* 2p+1 *)
    rewrite Pos2Z.inj_xI. cbn [countr_zero_pos].
    split; [apply Z.testbit_odd_0|]. split; [intros; lia|].
    intros n Hn. replace (2 * Z.pos p + 1 - 1) with (2 * Z.pos p) by lia.
    rewrite Z.land_spec.
    destruct (Z.eqb_spec n 0) as [->|Hne].
    + now rewrite Z.testbit_even_0, andb_false_r.
    + replace n with (Z.succ (n - 1)) by lia.
      rewrite Z.testbit_odd_succ, Z.testbit_even_succ by lia.
      now rewrite andb_diag, andb_true_r.
  - (* 2p *)
    destruct IH as (I1 & I2 & I3).
    pose proof (countr_zero_pos_nonneg p) as Hk.
    rewrite Pos2Z.inj_xO. cbn [countr_zero_pos].
    split; [|split].
    + replace (1 + countr_zero_pos p) with (Z.succ (countr_zero_pos p)) by lia.
      now rewrite Z.testbit_even_succ.
    + intros i Hi. destruct (Z.eqb_spec i 0) as [->|Hne].
      * apply Z.testbit_even_0.
      * replace i with (Z.succ (i - 1)) by lia.
        rewrite Z.testbit_even_succ by lia. apply I2. lia.
    + intros n Hn.
      replace (2 * Z.pos p - 1) with (2 * (Z.pos p - 1) + 1) by lia.
      rewrite Z.land_spec.
      destruct (Z.eqb_spec n 0) as [->|Hne].
      * now rewrite Z.testbit_even_0.
      * replace n with (Z.succ (n - 1)) at 1 2 3 by lia.
        rewrite Z.testbit_odd_succ, Z.testbit_even_succ by lia.
        rewrite <- Z.land_spec, I3 by lia. f_equal. f_equal.
        destruct (Z.eqb_spec (n - 1) (countr_zero_pos p)),
                 (Z.eqb_spec n (1 + countr_zero_pos p)); auto; lia.
  - (* 1 *)
    cbn [countr_zero_pos]. split; [reflexivity|]. split; [intros; lia|].
    intros n Hn. change (Z.land 1 (1 - 1)) with 0. rewrite Z.bits_0.
    destruct (Z.eqb_spec n 0) as [->|Hne]; [reflexivity|].
    simpl. rewrite andb_true_r. symmetry.
    change 1 with (2 ^ 0). rewrite Z.pow2_bits_eqb by lia.
    destruct (Z.eqb_spec 0 n); auto; lia.
Qed.

Lemma nonneg_of_high_bits x k :
  (forall n, k <= n -> Z.testbit x n = false) -> 0 <= x.
Proof.
  intros H. destruct (Z_lt_ge_dec x 0) as [Hneg|]; [|lia].
  exfalso.
  set (n := Z.max k (Z.log2 (Z.abs x) + 1)).
  assert (Hn : Z.log2 (Z.abs x) < n) by (unfold n; lia).
  pose proof (proj1 (Z.bits_iff_neg x n Hn) Hneg) as T.
  rewrite H in T by (unfold n; lia). discriminate.
Qed.

(** The least significant set bit of a non-zero word with no bit at or
    above [k]. *)
Lemma lowest_bit x k :
  (forall n, k <= n -> Z.testbit x n = false) -> x <> 0 ->
  0 <= countr_zero x < k /\
  Z.testbit x (countr_zero x) = true /\
  (forall i, 0 <= i < countr_zero x -> Z.testbit x i = false) /\
  (forall n, 0 <= n ->
     Z.testbit (Z.land x (x - 1)) n = Z.testbit x n && negb (n =? countr_zero x)).
Proof.
  intros H Hx. pose proof (nonneg_of_high_bits x k H).
  destruct x as [|p|p]; try lia.
  destruct (countr_zero_pos_spec p) as (I1 & I2 & I3).
  pose proof (countr_zero_pos_nonneg p).
  cbn [countr_zero]. repeat split; auto.
  destruct (Z_lt_ge_dec (countr_zero_pos p) k); auto.
  rewrite H in I1 by lia. discriminate.
Qed.

Definition setSquares (bb : Bitboard81) : list Z := filter (bb_test bb) allSquares.

Lemma filter_first (f : Z -> bool) s0 n a :
  f s0 = true -> In s0 (map Z.of_nat (seq a n)) ->
  (forall t, In t (map Z.of_nat (seq a n)) -> t < s0 -> f t = false) ->
  filter f (map Z.of_nat (seq a n))
  = s0 :: filter (fun t => f t && negb (t =? s0)) (map Z.of_nat (seq a n)).
Proof.
  revert a; induction n as [|n IH]; intros a Hf Hin Hlow; [destruct Hin|].
  cbn [seq map filter].
  destruct (Z.eq_dec (Z.of_nat a) s0) as [E|E].
  - rewrite E, Hf, Z.eqb_refl, andb_false_r. f_equal.
    apply filter_ext_in. intros t Ht.
    apply in_map_iff in Ht. destruct Ht as (k & <- & Hk). apply in_seq in Hk.
    destruct (Z.eqb_spec (Z.of_nat k) s0); [lia|]. now rewrite andb_true_r.
  - destruct Hin as [Hin|Hin]; [contradiction|].
    assert (Hlt : Z.of_nat a < s0).
    { apply in_map_iff in Hin. destruct Hin as (k & <- & Hk). apply in_seq in Hk. lia. }
    rewrite (Hlow (Z.of_nat a)) by (auto; now left). simpl.
    apply IH; auto. intros t Ht. apply Hlow. now right.
Qed.

Lemma pop_lsb_spec bb :
  wfBB bb -> bb_any bb = true ->
  let s0 := fst (pop_lsb bb) in
  let bb' := snd (pop_lsb bb) in
  0 <= s0 < 81 /\ bb_test bb s0 = true /\
  (forall t, 0 <= t < s0 -> bb_test bb t = false) /\
  wfBB bb' /\
  (forall t, 0 <= t < 81 -> bb_test bb' t = bb_test bb t && negb (t =? s0)).
Proof.
  intros [W1 W2] Hany. unfold pop_lsb.
  destruct (Z.eqb_spec (lo bb) 0) as [E0|E0]; cbn [negb fst snd].
  - assert (Hh : hi bb <> 0).
    { unfold bb_any in Hany. rewrite E0 in Hany. simpl in Hany.
      destruct (Z.eqb_spec (hi bb) 0); [discriminate|assumption]. }
    destruct (lowest_bit (hi bb) 17 W2 Hh) as (R & T & L & C).
    split; [lia|]. split; [|split; [|split]].
    + rewrite bb_test_hi by lia. now replace (countr_zero (hi bb) + 64 - 64)
        with (countr_zero (hi bb)) by lia.
    + intros t Ht. destruct (Z.lt_ge_cases t 64).
      * rewrite bb_test_lo, E0 by lia. apply Z.bits_0.
      * rewrite bb_test_hi by lia. apply L. lia.
    + split; simpl; auto. intros n Hn. now rewrite Z.land_spec, W2.
    + intros t Ht. destruct (Z.lt_ge_cases t 64).
      * rewrite !bb_test_lo by lia. simpl. rewrite E0, Z.bits_0. reflexivity.
      * rewrite !bb_test_hi by lia. simpl. rewrite C by lia. f_equal. f_equal.
        destruct (Z.eqb_spec (t - 64) (countr_zero (hi bb))),
                 (Z.eqb_spec t (countr_zero (hi bb) + 64)); auto; lia.
  - destruct (lowest_bit (lo bb) 64 W1 E0) as (R & T & L & C).
    split; [lia|]. split; [|split; [|split]].
    + now rewrite bb_test_lo by lia.
    + intros t Ht. rewrite bb_test_lo by lia. apply L. lia.
    + split; simpl; auto. intros n Hn. now rewrite Z.land_spec, W1.
    + intros t Ht. destruct (Z.lt_ge_cases t 64).
      * rewrite !bb_test_lo by lia. simpl. now rewrite C by lia.
      * rewrite !bb_test_hi by lia. simpl.
        destruct (Z.eqb_spec t (countr_zero (lo bb))); [lia|].
        now rewrite andb_true_r.
Qed.

Lemma bb_any_false bb t : bb_any bb = false -> 0 <= t < 81 -> bb_test bb t = false.
Proof.
  unfold bb_any. intros H Ht.
  destruct (Z.eqb_spec (Z.lor (lo bb) (hi bb)) 0) as [E|E]; [|discriminate].
  apply Z.lor_eq_0_iff in E. destruct E as [E1 E2].
  destruct (Z.lt_ge_cases t 64).
  - rewrite bb_test_lo, E1 by lia. apply Z.bits_0.
  - rewrite bb_test_hi, E2 by lia. apply Z.bits_0.
Qed.

Lemma setSquares_nil bb :
  wfBB bb -> setSquares bb = [] -> bb_any bb = false.
Proof.
  intros W E.
  assert (T : forall t, 0 <= t < 81 -> bb_test bb t = false).
  { intros t Ht. destruct (bb_test bb t) eqn:Et; auto.
    assert (In t (setSquares bb)).
    { apply filter_In. split; [now apply allSquares_In|assumption]. }
    rewrite E in H. destruct H. }
  assert (bb = bb_zero).
  { apply bb_ext; auto using wfBB_zero. intros s Hs. rewrite T by lia.
    symmetry. apply bb_any_false; [reflexivity|lia]. }
  subst. reflexivity.
Qed.

Lemma bb_squares_fuel_spec fuel : forall bb,
  wfBB bb -> (List.length (setSquares bb) <= fuel)%nat ->
  bb_squares_fuel fuel bb = setSquares bb.
Proof.
  induction fuel as [|fuel IH]; intros bb W Hlen.
  - simpl. destruct (setSquares bb) eqn:E; [reflexivity|simpl in Hlen; lia].
  - cbn [bb_squares_fuel]. destruct (bb_any bb) eqn:Hany.
    + destruct (pop_lsb_spec bb W Hany) as (R & T & L & W' & C).
      destruct (pop_lsb bb) as [s0 bb']. cbn [fst snd] in *.
      assert (E : setSquares bb = s0 :: setSquares bb').
      { unfold setSquares, allSquares.
        rewrite (filter_first (bb_test bb) s0); auto.
        - f_equal. apply filter_ext_in. intros t Ht.
          symmetry. apply C. now apply allSquares_In.
        - now apply allSquares_In.
        - intros t Ht Hlt. apply L. apply allSquares_In in Ht. lia. }
      rewrite E in *. f_equal. apply IH; auto. simpl in Hlen. lia.
    + unfold setSquares. symmetry.
      rewrite <- (filter_ext_in (fun _ => false)).
      * clear. induction allSquares; simpl; auto.
      * intros t Ht. symmetry. apply bb_any_false; auto. now apply allSquares_In.
Qed.

Lemma bb_squares_spec bb : wfBB bb -> bb_squares bb = setSquares bb.
Proof.
  intros W. apply bb_squares_fuel_spec; auto.
  unfold setSquares. etransitivity; [apply filter_length_le|].
  unfold allSquares. now rewrite length_map, length_seq.
Qed.

Lemma bb_squares_In bb s :
  wfBB bb -> (In s (bb_squares bb) <-> 0 <= s < 81 /\ bb_test bb s = true).
Proof.
  intros W. rewrite bb_squares_spec by assumption.
  unfold setSquares. rewrite filter_In, allSquares_In. tauto.
Qed.

Lemma bb_squares_NoDup bb : wfBB bb -> NoDup (bb_squares bb).
Proof.
  intros W. rewrite bb_squares_spec by assumption.
  apply NoDup_filter, allSquares_NoDup.
Qed.

(* ===================================================================== *)
(** * Geometry tables stay on the board *)
(* ===================================================================== *)

Lemma sq_inBounds r c :
  inBounds r c = true ->
  sq r c = r * 9 + c /\ 0 <= sq r c < 81 /\ row (sq r c) = r /\ col (sq r c) = c.
Proof.
  unfold inBounds, sq, row, col, N. intros H.
  apply andb_prop in H. destruct H as [H H4].
  apply andb_prop in H. destruct H as [H H3].
  apply andb_prop in H. destruct H as [H1 H2].
  apply Z.leb_le in H1, H3. apply Z.ltb_lt in H2, H4.
  rewrite Z.mod_small by lia.
  repeat split; try lia.
  - symmetry. apply (Z.div_unique (r * 9 + c) 9 r c); lia.
  - symmetry. apply (Z.mod_unique (r * 9 + c) 9 r c); lia.
Qed.

Lemma sq_range r c : inBounds r c = true -> 0 <= sq r c < 81.
Proof. intros H. apply sq_inBounds in H. tauto. Qed.

Lemma stepTargets_In dirs r c t :
  In t (stepTargets dirs r c) <->
  exists d, In d dirs /\ inBounds (r + fst d) (c + snd d) = true /\
            t = sq (r + fst d) (c + snd d).
Proof.
  unfold stepTargets. rewrite in_flat_map. split.
  - intros (d & Hd & Ht). exists d. split; auto.
    cbv zeta in Ht.
    destruct (inBounds (r + fst d) (c + snd d)); [|destruct Ht].
    destruct Ht as [<-|[]]. auto.
  - intros (d & Hd & Hb & ->). exists d. split; auto.
    cbv zeta. rewrite Hb. now left.
Qed.

Lemma stepTargets_range dirs r c t : In t (stepTargets dirs r c) -> 0 <= t < 81.
Proof.
  intros H. apply stepTargets_In in H. destruct H as (d & _ & Hb & ->).
  now apply sq_range.
Qed.

Lemma kingTargets_range s t : In t (kingTargets s) -> 0 <= t < 81.
Proof. apply stepTargets_range. Qed.

Lemma knightTargets_range s t : In t (knightTargets s) -> 0 <= t < 81.
Proof. apply stepTargets_range. Qed.

Lemma rayFrom_range fuel d : forall rr cc t,
  In t (rayFrom fuel d rr cc) -> 0 <= t < 81.
Proof.
  induction fuel as [|f IH]; intros rr cc t H; [destruct H|].
  cbn [rayFrom] in H. destruct (inBounds rr cc) eqn:E; [|destruct H].
  destruct H as [<-|H]; [now apply sq_range|eauto].
Qed.

Lemma ray_range s dir t : In t (ray s dir) -> 0 <= t < 81.
Proof. apply rayFrom_range. Qed.

(* ===================================================================== *)
(** * Square writes keep [hash xor boardHash] fixed *)
(* ===================================================================== *)

Ltac xor_solve :=
  apply Z.bits_inj'; intros ?n ?Hn;
  rewrite ?Z.lxor_spec, ?Z.bits_0;
  repeat match goal with
  | |- context [Z.testbit ?a ?n] =>
      let x := fresh "x" in generalize (Z.testbit a n); intro x
  end;
  btauto.

Definition hashResidue (p : Position) : Z := Z.lxor (hash_ p) (boardHash (b_ p)).

Lemma setSquareRaw_residue s v p :
  List.length (b_ p) = 81%nat -> 0 <= s < 81 ->
  hashResidue (setSquareRaw s v p) = hashResidue p.
Proof.
  intros Hl Hs. unfold hashResidue.
  rewrite setSquareRaw_hash, setSquareRaw_b, boardHash_upd by assumption.
  fold (at_ p s). xor_solve.
Qed.

Lemma residue_hash p q :
  hashResidue p = hashResidue q -> b_ p = b_ q -> hash_ p = hash_ q.
Proof.
  unfold hashResidue. intros H E. rewrite E in H.
  rewrite <- (lxor_cancel (hash_ p) (boardHash (b_ q))), H.
  apply lxor_cancel.
Qed.

Lemma setSquareRaw_length s v p :
  List.length (b_ (setSquareRaw s v p)) = List.length (b_ p).
Proof. rewrite setSquareRaw_b. apply upd_length. Qed.

(** Writing [v] and then the old content back gives the position back. *)
Lemma at_setSquareRaw s v p t :
  List.length (b_ p) = 81%nat -> 0 <= s < 81 -> 0 <= t ->
  at_ (setSquareRaw s v p) t = if t =? s then v else at_ p t.
Proof.
  intros Hl Hs Ht. unfold at_. rewrite setSquareRaw_b.
  apply cell_upd; lia.
Qed.

(* ===================================================================== *)
(** * Move generation leaves the position as it found it *)
(* ===================================================================== *)

Lemma considerCommandDest_restores p masonSq us canBuild destSq :
  WF p -> 0 <= masonSq < 81 -> 0 <= destSq < 81 -> masonSq <> destSq ->
  fst (considerCommandDest p masonSq us canBuild destSq) = p.
Proof.
  intros Hwf Hm Hd Hne. unfold considerCommandDest.
  match goal with |- context [if ?c then _ else _] => destruct c end;
    [reflexivity|].
  cbn [fst].
  set (fromV := at_ p masonSq). set (toV := at_ p destSq).
  assert (Hvf : validVal fromV) by (apply at_valid; [apply Hwf|lia]).
  assert (Hvt : validVal toV) by (apply at_valid; [apply Hwf|lia]).
  assert (Hv0 : validVal 0) by (unfold validVal; lia).
  assert (Hl : List.length (b_ p) = 81%nat) by apply Hwf.
  set (p1 := setSquareRaw destSq fromV p).
  set (p2 := setSquareRaw masonSq 0 p1).
  set (p3 := setSquareRaw masonSq fromV p2).
  set (p4 := setSquareRaw destSq toV p3).
  assert (W1 : WF p1) by (apply setSquareRaw_WF; auto).
  assert (W2 : WF p2) by (apply setSquareRaw_WF; auto).
  assert (W3 : WF p3) by (apply setSquareRaw_WF; auto).
  assert (W4 : WF p4) by (apply setSquareRaw_WF; auto).
  assert (Eb : b_ p4 = b_ p).
  { unfold p4, p3, p2, p1. rewrite !setSquareRaw_b.
    rewrite upd_twice.
    rewrite (upd_swap (b_ p) destSq masonSq) by lia.
    rewrite upd_twice. unfold fromV, toV, at_.
    now rewrite upd_same, upd_same. }
  apply WF_position_ext; auto.
  - unfold p4, p3, p2, p1. now rewrite !setSquareRaw_globals.
  - apply residue_hash; auto.
    unfold p4, p3, p2, p1.
    rewrite !setSquareRaw_residue; auto; rewrite ?setSquareRaw_length; auto.
Qed.

(* ===================================================================== *)
(** * Every generated action is well formed *)
(* ===================================================================== *)

Definition inBoard (s : Z) : Prop := 0 <= s < 81.

Definition emptyOrEnemy (p : Position) (them : Color) (t : Z) : Prop :=
  at_ p t = 0 \/ fPieces them (at_ p t) = true.

(** What the generator guarantees about an action of side [us]. *)
Definition LegalFor (p : Position) (us : Color) (m : Move) : Prop :=
  let them := other us in
  match m_type m with
  | Normal =>
      inBoard (m_from m) /\ inBoard (m_to m) /\
      fPieces us (at_ p (m_from m)) = true /\ emptyOrEnemy p them (m_to m)
  | MasonConstruct =>
      inBoard (m_from m) /\ inBoard (m_to m) /\
      isPieceOf us Mason (at_ p (m_from m)) = true /\ at_ p (m_to m) = 0
  | MasonCommand =>
      inBoard (m_from m) /\ inBoard (m_to m) /\
      isPieceOf us Mason (at_ p (m_from m)) = true /\
      emptyOrEnemy p them (m_to m) /\
      (m_aux1 m = SQ_NONE \/
       (inBoard (m_aux1 m) /\ m_aux1 m <> m_to m /\
        (m_aux1 m = m_from m \/ at_ p (m_aux1 m) = 0)))
  | CatapultRangedDemolish =>
      inBoard (m_from m) /\ inBoard (m_to m) /\
      isPieceOf us Catapult (at_ p (m_from m)) = true /\
      isWallVal (at_ p (m_to m)) = true
  | CatapultMove =>
      inBoard (m_from m) /\ inBoard (m_to m) /\
      isPieceOf us Catapult (at_ p (m_from m)) = true /\
      emptyOrEnemy p them (m_to m) /\
      (m_aux1 m = SQ_NONE \/
       (inBoard (m_aux1 m) /\ isWallVal (at_ p (m_aux1 m)) = true))
  | Bastion =>
      inBoard (m_from m) /\ inBoard (m_to m) /\
      inBoard (m_aux1 m) /\ inBoard (m_aux2 m) /\
      isPieceOf us Sovereign (at_ p (m_from m)) = true /\
      isPieceOf us Minister (at_ p (m_to m)) = true /\
      at_ p (m_aux1 m) = 0 /\ at_ p (m_aux2 m) = 0 /\
      m_aux1 m <> m_aux2 m
  end.

Definition Legal (p : Position) (m : Move) : Prop := LegalFor p (turn_ p) m.

(** Facts about cell values, by enumeration. *)
Lemma val_not_wall_not_piece v :
  validVal v -> isWallVal v = false -> isPieceVal v = false -> v = 0.
Proof. intros H. case_val v H; cbv; intros; congruence. Qed.

Lemma val_enemy_or_empty v us :
  validVal v -> isWallVal v = false ->
  isPieceVal v && color_eqb (colorOf v) us = false ->
  v = 0 \/ fPieces (other us) v = true.
Proof.
  intros H. case_val v H; destruct us; cbv; intros; try congruence; auto.
Qed.

Lemma val_piece_color v us :
  validVal v -> isPieceVal v = true ->
  color_eqb (colorOf v) us = false -> fPieces (other us) v = true.
Proof.
  intros H. case_val v H; destruct us; cbv; intros; try congruence; auto.
Qed.

Lemma isPieceOf_fPieces c pt v : isPieceOf c pt v = true -> fPieces c v = true.
Proof.
  unfold isPieceOf, fPieces. intros H.
  apply andb_prop in H. tauto.
Qed.

Lemma fPieces_not_zero c v : fPieces c v = true -> v <> 0.
Proof. intros H ->. discriminate. Qed.

Lemma fPieces_other c v : fPieces c v = true -> fPieces (other c) v = false.
Proof.
  unfold fPieces. intros H. apply andb_prop in H. destruct H as [H1 H2].
  rewrite H1. apply color_eqb_eq in H2. subst. destruct (colorOf v); reflexivity.
Qed.

(** A Normal action from [s] to a square that is empty or holds an enemy. *)
Definition NormalTo (p : Position) (us : Color) (s : Z) (m : Move) : Prop :=
  exists t, m = normalMove s t /\ inBoard t /\ emptyOrEnemy p (other us) t.

Lemma masonSlide_ok p us s r c d steps m :
  In m (masonSlide p s r c d steps) -> NormalTo p us s m.
Proof.
  induction steps as [|k steps IH]; [intros []|].
  cbn [masonSlide]. cbv zeta.
  destruct (inBounds (r + fst d * k) (c + snd d * k)) eqn:Eb; [|intros []].
  cbn [negb].
  destruct (Z.eqb_spec (at_ p (sq (r + fst d * k) (c + snd d * k))) 0) as [E0|E0];
    [|intros []].
  cbn [negb]. intros [<-|H]; auto.
  eexists; split; [reflexivity|]. split; [now apply sq_range|now left].
Qed.

Lemma lancerSlide_ok p us s sqs m :
  validBoard (b_ p) -> (forall t, In t sqs -> inBoard t) ->
  In m (lancerSlide p s us (other us) sqs) -> NormalTo p us s m.
Proof.
  intros Hb. induction sqs as [|t sqs IH]; intros Hr; [intros []|].
  cbn [lancerSlide]. cbv zeta.
  pose proof (at_valid_any p t Hb) as Hv.
  destruct (isWallVal (at_ p t)) eqn:Ew; [intros []|].
  destruct (isPieceVal (at_ p t)) eqn:Ep.
  - destruct (color_eqb (colorOf (at_ p t)) us && piece_eqb (pieceOf (at_ p t)) Mason).
    + apply IH. intros; apply Hr; now right.
    + destruct (color_eqb (colorOf (at_ p t)) (other us)) eqn:Ec; [|intros []].
      intros [<-|[]]. eexists; split; [reflexivity|].
      split; [apply Hr; now left|]. right. unfold fPieces. now rewrite Ep, Ec.
  - intros [<-|H].
    + eexists; split; [reflexivity|]. split; [apply Hr; now left|].
      left. now apply val_not_wall_not_piece.
    + apply IH; auto. intros; apply Hr; now right.
Qed.

Lemma courtSlide_ok p us s sqs m :
  validBoard (b_ p) -> (forall t, In t sqs -> inBoard t) ->
  In m (courtSlide p s (other us) sqs) -> NormalTo p us s m.
Proof.
  intros Hb. induction sqs as [|t sqs IH]; intros Hr; [intros []|].
  cbn [courtSlide]. cbv zeta.
  pose proof (at_valid_any p t Hb) as Hv.
  destruct (isWallVal (at_ p t)) eqn:Ew; [intros []|].
  destruct (isPieceVal (at_ p t)) eqn:Ep.
  - destruct (color_eqb (colorOf (at_ p t)) (other us)) eqn:Ec; [|intros []].
    intros [<-|[]]. eexists; split; [reflexivity|].
    split; [apply Hr; now left|]. right. unfold fPieces. now rewrite Ep, Ec.
  - intros [<-|H].
    + eexists; split; [reflexivity|]. split; [apply Hr; now left|].
      left. now apply val_not_wall_not_piece.
    + apply IH; auto. intros; apply Hr; now right.
Qed.

Lemma In_firstn {A} (n : nat) (l : list A) x : In x (firstn n l) -> In x l.
Proof.
  revert l; induction n as [|n IH]; intros [|y l]; simpl; auto; try tauto.
  intros [->|H]; auto.
Qed.

Lemma firstn_range (n : nat) (l : list Z) :
  (forall t, In t l -> inBoard t) -> forall t, In t (firstn n l) -> inBoard t.
Proof.
  intros H t Ht. apply H. revert Ht. apply In_firstn.
Qed.

Lemma genNormal_ok p s pt us m :
  validBoard (b_ p) ->
  In m (genNormalMovesForPiece p s pt us) -> NormalTo p us s m.
Proof.
  intros Hb. unfold genNormalMovesForPiece. cbv zeta.
  destruct pt; try (intros []).
  - (* Mason *)
    rewrite in_app_iff, !in_flat_map. intros [(d & _ & H)|(dc & _ & H)].
    + eapply masonSlide_ok; eauto.
    + cbv zeta in H.
      destruct (inBounds (row s + forwardOf us) (col s + dc)) eqn:Eb; [|destruct H].
      cbn [negb] in H.
      destruct (isWallVal _) eqn:Ew; [destruct H|].
      destruct (isPieceVal _ && color_eqb _ (other us)) eqn:Ec; [|destruct H].
      destruct H as [<-|[]]. eexists; split; [reflexivity|].
      split; [now apply sq_range|now right].
  - (* Lancer *)
    rewrite in_flat_map. intros (dir & _ & H).
    eapply lancerSlide_ok; eauto. intros t. apply ray_range.
  - (* Pegasus *)
    rewrite in_flat_map. intros (t & Ht & H). cbv zeta in H.
    destruct (isWallVal (at_ p t)) eqn:Ew; [destruct H|].
    destruct (isPieceVal (at_ p t) && color_eqb (colorOf (at_ p t)) us) eqn:Ec;
      [destruct H|].
    destruct H as [<-|[]]. eexists; split; [reflexivity|].
    split; [eapply knightTargets_range; eauto|].
    apply val_enemy_or_empty; auto. now apply at_valid_any.
  - (* Minister *)
    rewrite in_flat_map. intros (dir & _ & H).
    eapply courtSlide_ok; eauto. apply firstn_range. intros t. apply ray_range.
  - (* Sovereign *)
    destruct (sovereignMoveRange p s us <=? 0); [intros []|].
    rewrite in_flat_map. intros (dir & _ & H).
    eapply courtSlide_ok; eauto. apply firstn_range. intros t. apply ray_range.
Qed.

Lemma NormalTo_Legal p us s m :
  inBoard s -> fPieces us (at_ p s) = true -> NormalTo p us s m -> LegalFor p us m.
Proof.
  intros Hs Hp (t & -> & Ht & He). unfold LegalFor. simpl. auto.
Qed.

(** ** Catapult actions *)

Lemma rangedDemolish_ok p us catSq sqs m :
  inBoard catSq -> isPieceOf us Catapult (at_ p catSq) = true ->
  (forall t, In t sqs -> inBoard t) ->
  In m (rangedDemolish p catSq sqs) -> LegalFor p us m.
Proof.
  intros Hc Hp. induction sqs as [|t sqs IH]; intros Hr; [intros []|].
  cbn [rangedDemolish]. cbv zeta.
  destruct (isPieceVal (at_ p t)); [intros []|].
  assert (Ht : inBoard t) by (apply Hr; now left).
  destruct (isWallVal (at_ p t)) eqn:Ew.
  - intros [<-|[]]. unfold LegalFor. simpl. tauto.
  - apply IH. intros; apply Hr; now right.
Qed.

Lemma adjWallsOf_In p toSq w :
  In w (adjWallsOf p toSq) -> inBoard w /\ isWallVal (at_ p w) = true.
Proof.
  unfold adjWallsOf. rewrite filter_In. intros [H1 H2].
  split; auto. eapply kingTargets_range; eauto.
Qed.

Lemma catapultVariants_ok p us catSq toSq ws m :
  inBoard catSq -> isPieceOf us Catapult (at_ p catSq) = true ->
  inBoard toSq -> emptyOrEnemy p (other us) toSq ->
  (forall w, In w ws -> inBoard w /\ isWallVal (at_ p w) = true) ->
  In m (catapultVariants catSq toSq ws) -> LegalFor p us m.
Proof.
  intros Hc Hp Ht He Hw. unfold catapultVariants.
  intros [<-|H].
  - unfold LegalFor. simpl. tauto.
  - apply in_map_iff in H. destruct H as (w & <- & Hin).
    apply Hw in Hin. unfold LegalFor. simpl. tauto.
Qed.

Lemma catapultSlide_ok p us catSq sqs m :
  validBoard (b_ p) ->
  inBoard catSq -> isPieceOf us Catapult (at_ p catSq) = true ->
  (forall t, In t sqs -> inBoard t) ->
  In m (catapultSlide p catSq us sqs) -> LegalFor p us m.
Proof.
  intros Hb Hc Hp. induction sqs as [|t sqs IH]; intros Hr; [intros []|].
  cbn [catapultSlide]. cbv zeta.
  pose proof (at_valid_any p t Hb) as Hv.
  assert (Ht : inBoard t) by (apply Hr; now left).
  destruct (isWallVal (at_ p t)) eqn:Ew; [intros []|].
  destruct (isPieceVal (at_ p t)) eqn:Ep.
  - destruct (color_eqb (colorOf (at_ p t)) us) eqn:Ec; cbn [negb]; [intros []|].
    assert (He : emptyOrEnemy p (other us) t).
    { right. now apply val_piece_color. }
    destruct (piece_eqb (pieceOf (at_ p t)) Sovereign).
    + intros [<-|[]]. unfold LegalFor. simpl. tauto.
    + apply catapultVariants_ok; auto. apply adjWallsOf_In.
  - assert (He : emptyOrEnemy p (other us) t).
    { left. now apply val_not_wall_not_piece. }
    rewrite in_app_iff. intros [H|H].
    + destruct (Z.of_nat (List.length (adjWallsOf p t)) =? 0).
      * destruct H as [<-|[]]. unfold LegalFor. simpl. tauto.
      * revert H. apply catapultVariants_ok; auto. apply adjWallsOf_In.
    + apply IH; auto. intros; apply Hr; now right.
Qed.

Lemma genCatapultExtras_ok p us catSq m :
  validBoard (b_ p) ->
  inBoard catSq -> isPieceOf us Catapult (at_ p catSq) = true ->
  In m (genCatapultExtras p catSq us) -> LegalFor p us m.
Proof.
  intros Hb Hc Hp. unfold genCatapultExtras.
  rewrite in_app_iff, !in_flat_map. intros [(dir & _ & H)|(dir & _ & H)].
  - eapply rangedDemolish_ok; eauto. intros t. apply ray_range.
  - eapply catapultSlide_ok; eauto. intros t. apply ray_range.
Qed.

(** ** Bastion *)

Fixpoint nodupb (l : list Z) : bool :=
  match l with
  | [] => true
  | x :: t => negb (existsb (Z.eqb x) t) && nodupb t
  end.

Lemma nodupb_NoDup l : nodupb l = true -> NoDup l.
Proof.
  induction l as [|x t IH]; simpl; intros H; constructor.
  - apply andb_prop in H. destruct H as [H _].
    intros Hin. apply negb_true_iff in H.
    assert (existsb (Z.eqb x) t = true); [|congruence].
    apply existsb_exists. exists x. split; auto. apply Z.eqb_refl.
  - apply IH. apply andb_prop in H. tauto.
Qed.

Lemma kingTargets_NoDup s : inBoard s -> NoDup (kingTargets s).
Proof.
  intros Hs. apply nodupb_NoDup.
  assert (H : forallb (fun s => nodupb (kingTargets s)) allSquares = true)
    by (vm_compute; reflexivity).
  rewrite forallb_forall in H. apply H. now apply allSquares_In.
Qed.

Lemma pairsOf_In l a b :
  In (a, b) (pairsOf l) -> In a l /\ In b l.
Proof.
  induction l as [|x t IH]; [intros []|].
  cbn [pairsOf]. rewrite in_app_iff, in_map_iff.
  intros [(y & E & Hy)|H].
  - inversion E; subst. split; [now left|now right].
  - destruct (IH H). split; now right.
Qed.

Lemma pairsOf_distinct l a b :
  NoDup l -> In (a, b) (pairsOf l) -> a <> b.
Proof.
  induction l as [|x t IH]; [intros _ []|].
  intros Hnd. inversion Hnd as [|? ? Hx Ht]; subst.
  cbn [pairsOf]. rewrite in_app_iff, in_map_iff.
  intros [(y & E & Hy)|H].
  - inversion E; subst. intros ->. contradiction.
  - now apply IH.
Qed.

Lemma bastionEmpties_In p sovSq ministerSq a :
  In a (bastionEmpties p sovSq ministerSq) ->
  inBoard a /\ a <> sovSq /\ at_ p a = 0.
Proof.
  unfold bastionEmpties. rewrite filter_In. intros [H1 H2].
  apply andb_prop in H2. destruct H2 as [H2 H3].
  apply negb_true_iff, Z.eqb_neq in H2. apply Z.eqb_eq in H3.
  split; [eapply kingTargets_range; eauto|tauto].
Qed.

Lemma genBastion_ok p us sovSq m :
  inBoard sovSq -> isPieceOf us Sovereign (at_ p sovSq) = true ->
  In m (genBastion p sovSq us) -> LegalFor p us m.
Proof.
  intros Hs Hp. unfold genBastion.
  destruct (wallBuiltLast p us); [intros []|].
  destruct (negb (bastionRight p us)); [intros []|].
  destruct (15 <? wallTokens p us); [intros []|].
  rewrite in_flat_map. intros (msq & Hm & H). cbv zeta in H.
  destruct (isPieceVal (at_ p msq)) eqn:E1; [|destruct H].
  destruct (color_eqb (colorOf (at_ p msq)) us) eqn:E2; [|destruct H].
  destruct (piece_eqb (pieceOf (at_ p msq)) Minister) eqn:E3; [|destruct H].
  cbn [negb orb] in H.
  destruct (Z.of_nat (List.length (bastionEmpties p sovSq msq)) <? 2); [destruct H|].
  apply in_map_iff in H. destruct H as ([a b] & <- & Hab).
  assert (Hm' : inBoard msq) by (eapply kingTargets_range; eauto).
  pose proof (pairsOf_In _ _ _ Hab) as [Ha Hb].
  apply bastionEmpties_In in Ha, Hb.
  assert (a <> b).
  { eapply pairsOf_distinct; eauto.
    unfold bastionEmpties. apply NoDup_filter. now apply kingTargets_NoDup. }
  assert (isPieceOf us Minister (at_ p msq) = true)
    by (unfold isPieceOf; now rewrite E1, E2, E3).
  unfold LegalFor. simpl. tauto.
Qed.

(** ** Mason construct and command *)

Lemma mason_not_empty_or_enemy p us masonSq destSq :
  isPieceOf us Mason (at_ p masonSq) = true ->
  emptyOrEnemy p (other us) destSq -> masonSq <> destSq.
Proof.
  intros Hm He ->. apply isPieceOf_fPieces in Hm.
  destruct He as [E|E].
  - rewrite E in Hm. discriminate.
  - apply fPieces_other in E. rewrite other_involutive in E. congruence.
Qed.

Lemma considerCommandDest_ok p masonSq us canBuild destSq m :
  WF p -> inBoard masonSq -> inBoard destSq ->
  isPieceOf us Mason (at_ p masonSq) = true ->
  emptyOrEnemy p (other us) destSq ->
  In m (snd (considerCommandDest p masonSq us canBuild destSq)) ->
  LegalFor p us m.
Proof.
  intros Hwf Hm Hd Hp He.
  assert (Hne : masonSq <> destSq) by (eapply mason_not_empty_or_enemy; eauto).
  assert (Hl : List.length (b_ p) = 81%nat) by apply Hwf.
  unfold considerCommandDest.
  match goal with |- context [if ?c then _ else _] => destruct c end.
  - intros [<-|[]]. unfold LegalFor. simpl. tauto.
  - cbn [snd]. rewrite in_app_iff. intros [[<-|[]]|H].
    + unfold LegalFor. simpl. tauto.
    + destruct (canBuild && _); [|destruct H].
      apply in_flat_map in H. destruct H as (d & _ & H). cbv zeta in H.
      destruct (inBounds (row destSq + fst d) (col destSq + snd d)) eqn:Eb;
        [|destruct H].
      cbn [negb] in H.
      set (wsq := sq (row destSq + fst d) (col destSq + snd d)) in *.
      assert (Hw : inBoard wsq) by now apply sq_range.
      match type of H with In _ (if ?c then _ else _) => destruct c eqn:Ez end;
        [|destruct H].
      destruct H as [<-|[]].
      apply Z.eqb_eq in Ez. unfold inBoard in *.
      rewrite at_setSquareRaw in Ez;
        [|now rewrite setSquareRaw_length|lia|lia].
      rewrite at_setSquareRaw in Ez by (auto; lia).
      assert (Hnz : at_ p masonSq <> 0).
      { apply isPieceOf_fPieces in Hp. now apply fPieces_not_zero in Hp. }
      assert (Haux : wsq <> destSq /\ (wsq = masonSq \/ at_ p wsq = 0)).
      { destruct (Z.eqb_spec wsq masonSq) as [E1|E1].
        - split; [lia|now left].
        - destruct (Z.eqb_spec wsq destSq) as [E2|E2]; [contradiction|].
          split; [assumption|now right]. }
      unfold LegalFor, inBoard. simpl. tauto.
Qed.

Lemma commandLoop_ok p masonSq us canBuild want cands :
  WF p -> inBoard masonSq ->
  isPieceOf us Mason (at_ p masonSq) = true ->
  (forall t, want p t = true -> emptyOrEnemy p (other us) t) ->
  fst (commandLoop p masonSq us canBuild want cands) = p /\
  forall m, In m (snd (commandLoop p masonSq us canBuild want cands)) ->
            LegalFor p us m.
Proof.
  intros Hwf Hm Hp Hw. induction cands as [|[rr cc] cands IH].
  - simpl. split; [reflexivity|intros m []].
  - cbn [commandLoop].
    destruct (inBounds rr cc) eqn:Eb; cbn [negb]; [|exact IH].
    destruct (want p (sq rr cc)) eqn:Ew; [|exact IH].
    assert (Hd : inBoard (sq rr cc)) by now apply sq_range.
    assert (He : emptyOrEnemy p (other us) (sq rr cc)) by now apply Hw.
    assert (Hne : masonSq <> sq rr cc) by (eapply mason_not_empty_or_enemy; eauto).
    pose proof (considerCommandDest_restores p masonSq us canBuild (sq rr cc)
                  Hwf Hm Hd Hne) as Er.
    pose proof (considerCommandDest_ok p masonSq us canBuild (sq rr cc)) as Ho.
    destruct (considerCommandDest p masonSq us canBuild (sq rr cc)) as [p1 ms].
    cbn [fst snd] in *. subst p1.
    destruct IH as [I1 I2].
    destruct (commandLoop p masonSq us canBuild want cands) as [p2 ms'].
    cbn [fst snd] in *. split; auto.
    intros m Hin. apply in_app_iff in Hin. destruct Hin; auto.
Qed.

Lemma genMasonExtras_ok p masonSq us enemyAttacks :
  WF p -> inBoard masonSq ->
  isPieceOf us Mason (at_ p masonSq) = true ->
  fst (genMasonExtras p masonSq us enemyAttacks) = p /\
  forall m, In m (snd (genMasonExtras p masonSq us enemyAttacks)) ->
            LegalFor p us m.
Proof.
  intros Hwf Hm Hp. unfold genMasonExtras. cbv zeta.
  match goal with |- context [flat_map ?f DIRS4] => set (cons := flat_map f DIRS4) end.
  assert (Hc : forall m, In m cons -> LegalFor p us m).
  { intros m H. unfold cons in H. apply in_flat_map in H.
    destruct H as (d & _ & H).
    destruct (inBounds (row masonSq + fst d) (col masonSq + snd d)) eqn:Eb;
      [|destruct H].
    cbn [negb] in H.
    destruct (Z.eqb_spec (at_ p (sq (row masonSq + fst d) (col masonSq + snd d))) 0)
      as [E0|E0]; [|destruct H].
    destruct H as [<-|[]]. apply sq_range in Eb.
    unfold LegalFor, inBoard in *. simpl. tauto. }
  match goal with |- context [if ?c then cons else []] =>
    set (construct := if c then cons else []) end.
  assert (Hc' : forall m, In m construct -> LegalFor p us m).
  { unfold construct. destruct (_ && _); [exact Hc|intros m []]. }
  clearbody construct. clear Hc cons.
  destruct (negb _); [split; [reflexivity|exact Hc']|].
  match goal with |- context [commandLoop p masonSq us ?cb ?w ?cs] =>
    destruct (commandLoop_ok p masonSq us cb w cs Hwf Hm Hp) as [O1 O2];
    [|destruct (commandLoop p masonSq us cb w cs) as [p1 orth]]
  end.
  { intros t Ht. left. now apply Z.eqb_eq. }
  cbn [fst snd] in *. subst p1.
  match goal with |- context [commandLoop p masonSq us ?cb ?w ?cs] =>
    destruct (commandLoop_ok p masonSq us cb w cs Hwf Hm Hp) as [D1 D2];
    [|destruct (commandLoop p masonSq us cb w cs) as [p2 diag]]
  end.
  { intros t Ht. right. cbv zeta in Ht.
    destruct (isWallVal (at_ p t)); [discriminate|exact Ht]. }
  cbn [fst snd] in *. split; auto.
  intros m Hin. rewrite !in_app_iff in Hin. destruct Hin as [H|[H|H]]; auto.
Qed.

Lemma masonLoop_ok p us enemyAttacks sqs :
  WF p ->
  (forall s, In s sqs -> inBoard s /\ isPieceOf us Mason (at_ p s) = true) ->
  fst (masonLoop p us enemyAttacks sqs) = p /\
  forall m, In m (snd (masonLoop p us enemyAttacks sqs)) -> LegalFor p us m.
Proof.
  intros Hwf. induction sqs as [|s sqs IH]; intros Hs.
  - simpl. split; [reflexivity|intros m []].
  - cbn [masonLoop]. cbv zeta.
    destruct (Hs s (or_introl eq_refl)) as [Hin Hp].
    destruct (genMasonExtras_ok p s us enemyAttacks Hwf Hin Hp) as [E1 E2].
    destruct (genMasonExtras p s us enemyAttacks) as [p1 extras].
    cbn [fst snd] in *. subst p1.
    destruct IH as [I1 I2]; [intros; apply Hs; now right|].
    destruct (masonLoop p us enemyAttacks sqs) as [p2 more].
    cbn [fst snd] in *. split; auto.
    intros m Hm. rewrite !in_app_iff in Hm. destruct Hm as [H|[H|H]]; auto.
    apply (NormalTo_Legal p us s); auto.
    + now apply isPieceOf_fPieces in Hp.
    + eapply genNormal_ok; eauto. apply Hwf.
Qed.

Lemma pieceBB_squares p c pt s :
  WF p -> In s (bb_squares (pieceBB p c pt)) ->
  inBoard s /\ isPieceOf c pt (at_ p s) = true.
Proof.
  intros [Hb Hok] H. destruct (Hok c) as (H1 & _).
  destruct (H1 pt) as [W T].
  apply bb_squares_In in H; auto. destruct H as [Hr Ht].
  split; auto. unfold at_. now rewrite <- T.
Qed.

Lemma pieceBB_squares_conv p c pt s :
  WF p -> inBoard s -> isPieceOf c pt (at_ p s) = true ->
  In s (bb_squares (pieceBB p c pt)).
Proof.
  intros [Hb Hok] Hs Hp. destruct (Hok c) as (H1 & _).
  destruct (H1 pt) as [W T].
  apply bb_squares_In; auto. split; [exact Hs|].
  unfold at_ in Hp. now rewrite T.
Qed.

Lemma generateMoves_ok p :
  WF p ->
  fst (generateMoves p) = p /\ forall m, In m (movesOf p) -> Legal p m.
Proof.
  intros Hwf. unfold movesOf, generateMoves, Legal.
  destruct (gameOver p); [split; [reflexivity|intros m []]|].
  cbv zeta.
  destruct (masonLoop_ok p (turn_ p) (computeAttacks p (other (turn_ p)))
              (bb_squares (pieceBB p (turn_ p) Mason)) Hwf) as [M1 M2].
  { intros s. now apply pieceBB_squares. }
  destruct (masonLoop p (turn_ p) _ _) as [p1 masons].
  cbn [fst snd] in *. subst p1. split; [reflexivity|].
  intros m Hm. rewrite !in_app_iff, !in_flat_map in Hm.
  destruct Hm as [H|[(s & Hs & H)|[(s & Hs & H)|[(s & Hs & H)|[(s & Hs & H)|(s & Hs & H)]]]]];
    auto; apply pieceBB_squares in Hs; auto; destruct Hs as [Hin Hp].
  - eapply NormalTo_Legal; eauto using isPieceOf_fPieces.
    eapply genNormal_ok; eauto. apply Hwf.
  - eapply NormalTo_Legal; eauto using isPieceOf_fPieces.
    eapply genNormal_ok; eauto. apply Hwf.
  - eapply genCatapultExtras_ok; eauto. apply Hwf.
  - eapply NormalTo_Legal; eauto using isPieceOf_fPieces.
    eapply genNormal_ok; eauto. apply Hwf.
  - apply in_app_iff in H. destruct H as [H|H].
    + eapply NormalTo_Legal; eauto using isPieceOf_fPieces.
      eapply genNormal_ok; eauto. apply Hwf.
    + eapply genBastion_ok; eauto.
Qed.

(* ===================================================================== *)
(** * Make / undo: the undo record restores every written square *)
(* ===================================================================== *)

Definition isSaved (s : Z) (saved : list (Z * Z)) : bool :=
  existsb (fun e => fst e =? s) saved.

(** [saved] holds original cells only, and covers every changed square. *)
Definition Saved (b0 b : list Z) (saved : list (Z * Z)) : Prop :=
  List.length b = 81%nat /\ List.length b0 = 81%nat /\
  (forall s v, In (s, v) saved -> inBoard s /\ v = cell b0 s) /\
  (forall s, inBoard s -> isSaved s saved = false -> cell b s = cell b0 s).

(** Fields a square write or a flag update leaves alone. *)
Definition sameBoards (p q : Position) : Prop :=
  b_ q = b_ p /\ pieceBB_ q = pieceBB_ p /\ piecesBB_ q = piecesBB_ p /\
  wallsBB_ q = wallsBB_ p /\ wallsReinfBB_ q = wallsReinfBB_ p /\
  history_ q = history_ p.

Lemma sameBoards_WF p q : sameBoards p q -> WF p -> WF q.
Proof.
  intros (E1 & E2 & E3 & E4 & E5 & _) [Hb Hok]. split.
  - now rewrite E1.
  - intros c. destruct (Hok c) as (H1 & H2 & H3 & H4).
    unfold pieceBB. rewrite E1, E2, E3, E4, E5. auto.
Qed.

Definition undoGlobals (u : Undo) :=
  (prevTurn u, prevBastionRight u, prevWallBuiltLast u, prevSovereignSq u,
   prevWallTokens u, prevHalfmove u, prevFullmove u, prevWinner u, prevWinReason u).

Definition posGlobals (p : Position) :=
  (turn_ p, bastionRight_ p, wallBuiltLast_ p, sovereignSq_ p,
   wallTokens_ p, halfmove_ p, fullmove_ p, winner_ p, winReason_ p).

(** The state of [makeMove] part-way through, relative to the position
    [p] it started from. *)
Definition MakeInv (p pc : Position) (uc : Undo) : Prop :=
  WF pc /\ Saved (b_ p) (b_ pc) (u_saved uc) /\
  history_ pc = history_ p ++ [hash_ p] /\
  undoGlobals uc = posGlobals p.

Lemma isSaved_app s saved e :
  isSaved s (saved ++ [e]) = isSaved s saved || (fst e =? s).
Proof. unfold isSaved. rewrite existsb_app. simpl. now rewrite orb_false_r. Qed.

Lemma MakeInv_save p pc uc s :
  MakeInv p pc uc -> inBoard s ->
  MakeInv p pc (saveSquare pc uc s) /\
  isSaved s (u_saved (saveSquare pc uc s)) = true /\
  (forall t, isSaved t (u_saved uc) = true ->
             isSaved t (u_saved (saveSquare pc uc s)) = true).
Proof.
  intros H Hs. pose proof H as (W & (L & L0 & S1 & S2) & Hh & Hg).
  unfold saveSquare. fold (isSaved s (u_saved uc)).
  destruct (isSaved s (u_saved uc)) eqn:E.
  - split; [exact H|]. split; [exact E|auto].
  - split; [|split].
    + split; [assumption|]. split; [|split; assumption].
      simpl. split; [assumption|]. split; [assumption|]. split.
      * intros t v Hin. apply in_app_iff in Hin. destruct Hin as [Hin|[Hin|[]]].
        -- eauto.
        -- inversion Hin; subst. split; auto. unfold at_. now apply S2.
      * intros t Ht Hn. rewrite isSaved_app in Hn.
        apply orb_false_iff in Hn. now apply S2.
    + simpl. rewrite isSaved_app. simpl. now rewrite Z.eqb_refl, orb_true_r.
    + intros t Ht. simpl. rewrite isSaved_app, Ht. reflexivity.
Qed.

Lemma MakeInv_write p pc uc s v :
  MakeInv p pc uc -> inBoard s -> validVal v ->
  isSaved s (u_saved uc) = true ->
  MakeInv p (setSquareRaw s v pc) uc.
Proof.
  intros (W & (L & L0 & S1 & S2) & Hh & Hg) Hs Hv Hsv.
  split; [now apply setSquareRaw_WF|].
  split; [|split; [|assumption]].
  - rewrite setSquareRaw_b. split; [now rewrite upd_length|].
    split; [assumption|]. split; [assumption|].
    intros t Ht Hn. unfold inBoard in *. rewrite cell_upd by lia.
    destruct (Z.eqb_spec t s) as [->|Hne]; [congruence|]. now apply S2.
  - pose proof (setSquareRaw_globals s v pc) as G. unfold globalsOf in G.
    inversion G. congruence.
Qed.

Lemma MakeInv_frame p pc q uc :
  MakeInv p pc uc -> sameBoards pc q -> MakeInv p q uc.
Proof.
  intros (W & S & Hh & Hg) Hsb.
  pose proof (sameBoards_WF _ _ Hsb W).
  destruct Hsb as (E1 & _ & _ & _ & _ & E6).
  split; [assumption|]. split; [now rewrite E1|]. split; [congruence|assumption].
Qed.

(** The flag and counter updates of [makeMove] do not touch the boards. *)
Ltac same_boards :=
  repeat match goal with |- context [if ?c then _ else _] => destruct c end;
  repeat split; reflexivity.

Lemma sameBoards_refl p : sameBoards p p.
Proof. repeat split; reflexivity. Qed.

Lemma sameBoards_trans p q r : sameBoards p q -> sameBoards q r -> sameBoards p r.
Proof.
  intros (A1 & A2 & A3 & A4 & A5 & A6) (B1 & B2 & B3 & B4 & B5 & B6).
  repeat split; congruence.
Qed.

Lemma sameBoards_dropBastionRight us p : sameBoards p (dropBastionRight us p).
Proof. unfold dropBastionRight. same_boards. Qed.

Lemma sameBoards_setWallBuiltLast c v p : sameBoards p (setWallBuiltLast c v p).
Proof. unfold setWallBuiltLast. same_boards. Qed.

Lemma sameBoards_finalizeTurn p : sameBoards p (finalizeTurn p).
Proof. unfold finalizeTurn. same_boards. Qed.

Lemma sameBoards_addWallTokens c hp p : sameBoards p (addWallTokens c hp p).
Proof. unfold addWallTokens. same_boards. Qed.

Lemma sameBoards_set_sovereignSq v p : sameBoards p (set_sovereignSq v p).
Proof. same_boards. Qed.

Lemma sameBoards_set_halfmove v p : sameBoards p (set_halfmove v p).
Proof. same_boards. Qed.

Lemma sameBoards_set_winner v p : sameBoards p (set_winner v p).
Proof. same_boards. Qed.

Lemma sameBoards_set_winReason v p : sameBoards p (set_winReason v p).
Proof. same_boards. Qed.

Lemma sameBoards_set_wallTokens v p : sameBoards p (set_wallTokens v p).
Proof. same_boards. Qed.

Lemma MakeInv_hitWall p pc uc s :
  MakeInv p pc uc -> inBoard s -> isSaved s (u_saved uc) = true ->
  MakeInv p (hitWall s pc) uc.
Proof.
  intros H Hs Hsv. unfold hitWall.
  destruct (negb (isWallVal (at_ pc s))); [assumption|].
  destruct (wallHp (at_ pc s) =? 2).
  - eapply MakeInv_frame; [|apply sameBoards_set_wallTokens].
    apply MakeInv_write; auto. apply makeWall_valid. lia.
  - eapply MakeInv_frame; [|apply sameBoards_set_wallTokens].
    apply MakeInv_write; auto. unfold validVal; lia.
Qed.

Lemma cells_ext b b0 :
  List.length b = 81%nat -> List.length b0 = 81%nat ->
  (forall t, inBoard t -> cell b t = cell b0 t) -> b = b0.
Proof.
  intros L L0 H. apply (nth_ext b b0 0 0); [congruence|].
  intros n Hn. specialize (H (Z.of_nat n)). unfold cell, inBoard in H.
  rewrite Nat2Z.id in H. apply H. lia.
Qed.

Lemma restoreSquares_spec b0 saved : forall pc,
  WF pc -> List.length b0 = 81%nat ->
  (forall s v, In (s, v) saved -> inBoard s /\ v = cell b0 s) ->
  (forall s, inBoard s -> validVal (cell b0 s)) ->
  (forall s, inBoard s -> isSaved s saved = false -> cell (b_ pc) s = cell b0 s) ->
  let r := restoreSquares saved pc in
  WF r /\ globalsOf r = globalsOf pc /\ b_ r = b0.
Proof.
  induction saved as [|[s v] saved IH]; intros pc W L0 S1 Hv S2; cbn [restoreSquares fold_left].
  - split; [exact W|]. split; [reflexivity|].
    apply cells_ext; auto. apply W.
  - destruct (S1 s v (or_introl eq_refl)) as [Hs ->].
    cbn [fst snd].
    destruct (IH (setSquareRaw s (cell b0 s) pc)) as (W' & G' & B'); auto.
    + apply setSquareRaw_WF; auto.
    + intros t w Hin. apply S1. now right.
    + intros t Ht Hn. rewrite setSquareRaw_b.
      assert (List.length (b_ pc) = 81%nat) by apply W.
      unfold inBoard in *. rewrite cell_upd by lia.
      destruct (Z.eqb_spec t s) as [->|Hne]; auto.
      apply S2; auto. simpl. destruct (Z.eqb_spec s t); [lia|]. exact Hn.
    + unfold restoreSquares in *. split; [exact W'|]. split; [|exact B'].
      now rewrite G', setSquareRaw_globals.
Qed.

Lemma undoMove_MakeInv p pc uc :
  WF p -> MakeInv p pc uc -> undoMove pc uc = p.
Proof.
  intros Wp (W & (L & L0 & S1 & S2) & Hh & Hg).
  destruct (restoreSquares_spec (b_ p) (u_saved uc) pc W L0 S1) as (Wr & Gr & Br); auto.
  { intros s Hs. apply Wp. exact Hs. }
  unfold undoMove. cbv zeta.
  set (r := restoreSquares (u_saved uc) pc) in *.
  unfold globalsOf in Gr. inversion Gr as [[G1 G2 G3 G4 G5 G6 G7 G8 G9 G10]].
  unfold undoGlobals, posGlobals in Hg.
  inversion Hg as [[U1 U2 U3 U4 U5 U6 U7 U8 U9]].
  cbn [history_ set_winReason set_winner set_fullmove set_halfmove set_wallTokens
       set_sovereignSq set_wallBuiltLast set_bastionRight set_turn].
  rewrite G10, Hh.
  destruct (history_ p ++ [hash_ p]) eqn:E.
  { destruct (history_ p); discriminate. }
  rewrite <- E, removelast_last, last_last.
  destruct Wr as [Vr Okr].
  apply WF_position_ext; auto.
  - split; [exact Vr|]. intros c. destruct (Okr c) as (H1 & H2 & H3 & H4).
    split; [exact H1|]. split; [exact H2|]. split; [exact H3|exact H4].
  - unfold globalsOf. simpl. congruence.
Qed.

Lemma MakeInv_init p :
  WF p ->
  MakeInv p (set_history (history_ p ++ [hash_ p]) p)
    (mkUndo (turn_ p) (bastionRight_ p) (wallBuiltLast_ p) (sovereignSq_ p)
       (wallTokens_ p) (halfmove_ p) (fullmove_ p) (winner_ p) (winReason_ p) []).
Proof.
  intros [Hb Hok]. split; [|split; [|split]].
  - split; [exact Hb|exact Hok].
  - simpl. destruct Hb as [L V]. split; [exact L|]. split; [exact L|].
    split; [intros s v []|reflexivity].
  - reflexivity.
  - reflexivity.
Qed.

Lemma relocate_inv p pc uc m srcV :
  MakeInv p pc uc -> inBoard (m_from m) -> inBoard (m_to m) -> validVal srcV ->
  MakeInv p (fst (relocate m srcV pc uc)) (snd (relocate m srcV pc uc)) /\
  isSaved (m_from m) (u_saved (snd (relocate m srcV pc uc))) = true /\
  isSaved (m_to m) (u_saved (snd (relocate m srcV pc uc))) = true.
Proof.
  intros H Hf Ht Hv. unfold relocate. cbn [fst snd].
  destruct (MakeInv_save p pc uc (m_from m) H Hf) as (I1 & S1 & M1).
  destruct (MakeInv_save p pc _ (m_to m) I1 Ht) as (I2 & S2 & M2).
  split; [|auto].
  apply MakeInv_write; auto; [|unfold validVal; lia].
  apply MakeInv_write; auto.
Qed.

Lemma captureSovereign_inv p pc uc m us srcV :
  MakeInv p pc uc -> inBoard (m_from m) -> inBoard (m_to m) -> validVal srcV ->
  MakeInv p (fst (captureSovereign m us (m_to m) srcV pc uc))
            (snd (captureSovereign m us (m_to m) srcV pc uc)).
Proof.
  intros H Hf Ht Hv. unfold captureSovereign. cbn [fst snd].
  destruct (MakeInv_save p pc uc (m_to m) H Ht) as (I1 & S1 & M1).
  destruct (MakeInv_save p pc _ (m_from m) I1 Hf) as (I2 & S2 & M2).
  eapply MakeInv_frame; [|apply sameBoards_setWallBuiltLast].
  eapply MakeInv_frame; [|apply sameBoards_set_halfmove].
  eapply MakeInv_frame; [|apply sameBoards_set_winReason].
  eapply MakeInv_frame; [|apply sameBoards_set_winner].
  eapply MakeInv_frame; [|apply sameBoards_set_sovereignSq].
  match goal with |- MakeInv _ (if ?c then _ else _) _ => destruct c end.
  - eapply MakeInv_frame; [|apply sameBoards_dropBastionRight].
    eapply MakeInv_frame; [|apply sameBoards_set_sovereignSq].
    apply MakeInv_write; auto; [|unfold validVal; lia].
    apply MakeInv_write; auto.
  - apply MakeInv_write; auto; [|unfold validVal; lia].
    apply MakeInv_write; auto.
Qed.

Lemma MakeInv_finish p pc uc us v :
  MakeInv p pc uc -> MakeInv p (finalizeTurn (setWallBuiltLast us v pc)) uc.
Proof.
  intros H.
  eapply MakeInv_frame; [|apply sameBoards_finalizeTurn].
  eapply MakeInv_frame; [|apply sameBoards_setWallBuiltLast]. exact H.
Qed.

Ltac frame_step :=
  eapply MakeInv_frame;
  [|first [ apply sameBoards_finalizeTurn | apply sameBoards_setWallBuiltLast
          | apply sameBoards_set_halfmove | apply sameBoards_addWallTokens
          | apply sameBoards_dropBastionRight | apply sameBoards_set_sovereignSq
          | apply sameBoards_set_winner | apply sameBoards_set_winReason ]].

Lemma wall_hp_valid (us : Color) (b : bool) :
  validVal (makeWall us (if b then 2 else 1)).
Proof. apply makeWall_valid. destruct b; lia. Qed.

Lemma aux_inBoard a (P : Prop) :
  a = SQ_NONE \/ (inBoard a /\ P) -> negb (a =? SQ_NONE) = true -> inBoard a /\ P.
Proof.
  intros [->|H] E; [discriminate|exact H].
Qed.

Lemma makeMove_inv p m :
  WF p -> Legal p m ->
  MakeInv p (fst (makeMove p m)) (snd (makeMove p m)).
Proof.
  intros W HL. pose proof (MakeInv_init p W) as I0.
  unfold makeMove. cbv zeta.
  set (p0 := set_history (history_ p ++ [hash_ p]) p) in *.
  change (turn_ p0) with (turn_ p) in *.
  change (bastionRight_ p0) with (bastionRight_ p) in *.
  change (wallBuiltLast_ p0) with (wallBuiltLast_ p) in *.
  change (sovereignSq_ p0) with (sovereignSq_ p) in *.
  change (wallTokens_ p0) with (wallTokens_ p) in *.
  change (halfmove_ p0) with (halfmove_ p) in *.
  change (fullmove_ p0) with (fullmove_ p) in *.
  change (winner_ p0) with (winner_ p) in *.
  change (winReason_ p0) with (winReason_ p) in *.
  set (u0 := mkUndo _ _ _ _ _ _ _ _ _ _) in *.
  destruct (gameOver p0); [exact I0|].
  assert (Hval : forall s, validVal (at_ p0 s)).
  { intros s. apply at_valid_any. apply W. }
  unfold Legal, LegalFor in HL.
  destruct (m_type m) eqn:Et.
  - (* Normal *)
    destruct HL as (Hf & Ht & _).
    match goal with |- context [if ?c then captureSovereign _ _ _ _ _ _ else _] =>
      destruct c end.
    + apply captureSovereign_inv; auto.
    + destruct (relocate_inv p p0 u0 m (at_ p0 (m_from m)) I0 Hf Ht (Hval _))
        as (I1 & _).
      destruct (relocate m (at_ p0 (m_from m)) p0 u0) as [p2 u2].
      cbn [fst snd] in *.
      do 3 frame_step.
      match goal with |- MakeInv _ (if ?c then _ else _) _ => destruct c end;
        [do 2 frame_step|]; exact I1.
  - (* MasonConstruct *)
    destruct HL as (Hf & Ht & _). cbn [fst snd].
    destruct (MakeInv_save p p0 u0 (m_to m) I0 Ht) as (I1 & S1 & _).
    do 4 frame_step.
    apply MakeInv_write; auto. apply wall_hp_valid.
  - (* MasonCommand *)
    destruct HL as (Hf & Ht & _ & _ & Ha).
    match goal with |- context [if ?c then captureSovereign _ _ _ _ _ _ else _] =>
      destruct c end.
    + apply captureSovereign_inv; auto.
    + destruct (relocate_inv p p0 u0 m (at_ p0 (m_from m)) I0 Hf Ht (Hval _))
        as (I1 & _).
      destruct (relocate m (at_ p0 (m_from m)) p0 u0) as [p2 u2].
      cbn [fst snd] in *.
      destruct (negb (m_aux1 m =? SQ_NONE)) eqn:Ea; cbn [fst snd].
      * destruct (aux_inBoard _ _ Ha Ea) as [Hin _].
        destruct (MakeInv_save p p2 u2 (m_aux1 m) I1 Hin) as (I2 & S2 & _).
        do 4 frame_step.
        apply MakeInv_write; auto. apply wall_hp_valid.
      * do 3 frame_step. exact I1.
  - (* CatapultMove *)
    destruct HL as (Hf & Ht & _ & _ & Ha).
    match goal with |- context [if ?c then captureSovereign _ _ _ _ _ _ else _] =>
      destruct c end.
    + apply captureSovereign_inv; auto.
    + destruct (relocate_inv p p0 u0 m (at_ p0 (m_from m)) I0 Hf Ht (Hval _))
        as (I1 & _).
      destruct (relocate m (at_ p0 (m_from m)) p0 u0) as [p2 u2].
      cbn [fst snd] in *.
      destruct (negb (m_aux1 m =? SQ_NONE)) eqn:Ea; cbn [fst snd].
      * destruct (aux_inBoard _ _ Ha Ea) as [Hin _].
        destruct (MakeInv_save p p2 u2 (m_aux1 m) I1 Hin) as (I2 & S2 & _).
        do 3 frame_step.
        apply MakeInv_hitWall; auto.
      * do 3 frame_step. exact I1.
  - (* CatapultRangedDemolish *)
    destruct HL as (Hf & Ht & _). cbn [fst snd].
    destruct (MakeInv_save p p0 u0 (m_to m) I0 Ht) as (I1 & S1 & _).
    do 3 frame_step.
    apply MakeInv_hitWall; auto.
  - (* Bastion *)
    destruct HL as (Hf & Ht & Ha1 & Ha2 & _). cbn [fst snd].
    destruct (MakeInv_save p p0 u0 (m_from m) I0 Hf) as (I1 & S1 & M1).
    destruct (MakeInv_save p p0 _ (m_to m) I1 Ht) as (I2 & S2 & M2).
    assert (I3 : MakeInv p
      (dropBastionRight (turn_ p)
         (set_sovereignSq
            (setC (turn_ p) (m_to m)
               (sovereignSq_
                  (setSquareRaw (m_from m) (at_ p0 (m_to m))
                     (setSquareRaw (m_to m) (at_ p0 (m_from m)) p0))))
            (setSquareRaw (m_from m) (at_ p0 (m_to m))
               (setSquareRaw (m_to m) (at_ p0 (m_from m)) p0))))
      (saveSquare p0 (saveSquare p0 u0 (m_from m)) (m_to m))).
    { do 2 frame_step. apply MakeInv_write; auto. apply MakeInv_write; auto. }
    match type of I3 with MakeInv _ ?q _ => set (p3 := q) in * end.
    destruct (MakeInv_save p p3 _ (m_aux1 m) I3 Ha1) as (I4 & S4 & M4).
    assert (Hw : validVal (makeWall (turn_ p) 1)) by (apply makeWall_valid; lia).
    assert (I5 : MakeInv p
      (addWallTokens (turn_ p) 1 (setSquareRaw (m_aux1 m) (makeWall (turn_ p) 1) p3))
      (saveSquare p3 (saveSquare p0 (saveSquare p0 u0 (m_from m)) (m_to m)) (m_aux1 m))).
    { frame_step. apply MakeInv_write; auto. }
    match type of I5 with MakeInv _ ?q _ => set (p4 := q) in * end.
    destruct (MakeInv_save p p4 _ (m_aux2 m) I5 Ha2) as (I6 & S6 & M6).
    do 4 frame_step.
    apply MakeInv_write; auto.
Qed.

(** C1. For a well-formed position and any action of its generator list,
    [makeMove] followed by [undoMove] gives back the very same position:
    board, bitboards, wall tokens, Sovereign squares, rights and flags,
    turn, clocks, winner and reason, hash and history. *)
Theorem make_undo_restores (p : Position) (m : Move) :
  WF p -> In m (movesOf p) ->
  undoMove (fst (makeMove p m)) (snd (makeMove p m)) = p.
Proof.
  intros W Hin. apply undoMove_MakeInv; auto.
  apply makeMove_inv; auto.
  now apply generateMoves_ok.
Qed.

(* ===================================================================== *)
(** * A checker for the class invariant *)
(* ===================================================================== *)

Definition wfBBb (bb : Bitboard81) : bool :=
  (0 <=? lo bb) && (lo bb <? 2 ^ 64) && (0 <=? hi bb) && (hi bb <? 2 ^ 17).

Definition BBrepb (b : list Z) (bb : Bitboard81) (f : Z -> bool) : bool :=
  wfBBb bb && forallb (fun s => Bool.eqb (bb_test bb s) (f (cell b s))) allSquares.

Definition allPieceTypes : list PieceType :=
  [Mason; Catapult; Lancer; Pegasus; Minister; Sovereign; Count].

Definition BoardsOKb (p : Position) : bool :=
  forallb (fun c =>
    forallb (fun pt => BBrepb (b_ p) (pieceBB p c pt) (isPieceOf c pt)) allPieceTypes
    && BBrepb (b_ p) (getC c (piecesBB_ p)) (fPieces c)
    && BBrepb (b_ p) (getC c (wallsBB_ p)) (fWalls c)
    && BBrepb (b_ p) (getC c (wallsReinfBB_ p)) (fReinf c)) [White; Black].

Definition validBoardb (b : list Z) : bool :=
  (Z.of_nat (List.length b) =? 81)
  && forallb (fun s => (-8 <=? cell b s) && (cell b s <=? 8)) allSquares.

Definition WFb (p : Position) : bool := validBoardb (b_ p) && BoardsOKb p.

Lemma high_bits_small x k :
  0 <= x < 2 ^ k -> 0 <= k -> forall n, k <= n -> Z.testbit x n = false.
Proof.
  intros Hx Hk n Hn. destruct (Z.eq_dec x 0) as [->|Hne]; [apply Z.bits_0|].
  apply Z.bits_above_log2; [lia|].
  assert (Z.log2 x < k) by (apply Z.log2_lt_pow2; lia). lia.
Qed.

Lemma wfBBb_sound bb : wfBBb bb = true -> wfBB bb.
Proof.
  unfold wfBBb. intros H.
  apply andb_prop in H. destruct H as [H H4].
  apply andb_prop in H. destruct H as [H H3].
  apply andb_prop in H. destruct H as [H1 H2].
  apply Z.leb_le in H1, H3. apply Z.ltb_lt in H2, H4.
  split; apply high_bits_small; lia.
Qed.

Lemma BBrepb_sound b bb f : BBrepb b bb f = true -> BBrep b bb f.
Proof.
  unfold BBrepb. intros H. apply andb_prop in H. destruct H as [H1 H2].
  split; [now apply wfBBb_sound|].
  intros s Hs. rewrite forallb_forall in H2.
  apply eqb_prop. apply H2. now apply allSquares_In.
Qed.

Lemma validBoardb_sound b : validBoardb b = true -> validBoard b.
Proof.
  unfold validBoardb. intros H. apply andb_prop in H. destruct H as [H1 H2].
  apply Z.eqb_eq in H1. split; [lia|].
  intros s Hs. rewrite forallb_forall in H2.
  specialize (H2 s (proj2 (allSquares_In s) Hs)).
  apply andb_prop in H2. destruct H2 as [A B].
  apply Z.leb_le in A, B. unfold validVal. lia.
Qed.

Lemma WFb_sound p : WFb p = true -> WF p.
Proof.
  unfold WFb, BoardsOKb. intros H. apply andb_prop in H. destruct H as [H1 H2].
  split; [now apply validBoardb_sound|].
  rewrite forallb_forall in H2.
  intros c. specialize (H2 c ltac:(destruct c; simpl; auto)).
  apply andb_prop in H2. destruct H2 as [H2 R4].
  apply andb_prop in H2. destruct H2 as [H2 R3].
  apply andb_prop in H2. destruct H2 as [R1 R2].
  rewrite forallb_forall in R1.
  split; [|auto using BBrepb_sound].
  intros pt. apply BBrepb_sound. apply R1. destruct pt; simpl; auto 10.
Qed.

(** C10. Move generation leaves a well-formed position exactly as it was:
    the board, every bitboard, wall tokens, Sovereign squares, hash and
    history after [generateMoves] are those before it, although the
    Mason Command enumeration moves the Mason on the board in between. *)
Theorem generateMoves_leaves_position (p : Position) :
  WF p -> fst (generateMoves p) = p.
Proof. intros W. now apply generateMoves_ok. Qed.

Lemma generateMoves_leaves_position_witness :
  WF initial /\ fst (generateMoves initial) = initial.
Proof.
  assert (W : WF initial) by (apply WFb_sound; vm_compute; reflexivity).
  split; [exact W|].
  apply (generateMoves_leaves_position initial); exact W.
Defined.

Lemma make_undo_restores_witness :
  WF initial /\
  In (mkMove MasonCommand 66 57 66 SQ_NONE) (movesOf initial) /\
  undoMove (fst (makeMove initial (mkMove MasonCommand 66 57 66 SQ_NONE)))
           (snd (makeMove initial (mkMove MasonCommand 66 57 66 SQ_NONE)))
  = initial.
Proof.
  assert (W : WF initial) by (apply WFb_sound; vm_compute; reflexivity).
  assert (I : In (mkMove MasonCommand 66 57 66 SQ_NONE) (movesOf initial)).
  { vm_compute. repeat (first [left; reflexivity | right]). }
  split; [exact W|]. split; [exact I|].
  apply (make_undo_restores initial _ W I).
Defined.

(* ===================================================================== *)
(** * Field-by-field effect of the building blocks of [makeMove] *)
(* ===================================================================== *)


Lemma setSquareRaw_turn_ s v p : turn_ (setSquareRaw s v p) = turn_ p.
Proof.
  pose proof (setSquareRaw_globals s v p) as G. unfold globalsOf in G. congruence.
Qed.

Lemma setSquareRaw_bastionRight_ s v p : bastionRight_ (setSquareRaw s v p) = bastionRight_ p.
Proof.
  pose proof (setSquareRaw_globals s v p) as G. unfold globalsOf in G. congruence.
Qed.

Lemma setSquareRaw_wallBuiltLast_ s v p : wallBuiltLast_ (setSquareRaw s v p) = wallBuiltLast_ p.
Proof.
  pose proof (setSquareRaw_globals s v p) as G. unfold globalsOf in G. congruence.
Qed.

Lemma setSquareRaw_sovereignSq_ s v p : sovereignSq_ (setSquareRaw s v p) = sovereignSq_ p.
Proof.
  pose proof (setSquareRaw_globals s v p) as G. unfold globalsOf in G. congruence.
Qed.

Lemma setSquareRaw_wallTokens_ s v p : wallTokens_ (setSquareRaw s v p) = wallTokens_ p.
Proof.
  pose proof (setSquareRaw_globals s v p) as G. unfold globalsOf in G. congruence.
Qed.

Lemma setSquareRaw_halfmove_ s v p : halfmove_ (setSquareRaw s v p) = halfmove_ p.
Proof.
  pose proof (setSquareRaw_globals s v p) as G. unfold globalsOf in G. congruence.
Qed.

Lemma setSquareRaw_fullmove_ s v p : fullmove_ (setSquareRaw s v p) = fullmove_ p.
Proof.
  pose proof (setSquareRaw_globals s v p) as G. unfold globalsOf in G. congruence.
Qed.

Lemma setSquareRaw_winner_ s v p : winner_ (setSquareRaw s v p) = winner_ p.
Proof.
  pose proof (setSquareRaw_globals s v p) as G. unfold globalsOf in G. congruence.
Qed.

Lemma setSquareRaw_winReason_ s v p : winReason_ (setSquareRaw s v p) = winReason_ p.
Proof.
  pose proof (setSquareRaw_globals s v p) as G. unfold globalsOf in G. congruence.
Qed.

Lemma setSquareRaw_history_ s v p : history_ (setSquareRaw s v p) = history_ p.
Proof.
  pose proof (setSquareRaw_globals s v p) as G. unfold globalsOf in G. congruence.
Qed.

Lemma hitWall_turn_ s p : turn_ (hitWall s p) = turn_ p.
Proof.
  unfold hitWall. all_ifs; auto; simpl; apply setSquareRaw_turn_.
Qed.

Lemma hitWall_bastionRight_ s p : bastionRight_ (hitWall s p) = bastionRight_ p.
Proof.
  unfold hitWall. all_ifs; auto; simpl; apply setSquareRaw_bastionRight_.
Qed.

Lemma hitWall_wallBuiltLast_ s p : wallBuiltLast_ (hitWall s p) = wallBuiltLast_ p.
Proof.
  unfold hitWall. all_ifs; auto; simpl; apply setSquareRaw_wallBuiltLast_.
Qed.

Lemma hitWall_sovereignSq_ s p : sovereignSq_ (hitWall s p) = sovereignSq_ p.
Proof.
  unfold hitWall. all_ifs; auto; simpl; apply setSquareRaw_sovereignSq_.
Qed.

Lemma hitWall_halfmove_ s p : halfmove_ (hitWall s p) = halfmove_ p.
Proof.
  unfold hitWall. all_ifs; auto; simpl; apply setSquareRaw_halfmove_.
Qed.

Lemma hitWall_fullmove_ s p : fullmove_ (hitWall s p) = fullmove_ p.
Proof.
  unfold hitWall. all_ifs; auto; simpl; apply setSquareRaw_fullmove_.
Qed.

Lemma hitWall_winner_ s p : winner_ (hitWall s p) = winner_ p.
Proof.
  unfold hitWall. all_ifs; auto; simpl; apply setSquareRaw_winner_.
Qed.

Lemma hitWall_winReason_ s p : winReason_ (hitWall s p) = winReason_ p.
Proof.
  unfold hitWall. all_ifs; auto; simpl; apply setSquareRaw_winReason_.
Qed.

Lemma hitWall_history_ s p : history_ (hitWall s p) = history_ p.
Proof.
  unfold hitWall. all_ifs; auto; simpl; apply setSquareRaw_history_.
Qed.

Ltac fields :=
  rewrite ?setSquareRaw_turn_,
    ?setSquareRaw_bastionRight_,
    ?setSquareRaw_wallBuiltLast_,
    ?setSquareRaw_sovereignSq_,
    ?setSquareRaw_wallTokens_,
    ?setSquareRaw_halfmove_,
    ?setSquareRaw_fullmove_,
    ?setSquareRaw_winner_,
    ?setSquareRaw_winReason_,
    ?setSquareRaw_history_,
    ?hitWall_turn_,
    ?hitWall_bastionRight_,
    ?hitWall_wallBuiltLast_,
    ?hitWall_sovereignSq_,
    ?hitWall_halfmove_,
    ?hitWall_fullmove_,
    ?hitWall_winner_,
    ?hitWall_winReason_,
    ?hitWall_history_.



Lemma movesOf_gameOver p : gameOver p = true -> movesOf p = [].
Proof. intros H. unfold movesOf, generateMoves. now rewrite H. Qed.

Lemma movesOf_not_over p m : In m (movesOf p) -> gameOver p = false.
Proof.
  intros H. destruct (gameOver p) eqn:E; auto.
  rewrite movesOf_gameOver in H by assumption. destruct H.
Qed.

Lemma captureSovereign_fields m us toSq srcV p u :
  let q := fst (captureSovereign m us toSq srcV p u) in
  winner_ q = cidx us /\ winReason_ q = Regicide /\ halfmove_ q = 0 /\
  turn_ q = turn_ p.
Proof.
  unfold captureSovereign, setWallBuiltLast, dropBastionRight, xorHash.
  cbn [fst]. all_ifs; cbn; fields; auto.
Qed.

Lemma gameOver_winner p c : winner_ p = cidx c -> gameOver p = true.
Proof. unfold gameOver. intros ->. destruct c; reflexivity. Qed.

(** C4. A generated action that lands on the opposing Sovereign is a
    Normal, MasonCommand or CatapultMove action; [makeMove] then records
    the mover as winner by Regicide, resets the halfmove clock and keeps
    the side to move.  Once a winner is recorded, [generateMoves] lists
    nothing. *)
Theorem regicide_ends_game (p : Position) (m : Move) :
  WF p -> In m (movesOf p) ->
  isPieceOf (other (turn_ p)) Sovereign (at_ p (m_to m)) = true ->
  let p' := fst (makeMove p m) in
  (m_type m = Normal \/ m_type m = MasonCommand \/ m_type m = CatapultMove) /\
  winner_ p' = cidx (turn_ p) /\ winReason_ p' = Regicide /\
  halfmove_ p' = 0 /\ turn_ p' = turn_ p /\
  (forall q, gameOver q = true -> movesOf q = []).
Proof.
  intros W Hin Hcap. cbv zeta.
  pose proof (movesOf_not_over p m Hin) as Hgo.
  pose proof (proj2 (generateMoves_ok p W) m Hin) as HL.
  unfold Legal, LegalFor in HL.
  assert (Hfields :
    (m_type m = Normal \/ m_type m = MasonCommand \/ m_type m = CatapultMove) ->
    winner_ (fst (makeMove p m)) = cidx (turn_ p) /\
    winReason_ (fst (makeMove p m)) = Regicide /\
    halfmove_ (fst (makeMove p m)) = 0 /\ turn_ (fst (makeMove p m)) = turn_ p).
  { intros Ht. unfold makeMove. cbv zeta.
    change (gameOver (set_history (history_ p ++ [hash_ p]) p)) with (gameOver p).
    rewrite Hgo.
    change (at_ (set_history (history_ p ++ [hash_ p]) p) (m_to m))
      with (at_ p (m_to m)).
    unfold isPieceOf in Hcap.
    change (turn_ (set_history (history_ p ++ [hash_ p]) p)) with (turn_ p).
    destruct Ht as [E|[E|E]]; rewrite E; rewrite Hcap;
      match goal with |- context [captureSovereign ?a ?b ?c ?d ?e ?f] =>
        exact (captureSovereign_fields a b c d e f) end. }
  assert (Hty : m_type m = Normal \/ m_type m = MasonCommand \/ m_type m = CatapultMove).
  { assert (Hnz : at_ p (m_to m) <> 0)
      by (apply isPieceOf_fPieces in Hcap; now apply fPieces_not_zero in Hcap).
    assert (Hth : fPieces (turn_ p) (at_ p (m_to m)) = false).
    { apply isPieceOf_fPieces, fPieces_other in Hcap.
      now rewrite other_involutive in Hcap. }
    destruct (m_type m); auto.
    - destruct HL as (_ & _ & _ & E). congruence.
    - destruct HL as (_ & _ & _ & E).
      unfold isPieceOf in Hcap. apply andb_prop in Hcap. destruct Hcap as [Hc _].
      apply andb_prop in Hc. destruct Hc as [Hc _].
      pose proof (at_valid_any p (m_to m) (proj1 W)) as Hv.
      revert Hc E. generalize dependent (at_ p (m_to m)). intros v.
      intros. case_val v Hv; cbv in Hc, E; congruence.
    - destruct HL as (_ & _ & _ & _ & _ & E & _).
      apply isPieceOf_fPieces in E. congruence. }
  split; [exact Hty|].
  destruct (Hfields Hty) as (A & B & C & D).
  repeat split; auto. apply movesOf_gameOver.
Qed.

Lemma regicide_ends_game_witness :
  let p := positionOf "4s4/4C4/9/9/9/9/9/9/4S4 w - - 0 1" in
  let m := mkMove CatapultMove 13 4 SQ_NONE SQ_NONE in
  WF p /\ In m (movesOf p) /\
  isPieceOf (other (turn_ p)) Sovereign (at_ p (m_to m)) = true /\
  winner_ (fst (makeMove p m)) = cidx (turn_ p) /\
  winReason_ (fst (makeMove p m)) = Regicide.
Proof.
  cbv zeta.
  assert (W : WF (positionOf "4s4/4C4/9/9/9/9/9/9/4S4 w - - 0 1"))
    by (apply WFb_sound; vm_compute; reflexivity).
  assert (I : In (mkMove CatapultMove 13 4 SQ_NONE SQ_NONE)
                 (movesOf (positionOf "4s4/4C4/9/9/9/9/9/9/4S4 w - - 0 1")))
    by (vm_compute; repeat (first [left; reflexivity | right])).
  assert (C : isPieceOf (other (turn_ (positionOf "4s4/4C4/9/9/9/9/9/9/4S4 w - - 0 1")))
                Sovereign
                (at_ (positionOf "4s4/4C4/9/9/9/9/9/9/4S4 w - - 0 1") 4) = true)
    by (vm_compute; reflexivity).
  split; [exact W|]. split; [exact I|]. split; [exact C|].
  pose proof (regicide_ends_game _ _ W I C) as H. cbv zeta in H.
  split; apply H.
Defined.

(** ** The move proper, before [finalizeTurn] *)

(** [q] still has [p]'s winner, side to move and opposing Sovereign square. *)
Definition Keeps (p q : Position) : Prop :=
  winner_ q = winner_ p /\ turn_ q = turn_ p /\
  getC (other (turn_ p)) (sovereignSq_ q) = getC (other (turn_ p)) (sovereignSq_ p).

Lemma Keeps_refl p : Keeps p p.
Proof. repeat split. Qed.

Lemma Keeps_trans p q r : Keeps p q -> Keeps q r -> Keeps p r.
Proof.
  intros (A1 & A2 & A3) (B1 & B2 & B3). rewrite A2 in B3.
  repeat split; congruence.
Qed.

Lemma Keeps_setSquareRaw s v p : Keeps p (setSquareRaw s v p).
Proof. unfold Keeps. now fields. Qed.

Lemma Keeps_hitWall s p : Keeps p (hitWall s p).
Proof. unfold Keeps. now fields. Qed.

Lemma Keeps_setWallBuiltLast c v p : Keeps p (setWallBuiltLast c v p).
Proof. unfold setWallBuiltLast. all_ifs; repeat split. Qed.

Lemma Keeps_dropBastionRight c p : Keeps p (dropBastionRight c p).
Proof. unfold dropBastionRight. all_ifs; repeat split. Qed.

Lemma Keeps_addWallTokens c hp p : Keeps p (addWallTokens c hp p).
Proof. repeat split. Qed.

Lemma Keeps_set_halfmove v p : Keeps p (set_halfmove v p).
Proof. repeat split. Qed.

Lemma Keeps_set_history v p : Keeps p (set_history v p).
Proof. repeat split. Qed.

Lemma Keeps_moveSovereign s p :
  Keeps p (set_sovereignSq (setC (turn_ p) s (sovereignSq_ p)) p).
Proof.
  unfold Keeps. cbn. repeat split. apply getC_setC_other.
Qed.

Ltac keeps_step :=
  first [ eapply Keeps_trans; [|apply Keeps_setWallBuiltLast]
        | eapply Keeps_trans; [|apply Keeps_set_halfmove]
        | eapply Keeps_trans; [|apply Keeps_addWallTokens]
        | eapply Keeps_trans; [|apply Keeps_dropBastionRight]
        | eapply Keeps_trans; [|apply Keeps_setSquareRaw]
        | eapply Keeps_trans; [|apply Keeps_hitWall]
        | eapply Keeps_trans; [|apply Keeps_set_history] ].

Lemma Keeps_sovereign_step p q s :
  Keeps p q ->
  Keeps p (set_sovereignSq (setC (turn_ p) s (sovereignSq_ q)) q).
Proof.
  intros (A1 & A2 & A3). unfold Keeps. cbn. repeat split; auto.
  now rewrite getC_setC_other.
Qed.

(** Without a Sovereign capture, [makeMove] ends in [finalizeTurn]. *)
Lemma makeMove_finalize p m :
  gameOver p = false ->
  isPieceOf (other (turn_ p)) Sovereign (at_ p (m_to m)) = false ->
  exists pre, fst (makeMove p m) = finalizeTurn pre /\ Keeps p pre.
Proof.
  intros Hgo Hcap. unfold makeMove. cbv zeta.
  set (p0 := set_history (history_ p ++ [hash_ p]) p).
  change (gameOver p0) with (gameOver p). rewrite Hgo.
  change (at_ p0 (m_to m)) with (at_ p (m_to m)).
  change (turn_ p0) with (turn_ p).
  unfold isPieceOf in Hcap. rewrite Hcap.
  unfold relocate. cbv zeta.
  destruct (m_type m).
  - eexists. split; [reflexivity|].
    do 2 keeps_step.
    match goal with |- Keeps _ (if ?c then _ else _) => destruct c end.
    + keeps_step. apply Keeps_sovereign_step. repeat keeps_step. apply Keeps_refl.
    + repeat keeps_step. apply Keeps_refl.
  - eexists. split; [reflexivity|]. repeat keeps_step. apply Keeps_refl.
  - destruct (negb (m_aux1 m =? SQ_NONE)); eexists; (split; [reflexivity|]);
      repeat keeps_step; apply Keeps_refl.
  - destruct (negb (m_aux1 m =? SQ_NONE)); eexists; (split; [reflexivity|]);
      repeat keeps_step; apply Keeps_refl.
  - eexists. split; [reflexivity|]. repeat keeps_step. apply Keeps_refl.
  - eexists. split; [reflexivity|]. repeat keeps_step.
    apply Keeps_sovereign_step. repeat keeps_step. apply Keeps_refl.
Qed.

Lemma isEntombed_spec p victim :
  inBoard (sovereignSq p victim) ->
  (isEntombed p victim = true <->
   forall d, In d DIRS8 ->
     inBounds (row (sovereignSq p victim) + fst d) (col (sovereignSq p victim) + snd d) = true ->
     isWallVal (at_ p (sq (row (sovereignSq p victim) + fst d)
                          (col (sovereignSq p victim) + snd d))) = true).
Proof.
  intros Hk. unfold isEntombed. cbv zeta.
  destruct (Z.eqb_spec (sovereignSq p victim) SQ_NONE) as [E|E].
  { unfold inBoard, SQ_NONE in *. lia. }
  rewrite forallb_forall. unfold kingTargets. split.
  - intros H d Hd Hb. apply H. apply stepTargets_In. eauto.
  - intros H adj Hadj. apply stepTargets_In in Hadj.
    destruct Hadj as (d & Hd & Hb & ->). now apply H.
Qed.

Lemma finalizeTurn_cases pre :
  winner_ pre = SQ_NONE ->
  (isEntombed pre (other (turn_ pre)) = true /\
   winner_ (finalizeTurn pre) = cidx (turn_ pre) /\
   winReason_ (finalizeTurn pre) = Entombment /\
   halfmove_ (finalizeTurn pre) = 0 /\ turn_ (finalizeTurn pre) = turn_ pre)
  \/
  (isEntombed pre (other (turn_ pre)) = false /\
   winner_ (finalizeTurn pre) = SQ_NONE /\
   turn_ (finalizeTurn pre) = other (turn_ pre)).
Proof.
  intros Hw. unfold finalizeTurn. rewrite Hw.
  change (negb (SQ_NONE =? SQ_NONE)) with false. cbv iota.
  destruct (isEntombed pre (other (turn_ pre))).
  - left. repeat split.
  - right. split; [reflexivity|].
    destruct (color_eqb (turn_ (xorHash turnKey pre)) Black); split; auto.
Qed.

(** C5. After a generated action that does not capture the opposing
    Sovereign, the mover is the winner by Entombment exactly when every
    in-bounds 8-neighbour of the opposing Sovereign's square holds a wall
    (of either colour; squares off the board do not count); in that case
    the halfmove clock is reset and the side to move is kept. *)
Theorem entombment_iff_walled (p : Position) (m : Move) :
  In m (movesOf p) ->
  isPieceOf (other (turn_ p)) Sovereign (at_ p (m_to m)) = false ->
  inBoard (sovereignSq p (other (turn_ p))) ->
  let p' := fst (makeMove p m) in
  let k := sovereignSq p (other (turn_ p)) in
  let walled :=
    forall d, In d DIRS8 -> inBounds (row k + fst d) (col k + snd d) = true ->
      isWallVal (at_ p' (sq (row k + fst d) (col k + snd d))) = true in
  ((winner_ p' = cidx (turn_ p) /\ winReason_ p' = Entombment) <-> walled) /\
  (walled -> halfmove_ p' = 0 /\ turn_ p' = turn_ p).
Proof.
  intros Hin Hcap Hk. cbv zeta.
  pose proof (movesOf_not_over p m Hin) as Hgo.
  destruct (makeMove_finalize p m Hgo Hcap) as (pre & -> & K1 & K2 & K3).
  assert (Hw : winner_ pre = SQ_NONE).
  { rewrite K1. unfold gameOver in Hgo.
    destruct (Z.eqb_spec (winner_ p) SQ_NONE); [assumption|discriminate]. }
  assert (Hb : forall s, at_ (finalizeTurn pre) s = at_ pre s).
  { intros s. unfold at_. now rewrite (proj1 (sameBoards_finalizeTurn pre)). }
  assert (Hs : sovereignSq pre (other (turn_ pre)) = sovereignSq p (other (turn_ p))).
  { unfold sovereignSq. now rewrite K2. }
  pose proof (isEntombed_spec pre (other (turn_ pre))) as Hspec.
  rewrite Hs in Hspec. specialize (Hspec Hk).
  assert (Hiff : isEntombed pre (other (turn_ pre)) = true <->
    forall d, In d DIRS8 ->
      inBounds (row (sovereignSq p (other (turn_ p))) + fst d)
               (col (sovereignSq p (other (turn_ p))) + snd d) = true ->
      isWallVal (at_ (finalizeTurn pre)
                   (sq (row (sovereignSq p (other (turn_ p))) + fst d)
                       (col (sovereignSq p (other (turn_ p))) + snd d))) = true).
  { rewrite Hspec. split; intros H d Hd Hbd; [rewrite Hb|rewrite <- Hb]; auto. }
  rewrite <- Hiff. clear Hiff Hspec.
  destruct (finalizeTurn_cases pre Hw) as [(E & A & B & C & D)|(E & A & B)];
    rewrite E.
  - rewrite A, B, C, D, K2. repeat split; auto.
  - rewrite A. split.
    + split; [|discriminate]. intros [F _].
      destruct (turn_ p); discriminate.
    + discriminate.
Qed.

Lemma entombment_iff_walled_witness :
  let p := positionOf "sW7/W8/1M7/9/9/9/9/9/4S4 w - - 0 1" in
  let m := mkMove MasonConstruct 19 10 SQ_NONE SQ_NONE in
  In m (movesOf p) /\
  isPieceOf (other (turn_ p)) Sovereign (at_ p (m_to m)) = false /\
  inBoard (sovereignSq p (other (turn_ p))) /\
  winner_ (fst (makeMove p m)) = cidx White /\
  winReason_ (fst (makeMove p m)) = Entombment.
Proof.
  cbv zeta.
  assert (I : In (mkMove MasonConstruct 19 10 SQ_NONE SQ_NONE)
                 (movesOf (positionOf "sW7/W8/1M7/9/9/9/9/9/4S4 w - - 0 1")))
    by (vm_compute; repeat (first [left; reflexivity | right])).
  assert (C : isPieceOf (other (turn_ (positionOf "sW7/W8/1M7/9/9/9/9/9/4S4 w - - 0 1")))
                Sovereign
                (at_ (positionOf "sW7/W8/1M7/9/9/9/9/9/4S4 w - - 0 1") 10) = false)
    by (vm_compute; reflexivity).
  assert (K : inBoard (sovereignSq (positionOf "sW7/W8/1M7/9/9/9/9/9/4S4 w - - 0 1")
                         (other (turn_ (positionOf "sW7/W8/1M7/9/9/9/9/9/4S4 w - - 0 1")))))
    by (match goal with |- inBoard ?k =>
          let v := eval vm_compute in k in change k with v end;
        unfold inBoard; lia).
  split; [exact I|]. split; [exact C|]. split; [exact K|].
  pose proof (entombment_iff_walled _ _ I C K) as H. cbv zeta in H.
  destruct H as [H _]. apply H.
  intros d Hd Hb. revert Hb.
  unfold DIRS8 in Hd. cbn [In] in Hd.
  repeat (destruct Hd as [<-|Hd];
          [vm_compute; intros Hb; first [discriminate Hb | reflexivity]|]).
  destruct Hd.
Defined.

(** ** Mason Construct *)

Lemma finalize_at p us v s :
  at_ (finalizeTurn (setWallBuiltLast us v p)) s = at_ p s.
Proof.
  unfold at_.
  rewrite (proj1 (sameBoards_finalizeTurn _)).
  now rewrite (proj1 (sameBoards_setWallBuiltLast _ _ _)).
Qed.

(** C3 (as amended).  A generated MasonConstruct action leaves on [to] a
    wall of the mover whose HP is 2 when the Mason's own square [from] is
    a Keep square and 1 otherwise. *)
Theorem construct_wall_hp (p : Position) (m : Move) :
  WF p -> In m (movesOf p) -> m_type m = MasonConstruct ->
  at_ (fst (makeMove p m)) (m_to m)
  = makeWall (turn_ p) (if isKeepSq (m_from m) then 2 else 1)
  /\ wallHp (at_ (fst (makeMove p m)) (m_to m))
     = (if isKeepSq (m_from m) then 2 else 1).
Proof.
  intros W Hin Et.
  pose proof (movesOf_not_over p m Hin) as Hgo.
  pose proof (proj2 (generateMoves_ok p W) m Hin) as HL.
  unfold Legal, LegalFor in HL. rewrite Et in HL.
  destruct HL as (_ & Ht & _).
  assert (E : at_ (fst (makeMove p m)) (m_to m)
              = makeWall (turn_ p) (if isKeepSq (m_from m) then 2 else 1)).
  { unfold makeMove. cbv zeta.
    change (gameOver (set_history (history_ p ++ [hash_ p]) p)) with (gameOver p).
    rewrite Hgo, Et. cbn [fst].
    rewrite finalize_at. unfold at_. cbn [b_ set_halfmove addWallTokens set_wallTokens].
    rewrite setSquareRaw_b. cbn [b_ set_history].
    apply cell_upd_eq. destruct W as [[L _] _]. rewrite L. exact Ht. }
  split; [exact E|]. rewrite E.
  destruct (turn_ p), (isKeepSq (m_from m)); reflexivity.
Qed.

Lemma construct_wall_hp_witness :
  let p := positionOf "4s4/9/9/3M5/9/9/9/9/4S4 w - - 0 1" in
  let m := mkMove MasonConstruct 30 21 SQ_NONE SQ_NONE in
  WF p /\ In m (movesOf p) /\ m_type m = MasonConstruct /\
  wallHp (at_ (fst (makeMove p m)) (m_to m)) = 2.
Proof.
  cbv zeta.
  assert (W : WF (positionOf "4s4/9/9/3M5/9/9/9/9/4S4 w - - 0 1"))
    by (apply WFb_sound; vm_compute; reflexivity).
  assert (I : In (mkMove MasonConstruct 30 21 SQ_NONE SQ_NONE)
                 (movesOf (positionOf "4s4/9/9/3M5/9/9/9/9/4S4 w - - 0 1")))
    by (vm_compute; repeat (first [left; reflexivity | right])).
  split; [exact W|]. split; [exact I|]. split; [reflexivity|].
  exact (proj2 (construct_wall_hp _ _ W I eq_refl)).
Defined.

(** The claim as stated (HP by the wall's own square) fails both ways:
    a Mason on a Keep square builds an HP-2 wall outside the Keep, and a
    Mason outside the Keep builds an HP-1 wall on a Keep square. *)
Lemma construct_wall_hp_counterexample :
  (let p := positionOf "4s4/9/9/3M5/9/9/9/9/4S4 w - - 0 1" in
   let m := mkMove MasonConstruct 30 21 SQ_NONE SQ_NONE in
   In m (movesOf p) /\ isKeepSq (m_to m) = false /\
   wallHp (at_ (fst (makeMove p m)) (m_to m)) = 2) /\
  (let p := positionOf "4s4/9/3M5/9/9/9/9/9/4S4 w - - 0 1" in
   let m := mkMove MasonConstruct 21 30 SQ_NONE SQ_NONE in
   In m (movesOf p) /\ isKeepSq (m_to m) = true /\
   wallHp (at_ (fst (makeMove p m)) (m_to m)) = 1).
Proof.
  cbv zeta. split; (split; [|split]);
    vm_compute; try reflexivity; repeat (first [left; reflexivity | right]).
Qed.

(* ===================================================================== *)
(** * The derived state follows the board through [makeMove] *)
(* ===================================================================== *)

(** Hash facet: the running hash is the board hash XOR the flag keys. *)
Definition ResOK (p : Position) : Prop := hashResidue p = flagsHash p.

(** Token facet. *)
Definition TokOK (p : Position) : Prop :=
  forall c, wallTokens p c = boardTokens c (b_ p).

(** Sovereign facet: one Sovereign per colour at most, where
    [sovereignSq] says. *)
Definition SovOK (p : Position) : Prop :=
  forall c, SovAt (b_ p) c (sovereignSq p c).

Definition Good (p : Position) : Prop := WF p /\ TokOK p /\ SovOK p /\ ResOK p.

Lemma ResOK_hash p :
  ResOK p <-> hash_ p = Z.lxor (boardHash (b_ p)) (flagsHash p).
Proof.
  unfold ResOK, hashResidue. split; intros H.
  - rewrite <- H. xor_solve.
  - rewrite H. xor_solve.
Qed.

Lemma Good_Consistent p : Good p -> Consistent p.
Proof.
  intros (W & T & S & R). split; [exact W|]. split; [exact T|]. split.
  - intros c. symmetry. apply SovAt_boardSov, S.
  - now apply ResOK_hash.
Qed.

Lemma flagsHash_globals p q : globalsOf p = globalsOf q -> flagsHash p = flagsHash q.
Proof.
  unfold globalsOf, flagsHash. intros H. inversion H. congruence.
Qed.

Lemma ResOK_setSquareRaw s v p :
  List.length (b_ p) = 81%nat -> inBoard s -> ResOK p -> ResOK (setSquareRaw s v p).
Proof.
  intros L Hs R. unfold ResOK.
  rewrite setSquareRaw_residue by assumption.
  rewrite (flagsHash_globals _ p) by apply setSquareRaw_globals. exact R.
Qed.

(** Updates that leave the board, the hash and the three hashed flags. *)
Lemma ResOK_same p q :
  b_ q = b_ p -> hash_ q = hash_ p -> turn_ q = turn_ p ->
  bastionRight_ q = bastionRight_ p -> wallBuiltLast_ q = wallBuiltLast_ p ->
  ResOK p -> ResOK q.
Proof.
  unfold ResOK, hashResidue, flagsHash. intros -> -> -> -> ->. auto.
Qed.

Lemma ResOK_hitWall s p :
  List.length (b_ p) = 81%nat -> inBoard s -> ResOK p -> ResOK (hitWall s p).
Proof.
  intros L Hs R. unfold hitWall. all_ifs; auto;
    (eapply ResOK_same; [..|apply ResOK_setSquareRaw; eauto]; reflexivity).
Qed.

Lemma ResOK_dropBastionRight us p : ResOK p -> ResOK (dropBastionRight us p).
Proof.
  unfold ResOK, hashResidue, dropBastionRight, flagsHash, xorHash. intros R.
  destruct (getC us (bastionRight_ p)) eqn:E; [|exact R].
  cbn [hash_ b_ turn_ bastionRight_ wallBuiltLast_ set_bastionRight set_hash].
  replace (Z.lxor (Z.lxor (hash_ p) (bastionKeys us)) (boardHash (b_ p)))
    with (Z.lxor (Z.lxor (hash_ p) (boardHash (b_ p))) (bastionKeys us))
    by xor_solve.
  rewrite R. destruct us, (bastionRight_ p) as [bw bb]; cbn in E |- *; subst;
    all_ifs; xor_solve.
Qed.

Lemma ResOK_setWallBuiltLast us v p : ResOK p -> ResOK (setWallBuiltLast us v p).
Proof.
  unfold ResOK, hashResidue, setWallBuiltLast, flagsHash, xorHash. intros R.
  destruct (Bool.eqb (getC us (wallBuiltLast_ p)) v) eqn:E; [exact R|].
  cbn [hash_ b_ turn_ bastionRight_ wallBuiltLast_ set_wallBuiltLast set_hash].
  replace (Z.lxor (Z.lxor (hash_ p) (wallBuiltLastKeys us)) (boardHash (b_ p)))
    with (Z.lxor (Z.lxor (hash_ p) (boardHash (b_ p))) (wallBuiltLastKeys us))
    by xor_solve.
  rewrite R. destruct us, v, (wallBuiltLast_ p) as [[|] [|]]; cbn in E |- *;
    try discriminate; all_ifs; xor_solve.
Qed.

Lemma ResOK_finalizeTurn p : ResOK p -> ResOK (finalizeTurn p).
Proof.
  unfold finalizeTurn. intros R.
  destruct (negb (winner_ p =? SQ_NONE)); [exact R|].
  destruct (isEntombed p (other (turn_ p))).
  { eapply ResOK_same; [..|exact R]; reflexivity. }
  assert (R' : ResOK (set_turn (other (turn_ p)) (xorHash turnKey p))).
  { unfold ResOK, hashResidue, flagsHash, xorHash in *.
    cbn [hash_ b_ turn_ bastionRight_ wallBuiltLast_ set_turn set_hash].
    replace (Z.lxor (Z.lxor (hash_ p) turnKey) (boardHash (b_ p)))
      with (Z.lxor (Z.lxor (hash_ p) (boardHash (b_ p))) turnKey)
      by xor_solve.
    rewrite R. destruct (turn_ p); cbn; all_ifs; xor_solve. }
  destruct (color_eqb _ Black); [|exact R'].
  eapply ResOK_same; [..|exact R']; reflexivity.
Qed.

(** ** Token facet *)

Lemma hpOf_zero c : hpOf c 0 = 0.
Proof. destruct c; reflexivity. Qed.

Lemma hpOf_piece c d v : validVal v -> fPieces d v = true -> hpOf c v = 0.
Proof. intros H. case_val v H; destruct c, d; cbv; congruence. Qed.

Lemma hpOf_makeWall c us hp :
  1 <= hp <= 2 -> hpOf c (makeWall us hp) = if color_eqb c us then hp else 0.
Proof.
  intros H. assert (hp = 1 \/ hp = 2) as [-> | ->] by lia;
    destruct c, us; reflexivity.
Qed.

Lemma TokOK_same p q :
  b_ q = b_ p -> wallTokens_ q = wallTokens_ p -> TokOK p -> TokOK q.
Proof. unfold TokOK, wallTokens. intros -> ->. auto. Qed.

Lemma TokOK_write s v p :
  List.length (b_ p) = 81%nat -> inBoard s ->
  (forall c, hpOf c (at_ p s) = hpOf c v) ->
  TokOK p -> TokOK (setSquareRaw s v p).
Proof.
  intros L Hs Hhp T c. unfold wallTokens.
  rewrite setSquareRaw_wallTokens_, setSquareRaw_b, boardTokens_upd by assumption.
  fold (at_ p s). fold (wallTokens p c). rewrite (T c), (Hhp c). lia.
Qed.

Lemma TokOK_placeWall us hp s p :
  List.length (b_ p) = 81%nat -> inBoard s -> at_ p s = 0 -> 1 <= hp <= 2 ->
  TokOK p -> TokOK (addWallTokens us hp (setSquareRaw s (makeWall us hp) p)).
Proof.
  intros L Hs Hz Hhp T c. unfold wallTokens, addWallTokens.
  cbn [wallTokens_ b_ set_wallTokens].
  rewrite setSquareRaw_wallTokens_, setSquareRaw_b, boardTokens_upd by assumption.
  fold (at_ p s). rewrite Hz, hpOf_zero, hpOf_makeWall by assumption.
  pose proof (T c) as Tc. unfold wallTokens in Tc. rewrite <- Tc.
  destruct c, us; cbn; lia.
Qed.

Lemma TokOK_hitWall s p :
  validBoard (b_ p) -> inBoard s -> TokOK p -> TokOK (hitWall s p).
Proof.
  intros Hb Hs T. pose proof (at_valid p s Hb Hs) as Hv.
  assert (L : List.length (b_ p) = 81%nat) by apply Hb.
  unfold hitWall.
  destruct (isWallVal (at_ p s)) eqn:Ew; cbn [negb]; [|exact T].
  assert (Hdec : forall c v',
    (wallHp (at_ p s) =? 2) = true /\ v' = makeWall (colorOf (at_ p s)) 1 \/
    (wallHp (at_ p s) =? 2) = false /\ v' = 0 ->
    hpOf c v' = hpOf c (at_ p s)
                - (if color_eqb c (colorOf (at_ p s)) then 1 else 0)).
  { intros c v' Hc. revert Ew Hc. generalize dependent (at_ p s). intros v Hv Ew.
    case_val v Hv; cbv in Ew; try discriminate;
      intros [[E ->]|[E ->]]; cbv in E; try discriminate; destruct c; reflexivity. }
  destruct (wallHp (at_ p s) =? 2) eqn:E2; intros c;
    unfold wallTokens; cbn [wallTokens_ b_ set_wallTokens];
    rewrite setSquareRaw_wallTokens_, setSquareRaw_b, boardTokens_upd by assumption;
    fold (at_ p s);
    [rewrite (Hdec c (makeWall (colorOf (at_ p s)) 1)) by auto
    |rewrite (Hdec c 0) by auto];
    pose proof (T c) as Tc; unfold wallTokens in Tc; rewrite <- Tc;
    destruct c, (colorOf (at_ p s)); cbn; lia.
Qed.

(** ** Sovereign facet *)

Definition isSov (c : Color) (v : Z) : bool := isPieceOf c Sovereign v.

Lemma SovAt_iff b c k :
  SovAt b c k <->
  (k = SQ_NONE \/ inBoard k) /\
  forall s, inBoard s -> (isSov c (cell b s) = true <-> s = k).
Proof.
  unfold SovAt, isSov, inBoard, SQ_NONE. split.
  - intros [[-> H]|(Hk & Hs & Hu)].
    + split; [now left|]. intros s Hs. rewrite H by assumption.
      split; [discriminate|lia].
    + split; [now right|]. intros s Hs'. split; [now apply Hu|now intros ->].
  - intros [[->|Hk] H].
    + left. split; [reflexivity|]. intros s Hs.
      destruct (isPieceOf c Sovereign (cell b s)) eqn:E; auto.
      apply H in E; lia.
    + right. split; [exact Hk|]. split; [now apply H|].
      intros s Hs E. now apply H.
Qed.

Lemma SovAt_one b c k s v :
  SovAt b c k -> List.length b = 81%nat -> inBoard s ->
  isSov c (cell b s) = false -> isSov c v = false ->
  SovAt (upd b s v) c k.
Proof.
  rewrite !SovAt_iff. intros [Hk H] L Hs Ho Hv. split; [exact Hk|].
  intros t Ht. unfold inBoard in *. rewrite cell_upd by lia.
  destruct (Z.eqb_spec t s) as [->|Hne]; [|now apply H].
  rewrite Hv. split; [discriminate|]. intros ->.
  assert (isSov c (cell b k) = true) by now apply H. congruence.
Qed.

Lemma SovAt_two b b' c k k' f t x y :
  SovAt b c k -> inBoard f -> inBoard t -> f <> t ->
  (forall s, inBoard s ->
     cell b' s = if s =? f then x else if s =? t then y else cell b s) ->
  isSov c x = false ->
  (isSov c y = true /\ k' = t /\ (k = f \/ k = t \/ k = SQ_NONE)) \/
  (isSov c y = false /\
   (((k = f \/ k = t) /\ k' = SQ_NONE) \/ (k <> f /\ k <> t /\ k' = k))) ->
  SovAt b' c k'.
Proof.
  rewrite !SovAt_iff. intros [Hk H] Hf Ht Hne Hc Hx Hcase.
  assert (Hnf : f <> SQ_NONE) by (unfold inBoard, SQ_NONE in *; lia).
  assert (Hnt : t <> SQ_NONE) by (unfold inBoard, SQ_NONE in *; lia).
  split.
  - destruct Hcase as [(_ & -> & _)|(_ & [(_ & ->)|(_ & _ & ->)])]; auto.
  - intros s Hs. rewrite Hc by assumption.
    assert (Hs255 : s <> SQ_NONE) by (unfold inBoard, SQ_NONE in *; lia).
    destruct (Z.eqb_spec s f) as [->|Hsf]; [|destruct (Z.eqb_spec s t) as [->|Hst]].
    + rewrite Hx. split; [discriminate|].
      destruct Hcase as [(_ & -> & _)|(_ & [(_ & ->)|(A & _ & ->)])]; congruence.
    + destruct Hcase as [(Hy & -> & _)|(Hy & [(_ & ->)|(_ & A & ->)])]; rewrite Hy.
      * tauto.
      * split; [discriminate|congruence].
      * split; [discriminate|congruence].
    + rewrite (H s Hs).
      destruct Hcase as [(_ & -> & [->|[->| ->]])|(_ & [([->| ->] & ->)|(_ & _ & ->)])];
        split; congruence.
Qed.

Lemma SovOK_same p q :
  b_ q = b_ p -> sovereignSq_ q = sovereignSq_ p -> SovOK p -> SovOK q.
Proof. unfold SovOK, sovereignSq. intros -> ->. auto. Qed.

Lemma isSov_facts v c :
  validVal v ->
  (v = 0 -> isSov c v = false) /\
  (isWallVal v = true -> isSov c v = false) /\
  (fPieces (other c) v = true -> isSov c v = false) /\
  (forall pt, pt <> Sovereign -> isPieceOf c pt v = true -> isSov c v = false).
Proof.
  intros H. case_val v H; destruct c; repeat split; try (cbv; congruence);
    intros pt Hpt; destruct pt; cbv; congruence.
Qed.

(** ** The three facets together *)

Definition Der (p : Position) : Prop := TokOK p /\ SovOK p /\ ResOK p.

Lemma Der_frame p q :
  b_ q = b_ p -> wallTokens_ q = wallTokens_ p -> sovereignSq_ q = sovereignSq_ p ->
  ResOK q -> Der p -> Der q.
Proof.
  intros Eb Et Es R (T & S & _).
  split; [eapply TokOK_same; eauto|]. split; [eapply SovOK_same; eauto|exact R].
Qed.

Lemma Der_set_history h p : Der p -> Der (set_history h p).
Proof.
  intros D. eapply Der_frame; [| | | |exact D]; try reflexivity.
  eapply ResOK_same; [..|apply D]; reflexivity.
Qed.

Lemma Der_set_halfmove h p : Der p -> Der (set_halfmove h p).
Proof.
  intros D. eapply Der_frame; [| | | |exact D]; try reflexivity.
  eapply ResOK_same; [..|apply D]; reflexivity.
Qed.

Lemma Der_set_winner h p : Der p -> Der (set_winner h p).
Proof.
  intros D. eapply Der_frame; [| | | |exact D]; try reflexivity.
  eapply ResOK_same; [..|apply D]; reflexivity.
Qed.

Lemma Der_set_winReason h p : Der p -> Der (set_winReason h p).
Proof.
  intros D. eapply Der_frame; [| | | |exact D]; try reflexivity.
  eapply ResOK_same; [..|apply D]; reflexivity.
Qed.

Lemma Der_setWallBuiltLast us v p : Der p -> Der (setWallBuiltLast us v p).
Proof.
  intros D. eapply Der_frame; [| | | |exact D].
  - apply sameBoards_setWallBuiltLast.
  - unfold setWallBuiltLast. all_ifs; reflexivity.
  - unfold setWallBuiltLast. all_ifs; reflexivity.
  - apply ResOK_setWallBuiltLast, D.
Qed.

Lemma Der_dropBastionRight us p : Der p -> Der (dropBastionRight us p).
Proof.
  intros D. eapply Der_frame; [| | | |exact D].
  - apply sameBoards_dropBastionRight.
  - unfold dropBastionRight. all_ifs; reflexivity.
  - unfold dropBastionRight. all_ifs; reflexivity.
  - apply ResOK_dropBastionRight, D.
Qed.

Lemma Der_finalizeTurn p : Der p -> Der (finalizeTurn p).
Proof.
  intros D. eapply Der_frame; [| | | |exact D].
  - apply sameBoards_finalizeTurn.
  - unfold finalizeTurn. all_ifs; reflexivity.
  - unfold finalizeTurn. all_ifs; reflexivity.
  - apply ResOK_finalizeTurn, D.
Qed.

Lemma sovereignSq_setSquareRaw s v p c :
  sovereignSq (setSquareRaw s v p) c = sovereignSq p c.
Proof. unfold sovereignSq. now rewrite setSquareRaw_sovereignSq_. Qed.

Lemma isSov_makeWall c us hp : 1 <= hp <= 2 -> isSov c (makeWall us hp) = false.
Proof.
  intros H. assert (hp = 1 \/ hp = 2) as [-> | ->] by lia;
    destruct c, us; reflexivity.
Qed.

Lemma Der_placeWall us hp s p :
  validBoard (b_ p) -> inBoard s -> at_ p s = 0 -> 1 <= hp <= 2 ->
  Der p -> Der (addWallTokens us hp (setSquareRaw s (makeWall us hp) p)).
Proof.
  intros Hb Hs Hz Hhp (T & S & R).
  assert (L : List.length (b_ p) = 81%nat) by apply Hb.
  split; [now apply TokOK_placeWall|]. split.
  - intros c. unfold sovereignSq, addWallTokens.
    cbn [b_ sovereignSq_ set_wallTokens].
    rewrite setSquareRaw_sovereignSq_, setSquareRaw_b.
    apply (SovAt_one _ _ _ _ _ (S c) L Hs); [|now apply isSov_makeWall].
    fold (at_ p s). rewrite Hz. destruct c; reflexivity.
  - eapply ResOK_same; [..|apply ResOK_setSquareRaw; eauto]; reflexivity.
Qed.

Lemma Der_hitWall s p :
  validBoard (b_ p) -> inBoard s -> Der p -> Der (hitWall s p).
Proof.
  intros Hb Hs (T & S & R).
  assert (L : List.length (b_ p) = 81%nat) by apply Hb.
  split; [now apply TokOK_hitWall|]. split; [|now apply ResOK_hitWall].
  pose proof (at_valid p s Hb Hs) as Hv.
  unfold hitWall. destruct (isWallVal (at_ p s)) eqn:Ew; cbn [negb]; [|exact S].
  assert (Ho : forall c, isSov c (cell (b_ p) s) = false).
  { intros c. destruct (isSov_facts _ c Hv) as (_ & Fw & _). now apply Fw. }
  destruct (wallHp (at_ p s) =? 2); intros c; unfold sovereignSq;
    cbn [b_ sovereignSq_ set_wallTokens];
    rewrite setSquareRaw_sovereignSq_, setSquareRaw_b;
    apply (SovAt_one _ _ _ _ _ (S c) L Hs (Ho c)).
  - apply isSov_makeWall; lia.
  - destruct c; reflexivity.
Qed.

(** The board after "write [y] on [t], then [x] on [f]". *)
Lemma two_writes_cells p f t x y s :
  List.length (b_ p) = 81%nat -> inBoard f -> inBoard t -> inBoard s ->
  cell (b_ (setSquareRaw f x (setSquareRaw t y p))) s
  = if s =? f then x else if s =? t then y else cell (b_ p) s.
Proof.
  intros L Hf Ht Hs. unfold inBoard in *.
  rewrite !setSquareRaw_b.
  rewrite cell_upd by (rewrite ?upd_length; lia).
  destruct (s =? f); [reflexivity|].
  now rewrite cell_upd by lia.
Qed.

(** Facets after the piece of [us] on [f] has been written to [t] and
    [x] (nothing, or a piece that is no Sovereign) has been left on [f]. *)
Lemma move_facets p us f t x :
  validBoard (b_ p) -> Der p -> inBoard f -> inBoard t -> f <> t ->
  fPieces us (at_ p f) = true ->
  (forall c, hpOf c (at_ p t) = 0) -> isSov us (at_ p t) = false ->
  (forall c, hpOf c x = 0) -> (forall c, isSov c x = false) ->
  let p2 := setSquareRaw f x (setSquareRaw t (at_ p f) p) in
  TokOK p2 /\ ResOK p2 /\
  SovAt (b_ p2) us (if isSov us (at_ p f) then t else sovereignSq p us) /\
  SovAt (b_ p2) (other us)
    (if isSov (other us) (at_ p t) then SQ_NONE else sovereignSq p (other us)).
Proof.
  intros Hb (T & S & R) Hf Ht Hne Hp Hhp_t Hst Hhp_x Hsx. cbv zeta.
  assert (L : List.length (b_ p) = 81%nat) by apply Hb.
  pose proof (at_valid p f Hb Hf) as Hvf.
  pose proof (at_valid p t Hb Ht) as Hvt.
  assert (Hhp_f : forall c, hpOf c (at_ p f) = 0).
  { intros c. eapply hpOf_piece; eauto. }
  split; [|split].
  - apply TokOK_write; auto.
    + now rewrite setSquareRaw_length.
    + intros c. unfold inBoard in *.
      rewrite at_setSquareRaw by (auto; lia).
      destruct (Z.eqb_spec f t); [contradiction|].
      now rewrite Hhp_f, Hhp_x.
    + apply TokOK_write; auto. intros c. now rewrite Hhp_t, Hhp_f.
  - apply ResOK_setSquareRaw; auto; [now rewrite setSquareRaw_length|].
    now apply ResOK_setSquareRaw.
  - assert (Hcells := fun s => two_writes_cells p f t x (at_ p f) s L Hf Ht).
    split.
    + (* our own Sovereign *)
      eapply SovAt_two; [apply (S us)|exact Hf|exact Ht|exact Hne|exact Hcells|apply Hsx|].
      pose proof (proj1 (SovAt_iff _ _ _) (S us)) as [_ Hiff].
      destruct (isSov us (at_ p f)) eqn:Es.
      * left. split; [reflexivity|]. split; [reflexivity|]. left.
        symmetry. apply (Hiff f Hf). exact Es.
      * right. split; [reflexivity|]. right. split; [|split; [|reflexivity]].
        -- intros E.
           assert (X : isSov us (cell (b_ p) f) = true) by (apply Hiff; auto).
           fold (at_ p f) in X. congruence.
        -- intros E.
           assert (X : isSov us (cell (b_ p) t) = true) by (apply Hiff; auto).
           fold (at_ p t) in X. congruence.
    + (* the opposing Sovereign *)
      assert (Hx : isSov (other us) (at_ p f) = false).
      { destruct (isSov_facts _ (other us) Hvf) as (_ & _ & Fo & _).
        apply Fo. now rewrite other_involutive. }
      eapply SovAt_two;
        [apply (S (other us))|exact Hf|exact Ht|exact Hne|exact Hcells|apply Hsx|].
      pose proof (proj1 (SovAt_iff _ _ _) (S (other us))) as [_ Hiff].
      right. split; [exact Hx|].
      destruct (isSov (other us) (at_ p t)) eqn:Es.
      * left. split; [|reflexivity]. right. symmetry. apply (Hiff t Ht). exact Es.
      * right. split; [|split; [|reflexivity]].
        -- intros E.
           assert (X : isSov (other us) (cell (b_ p) f) = true) by (apply Hiff; auto).
           fold (at_ p f) in X. congruence.
        -- intros E.
           assert (X : isSov (other us) (cell (b_ p) t) = true) by (apply Hiff; auto).
           fold (at_ p t) in X. congruence.
Qed.

Lemma emptyOrEnemy_facts p us t :
  validBoard (b_ p) -> emptyOrEnemy p (other us) t ->
  (forall c, hpOf c (at_ p t) = 0) /\ isSov us (at_ p t) = false.
Proof.
  intros Hb [E|E].
  - rewrite E. split; [apply hpOf_zero|now destruct us].
  - pose proof (at_valid_any p t Hb) as Hv. split.
    + intros c. eapply hpOf_piece; eauto.
    + destruct (isSov_facts _ us Hv) as (_ & _ & Fo & _). now apply Fo.
Qed.

Lemma isSov_of_own us v :
  fPieces us v = true ->
  isSov us v = isPieceVal v && piece_eqb (pieceOf v) Sovereign.
Proof.
  unfold fPieces, isSov, isPieceOf. intros H.
  apply andb_prop in H. destruct H as [H1 H2]. now rewrite H1, H2.
Qed.

(** The Sovereign bookkeeping that follows a move of [us]. *)
Definition bookkeep (us : Color) (t srcV : Z) (p2 : Position) : Position :=
  if isPieceVal srcV && piece_eqb (pieceOf srcV) Sovereign
  then dropBastionRight us (set_sovereignSq (setC us t (sovereignSq_ p2)) p2)
  else p2.

Lemma Der_bookkeep p2 us t srcV k_us k_them :
  fPieces us srcV = true ->
  TokOK p2 -> ResOK p2 ->
  sovereignSq p2 us = k_us -> sovereignSq p2 (other us) = k_them ->
  SovAt (b_ p2) us (if isSov us srcV then t else k_us) ->
  SovAt (b_ p2) (other us) k_them ->
  Der (bookkeep us t srcV p2).
Proof.
  intros Hp T R Eu Et Su St. unfold bookkeep.
  rewrite (isSov_of_own us srcV Hp) in Su.
  destruct (isPieceVal srcV && piece_eqb (pieceOf srcV) Sovereign).
  - apply Der_dropBastionRight. split; [|split].
    + eapply TokOK_same; [..|exact T]; reflexivity.
    + intros c. unfold sovereignSq. cbn [b_ sovereignSq_ set_sovereignSq].
      destruct (color_eqb c us) eqn:E.
      * apply color_eqb_eq in E. subst c. now rewrite getC_setC_eq.
      * assert (c = other us) as -> by (destruct c, us; auto; discriminate).
        rewrite getC_setC_other. fold (sovereignSq p2 (other us)). now rewrite Et.
    + eapply ResOK_same; [..|exact R]; reflexivity.
  - split; [exact T|]. split; [|exact R].
    intros c. destruct (color_eqb c us) eqn:E.
    + apply color_eqb_eq in E. subst c. now rewrite Eu.
    + assert (c = other us) as -> by (destruct c, us; auto; discriminate).
      now rewrite Et.
Qed.

(** ** The facets along [makeMove] *)

(** A valid board together with the three facets. *)
Definition VD (p : Position) : Prop := validBoard (b_ p) /\ Der p.

Lemma VD_same p q : sameBoards p q -> Der q -> VD p -> VD q.
Proof. intros (E & _) D [Hb _]. split; [now rewrite E|exact D]. Qed.

Lemma VD_set_halfmove h p : VD p -> VD (set_halfmove h p).
Proof. intros [Hb D]. split; [exact Hb|now apply Der_set_halfmove]. Qed.

Lemma VD_setWallBuiltLast us v p : VD p -> VD (setWallBuiltLast us v p).
Proof.
  intros V. eapply VD_same; [apply sameBoards_setWallBuiltLast| |exact V].
  apply Der_setWallBuiltLast, V.
Qed.

Lemma VD_finalizeTurn p : VD p -> VD (finalizeTurn p).
Proof.
  intros V. eapply VD_same; [apply sameBoards_finalizeTurn| |exact V].
  apply Der_finalizeTurn, V.
Qed.

Lemma VD_placeWall us hp s p :
  inBoard s -> at_ p s = 0 -> 1 <= hp <= 2 ->
  VD p -> VD (addWallTokens us hp (setSquareRaw s (makeWall us hp) p)).
Proof.
  intros Hs Hz Hhp [Hb D]. split.
  - change (validBoard (b_ (setSquareRaw s (makeWall us hp) p))).
    rewrite setSquareRaw_b. apply validBoard_upd; auto.
    now apply makeWall_valid.
  - now apply Der_placeWall.
Qed.

Lemma hitWall_validBoard s p :
  validBoard (b_ p) -> inBoard s -> validBoard (b_ (hitWall s p)).
Proof.
  intros Hb Hs. unfold hitWall. cbv zeta.
  destruct (negb (isWallVal (at_ p s))); [exact Hb|].
  destruct (wallHp (at_ p s) =? 2);
    cbn [b_ set_wallTokens]; rewrite setSquareRaw_b; apply validBoard_upd; auto.
  - apply makeWall_valid. lia.
  - unfold validVal; lia.
Qed.

Lemma VD_hitWall s p : inBoard s -> VD p -> VD (hitWall s p).
Proof.
  intros Hs [Hb D]. split; [now apply hitWall_validBoard|now apply Der_hitWall].
Qed.

Lemma bookkeep_b us t srcV p : b_ (bookkeep us t srcV p) = b_ p.
Proof. unfold bookkeep, dropBastionRight. all_ifs; reflexivity. Qed.

Lemma bookkeep_wallTokens us t srcV p :
  wallTokens_ (bookkeep us t srcV p) = wallTokens_ p.
Proof. unfold bookkeep, dropBastionRight. all_ifs; reflexivity. Qed.

Lemma bookkeep_ResOK us t srcV p : ResOK p -> ResOK (bookkeep us t srcV p).
Proof.
  intros R. unfold bookkeep. all_ifs; auto.
  apply ResOK_dropBastionRight. eapply ResOK_same; [..|exact R]; reflexivity.
Qed.

Lemma bookkeep_sov_them us t srcV p :
  sovereignSq (bookkeep us t srcV p) (other us) = sovereignSq p (other us).
Proof.
  unfold bookkeep, dropBastionRight, sovereignSq. all_ifs; try reflexivity;
    cbn [sovereignSq_ set_sovereignSq set_bastionRight set_hash xorHash];
    apply getC_setC_other.
Qed.

Lemma bookkeep_sov_us us t srcV p :
  fPieces us srcV = true ->
  sovereignSq (bookkeep us t srcV p) us
  = if isSov us srcV then t else sovereignSq p us.
Proof.
  intros Hp. rewrite (isSov_of_own us srcV Hp).
  unfold bookkeep, dropBastionRight, sovereignSq. all_ifs; try reflexivity;
    cbn [sovereignSq_ set_sovereignSq set_bastionRight set_hash xorHash];
    apply getC_setC_eq.
Qed.

Lemma own_not_target p us f t :
  fPieces us (at_ p f) = true -> emptyOrEnemy p (other us) t -> f <> t.
Proof.
  intros Hp [E|E] ->.
  - rewrite E in Hp. discriminate.
  - apply fPieces_other in Hp. congruence.
Qed.

(** After a piece has moved and the Sovereign bookkeeping is done,
    tokens, residue and our own Sovereign square are right; the
    opposing Sovereign square is right unless the Sovereign was taken. *)
Lemma moved_facts p us f t :
  VD p -> inBoard f -> inBoard t ->
  fPieces us (at_ p f) = true -> emptyOrEnemy p (other us) t ->
  let q := bookkeep us t (at_ p f) (setSquareRaw f 0 (setSquareRaw t (at_ p f) p)) in
  validBoard (b_ q) /\ TokOK q /\ ResOK q /\
  SovAt (b_ q) us (sovereignSq q us) /\
  SovAt (b_ q) (other us)
    (if isSov (other us) (at_ p t) then SQ_NONE else sovereignSq q (other us)) /\
  forall s, 0 <= s -> at_ q s = if s =? f then 0 else if s =? t then at_ p f else at_ p s.
Proof.
  intros [Hb D] Hf Ht Hp He. cbv zeta.
  assert (L : List.length (b_ p) = 81%nat) by apply Hb.
  pose proof (own_not_target p us f t Hp He) as Hne.
  destruct (emptyOrEnemy_facts p us t Hb He) as [Hhp Hst].
  destruct (move_facets p us f t 0 Hb D Hf Ht Hne Hp Hhp Hst)
    as (T & R & Su & St).
  { intros c. apply hpOf_zero. }
  { intros c. now destruct c. }
  set (p2 := setSquareRaw f 0 (setSquareRaw t (at_ p f) p)) in *.
  split; [|split; [|split; [|split; [|split]]]].
  - rewrite bookkeep_b. unfold p2. rewrite !setSquareRaw_b.
    apply validBoard_upd; auto; [|unfold validVal; lia].
    apply validBoard_upd; auto. now apply at_valid.
  - eapply TokOK_same; [apply bookkeep_b|apply bookkeep_wallTokens|exact T].
  - now apply bookkeep_ResOK.
  - rewrite bookkeep_b, bookkeep_sov_us by assumption.
    unfold p2 at 2. now rewrite !sovereignSq_setSquareRaw.
  - rewrite bookkeep_b, bookkeep_sov_them.
    unfold p2 at 2. now rewrite !sovereignSq_setSquareRaw.
  - intros s Hs. unfold at_ at 1. rewrite bookkeep_b. fold (at_ p2 s).
    unfold p2. unfold inBoard in *.
    rewrite at_setSquareRaw; [|now rewrite setSquareRaw_length|lia|lia].
    destruct (Z.eqb_spec s f); [reflexivity|].
    now rewrite at_setSquareRaw by (auto; lia).
Qed.

Lemma VD_moved p us f t :
  VD p -> inBoard f -> inBoard t ->
  fPieces us (at_ p f) = true -> emptyOrEnemy p (other us) t ->
  isSov (other us) (at_ p t) = false ->
  VD (bookkeep us t (at_ p f) (setSquareRaw f 0 (setSquareRaw t (at_ p f) p))).
Proof.
  intros V Hf Ht Hp He Hs.
  destruct (moved_facts p us f t V Hf Ht Hp He) as (Hb & T & R & Su & St & _).
  rewrite Hs in St.
  split; [exact Hb|]. split; [exact T|]. split; [|exact R].
  intros c. destruct (color_eqb c us) eqn:E.
  - apply color_eqb_eq in E. now subst c.
  - assert (c = other us) as -> by (destruct c, us; auto; discriminate).
    exact St.
Qed.

Lemma bookkeep_plain us t srcV p :
  fPieces us srcV = true -> isSov us srcV = false -> bookkeep us t srcV p = p.
Proof.
  intros Hp Hs. rewrite (isSov_of_own us srcV Hp) in Hs.
  unfold bookkeep. now rewrite Hs.
Qed.

Lemma VD_captured p us f t :
  VD p -> inBoard f -> inBoard t ->
  fPieces us (at_ p f) = true -> emptyOrEnemy p (other us) t ->
  isSov (other us) (at_ p t) = true ->
  let p3 := bookkeep us t (at_ p f)
              (setSquareRaw f 0 (setSquareRaw t (at_ p f) p)) in
  VD (set_sovereignSq (setC (other us) SQ_NONE (sovereignSq_ p3)) p3).
Proof.
  intros V Hf Ht Hp He Hs. cbv zeta.
  destruct (moved_facts p us f t V Hf Ht Hp He) as (Hb & T & R & Su & St & _).
  rewrite Hs in St.
  set (p3 := bookkeep _ _ _ _) in *.
  split; [exact Hb|]. split; [|split].
  - eapply TokOK_same; [..|exact T]; reflexivity.
  - intros c. unfold sovereignSq. cbn [b_ sovereignSq_ set_sovereignSq].
    destruct (color_eqb c us) eqn:E.
    + apply color_eqb_eq in E. subst c.
      rewrite getC_setC_ne by (destruct us; discriminate). exact Su.
    + assert (c = other us) as -> by (destruct c, us; auto; discriminate).
      now rewrite getC_setC_eq.
  - eapply ResOK_same; [..|exact R]; reflexivity.
Qed.

(** The Bastion swap: Sovereign and Minister change places. *)
Lemma VD_swapped p us f t :
  VD p -> inBoard f -> inBoard t ->
  isPieceOf us Sovereign (at_ p f) = true ->
  isPieceOf us Minister (at_ p t) = true ->
  let q := bookkeep us t (at_ p f)
             (setSquareRaw f (at_ p t) (setSquareRaw t (at_ p f) p)) in
  VD q /\
  forall s, 0 <= s ->
    at_ q s = if s =? f then at_ p t else if s =? t then at_ p f else at_ p s.
Proof.
  intros [Hb D] Hf Ht Hsov Hmin. cbv zeta.
  assert (L : List.length (b_ p) = 81%nat) by apply Hb.
  pose proof (at_valid p f Hb Hf) as Hvf.
  pose proof (at_valid p t Hb Ht) as Hvt.
  pose proof (isPieceOf_fPieces _ _ _ Hsov) as Hp.
  pose proof (isPieceOf_fPieces _ _ _ Hmin) as Hpt.
  assert (Hms : forall c, isSov c (at_ p t) = false).
  { intros c. destruct (color_eqb c us) eqn:E.
    - apply color_eqb_eq in E. subst c.
      destruct (isSov_facts _ us Hvt) as (_ & _ & _ & Fp).
      apply (Fp Minister); [discriminate|exact Hmin].
    - assert (us = other c) as Eo by (destruct c, us; auto; discriminate).
      destruct (isSov_facts _ c Hvt) as (_ & _ & Fo & _).
      apply Fo. now rewrite <- Eo. }
  assert (Hhp : forall c, hpOf c (at_ p t) = 0).
  { intros c. eapply hpOf_piece; eauto. }
  assert (Hne : f <> t).
  { intros ->. unfold isSov in Hms. specialize (Hms us). congruence. }
  destruct (move_facets p us f t (at_ p t) Hb D Hf Ht Hne Hp Hhp (Hms us) Hhp Hms)
    as (T & R & Su & St).
  rewrite (Hms (other us)) in St.
  set (p2 := setSquareRaw f (at_ p t) (setSquareRaw t (at_ p f) p)) in *.
  split.
  - split.
    + rewrite bookkeep_b. unfold p2. rewrite !setSquareRaw_b.
      apply validBoard_upd; auto. apply validBoard_upd; auto.
    + split; [|split].
      * eapply TokOK_same; [apply bookkeep_b|apply bookkeep_wallTokens|exact T].
      * intros c. rewrite bookkeep_b. destruct (color_eqb c us) eqn:E.
        -- apply color_eqb_eq in E. subst c.
           rewrite bookkeep_sov_us by assumption.
           unfold p2 at 2. now rewrite !sovereignSq_setSquareRaw.
        -- assert (c = other us) as -> by (destruct c, us; auto; discriminate).
           rewrite bookkeep_sov_them.
           unfold p2 at 2. now rewrite !sovereignSq_setSquareRaw.
      * now apply bookkeep_ResOK.
  - intros s Hs. unfold at_ at 1. rewrite bookkeep_b. fold (at_ p2 s).
    unfold p2. unfold inBoard in *.
    rewrite at_setSquareRaw; [|now rewrite setSquareRaw_length|lia|lia].
    destruct (Z.eqb_spec s f); [reflexivity|].
    now rewrite at_setSquareRaw by (auto; lia).
Qed.

Lemma bookkeep_sovereign us t srcV p :
  isPieceOf us Sovereign srcV = true ->
  bookkeep us t srcV p
  = dropBastionRight us (set_sovereignSq (setC us t (sovereignSq_ p)) p).
Proof.
  intros H. unfold bookkeep.
  rewrite <- (isSov_of_own us srcV) by (eapply isPieceOf_fPieces; eauto).
  unfold isSov. now rewrite H.
Qed.

Lemma not_sov_of us pt v :
  validVal v -> pt <> Sovereign -> isPieceOf us pt v = true -> isSov us v = false.
Proof.
  intros Hv Hpt H. destruct (isSov_facts _ us Hv) as (_ & _ & _ & Fp).
  now apply (Fp pt).
Qed.

(** [makeMove] keeps the facets. *)
Lemma makeMove_VD p m :
  VD p -> Legal p m -> VD (fst (makeMove p m)).
Proof.
  intros V HL.
  assert (V0 : VD (set_history (history_ p ++ [hash_ p]) p)).
  { split; [apply V|apply Der_set_history, V]. }
  unfold makeMove. cbv zeta.
  set (p0 := set_history (history_ p ++ [hash_ p]) p) in *.
  change (turn_ p0) with (turn_ p) in *.
  set (u0 := mkUndo _ _ _ _ _ _ _ _ _ _) in *.
  destruct (gameOver p0); [exact V0|].
  assert (Hb0 : validBoard (b_ p0)) by apply V0.
  assert (Hval : forall s, validVal (at_ p0 s)).
  { intros s. now apply at_valid_any. }
  unfold Legal, LegalFor in HL.
  change (at_ p) with (at_ p0) in HL.
  change (emptyOrEnemy p) with (emptyOrEnemy p0) in HL.
  set (us := turn_ p) in *.
  destruct (m_type m) eqn:Et.
  - (* Normal *)
    destruct HL as (Hf & Ht & Hp & He).
    match goal with |- context [if ?c then captureSovereign _ _ _ _ _ _ else _] =>
      destruct c eqn:Ec end.
    + unfold captureSovereign. cbn [fst snd].
      apply VD_setWallBuiltLast, VD_set_halfmove.
      split; [|apply Der_set_winReason, Der_set_winner];
        apply (VD_captured p0 us _ _ V0 Hf Ht Hp He Ec).
    + unfold relocate. cbn [fst snd].
      apply VD_finalizeTurn, VD_setWallBuiltLast, VD_set_halfmove.
      exact (VD_moved p0 us _ _ V0 Hf Ht Hp He Ec).
  - (* MasonConstruct *)
    destruct HL as (Hf & Ht & _ & Hz). cbn [fst snd].
    apply VD_finalizeTurn, VD_setWallBuiltLast, VD_set_halfmove.
    apply VD_placeWall; auto. destruct (isKeepSq (m_from m)); lia.
  - (* MasonCommand *)
    destruct HL as (Hf & Ht & Hm & He & Ha).
    pose proof (isPieceOf_fPieces _ _ _ Hm) as Hp.
    assert (Hns : isSov us (at_ p0 (m_from m)) = false).
    { eapply not_sov_of; eauto. discriminate. }
    match goal with |- context [if ?c then captureSovereign _ _ _ _ _ _ else _] =>
      destruct c eqn:Ec end.
    + unfold captureSovereign. cbn [fst snd].
      apply VD_setWallBuiltLast, VD_set_halfmove.
      split; [|apply Der_set_winReason, Der_set_winner];
        apply (VD_captured p0 us _ _ V0 Hf Ht Hp He Ec).
    + unfold relocate. cbn [fst snd].
      pose proof (VD_moved p0 us _ _ V0 Hf Ht Hp He Ec) as V2.
      destruct (moved_facts p0 us _ _ V0 Hf Ht Hp He) as (_ & _ & _ & _ & _ & Hat).
      cbv zeta in Hat.
      rewrite (bookkeep_plain us _ _ _ Hp Hns) in V2, Hat.
      destruct (negb (m_aux1 m =? SQ_NONE)) eqn:Ea; cbn [fst snd].
      * destruct (aux_inBoard _ _ Ha Ea) as (Hin & Hnt & Hor).
        apply VD_finalizeTurn, VD_setWallBuiltLast, VD_set_halfmove.
        apply VD_placeWall; auto; [|destruct (isKeepSq (m_to m)); lia].
        rewrite Hat by apply Hin.
        destruct (Z.eqb_spec (m_aux1 m) (m_from m)); [reflexivity|].
        destruct (Z.eqb_spec (m_aux1 m) (m_to m)); [contradiction|].
        destruct Hor; [contradiction|assumption].
      * apply VD_finalizeTurn, VD_setWallBuiltLast, VD_set_halfmove. exact V2.
  - (* CatapultMove *)
    destruct HL as (Hf & Ht & Hm & He & Ha).
    pose proof (isPieceOf_fPieces _ _ _ Hm) as Hp.
    assert (Hns : isSov us (at_ p0 (m_from m)) = false).
    { eapply not_sov_of; eauto. discriminate. }
    match goal with |- context [if ?c then captureSovereign _ _ _ _ _ _ else _] =>
      destruct c eqn:Ec end.
    + unfold captureSovereign. cbn [fst snd].
      apply VD_setWallBuiltLast, VD_set_halfmove.
      split; [|apply Der_set_winReason, Der_set_winner];
        apply (VD_captured p0 us _ _ V0 Hf Ht Hp He Ec).
    + unfold relocate. cbn [fst snd].
      pose proof (VD_moved p0 us _ _ V0 Hf Ht Hp He Ec) as V2.
      rewrite (bookkeep_plain us _ _ _ Hp Hns) in V2.
      destruct (negb (m_aux1 m =? SQ_NONE)) eqn:Ea; cbn [fst snd].
      * destruct (aux_inBoard _ _ Ha Ea) as (Hin & _).
        apply VD_finalizeTurn, VD_setWallBuiltLast, VD_set_halfmove.
        now apply VD_hitWall.
      * apply VD_finalizeTurn, VD_setWallBuiltLast, VD_set_halfmove. exact V2.
  - (* CatapultRangedDemolish *)
    destruct HL as (Hf & Ht & _). cbn [fst snd].
    apply VD_finalizeTurn, VD_setWallBuiltLast, VD_set_halfmove.
    now apply VD_hitWall.
  - (* Bastion *)
    destruct HL as (Hf & Ht & Ha1 & Ha2 & Hsov & Hmin & Hz1 & Hz2 & Hne).
    cbn [fst snd].
    destruct (VD_swapped p0 us _ _ V0 Hf Ht Hsov Hmin) as (V3 & Hat).
    cbv zeta in Hat.
    rewrite (bookkeep_sovereign us _ _ _ Hsov) in V3, Hat.
    assert (Hpf : at_ p0 (m_from m) <> 0).
    { eapply fPieces_not_zero, isPieceOf_fPieces; eauto. }
    assert (Hpt : at_ p0 (m_to m) <> 0).
    { eapply fPieces_not_zero, isPieceOf_fPieces; eauto. }
    assert (Hz : forall a, inBoard a -> at_ p0 a = 0 ->
      at_ (dropBastionRight us
             (set_sovereignSq
                (setC us (m_to m)
                   (sovereignSq_
                      (setSquareRaw (m_from m) (at_ p0 (m_to m))
                         (setSquareRaw (m_to m) (at_ p0 (m_from m)) p0))))
                (setSquareRaw (m_from m) (at_ p0 (m_to m))
                   (setSquareRaw (m_to m) (at_ p0 (m_from m)) p0)))) a = 0).
    { intros a Hin Hza. rewrite Hat by apply Hin.
      destruct (Z.eqb_spec a (m_from m)); [congruence|].
      destruct (Z.eqb_spec a (m_to m)); [congruence|]. exact Hza. }
    apply VD_finalizeTurn, VD_setWallBuiltLast, VD_set_halfmove.
    apply VD_placeWall; auto; [|lia|apply VD_placeWall; auto; lia].
    change (at_ (addWallTokens us 1 ?q) ?s) with (at_ q s).
    unfold inBoard in *.
    rewrite at_setSquareRaw; [| |lia|lia].
    + destruct (Z.eqb_spec (m_aux2 m) (m_aux1 m)); [congruence|]. now apply Hz.
    + apply V3.
Qed.

(** ** Reachable positions *)

(** A checker for the Sovereign facet. *)
Definition SovAtb (b : list Z) (c : Color) (k : Z) : bool :=
  if k =? SQ_NONE
  then forallb (fun s => negb (isPieceOf c Sovereign (cell b s))) allSquares
  else (0 <=? k) && (k <? 81) && isPieceOf c Sovereign (cell b k) &&
       forallb (fun s => implb (isPieceOf c Sovereign (cell b s)) (s =? k)) allSquares.

Lemma SovAtb_sound b c k : SovAtb b c k = true -> SovAt b c k.
Proof.
  unfold SovAtb, SovAt. destruct (Z.eqb_spec k SQ_NONE) as [->|Hne]; intros H.
  - left. split; [reflexivity|]. rewrite forallb_forall in H.
    intros s Hs. apply allSquares_In in Hs. apply H in Hs.
    now apply negb_true_iff in Hs.
  - right. apply andb_prop in H. destruct H as [H H3].
    apply andb_prop in H. destruct H as [H H2].
    apply andb_prop in H. destruct H as [H0 H1].
    split; [lia|]. split; [exact H2|].
    rewrite forallb_forall in H3. intros s Hs Hsov.
    apply allSquares_In in Hs. apply H3 in Hs. rewrite Hsov in Hs.
    now apply Z.eqb_eq in Hs.
Qed.

Definition Goodb (p : Position) : bool :=
  WFb p &&
  forallb (fun c => (wallTokens p c =? boardTokens c (b_ p)) &&
                    SovAtb (b_ p) c (sovereignSq p c)) [White; Black] &&
  (hashResidue p =? flagsHash p).

Lemma Goodb_sound p : Goodb p = true -> Good p.
Proof.
  unfold Goodb. intros H.
  apply andb_prop in H. destruct H as [H H3].
  apply andb_prop in H. destruct H as [H1 H2].
  rewrite forallb_forall in H2.
  assert (A : forall c, wallTokens p c = boardTokens c (b_ p) /\
                        SovAt (b_ p) c (sovereignSq p c)).
  { intros c. specialize (H2 c ltac:(destruct c; simpl; auto)).
    apply andb_prop in H2. destruct H2 as [Ha Hb].
    split; [now apply Z.eqb_eq|now apply SovAtb_sound]. }
  split; [now apply WFb_sound|]. split; [intros c; apply A|].
  split; [intros c; apply A|]. now apply Z.eqb_eq.
Qed.

Lemma Good_initial : Good initial.
Proof. apply Goodb_sound. vm_compute. reflexivity. Qed.

Lemma makeMove_Good p m :
  Good p -> In m (movesOf p) -> Good (fst (makeMove p m)).
Proof.
  intros (W & D) Hm.
  assert (HL : Legal p m) by (now apply generateMoves_ok).
  split; [apply (makeMove_inv p m W HL)|].
  apply makeMove_VD; auto. split; [apply W|exact D].
Qed.

(** The positions a caller can reach: it starts from the initial
    position, makes generated actions, each of which hands it an [Undo],
    and takes back the last action made with the [Undo] it got for it. *)
Inductive Reach : Position -> list Undo -> Prop :=
| Reach_init : Reach initial []
| Reach_make p us m :
    Reach p us -> In m (movesOf p) ->
    Reach (fst (makeMove p m)) (snd (makeMove p m) :: us)
| Reach_undo p u us :
    Reach p (u :: us) -> Reach (undoMove p u) us.

(** The position is good, and so is every position an undo leads to. *)
Fixpoint GoodStack (us : list Undo) (p : Position) : Prop :=
  Good p /\
  match us with
  | [] => True
  | u :: us' => GoodStack us' (undoMove p u)
  end.

Lemma GoodStack_Good us p : GoodStack us p -> Good p.
Proof. destruct us; simpl; tauto. Qed.

Lemma Reach_GoodStack p us : Reach p us -> GoodStack us p.
Proof.
  induction 1 as [|p us m HR IH Hm|p u us HR IH].
  - split; [exact Good_initial|exact I].
  - pose proof (GoodStack_Good _ _ IH) as G.
    assert (HL : Legal p m) by (apply generateMoves_ok; [apply G|exact Hm]).
    split; [now apply makeMove_Good|].
    rewrite (undoMove_MakeInv p _ _ (proj1 G) (makeMove_inv p m (proj1 G) HL)).
    exact IH.
  - apply IH.
Qed.

(** C2. Every position reached from the initial position by making
    generated actions and undoing them is a fixed point of
    [rebuildDerived]: the piece, wall and reinforced-wall bitboards, the
    wall tokens, the Sovereign squares and the hash are what a full
    rebuild from the square array computes.  In particular the hash is
    the XOR of the key of every occupied square with its content, the
    turn key when Black is to move, and the Bastion-right and
    wall-built-last keys of both sides. *)
Theorem reachable_is_rebuilt (p : Position) (us : list Undo) :
  Reach p us ->
  rebuildDerived p = p /\
  hash_ p = Z.lxor (boardHash (b_ p)) (flagsHash p).
Proof.
  intros HR. apply Reach_GoodStack, GoodStack_Good, Good_Consistent in HR.
  split; [now apply Consistent_rebuild|apply HR].
Qed.

Lemma reachable_is_rebuilt_witness :
  let m := mkMove MasonCommand 66 57 66 SQ_NONE in
  let q := fst (makeMove initial m) in
  Reach q [snd (makeMove initial m)] /\
  rebuildDerived q = q /\ hash_ q = Z.lxor (boardHash (b_ q)) (flagsHash q).
Proof.
  cbv zeta.
  assert (I : In (mkMove MasonCommand 66 57 66 SQ_NONE) (movesOf initial)).
  { vm_compute. repeat (first [left; reflexivity | right]). }
  assert (R : Reach (fst (makeMove initial (mkMove MasonCommand 66 57 66 SQ_NONE)))
                    [snd (makeMove initial (mkMove MasonCommand 66 57 66 SQ_NONE))]).
  { apply Reach_make; [apply Reach_init|exact I]. }
  split; [exact R|].
  exact (reachable_is_rebuilt _ _ R).
Defined.

(** * Which generator emits Bastion actions *)

Definition isBastion (m : Move) : bool :=
  match m_type m with Bastion => true | _ => false end.

Definition NoBastion (l : list Move) : Prop :=
  forall m, In m l -> isBastion m = false.

Lemma NoBastion_nil : NoBastion [].
Proof. intros m []. Qed.

Lemma NoBastion_cons m l :
  isBastion m = false -> NoBastion l -> NoBastion (m :: l).
Proof. intros H Hl x [<-|Hx]; auto. Qed.

Lemma NoBastion_app l1 l2 : NoBastion l1 -> NoBastion l2 -> NoBastion (l1 ++ l2).
Proof. intros H1 H2 m Hm. apply in_app_iff in Hm. destruct Hm; auto. Qed.

Lemma NoBastion_flat_map {A} (f : A -> list Move) l :
  (forall x, NoBastion (f x)) -> NoBastion (flat_map f l).
Proof. intros H m Hm. apply in_flat_map in Hm. destruct Hm as (x & _ & Hx). eapply H; eauto. Qed.

Lemma NoBastion_map {A} (f : A -> Move) l :
  (forall x, isBastion (f x) = false) -> NoBastion (map f l).
Proof. intros H m Hm. apply in_map_iff in Hm. destruct Hm as (x & <- & _). apply H. Qed.

Ltac nb :=
  repeat first
    [ assumption
    | apply NoBastion_nil
    | apply NoBastion_cons; [reflexivity|]
    | apply NoBastion_app
    | apply NoBastion_flat_map; intros ?
    | apply NoBastion_map; intros ?; reflexivity
    | match goal with |- NoBastion (if ?c then _ else _) => destruct c end
    | progress cbv zeta ].

Lemma masonSlide_nb p s r c d steps : NoBastion (masonSlide p s r c d steps).
Proof. induction steps; cbn [masonSlide]; nb. Qed.

Lemma lancerSlide_nb p s us them sqs : NoBastion (lancerSlide p s us them sqs).
Proof. induction sqs; cbn [lancerSlide]; nb. Qed.

Lemma courtSlide_nb p s them sqs : NoBastion (courtSlide p s them sqs).
Proof.
  induction sqs as [|t sqs IH]; cbn [courtSlide]; nb.
Qed.

Lemma courtSlide_firstn_nb p s them n sqs :
  NoBastion (courtSlide p s them (firstn n sqs)).
Proof. apply courtSlide_nb. Qed.

Lemma genNormal_nb p s pt us : NoBastion (genNormalMovesForPiece p s pt us).
Proof.
  unfold genNormalMovesForPiece. destruct pt; nb;
    first [apply masonSlide_nb | apply lancerSlide_nb | apply courtSlide_nb].
Qed.

Lemma rangedDemolish_nb p s sqs : NoBastion (rangedDemolish p s sqs).
Proof. induction sqs; cbn [rangedDemolish]; nb. Qed.

Lemma catapultVariants_nb s t ws : NoBastion (catapultVariants s t ws).
Proof. unfold catapultVariants. nb. Qed.

Lemma catapultSlide_nb p s us sqs : NoBastion (catapultSlide p s us sqs).
Proof.
  induction sqs; cbn [catapultSlide]; nb; apply catapultVariants_nb.
Qed.

Lemma genCatapultExtras_nb p s us : NoBastion (genCatapultExtras p s us).
Proof.
  unfold genCatapultExtras. nb;
    first [apply rangedDemolish_nb|apply catapultSlide_nb].
Qed.

Lemma considerCommandDest_nb p s us cb d :
  NoBastion (snd (considerCommandDest p s us cb d)).
Proof.
  unfold considerCommandDest. cbv zeta.
  match goal with |- NoBastion (snd (if ?c then _ else _)) => destruct c end;
    cbn [snd]; nb.
Qed.

Lemma commandLoop_nb us s cb want cands : forall p,
  NoBastion (snd (commandLoop p s us cb want cands)).
Proof.
  induction cands as [|[rr cc] cands IH]; intros p; cbn [commandLoop].
  - apply NoBastion_nil.
  - destruct (negb (inBounds rr cc)); [apply IH|]. cbv zeta.
    destruct (want p (sq rr cc)); [|apply IH].
    pose proof (considerCommandDest_nb p s us cb (sq rr cc)) as H1.
    destruct (considerCommandDest p s us cb (sq rr cc)) as [p1 ms].
    pose proof (IH p1) as H2.
    destruct (commandLoop p1 s us cb want cands) as [p2 ms'].
    cbn [snd] in *. now apply NoBastion_app.
Qed.

Lemma genMasonExtras_nb p s us ea : NoBastion (snd (genMasonExtras p s us ea)).
Proof.
  unfold genMasonExtras. cbv zeta.
  match goal with |- context [flat_map ?f DIRS4] => set (cons := flat_map f DIRS4) end.
  assert (Hc : NoBastion cons) by (unfold cons; nb).
  match goal with |- NoBastion (snd (if ?c then _ else _)) => destruct c end.
  - cbn [snd]. nb.
  - match goal with |- context [commandLoop p s us ?cb ?w ?l] =>
      pose proof (commandLoop_nb us s cb w l p) as H1;
      destruct (commandLoop p s us cb w l) as [p1 orth] end.
    match goal with |- context [commandLoop p1 s us ?cb ?w ?l] =>
      pose proof (commandLoop_nb us s cb w l p1) as H2;
      destruct (commandLoop p1 s us cb w l) as [p2 diag] end.
    cbn [snd] in *. nb.
Qed.

Lemma masonLoop_nb us ea sqs : forall p, NoBastion (snd (masonLoop p us ea sqs)).
Proof.
  induction sqs as [|s sqs IH]; intros p; cbn [masonLoop].
  - apply NoBastion_nil.
  - cbv zeta.
    pose proof (genMasonExtras_nb p s us ea) as H1.
    destruct (genMasonExtras p s us ea) as [p1 extras].
    pose proof (IH p1) as H2.
    destruct (masonLoop p1 us ea sqs) as [p2 more].
    cbn [snd] in *.
    apply NoBastion_app; [apply genNormal_nb|now apply NoBastion_app].
Qed.

Lemma filter_NoBastion (f : Move -> bool) l :
  (forall m, f m = true -> isBastion m = true) ->
  NoBastion l -> filter f l = [].
Proof.
  intros Hf H. induction l as [|m l IH]; [reflexivity|].
  cbn [filter]. destruct (f m) eqn:E.
  - apply Hf in E. rewrite (H m) in E by now left. discriminate.
  - apply IH. intros x Hx. apply H. now right.
Qed.

(** Bastion actions come from the Sovereign block alone. *)
Lemma movesOf_bastion (f : Move -> bool) p :
  WF p -> gameOver p = false ->
  (forall m, f m = true -> isBastion m = true) ->
  filter f (movesOf p)
  = filter f (flat_map (fun s => genBastion p s (turn_ p))
                       (bb_squares (pieceBB p (turn_ p) Sovereign))).
Proof.
  intros Hwf Hgo Hf. unfold movesOf, generateMoves. rewrite Hgo. cbv zeta.
  destruct (masonLoop_ok p (turn_ p) (computeAttacks p (other (turn_ p)))
              (bb_squares (pieceBB p (turn_ p) Mason)) Hwf) as [M1 _].
  { intros s. now apply pieceBB_squares. }
  pose proof (masonLoop_nb (turn_ p) (computeAttacks p (other (turn_ p)))
                (bb_squares (pieceBB p (turn_ p) Mason)) p) as Hm.
  destruct (masonLoop p (turn_ p) _ _) as [p1 masons].
  cbn [fst snd] in *. subst p1.
  rewrite !filter_app.
  rewrite (filter_NoBastion f masons) by assumption.
  rewrite !(filter_NoBastion f (flat_map _ _))
    by (auto; apply NoBastion_flat_map; intros s;
        first [apply genNormal_nb | apply genCatapultExtras_nb]).
  cbn [app].
  induction (bb_squares (pieceBB p (turn_ p) Sovereign)) as [|s l IH];
    [reflexivity|].
  cbn [flat_map]. rewrite !filter_app, IH.
  rewrite (filter_NoBastion f (genNormalMovesForPiece _ _ _ _))
    by (auto; apply genNormal_nb).
  reflexivity.
Qed.

(** * Counting the Bastion actions *)

Lemma filter_nil_of {A} (f : A -> bool) l :
  (forall x, In x l -> f x = false) -> filter f l = [].
Proof.
  induction l as [|a l IH]; intros H; [reflexivity|].
  cbn [filter]. rewrite (H a) by now left. apply IH. intros x Hx. apply H. now right.
Qed.

Lemma filter_all_of {A} (f : A -> bool) l :
  (forall x, In x l -> f x = true) -> filter f l = l.
Proof.
  induction l as [|a l IH]; intros H; [reflexivity|].
  cbn [filter]. rewrite (H a) by now left. f_equal. apply IH.
  intros x Hx. apply H. now right.
Qed.

Lemma filter_unique {A} (f : A -> bool) l k :
  NoDup l -> In k l -> f k = true ->
  (forall s, In s l -> f s = true -> s = k) -> filter f l = [k].
Proof.
  induction l as [|a l IH]; intros Hnd Hin Hk Hu; [destruct Hin|].
  inversion Hnd as [|? ? Ha Hl]; subst. cbn [filter].
  destruct Hin as [->|Hin].
  - rewrite Hk. f_equal. apply filter_nil_of. intros x Hx.
    destruct (f x) eqn:E; [|reflexivity].
    assert (x = k) by (apply Hu; [now right|exact E]). subst. contradiction.
  - destruct (f a) eqn:E.
    + assert (a = k) by (apply Hu; [now left|exact E]). subst. contradiction.
    + apply IH; auto. intros s Hs. apply Hu. now right.
Qed.

(** A side with one Sovereign has one bit in its Sovereign bitboard. *)
Lemma sovereign_squares p us sov :
  WF p -> SovAt (b_ p) us sov -> inBoard sov ->
  bb_squares (pieceBB p us Sovereign) = [sov].
Proof.
  intros [Hb Hok] HS Hin. destruct (Hok us) as (H1 & _).
  destruct (H1 Sovereign) as [W T].
  rewrite bb_squares_spec by assumption. unfold setSquares.
  destruct HS as [[E _]|(_ & Hs & Hu)].
  { unfold inBoard, SQ_NONE in *. lia. }
  apply filter_unique.
  - apply allSquares_NoDup.
  - now apply allSquares_In.
  - now rewrite T.
  - intros s Hs' Ht. apply allSquares_In in Hs'. apply Hu; auto.
    now rewrite <- T.
Qed.

Lemma filter_flat_map_nil {A B} (f : B -> bool) (g : A -> list B) l :
  (forall x, In x l -> filter f (g x) = []) -> filter f (flat_map g l) = [].
Proof.
  induction l as [|a l IH]; intros H; [reflexivity|].
  cbn [flat_map]. rewrite filter_app, (H a) by now left.
  apply IH. intros x Hx. apply H. now right.
Qed.

Lemma filter_flat_map_one {A B} (f : B -> bool) (g : A -> list B) l x0 :
  NoDup l -> In x0 l ->
  (forall x, In x l -> x <> x0 -> filter f (g x) = []) ->
  filter f (flat_map g l) = filter f (g x0).
Proof.
  induction l as [|a l IH]; intros Hnd Hin H; [destruct Hin|].
  inversion Hnd as [|? ? Ha Hl]; subst.
  cbn [flat_map]. rewrite filter_app. destruct Hin as [->|Hin].
  - rewrite filter_flat_map_nil; [apply app_nil_r|].
    intros x Hx. apply H; [now right|]. intros ->. contradiction.
  - rewrite (H a); [|now left|intros ->; contradiction].
    cbn [app]. apply IH; auto. intros x Hx. apply H. now right.
Qed.

Lemma length_pairsOf l :
  Z.of_nat (List.length (pairsOf l)) * 2
  = Z.of_nat (List.length l) * (Z.of_nat (List.length l) - 1).
Proof.
  induction l as [|a t IH]; [reflexivity|].
  cbn [pairsOf]. rewrite length_app, length_map. cbn [List.length]. lia.
Qed.

(** The binomial coefficient C(k,2). *)
Definition choose2 (k : Z) : Z := k * (k - 1) / 2.

Lemma length_pairsOf_choose2 l :
  Z.of_nat (List.length (pairsOf l)) = choose2 (Z.of_nat (List.length l)).
Proof.
  unfold choose2. rewrite <- length_pairsOf. symmetry. apply Z.div_mul. lia.
Qed.

Lemma pairsOf_short l : (Z.of_nat (List.length l) <? 2) = true -> pairsOf l = [].
Proof.
  destruct l as [|a [|b t]]; try reflexivity.
  cbn [List.length]. intros H. apply Z.ltb_lt in H. lia.
Qed.

(** A Bastion action that puts the Sovereign on [minSq]. *)
Definition bastionFor (minSq : Z) (m : Move) : bool :=
  isBastion m && (m_to m =? minSq).

Lemma bastionFor_isBastion minSq m : bastionFor minSq m = true -> isBastion m = true.
Proof. unfold bastionFor. intros H. apply andb_prop in H. tauto. Qed.

(** What [genBastion] emits for one adjacent Minister. *)
Lemma genBastion_for p sov us minSq :
  wallBuiltLast p us = false -> bastionRight p us = true ->
  wallTokens p us <= 15 ->
  inBoard sov -> In minSq (kingTargets sov) ->
  isPieceOf us Minister (at_ p minSq) = true ->
  filter (bastionFor minSq) (genBastion p sov us)
  = map (fun ab => mkMove Bastion sov minSq (fst ab) (snd ab))
        (pairsOf (bastionEmpties p sov minSq)).
Proof.
  intros Hw Hr Ht Hs Hin Hmin. unfold genBastion.
  rewrite Hw, Hr. cbn [negb].
  destruct (Z.ltb_spec 15 (wallTokens p us)); [lia|].
  rewrite (filter_flat_map_one _ _ _ minSq); auto using kingTargets_NoDup.
  - cbv zeta. unfold isPieceOf in Hmin.
    apply andb_prop in Hmin. destruct Hmin as [Hmin H3].
    apply andb_prop in Hmin. destruct Hmin as [H1 H2].
    rewrite H1, H2, H3. cbn [negb orb].
    destruct (Z.of_nat (List.length (bastionEmpties p sov minSq)) <? 2) eqn:E.
    + now rewrite pairsOf_short.
    + apply filter_all_of. intros m Hm. apply in_map_iff in Hm.
      destruct Hm as (ab & <- & _). unfold bastionFor, isBastion.
      cbn [m_type m_to andb]. apply Z.eqb_refl.
  - intros x _ Hne. cbv zeta.
    match goal with |- filter _ (if ?c then _ else _) = _ => destruct c end;
      [reflexivity|].
    match goal with |- filter _ (if ?c then _ else _) = _ => destruct c end;
      [reflexivity|].
    apply filter_nil_of. intros m Hm. apply in_map_iff in Hm.
    destruct Hm as (ab & <- & _). unfold bastionFor, isBastion.
    cbn [m_type m_to andb]. now apply Z.eqb_neq.
Qed.

(** Squares a king's step apart. *)
Definition adjacent8 (a b : Z) : bool :=
  negb (a =? b) && (Z.abs (row a - row b) <=? 1) && (Z.abs (col a - col b) <=? 1).

Lemma kingTargets_adjacent8 s t :
  inBoard s -> inBoard t -> (In t (kingTargets s) <-> adjacent8 s t = true).
Proof.
  intros Hs Ht.
  assert (H : forallb (fun s => forallb (fun t =>
                Bool.eqb (existsb (Z.eqb t) (kingTargets s)) (adjacent8 s t))
                allSquares) allSquares = true) by (vm_compute; reflexivity).
  rewrite forallb_forall in H. specialize (H s (proj2 (allSquares_In s) Hs)).
  rewrite forallb_forall in H. specialize (H t (proj2 (allSquares_In t) Ht)).
  apply eqb_prop in H. rewrite <- H, existsb_exists. split.
  - intros Hin. exists t. split; [exact Hin|apply Z.eqb_refl].
  - intros (x & Hx & E). apply Z.eqb_eq in E. now subst.
Qed.

(** The empty squares a king's step from [minSq], [sov] left out. *)
Definition emptyNeighbours (p : Position) (minSq sov : Z) : list Z :=
  filter (fun a => adjacent8 minSq a && negb (a =? sov) && (at_ p a =? 0)) allSquares.

Lemma emptyNeighbours_iff p minSq sov a :
  inBoard minSq ->
  In a (emptyNeighbours p minSq sov) <-> In a (bastionEmpties p sov minSq).
Proof.
  intros Hm. unfold emptyNeighbours, bastionEmpties.
  rewrite (filter_In _ a allSquares), (filter_In _ a (kingTargets minSq)).
  rewrite (allSquares_In a), !andb_true_iff. split.
  - intros (Ha & (Hadj & H1) & H2). split; [|split; assumption].
    apply (kingTargets_adjacent8 minSq a Hm Ha). exact Hadj.
  - intros (Hin & H1 & H2).
    pose proof (kingTargets_range _ _ Hin) as Ha.
    split; [exact Ha|]. split; [|exact H2]. split; [|exact H1].
    apply (kingTargets_adjacent8 minSq a Hm Ha). exact Hin.
Qed.

Lemma emptyNeighbours_length p minSq sov :
  inBoard minSq ->
  List.length (emptyNeighbours p minSq sov)
  = List.length (bastionEmpties p sov minSq).
Proof.
  intros Hm.
  assert (N1 : NoDup (emptyNeighbours p minSq sov))
    by apply NoDup_filter, allSquares_NoDup.
  assert (N2 : NoDup (bastionEmpties p sov minSq))
    by (apply NoDup_filter; now apply kingTargets_NoDup).
  pose proof (NoDup_incl_length N1
    (fun a H => proj1 (emptyNeighbours_iff p minSq sov a Hm) H)).
  pose proof (NoDup_incl_length N2
    (fun a H => proj2 (emptyNeighbours_iff p minSq sov a Hm) H)).
  lia.
Qed.

(** A Bastion action that moves the Sovereign on [sov] to [minSq]. *)
Definition bastionOf (sov minSq : Z) (m : Move) : bool :=
  isBastion m && (m_from m =? sov) && (m_to m =? minSq).

Lemma bastionOf_isBastion sov minSq m :
  bastionOf sov minSq m = true -> isBastion m = true.
Proof.
  unfold bastionOf. intros H. apply andb_prop in H. destruct H as [H _].
  apply andb_prop in H. tauto.
Qed.

(** [genBastion] emits actions of the Sovereign square it is called for. *)
Lemma genBastion_from p s us m : In m (genBastion p s us) -> m_from m = s.
Proof.
  unfold genBastion.
  destruct (wallBuiltLast p us); [intros []|].
  destruct (negb (bastionRight p us)); [intros []|].
  destruct (15 <? wallTokens p us); [intros []|].
  intros H. apply in_flat_map in H. destruct H as (t & _ & H). cbv zeta in H.
  match type of H with In _ (if ?c then _ else _) => destruct c end;
    [destruct H|].
  match type of H with In _ (if ?c then _ else _) => destruct c end;
    [destruct H|].
  apply in_map_iff in H. destruct H as (ab & <- & _). reflexivity.
Qed.

Lemma filter_none {A} (f : A -> bool) (l : list A) :
  (forall x, In x l -> f x = false) -> filter f l = [].
Proof.
  induction l as [|a l IH]; intros H; [reflexivity|]. cbn [filter].
  rewrite (H a (or_introl eq_refl)). apply IH. intros; apply H; now right.
Qed.

(** The Bastion actions of one Sovereign and one Minister beside it. *)
Lemma movesOf_bastionOf p sov minSq :
  WF p -> gameOver p = false ->
  inBoard sov -> isPieceOf (turn_ p) Sovereign (at_ p sov) = true ->
  filter (bastionOf sov minSq) (movesOf p)
  = filter (bastionFor minSq) (genBastion p sov (turn_ p)).
Proof.
  intros W Hgo Hs Hp.
  rewrite (movesOf_bastion _ p W Hgo (bastionOf_isBastion sov minSq)).
  assert (Wf : wfBB (pieceBB p (turn_ p) Sovereign)).
  { destruct W as [Hb Hok]. destruct (Hok (turn_ p)) as (H1 & _).
    now destruct (H1 Sovereign). }
  rewrite (filter_flat_map_one _ _ _ sov).
  - apply filter_ext_in. intros m Hm. unfold bastionOf, bastionFor.
    rewrite (genBastion_from _ _ _ _ Hm), Z.eqb_refl. now rewrite andb_true_r.
  - now apply bb_squares_NoDup.
  - now apply pieceBB_squares_conv.
  - intros s _ Hne. apply filter_none. intros m Hm. unfold bastionOf.
    rewrite (genBastion_from _ _ _ _ Hm).
    replace (s =? sov) with false by (symmetry; now apply Z.eqb_neq).
    now rewrite andb_false_r.
Qed.

(** C6 (amended).  While the game is running and the side to move has
    its Bastion right, at most 15 wall tokens and built no wall on its
    previous turn: for each Sovereign of that side and each Minister of
    that side a king's step from it, exactly C(k,2) Bastion actions take
    that Sovereign to that Minister's square, where k counts the empty
    squares a king's step from the Minister's square, the Sovereign's own
    square left out; when the side has one Sovereign only, these are all
    the Bastion actions onto the Minister's square.  Without the right,
    with more than 15 tokens, or after a wall built on the previous turn,
    no Bastion action is generated.  (Once the game is over nothing is
    generated at all.) *)
Theorem bastion_count (p : Position) :
  WF p ->
  (forall sov minSq,
     gameOver p = false ->
     inBoard sov -> isPieceOf (turn_ p) Sovereign (at_ p sov) = true ->
     inBoard minSq -> adjacent8 sov minSq = true ->
     isPieceOf (turn_ p) Minister (at_ p minSq) = true ->
     bastionRight p (turn_ p) = true -> wallTokens p (turn_ p) <= 15 ->
     wallBuiltLast p (turn_ p) = false ->
     Z.of_nat (List.length (filter (bastionOf sov minSq) (movesOf p)))
     = choose2 (Z.of_nat (List.length (emptyNeighbours p minSq sov))) /\
     (SovAt (b_ p) (turn_ p) sov ->
      filter (bastionFor minSq) (movesOf p)
      = filter (bastionOf sov minSq) (movesOf p))) /\
  (bastionRight p (turn_ p) = false \/ 15 < wallTokens p (turn_ p) \/
   wallBuiltLast p (turn_ p) = true ->
   forall m, In m (movesOf p) -> isBastion m = false).
Proof.
  intros W. split.
  - intros sov minSq Hgo Hs Hsov Hm Hadj Hmin Hr Ht Hw. split.
    + rewrite (movesOf_bastionOf p sov minSq W Hgo Hs Hsov).
      rewrite (genBastion_for p sov _ minSq Hw Hr Ht Hs); auto.
      * rewrite length_map, length_pairsOf_choose2.
        now rewrite emptyNeighbours_length.
      * now apply kingTargets_adjacent8.
    + intros HS.
      rewrite (movesOf_bastionOf p sov minSq W Hgo Hs Hsov).
      rewrite (movesOf_bastion _ p W Hgo (bastionFor_isBastion minSq)).
      rewrite (sovereign_squares p _ sov W HS Hs). cbn [flat_map].
      now rewrite app_nil_r.
  - intros Hc m Hin. destruct (isBastion m) eqn:E; [exfalso|reflexivity].
    pose proof (movesOf_not_over p m Hin) as Hgo.
    assert (Hf : In m (filter isBastion (movesOf p))).
    { apply filter_In. now split. }
    rewrite (movesOf_bastion _ p W Hgo (fun m H => H)) in Hf.
    rewrite filter_flat_map_nil in Hf; [destruct Hf|].
    intros s _. unfold genBastion.
    destruct (wallBuiltLast p (turn_ p)); [reflexivity|].
    destruct (bastionRight p (turn_ p)); [|reflexivity]. cbn [negb].
    destruct (Z.ltb_spec 15 (wallTokens p (turn_ p))); [reflexivity|].
    destruct Hc as [Hc|[Hc|Hc]]; [discriminate|lia|discriminate].
Qed.

Lemma bastion_count_witness :
  let p := positionOf "4s4/9/9/9/9/9/9/9/3IS4 w Bb - 0 1" in
  WF p /\ gameOver p = false /\
  isPieceOf (turn_ p) Sovereign (at_ p 76) = true /\
  SovAt (b_ p) (turn_ p) 76 /\
  adjacent8 76 75 = true /\
  isPieceOf (turn_ p) Minister (at_ p 75) = true /\
  List.length (emptyNeighbours p 75 76) = 4%nat /\
  Z.of_nat (List.length (filter (bastionOf 76 75) (movesOf p))) = 6 /\
  filter (bastionFor 75) (movesOf p) = filter (bastionOf 76 75) (movesOf p).
Proof.
  cbv zeta.
  assert (W : WF (positionOf "4s4/9/9/9/9/9/9/9/3IS4 w Bb - 0 1"))
    by (apply WFb_sound; vm_compute; reflexivity).
  assert (HS : SovAt (b_ (positionOf "4s4/9/9/9/9/9/9/9/3IS4 w Bb - 0 1"))
                 (turn_ (positionOf "4s4/9/9/9/9/9/9/9/3IS4 w Bb - 0 1")) 76)
    by (apply SovAtb_sound; vm_compute; reflexivity).
  assert (K : List.length
                (emptyNeighbours (positionOf "4s4/9/9/9/9/9/9/9/3IS4 w Bb - 0 1") 75 76)
              = 4%nat) by (vm_compute; reflexivity).
  split; [exact W|]. split; [vm_compute; reflexivity|].
  split; [vm_compute; reflexivity|]. split; [exact HS|].
  split; [vm_compute; reflexivity|]. split; [vm_compute; reflexivity|].
  split; [exact K|].
  destruct (bastion_count _ W) as [H _].
  specialize (H 76 75). rewrite K in H.
  assert (A : Z.of_nat
                (List.length
                   (filter (bastionOf 76 75)
                      (movesOf (positionOf "4s4/9/9/9/9/9/9/9/3IS4 w Bb - 0 1"))))
              = choose2 (Z.of_nat 4) /\
              (SovAt (b_ (positionOf "4s4/9/9/9/9/9/9/9/3IS4 w Bb - 0 1"))
                 (turn_ (positionOf "4s4/9/9/9/9/9/9/9/3IS4 w Bb - 0 1")) 76 ->
               filter (bastionFor 75)
                 (movesOf (positionOf "4s4/9/9/9/9/9/9/9/3IS4 w Bb - 0 1"))
               = filter (bastionOf 76 75)
                   (movesOf (positionOf "4s4/9/9/9/9/9/9/9/3IS4 w Bb - 0 1")))).
  { apply H.
    - vm_compute; reflexivity.
    - unfold inBoard; lia.
    - vm_compute; reflexivity.
    - unfold inBoard; lia.
    - vm_compute; reflexivity.
    - vm_compute; reflexivity.
    - vm_compute; reflexivity.
    - vm_compute. discriminate.
    - vm_compute; reflexivity. }
  destruct A as [A1 A2]. split; [exact A1|exact (A2 HS)].
Defined.

(** Two inputs where the count fails as first stated.  After White's
    Catapult has taken the Black Sovereign the game is over with White
    still to move: White has the Bastion right, no wall tokens, built no
    wall, and a Minister beside its Sovereign with four empty squares
    around it, yet no action is generated, where C(4,2) is 6.  And on a
    board with two White Sovereigns, D1 and F1, beside the Minister on
    E1, which [fromFEN] accepts, each Sovereign has k = 3 and is given
    its C(3,2) = 3 actions, so six Bastion actions land on E1. *)
Lemma bastion_count_counterexample :
  (let p0 := positionOf "4s4/4C4/9/9/9/9/9/9/3IS4 w Bb - 0 1" in
   let m0 := mkMove CatapultMove 13 4 SQ_NONE SQ_NONE in
   let p := fst (makeMove p0 m0) in
   In m0 (movesOf p0) /\ WF p /\
   SovAt (b_ p) (turn_ p) 76 /\ adjacent8 76 75 = true /\
   isPieceOf (turn_ p) Minister (at_ p 75) = true /\
   bastionRight p (turn_ p) = true /\ wallTokens p (turn_ p) <= 15 /\
   wallBuiltLast p (turn_ p) = false /\
   List.length (emptyNeighbours p 75 76) = 4%nat /\ choose2 4 = 6 /\
   gameOver p = true /\
   List.length (filter (bastionFor 75) (movesOf p)) = 0%nat) /\
  (let fen := "4s4/9/9/9/9/9/9/9/3SIS3 w Bb - 0 1"%string in
   let p := positionOf fen in
   fromFEN fen = Some p /\ WF p /\ gameOver p = false /\
   isPieceOf (turn_ p) Sovereign (at_ p 75) = true /\
   isPieceOf (turn_ p) Sovereign (at_ p 77) = true /\
   sovereignSq p (turn_ p) = 77 /\
   adjacent8 75 76 = true /\ adjacent8 77 76 = true /\
   isPieceOf (turn_ p) Minister (at_ p 76) = true /\
   bastionRight p (turn_ p) = true /\ wallTokens p (turn_ p) <= 15 /\
   wallBuiltLast p (turn_ p) = false /\
   List.length (emptyNeighbours p 76 75) = 3%nat /\
   List.length (emptyNeighbours p 76 77) = 3%nat /\ choose2 3 = 3 /\
   List.length (filter (bastionFor 76) (movesOf p)) = 6%nat).
Proof.
  split.
  - cbv zeta.
    split; [vm_compute; repeat (first [left; reflexivity | right])|].
    split; [apply WFb_sound; vm_compute; reflexivity|].
    split; [apply SovAtb_sound; vm_compute; reflexivity|].
    split; [vm_compute; reflexivity|]. split; [vm_compute; reflexivity|].
    split; [vm_compute; reflexivity|]. split; [vm_compute; discriminate|].
    split; [vm_compute; reflexivity|]. split; [vm_compute; reflexivity|].
    split; [vm_compute; reflexivity|]. split; vm_compute; reflexivity.
  - cbv zeta.
    split; [vm_compute; reflexivity|].
    split; [apply WFb_sound; vm_compute; reflexivity|].
    split; [vm_compute; reflexivity|]. split; [vm_compute; reflexivity|].
    split; [vm_compute; reflexivity|]. split; [vm_compute; reflexivity|].
    split; [vm_compute; reflexivity|]. split; [vm_compute; reflexivity|].
    split; [vm_compute; reflexivity|]. split; [vm_compute; reflexivity|].
    split; [vm_compute; discriminate|]. split; [vm_compute; reflexivity|].
    split; [vm_compute; reflexivity|]. split; [vm_compute; reflexivity|].
    split; vm_compute; reflexivity.
Qed.

(* ===================================================================== *)
(** * The FEN text read back *)
(* ===================================================================== *)

Section FenRoundTrip.
Local Open Scope string_scope.
Local Open Scope Z_scope.

Lemma code_chr n : 0 <= n < 256 -> code (chr n) = n.
Proof.
  intros H. unfold code, chr. rewrite nat_ascii_embedding by lia. lia.
Qed.

Lemma digit_cases d :
  0 <= d <= 9 ->
  d = 0 \/ d = 1 \/ d = 2 \/ d = 3 \/ d = 4 \/ d = 5 \/ d = 6 \/ d = 7 \/ d = 8 \/ d = 9.
Proof. lia. Qed.

Lemma digit_char d :
  0 <= d <= 9 ->
  isDigitCh (chr (48 + d)) = true /\ code (chr (48 + d)) = 48 + d /\
  isSpaceCh (chr (48 + d)) = false.
Proof.
  intros H. rewrite code_chr by lia. unfold isDigitCh, isSpaceCh.
  rewrite code_chr by lia. split; [|split]; [|reflexivity|]; lia.
Qed.

Lemma digitsRev_S f n :
  digitsRev (S f) n
  = if n <? 10 then String (chr (48 + n)) EmptyString
    else String (chr (48 + n mod 10)) (digitsRev f (n / 10)).
Proof. reflexivity. Qed.

Lemma takeDigits_digit d t acc seen :
  0 <= d <= 9 ->
  takeDigits (String (chr (48 + d)) t) acc seen = takeDigits t (acc * 10 + d) true.
Proof.
  intros H. destruct (digit_char d H) as (H1 & H2 & _).
  cbn [takeDigits]. rewrite H1, H2. f_equal. lia.
Qed.

(** Reading the digits of [n] back gives [n]. *)
Lemma takeDigits_digitsRev f : forall n acc seen,
  0 <= n < 10 ^ Z.of_nat (S f) ->
  takeDigits (revString (digitsRev (S f) n) acc) 0 seen = takeDigits acc n true.
Proof.
  induction f as [|f IH]; intros n acc seen Hn; rewrite digitsRev_S.
  - change (10 ^ Z.of_nat 1) with 10 in Hn.
    destruct (Z.ltb_spec n 10); [|lia].
    cbn [revString]. rewrite takeDigits_digit by lia. f_equal.
  - destruct (Z.ltb_spec n 10).
    + cbn [revString]. rewrite takeDigits_digit by lia. f_equal.
    + cbn [revString]. rewrite IH.
      * rewrite takeDigits_digit by (pose proof (Z.mod_pos_bound n 10); lia).
        f_equal. pose proof (Z.div_mod n 10). lia.
      * rewrite Nat2Z.inj_succ, Z.pow_succ_r in Hn by lia.
        split; [apply Z.div_pos; lia|].
        apply Z.div_lt_upper_bound; lia.
Qed.

Lemma revString_app s : forall acc r, revString s acc ++ r = revString s (acc ++ r).
Proof. induction s as [|ch s IH]; intros acc r; [reflexivity|]. cbn [revString]. now rewrite IH. Qed.

(** The text of a number starts with a digit. *)
Lemma revString_digitsRev_head f : forall n acc,
  0 <= n ->
  exists d t, 0 <= d <= 9 /\ revString (digitsRev (S f) n) acc = String (chr (48 + d)) t.
Proof.
  induction f as [|f IH]; intros n acc Hn; rewrite digitsRev_S.
  - destruct (Z.ltb_spec n 10).
    + exists n, acc. split; [lia|reflexivity].
    + exists (n mod 10), acc. split; [pose proof (Z.mod_pos_bound n 10); lia|reflexivity].
  - destruct (Z.ltb_spec n 10).
    + exists n, acc. split; [lia|reflexivity].
    + cbn [revString]. apply IH. apply Z.div_pos; lia.
Qed.

Lemma readInt_space s : readInt (Some (String " " s)) = readInt (Some s).
Proof. reflexivity. Qed.

Lemma readInt_digit d t :
  0 <= d <= 9 ->
  readInt (Some (String (chr (48 + d)) t))
  = let '(n, seen, rest) := takeDigits (String (chr (48 + d)) t) 0 false in
    if negb seen then (None, None)
    else if (n <? INT_MIN) || (INT_MAX <? n) then (None, None)
    else (Some n, Some rest).
Proof.
  intros H.
  destruct (digit_cases d H) as [E|[E|[E|[E|[E|[E|[E|[E|[E|E]]]]]]]]];
    subst d; reflexivity.
Qed.

Lemma takeDigits_stop acc seen rest :
  rest = "" \/ (exists t, rest = String " " t) ->
  takeDigits rest acc seen = (acc, seen, rest).
Proof. intros [->|(t & ->)]; reflexivity. Qed.

(** [iss >> n] reads what [oss << n] wrote. *)
Lemma readInt_show n rest :
  0 <= n <= INT_MAX ->
  rest = "" \/ (exists t, rest = String " " t) ->
  readInt (Some (String " " (showInt n ++ rest))) = (Some n, Some rest).
Proof.
  intros Hn Hrest. rewrite readInt_space. unfold showInt.
  destruct (Z.ltb_spec n 0); [lia|].
  rewrite revString_app. change ("" ++ rest) with rest.
  destruct (revString_digitsRev_head 9 n rest) as (d & t & Hd & E); [lia|].
  assert (T : takeDigits (revString (digitsRev 10 n) rest) 0 false = (n, true, rest)).
  { rewrite takeDigits_digitsRev.
    - now apply takeDigits_stop.
    - unfold INT_MAX in Hn. change (10 ^ Z.of_nat 10) with 10000000000. lia. }
  rewrite E in *. rewrite readInt_digit by assumption. rewrite T.
  cbn [negb]. unfold INT_MAX, INT_MIN in *.
  destruct (Z.ltb_spec n (-2147483648)); [lia|].
  destruct (Z.ltb_spec 2147483647 n); [lia|]. reflexivity.
Qed.

(** ** Words *)

Fixpoint noSpace (s : string) : bool :=
  match s with
  | EmptyString => true
  | String ch t => negb (isSpaceCh ch) && noSpace t
  end.

Lemma noSpace_app s t : noSpace (s ++ t) = noSpace s && noSpace t.
Proof.
  induction s as [|ch s IH]; [reflexivity|].
  cbn [append noSpace]. now rewrite IH, andb_assoc.
Qed.

Lemma takeWord_app w rest :
  noSpace w = true -> takeWord (w ++ String " " rest) = (w, String " " rest).
Proof.
  induction w as [|ch w IH]; intros H; [reflexivity|].
  cbn [noSpace] in H. apply andb_prop in H. destruct H as [H1 H2].
  apply negb_true_iff in H1. cbn [append takeWord]. rewrite H1, IH by assumption.
  reflexivity.
Qed.

Lemma readWord_space s : readWord (Some (String " " s)) = readWord (Some s).
Proof. reflexivity. Qed.

(** [iss >> tok] reads a blank-free word up to the next blank. *)
Lemma readWord_word w rest :
  w <> "" -> noSpace w = true ->
  readWord (Some (w ++ String " " rest)) = (Some w, Some (String " " rest)).
Proof.
  intros Hne Hns. unfold readWord.
  assert (E : skipSpaces (w ++ String " " rest) = w ++ String " " rest).
  { destruct w as [|ch w]; [contradiction|].
    cbn [noSpace] in Hns. apply andb_prop in Hns. destruct Hns as [H1 _].
    apply negb_true_iff in H1. cbn [append skipSpaces]. now rewrite H1. }
  rewrite E, takeWord_app by assumption.
  destruct w; [contradiction|reflexivity].
Qed.

(** ** The board field *)

(** The [switch] on the upper-cased letter. *)
Definition decodeCell (raw : ascii) : option Z :=
  let col := if isUpperCh raw then White else Black in
  let ch := toUpperCh raw in
  if (code ch =? 77) then Some (makePiece col Mason)
  else if (code ch =? 67) then Some (makePiece col Catapult)
  else if (code ch =? 76) then Some (makePiece col Lancer)
  else if (code ch =? 80) then Some (makePiece col Pegasus)
  else if (code ch =? 73) then Some (makePiece col Minister)
  else if (code ch =? 83) then Some (makePiece col Sovereign)
  else if (code ch =? 87) then Some (makeWall col 1)
  else if (code ch =? 82) then Some (makeWall col 2)
  else None.

Lemma parseBoard_cell raw t b r c v :
  (code raw =? 47) = false ->
  (49 <=? code raw) && (code raw <=? 57) = false ->
  r < 9 -> c < 9 -> decodeCell raw = Some v ->
  parseBoard (String raw t) b r c = parseBoard t (upd b (sq r c) v) r (c + 1).
Proof.
  intros H1 H2 Hr Hc Hd. cbn [parseBoard]. rewrite H1, H2. unfold N.
  destruct (Z.leb_spec 9 r); [lia|]. destruct (Z.leb_spec 9 c); [lia|].
  unfold decodeCell in Hd. cbv zeta in Hd. cbv zeta. now rewrite Hd.
Qed.

Lemma cellChar_decode v :
  validVal v -> v <> 0 ->
  (code (cellChar v) =? 47) = false /\
  (49 <=? code (cellChar v)) && (code (cellChar v) <=? 57) = false /\
  decodeCell (cellChar v) = Some v.
Proof.
  intros H Hne. case_val v H; try congruence; vm_compute; auto.
Qed.

Lemma showInt_digit e : 0 <= e <= 9 -> showInt e = String (chr (48 + e)) "".
Proof.
  intros H.
  destruct (digit_cases e H) as [E|[E|[E|[E|[E|[E|[E|[E|[E|E]]]]]]]]];
    subst e; reflexivity.
Qed.

Lemma parseBoard_digit e t b r c :
  1 <= e <= 9 -> r < 9 -> c + e <= 9 ->
  parseBoard (String (chr (48 + e)) t) b r c = parseBoard t b r (c + e).
Proof.
  intros He Hr Hc. cbn [parseBoard]. rewrite code_chr by lia. unfold N.
  destruct (Z.eqb_spec (48 + e) 47); [lia|].
  destruct (Z.leb_spec 9 r); [lia|].
  destruct (Z.leb_spec 49 (48 + e)); [|lia].
  destruct (Z.leb_spec (48 + e) 57); [|lia]. cbn [andb]. cbv zeta.
  replace (c + (48 + e - 48)) with (c + e) by lia.
  destruct (Z.ltb_spec 9 (c + e)); [lia|]. reflexivity.
Qed.

(** The writes of the board loop: blanks are skipped. *)
Definition writeCells (p : Position) (l : list Z) (b : list Z) : list Z :=
  fold_left (fun b s => if at_ p s =? 0 then b else upd b s (at_ p s)) l b.

Lemma string_app_assoc (a b c : string) : (a ++ b) ++ c = a ++ (b ++ c).
Proof. induction a as [|ch a IH]; [reflexivity|]. cbn [append]. now rewrite IH. Qed.

Lemma fenRank_parse p r :
  validBoard (b_ p) -> 0 <= r < 9 ->
  forall k j e b rest,
    (j + k = 9)%nat -> 0 <= e <= Z.of_nat j ->
    parseBoard (fenRank p r (map Z.of_nat (seq j k)) e ++ rest) b r (Z.of_nat j - e)
    = parseBoard rest (writeCells p (map (sq r) (map Z.of_nat (seq j k))) b) r 9.
Proof.
  intros Hb Hr. induction k as [|k IH]; intros j e b rest Hj He.
  - cbn [seq map fenRank writeCells fold_left].
    destruct (Z.eqb_spec e 0) as [->|Hne]; cbn [negb].
    + cbn [append]. f_equal. lia.
    + rewrite showInt_digit by lia. cbn [append].
      rewrite parseBoard_digit by lia. f_equal. lia.
  - cbn [seq map fenRank writeCells fold_left]. cbv zeta.
    fold (writeCells p (map (sq r) (map Z.of_nat (seq (S j) k)))).
    pose proof (at_valid_any p (sq r (Z.of_nat j)) Hb) as Hv.
    destruct (Z.eqb_spec (at_ p (sq r (Z.of_nat j))) 0) as [Hz|Hnz].
    + replace (Z.of_nat j - e) with (Z.of_nat (S j) - (e + 1)) by lia.
      apply IH; lia.
    + destruct (cellChar_decode _ Hv Hnz) as (C1 & C2 & C3).
      rewrite string_app_assoc. cbn [append].
      destruct (Z.eqb_spec e 0) as [->|Hne]; cbn [negb].
      * cbn [append].
        rewrite (parseBoard_cell _ _ _ r (Z.of_nat j - 0) _ C1 C2 (proj2 Hr)
                   ltac:(lia) C3).
        replace (Z.of_nat j - 0) with (Z.of_nat j) by lia.
        replace (Z.of_nat j + 1) with (Z.of_nat (S j) - 0) by lia.
        apply IH; lia.
      * rewrite showInt_digit by lia. cbn [append].
        rewrite parseBoard_digit by lia.
        rewrite (parseBoard_cell _ _ _ r (Z.of_nat j - e + e) _ C1 C2 (proj2 Hr)
                   ltac:(lia) C3).
        replace (Z.of_nat j - e + e) with (Z.of_nat j) by lia.
        replace (Z.of_nat j + 1) with (Z.of_nat (S j) - 0) by lia.
        apply IH; lia.
Qed.

Definition rankSquares (r : Z) : list Z := map (sq r) files.

Lemma fenRank_parse0 p r b rest :
  validBoard (b_ p) -> 0 <= r < 9 ->
  parseBoard (fenRank p r files 0 ++ rest) b r 0
  = parseBoard rest (writeCells p (rankSquares r) b) r 9.
Proof.
  intros Hb Hr.
  exact (fenRank_parse p r Hb Hr 9 0 0 b rest eq_refl ltac:(simpl; lia)).
Qed.

Lemma writeCells_app p l1 l2 b :
  writeCells p (l1 ++ l2) b = writeCells p l2 (writeCells p l1 b).
Proof. apply fold_left_app. Qed.

Lemma fenBoard_parse p :
  validBoard (b_ p) ->
  forall k i b,
    (i + S k = 9)%nat ->
    parseBoard
      (fold_right (fun r acc =>
         fenRank p r files 0 ++ (if negb (r =? N - 1) then "/" else "") ++ acc)
         "" (map Z.of_nat (seq i (S k)))) b (Z.of_nat i) 0
    = Some (writeCells p (flat_map rankSquares (map Z.of_nat (seq i (S k)))) b, 8, 9).
Proof.
  intros Hb. induction k as [|k IH]; intros i b Hi.
  - cbn [seq map fold_right flat_map]. rewrite fenRank_parse0 by (auto; lia).
    unfold N. destruct (Z.eqb_spec (Z.of_nat i) (9 - 1)); [|lia].
    rewrite app_nil_r. cbn [negb append parseBoard].
    repeat f_equal. lia.
  - change (seq i (S (S k))) with (i :: seq (S i) (S k)).
    cbn [map fold_right flat_map]. rewrite fenRank_parse0 by (auto; lia).
    unfold N at 1. destruct (Z.eqb_spec (Z.of_nat i) (9 - 1)); [lia|].
    cbn [negb append]. rewrite writeCells_app.
    cbn [parseBoard]. change (code "/" =? 47) with true. cbv iota.
    unfold N at 1. change (negb (9 =? 9)) with false. cbv iota.
    replace (Z.of_nat i + 1) with (Z.of_nat (S i)) by lia.
    apply IH. lia.
Qed.

Lemma writeCells_length p l : forall b,
  List.length (writeCells p l b) = List.length b.
Proof.
  induction l as [|s l IH]; intros b; [reflexivity|].
  change (writeCells p (s :: l) b)
    with (writeCells p l (if at_ p s =? 0 then b else upd b s (at_ p s))).
  rewrite IH. destruct (at_ p s =? 0); [reflexivity|apply upd_length].
Qed.

Lemma writeCells_cell p l : forall b t,
  List.length b = 81%nat -> (forall s, In s l -> inBoard s) -> inBoard t ->
  cell (writeCells p l b) t
  = if existsb (Z.eqb t) l && negb (at_ p t =? 0) then at_ p t else cell b t.
Proof.
  induction l as [|s l IH]; intros b t L Hl Ht; [reflexivity|].
  change (writeCells p (s :: l) b)
    with (writeCells p l (if at_ p s =? 0 then b else upd b s (at_ p s))).
  cbn [existsb].
  assert (Hs : inBoard s) by (apply Hl; now left).
  unfold inBoard in *.
  rewrite IH; auto.
  - destruct (Z.eqb_spec t s) as [->|Hne]; cbn [orb].
    + destruct (at_ p s =? 0) eqn:E; cbn [negb].
      * now rewrite andb_false_r.
      * rewrite andb_true_r. rewrite cell_upd_eq by lia.
        now destruct (existsb (Z.eqb s) l).
    + destruct (existsb (Z.eqb t) l && negb (at_ p t =? 0)); [reflexivity|].
      destruct (at_ p s =? 0); [reflexivity|]. apply cell_upd_ne; lia.
  - destruct (at_ p s =? 0); [exact L|now rewrite upd_length].
  - intros x Hx. apply Hl. now right.
Qed.

(** The board loop rebuilds the square array. *)
Lemma writeCells_board p :
  validBoard (b_ p) ->
  writeCells p (flat_map rankSquares files) (repeat 0 81) = b_ p.
Proof.
  intros [L _]. apply cells_ext; [now rewrite writeCells_length|exact L|].
  intros t Ht.
  assert (A : forallb (fun s => (0 <=? s) && (s <? 81)) (flat_map rankSquares files)
              = true) by (vm_compute; reflexivity).
  assert (B : forallb (fun t => existsb (Z.eqb t) (flat_map rankSquares files))
                allSquares = true) by (vm_compute; reflexivity).
  rewrite forallb_forall in A, B.
  rewrite writeCells_cell; auto.
  - rewrite (B t) by now apply allSquares_In.
    cbn [andb].
    assert (Z0 : cell (repeat 0 81) t = 0) by (unfold cell; apply nth_repeat).
    rewrite Z0. fold (at_ p t).
    destruct (Z.eqb_spec (at_ p t) 0); cbn [negb]; congruence.
  - intros s Hs. apply A in Hs. unfold inBoard. lia.
Qed.

Lemma parseBoard_fenBoard p :
  validBoard (b_ p) ->
  parseBoard (fenBoard p) (repeat 0 81) 0 0 = Some (b_ p, 8, 9).
Proof.
  intros Hb.
  pose proof (fenBoard_parse p Hb 8 0 (repeat 0 81) eq_refl) as H.
  etransitivity; [exact H|]. now rewrite writeCells_board.
Qed.

End FenRoundTrip.

Section FenWhole.
Local Open Scope string_scope.
Local Open Scope Z_scope.

Lemma cellChar_noSpace v : isSpaceCh (cellChar v) = false.
Proof.
  unfold cellChar.
  destruct (isPieceVal v); [destruct (pieceOf v)|
    destruct (isWallVal v); [destruct (wallHp v =? 2)|]];
    destruct (v <? 0); reflexivity.
Qed.

Lemma fenRank_noSpace p r cols : forall e,
  0 <= e -> e + Z.of_nat (List.length cols) <= 9 ->
  noSpace (fenRank p r cols e) = true.
Proof.
  induction cols as [|c cols IH]; intros e He Hl; cbn [fenRank List.length] in *.
  - destruct (Z.eqb_spec e 0); cbn [negb]; [reflexivity|].
    rewrite showInt_digit by lia. cbn [noSpace].
    destruct (digit_char e ltac:(lia)) as (_ & _ & ->). reflexivity.
  - cbv zeta. destruct (at_ p (sq r c) =? 0); [apply IH; lia|].
    rewrite noSpace_app. cbn [noSpace].
    rewrite cellChar_noSpace, IH by lia. cbn [negb andb]. rewrite andb_true_r.
    destruct (Z.eqb_spec e 0); cbn [negb]; [reflexivity|].
    rewrite showInt_digit by lia. cbn [noSpace].
    destruct (digit_char e ltac:(lia)) as (_ & _ & ->). reflexivity.
Qed.

Lemma fenBoard_noSpace p : noSpace (fenBoard p) = true.
Proof.
  unfold fenBoard.
  assert (G : forall l,
    noSpace (fold_right (fun r acc =>
      fenRank p r files 0 ++ (if negb (r =? N - 1) then "/" else "") ++ acc)
      "" l) = true); [|apply G].
  induction l as [|r l IH]; [reflexivity|].
  cbn [fold_right]. rewrite !noSpace_app, IH, fenRank_noSpace.
  - destruct (negb (r =? N - 1)); reflexivity.
  - lia.
  - reflexivity.
Qed.

Lemma fenBoard_nonempty p : fenBoard p <> "".
Proof.
  unfold fenBoard.
  change files with (0 :: map Z.of_nat (seq 1 8)). cbn [fold_right].
  change (negb (0 =? N - 1)) with true. cbv iota.
  destruct (fenRank p 0 _ 0); discriminate.
Qed.

(** The position [fromFEN] builds: [p] without winner and history. *)
Definition fresh (p : Position) : Position :=
  set_history [] (set_winReason WinNone (set_winner SQ_NONE p)).

Lemma flagsOf_fields p q :
  flagsOf p = flagsOf q ->
  turn_ p = turn_ q /\ bastionRight_ p = bastionRight_ q /\
  wallBuiltLast_ p = wallBuiltLast_ q /\ halfmove_ p = halfmove_ q /\
  fullmove_ p = fullmove_ q /\ winner_ p = winner_ q /\
  winReason_ p = winReason_ q /\ history_ p = history_ q.
Proof. unfold flagsOf. intros H. inversion H. tauto. Qed.

Lemma rebuild_of_fields p b t br wl h f :
  Consistent p ->
  b = b_ p -> t = turn_ p -> br = bastionRight_ p -> wl = wallBuiltLast_ p ->
  h = halfmove_ p -> f = fullmove_ p ->
  rebuildDerived
    (set_fullmove f (set_halfmove h (set_wallBuiltLast wl (set_bastionRight br
      (set_turn t (set_winReason WinNone (set_winner SQ_NONE
        (set_b b emptyPosition))))))))
  = fresh p.
Proof.
  intros (W & T & S & H) -> -> -> -> -> ->.
  assert (He : history_ emptyPosition = []) by (vm_compute; reflexivity).
  revert He. generalize emptyPosition. intros e He.
  match goal with |- rebuildDerived ?x = _ => set (X := x) end.
  assert (Hb : validBoard (b_ X)) by apply W.
  destruct (rebuildDerived_spec X Hb) as (B & F & H' & T' & S' & Hok').
  cbv zeta in *.
  assert (WX : WF (rebuildDerived X)) by (split; [now rewrite B|exact Hok']).
  assert (WP : WF (fresh p)).
  { destruct W as [Hv Hk]. split; [exact Hv|exact Hk]. }
  assert (E1 : sovereignSq_ (rebuildDerived X) = sovereignSq_ p).
  { apply Arr2_ext; intros c.
    change (sovereignSq (rebuildDerived X) c = sovereignSq p c).
    rewrite S', S. reflexivity. }
  assert (E2 : wallTokens_ (rebuildDerived X) = wallTokens_ p).
  { apply Arr2_ext; intros c.
    change (wallTokens (rebuildDerived X) c = wallTokens p c).
    rewrite T', T. reflexivity. }
  apply (WF_position_ext _ _ WX WP).
  - exact B.
  - unfold globalsOf.
    destruct (flagsOf_fields _ _ F) as (F1 & F2 & F3 & F4 & F5 & F6 & F7 & F8).
    change (history_ X) with (history_ e) in F8. rewrite He in F8.
    rewrite F1, F2, F3, F4, F5, F6, F7, F8, E1, E2. reflexivity.
  - rewrite H'. change (hash_ (fresh p)) with (hash_ p). rewrite H. reflexivity.
Qed.

(** What [fromFEN] does with the six fields once they are read. *)
Definition fenTail (boardStr turnStr rightsStr wallStr : string)
  (halfmove fullmove : Z) : option Position :=
  match headChar turnStr with
  | None => None
  | Some t0 =>
      let t := toLowerCh t0 in
      let oturnC :=
        if code t =? 119 then Some White
        else if code t =? 98 then Some Black
        else None in
      match oturnC with
      | None => None
      | Some turnC =>
          let brW := negb (String.eqb rightsStr "-") && anyChar (fun rc => code rc =? 66) rightsStr in
          let brB := negb (String.eqb rightsStr "-") && anyChar (fun rc => code rc =? 98) rightsStr in
          let wlW := negb (String.eqb wallStr "-")
                     && anyChar (fun rc => code (toLowerCh rc) =? 119) wallStr in
          let wlB := negb (String.eqb wallStr "-")
                     && anyChar (fun rc => code (toLowerCh rc) =? 98) wallStr in
          match parseBoard boardStr (repeat 0%Z 81) 0 0 with
          | None => None
          | Some (b, r, c) =>
              if negb (r =? N - 1) || negb (c =? N) then None
              else
                Some (rebuildDerived
                  (set_fullmove fullmove (set_halfmove halfmove
                    (set_wallBuiltLast (mkArr2 wlW wlB)
                      (set_bastionRight (mkArr2 brW brB)
                        (set_turn turnC
                          (set_winReason WinNone (set_winner SQ_NONE
                            (set_b b emptyPosition)))))))))
          end
      end
  end.

Lemma string_app_nil_r (s : string) : s ++ "" = s.
Proof. induction s as [|ch s IH]; [reflexivity|]. cbn [append]. now rewrite IH. Qed.

(** The tokenizer on a six-field text. *)
Lemma fromFEN_fields B T R Wl h f :
  B <> "" -> noSpace B = true -> T <> "" -> noSpace T = true ->
  R <> "" -> noSpace R = true -> Wl <> "" -> noSpace Wl = true ->
  isDigits Wl = false ->
  0 <= h <= INT_MAX -> 0 <= f <= INT_MAX ->
  fromFEN (B ++ " " ++ T ++ " " ++ R ++ " " ++ Wl ++ " " ++ showInt h ++ " "
           ++ showInt f)
  = fenTail B T R Wl h f.
Proof.
  intros HB1 HB2 HT1 HT2 HR1 HR2 HW1 HW2 HWd Hh Hf.
  rewrite <- (string_app_nil_r (showInt f)).
  unfold fromFEN. cbv zeta. cbn [append].
  rewrite (readWord_word B _ HB1 HB2).
  rewrite readWord_space, (readWord_word T _ HT1 HT2).
  rewrite readWord_space, (readWord_word R _ HR1 HR2).
  rewrite readWord_space, (readWord_word Wl _ HW1 HW2).
  rewrite HWd.
  rewrite (readInt_show h _ Hh) by (right; eexists; reflexivity).
  rewrite (readInt_show f _ Hf) by (left; reflexivity).
  reflexivity.
Qed.

Lemma turn_field (t : Color) :
  let T := if color_eqb t White then "w" else "b" in
  T <> "" /\ noSpace T = true /\
  exists t0, headChar T = Some t0 /\
    (if code (toLowerCh t0) =? 119 then Some White
     else if code (toLowerCh t0) =? 98 then Some Black else None) = Some t.
Proof.
  destruct t; cbn [color_eqb]; (split; [discriminate|]); (split; [reflexivity|]);
    eexists; split; reflexivity.
Qed.

Lemma rights_field (bw bb : bool) :
  let R0 := (if bw then "B" else "") ++ (if bb then "b" else "") in
  let R := if (String.length R0 =? 0)%nat then "-" else R0 in
  R <> "" /\ noSpace R = true /\
  negb (String.eqb R "-") && anyChar (fun rc => code rc =? 66) R = bw /\
  negb (String.eqb R "-") && anyChar (fun rc => code rc =? 98) R = bb.
Proof.
  destruct bw, bb; (split; [discriminate|]); repeat split; reflexivity.
Qed.

Lemma walls_field (ww wb : bool) :
  let W0 := (if ww then "w" else "") ++ (if wb then "b" else "") in
  let Wl := if (String.length W0 =? 0)%nat then "-" else W0 in
  Wl <> "" /\ noSpace Wl = true /\ isDigits Wl = false /\
  negb (String.eqb Wl "-") && anyChar (fun rc => code (toLowerCh rc) =? 119) Wl = ww /\
  negb (String.eqb Wl "-") && anyChar (fun rc => code (toLowerCh rc) =? 98) Wl = wb.
Proof.
  destruct ww, wb; (split; [discriminate|]); repeat split; reflexivity.
Qed.

Lemma Arr2_eta {A} (a : Arr2 A) : mkArr2 (getC White a) (getC Black a) = a.
Proof. now destruct a. Qed.

End FenWhole.

(** C9 (amended: up to winner and history).  The text [toFEN] writes for
    a consistent position with counters in the range of a non-negative
    [int] is read back by [fromFEN] as that position with the winner, the
    win reason and the history reset, which the text does not carry: the
    board, the side to move, the Bastion rights, the wall-built-last
    flags, the halfmove and fullmove counters and all derived state
    (bitboards, wall tokens, Sovereign squares, hash) are those of [p].
    So the position itself comes back exactly when it has no winner, no
    win reason and an empty history. *)
Theorem fen_round_trip (p : Position) :
  Consistent p ->
  0 <= halfmove_ p <= INT_MAX -> 0 <= fullmove_ p <= INT_MAX ->
  fromFEN (toFEN p) = Some (fresh p) /\
  (fromFEN (toFEN p) = Some p <->
   winner_ p = SQ_NONE /\ winReason_ p = WinNone /\ history_ p = []).
Proof.
  intros C Hh Hf.
  assert (E : fromFEN (toFEN p) = Some (fresh p)).
  { unfold toFEN. cbv zeta.
    destruct (turn_field (turn_ p)) as (T1 & T2 & t0 & T3 & T4).
    destruct (rights_field (getC White (bastionRight_ p)) (getC Black (bastionRight_ p)))
      as (R1 & R2 & R3 & R4).
    destruct (walls_field (wallBuiltLast p White) (wallBuiltLast p Black))
      as (W1 & W2 & W3 & W4 & W5).
    cbv zeta in *.
    rewrite (fromFEN_fields _ _ _ _ _ _ (fenBoard_nonempty p) (fenBoard_noSpace p)
               T1 T2 R1 R2 W1 W2 W3 Hh Hf).
    unfold fenTail. rewrite T3. cbv zeta. rewrite T4.
    rewrite parseBoard_fenBoard by apply C.
    rewrite R3, R4, W4, W5.
    change (negb (8 =? N - 1) || negb (9 =? N)) with false. cbv iota.
    f_equal. apply rebuild_of_fields; auto.
    - now rewrite Arr2_eta.
    - unfold wallBuiltLast. now rewrite Arr2_eta. }
  split; [exact E|]. rewrite E. clear. split.
  - intros H. apply some_inj in H. rewrite <- H. repeat split.
  - intros (H1 & H2 & H3). f_equal. destruct p. cbn in H1, H2, H3.
    subst. reflexivity.
Qed.

Lemma fen_round_trip_witness :
  let p := fst (makeMove initial (mkMove MasonCommand 66 57 66 SQ_NONE)) in
  Consistent p /\ 0 <= halfmove_ p <= INT_MAX /\ 0 <= fullmove_ p <= INT_MAX /\
  fromFEN (toFEN p) = Some (fresh p).
Proof.
  cbv zeta.
  assert (C : Consistent (fst (makeMove initial (mkMove MasonCommand 66 57 66 SQ_NONE)))).
  { apply Good_Consistent, Goodb_sound. vm_compute. reflexivity. }
  assert (Hh : 0 <= halfmove_ (fst (makeMove initial (mkMove MasonCommand 66 57 66 SQ_NONE)))
               <= INT_MAX) by (vm_compute; split; discriminate).
  assert (Hf : 0 <= fullmove_ (fst (makeMove initial (mkMove MasonCommand 66 57 66 SQ_NONE)))
               <= INT_MAX) by (vm_compute; split; discriminate).
  split; [exact C|]. split; [exact Hh|]. split; [exact Hf|].
  exact (proj1 (fen_round_trip _ C Hh Hf)).
Defined.

(** Two positions reached by play that do not come back.  After the
    first action of a game the history holds one hash, and the position
    read back from the text has an empty history.  After White's
    Catapult has taken the Black Sovereign the game is over and no action
    is listed, and the position read back from the text is a running game
    with actions to choose from. *)
Lemma fen_round_trip_counterexample :
  (let m := mkMove MasonCommand 66 57 66 SQ_NONE in
   let p := fst (makeMove initial m) in
   In m (movesOf initial) /\ Consistent p /\
   history_ p = [hash_ initial] /\
   option_map history_ (fromFEN (toFEN p)) = Some [] /\
   fromFEN (toFEN p) <> Some p) /\
  (let p0 := positionOf "4s4/4C4/9/9/9/9/9/9/3IS4 w Bb - 0 1" in
   let m0 := mkMove CatapultMove 13 4 SQ_NONE SQ_NONE in
   let p := fst (makeMove p0 m0) in
   In m0 (movesOf p0) /\ Consistent p /\
   gameOver p = true /\ movesOf p = [] /\
   option_map gameOver (fromFEN (toFEN p)) = Some false /\
   option_map (fun q => List.length (movesOf q)) (fromFEN (toFEN p))
   = Some 33%nat /\
   fromFEN (toFEN p) <> Some p).
Proof.
  split; cbv zeta.
  - split; [vm_compute; repeat (first [left; reflexivity | right])|].
    split; [apply Good_Consistent, Goodb_sound; vm_compute; reflexivity|].
    split; [vm_compute; reflexivity|]. split; [vm_compute; reflexivity|].
    intros E. apply (f_equal (option_map history_)) in E.
    vm_compute in E. discriminate E.
  - split; [vm_compute; repeat (first [left; reflexivity | right])|].
    split; [apply Good_Consistent, Goodb_sound; vm_compute; reflexivity|].
    split; [vm_compute; reflexivity|]. split; [vm_compute; reflexivity|].
    split; [vm_compute; reflexivity|]. split; [vm_compute; reflexivity|].
    intros E. apply (f_equal (option_map gameOver)) in E.
    vm_compute in E. discriminate E.
Qed.

(* ===================================================================== *)
(** * The draw floor of [negamax] *)
(* ===================================================================== *)

Section SearchFloor.

Variable Heur : Type.
Variable limitHit : Z -> bool.
Variable useNNUE : bool.
Variable useTT : bool.
Variable evalStm : Position -> Z -> Z.
Variable generateNoisyMoves : Position -> list Move.
Variable moveHeuristic : Position -> Move -> Z.
Variable orderScore : Position -> Move -> Move -> Heur -> Z -> Z.
Variable recordQuietCutoff : Heur -> Move -> Z -> Z -> Heur.
Variable hashAfterMake : Z -> Position -> Undo -> Z.
Variable ttIndex : Z -> Z.
Variable zobristTurn : Z.

#[local] Abbreviation Ctx := (SearchContext Heur).
#[local] Abbreviation shouldStop' := (shouldStop Heur limitHit).
#[local] Abbreviation enterNode' := (enterNode Heur).
#[local] Abbreviation probeTT' := (probeTT Heur useTT ttIndex).
#[local] Abbreviation qLoop' := (qLoop Heur hashAfterMake).
#[local] Abbreviation quiescence' :=
  (quiescence Heur limitHit evalStm generateNoisyMoves moveHeuristic hashAfterMake).
#[local] Abbreviation searchMove' := (searchMove Heur).
#[local] Abbreviation nLoop' :=
  (nLoop Heur useNNUE evalStm recordQuietCutoff hashAfterMake).
#[local] Abbreviation negamax' :=
  (negamax Heur limitHit useNNUE useTT evalStm generateNoisyMoves moveHeuristic
           orderScore recordQuietCutoff hashAfterMake ttIndex zobristTurn).

(** ** Quiescence is fail-hard above a non-negative window *)



(** ** The move loop never lowers [best] *)



(** ** The floor at a node where a draw can be claimed *)



(** ** Enough fuel: the recursion is on [depth] *)





(** ** The claim is a floor, not a verdict *)










End SearchFloor.

(** ** Two nodes *)

(** A search with no limits, no table and no heuristics, whose
    evaluation is the constant [ev]. *)
Definition idleCtx : SearchContext unit :=
  mkCtx unit 0 0 false (fun _ => mkTTEntry 0 0 0 Exact nullMove) tt.

Definition negamaxConst (ev : Z) (fuel : nat) (pos : Position)
  (depth alpha beta ply : Z) (pvNode : bool) : option Z :=
  option_map fst
    (negamax unit (fun _ => false) false false (fun _ _ => ev) (fun _ => [])
             (fun _ _ => 0) (fun _ _ _ _ _ => 0) (fun h _ _ _ => h)
             (fun k _ _ => k) (fun _ => 0) 0
             fuel pos depth alpha beta idleCtx ply 0 pvNode).

Definition playAll (p : Position) (ms : list Move) : Position :=
  fold_left (fun q m => fst (makeMove q m)) ms p.

(** Both Pegasi out and back, twice: the initial position for the third time. *)
Definition shuffle : list Move :=
  [normalMove 74 55; normalMove 2 19; normalMove 55 74; normalMove 19 2;
   normalMove 74 55; normalMove 2 19; normalMove 55 74; normalMove 19 2].

(** White has its Sovereign and sixteen wall tokens, so no action. *)
Definition stuck : Position :=
  let p := positionOf "4s4/9/9/9/9/9/RRRRRRRR1/9/4S4 w - - 0 1" in
  set_history [hash_ p; hash_ p] p.


(** The two conditions on a node with depth left are those of a node the
    search visits, and the floor does depend on them.  With White to move
    and without an action, in a position whose history was written by
    hand to hold its hash twice, the node returns the static evaluation,
    here -100, at ply 1; and so does a node placed at ply [MAX_PLY] in
    the thrice-seen initial position.  Neither arises in a search: a
    position whose hash stands in the history was left by an action, and
    the driver keeps the depth, and so the ply of a node with depth
    left, below [MAX_PLY]. *)
Lemma floor_side_conditions :
  WF stuck /\ isRepetition stuck = true /\ gameOver stuck = false /\
  movesOf stuck = [] /\
  negamaxConst (-100) 1 stuck 1 (- INF) INF 1 true = Some (-100) /\
  isRepetition (playAll initial shuffle) = true /\
  gameOver (playAll initial shuffle) = false /\
  negamaxConst (-100) 1 (playAll initial shuffle) 1 (- INF) INF MAX_PLY true
  = Some (-100).
Proof.
  split; [apply WFb_sound; vm_compute; reflexivity|].
  repeat split; vm_compute; reflexivity.
Qed.

(* ===================================================================== *)
(** * Further properties of the engine *)
(* ===================================================================== *)

(** ** Transposition-table scores *)

(** X1. A score stored with [scoreToTT] at some ply and read back with
    [scoreFromTT] at the same ply is the score that was stored. *)
Theorem scoreTT_round_trip (score ply : Z) :
  0 <= ply -> scoreFromTT (scoreToTT score ply) ply = score.
Proof.
  intros Hp. unfold scoreFromTT, scoreToTT, MATE.
  repeat match goal with
  | |- context [?a <? ?b] => destruct (Z.ltb_spec a b)
  end; lia.
Qed.

Lemma scoreTT_round_trip_witness :
  0 <= 7 /\ scoreFromTT (scoreToTT (MATE - 3) 7) 7 = MATE - 3.
Proof. split; [lia|]. apply (scoreTT_round_trip (MATE - 3) 7). lia. Defined.

(** ** Repetition *)

Lemma repetitionScan_count h hist : forall c,
  0 <= c < 2 ->
  repetitionScan h hist c = (2 <=? c + Z.of_nat (count_occ Z.eq_dec hist h)).
Proof.
  induction hist as [|x rest IH]; intros c Hc; cbn [repetitionScan count_occ].
  - symmetry. apply Z.leb_gt. lia.
  - destruct (Z.eqb_spec x h) as [->|Hne].
    + destruct (Z.eq_dec h h) as [_|]; [|congruence].
      destruct (Z.leb_spec 2 (c + 1)).
      * symmetry. apply Z.leb_le. lia.
      * rewrite IH by lia. f_equal. lia.
    + destruct (Z.eq_dec x h) as [|_]; [congruence|]. now apply IH.
Qed.

(** X2. [isRepetition] holds exactly when the current hash stands at
    least twice in the history, wherever in it. *)
Theorem isRepetition_count (p : Position) :
  isRepetition p = (2 <=? Z.of_nat (count_occ Z.eq_dec (history_ p) (hash_ p))).
Proof. unfold isRepetition. rewrite repetitionScan_count by lia. reflexivity. Qed.

(** ** Walls under fire *)

Lemma hitWall_at s p t :
  validBoard (b_ p) -> inBoard s -> 0 <= t ->
  at_ (hitWall s p) t
  = if t =? s then
      (if isWallVal (at_ p s)
       then (if wallHp (at_ p s) =? 2 then makeWall (colorOf (at_ p s)) 1 else 0)
       else at_ p s)
    else at_ p t.
Proof.
  intros [L _] Hs Ht. unfold hitWall, inBoard in *. cbv zeta.
  destruct (isWallVal (at_ p s)); cbn [negb].
  - destruct (wallHp (at_ p s) =? 2);
      change (at_ (set_wallTokens ?a ?q) t) with (at_ q t);
      now rewrite at_setSquareRaw by (auto; lia).
  - destruct (Z.eqb_spec t s); congruence.
Qed.

Lemma hitWall_tokens s p c :
  wallTokens (hitWall s p) c
  = wallTokens p c
    - (if isWallVal (at_ p s) && color_eqb (colorOf (at_ p s)) c then 1 else 0).
Proof.
  unfold hitWall, wallTokens. cbv zeta.
  destruct (isWallVal (at_ p s)); cbn [negb andb]; [|lia].
  destruct (wallHp (at_ p s) =? 2); cbn [wallTokens_ set_wallTokens];
    rewrite setSquareRaw_wallTokens_;
    (destruct (color_eqb (colorOf (at_ p s)) c) eqn:E;
     [apply color_eqb_eq in E; subst c; now rewrite getC_setC_eq
     |apply color_eqb_neq in E; rewrite getC_setC_ne by assumption; lia]).
Qed.

Lemma wall_two_hits_tokens v c :
  validVal v -> isWallVal v = true ->
  (if isWallVal v && color_eqb (colorOf v) c then 1 else 0)
  + (if isWallVal (if wallHp v =? 2 then makeWall (colorOf v) 1 else 0)
        && color_eqb
             (colorOf (if wallHp v =? 2 then makeWall (colorOf v) 1 else 0)) c
     then 1 else 0)
  = if color_eqb (colorOf v) c then wallHp v else 0.
Proof.
  intros Hv Hw.
  case_val v Hv; destruct c; vm_compute in Hw |- *; congruence.
Qed.

Lemma wall_two_hits_gone v :
  validVal v -> isWallVal v = true ->
  (if isWallVal (if wallHp v =? 2 then makeWall (colorOf v) 1 else 0)
   then (if wallHp (if wallHp v =? 2 then makeWall (colorOf v) 1 else 0) =? 2
         then makeWall
                (colorOf (if wallHp v =? 2 then makeWall (colorOf v) 1 else 0)) 1
         else 0)
   else (if wallHp v =? 2 then makeWall (colorOf v) 1 else 0)) = 0.
Proof.
  intros Hv Hw.
  case_val v Hv; vm_compute in Hw |- *; congruence.
Qed.

(** X3. Two hits remove any wall: the square is empty afterwards, the
    owner has lost exactly the wall's HP in wall tokens, the other side
    none, and no other square has changed. *)
Theorem hitWall_twice (p : Position) (s : Z) :
  validBoard (b_ p) -> inBoard s -> isWallVal (at_ p s) = true ->
  let owner := colorOf (at_ p s) in
  let q := hitWall s (hitWall s p) in
  at_ q s = 0 /\
  wallTokens q owner = wallTokens p owner - wallHp (at_ p s) /\
  wallTokens q (other owner) = wallTokens p (other owner) /\
  forall t, inBoard t -> t <> s -> at_ q t = at_ p t.
Proof.
  intros Hb Hs Hw. cbv zeta.
  assert (Hb1 : validBoard (b_ (hitWall s p))) by now apply hitWall_validBoard.
  pose proof (at_valid p s Hb Hs) as Hv.
  assert (Hs0 : 0 <= s) by apply Hs.
  pose proof (hitWall_at s p s Hb Hs Hs0) as A1.
  rewrite Z.eqb_refl, Hw in A1.
  pose proof (hitWall_at s (hitWall s p) s Hb1 Hs Hs0) as A2.
  rewrite Z.eqb_refl in A2.
  rewrite !hitWall_tokens. rewrite A2, A1.
  split; [|split; [|split]].
  - now apply wall_two_hits_gone.
  - pose proof (wall_two_hits_tokens (at_ p s) (colorOf (at_ p s)) Hv Hw) as T.
    assert (E : color_eqb (colorOf (at_ p s)) (colorOf (at_ p s)) = true)
      by (now destruct (colorOf (at_ p s))).
    rewrite E in T. rewrite ?E. lia.
  - pose proof (wall_two_hits_tokens (at_ p s) (other (colorOf (at_ p s))) Hv Hw) as T.
    assert (E : color_eqb (colorOf (at_ p s)) (other (colorOf (at_ p s))) = false)
      by (now destruct (colorOf (at_ p s))).
    rewrite E in T. rewrite ?E. lia.
  - intros t Ht Hne. unfold inBoard in Ht.
    rewrite !hitWall_at by (auto; lia).
    destruct (Z.eqb_spec t s); [contradiction|reflexivity].
Qed.

Lemma hitWall_twice_witness :
  let p := positionOf "4s4/9/9/9/4R4/9/9/9/4S4 w - - 0 1" in
  validBoard (b_ p) /\ inBoard 40 /\ isWallVal (at_ p 40) = true /\
  at_ (hitWall 40 (hitWall 40 p)) 40 = 0 /\
  wallTokens (hitWall 40 (hitWall 40 p)) White = 0.
Proof.
  cbv zeta.
  assert (V : validBoard (b_ (positionOf "4s4/9/9/9/4R4/9/9/9/4S4 w - - 0 1")))
    by (apply validBoardb_sound; vm_compute; reflexivity).
  assert (I : inBoard 40) by (unfold inBoard; lia).
  assert (W : isWallVal (at_ (positionOf "4s4/9/9/9/4R4/9/9/9/4S4 w - - 0 1") 40) = true)
    by (vm_compute; reflexivity).
  split; [exact V|]. split; [exact I|]. split; [exact W|].
  destruct (hitWall_twice _ 40 V I W) as (H1 & H2 & _). cbv zeta in *.
  split; [exact H1|].
  vm_compute. reflexivity.
Defined.

(** ** Edge cases of [makeMove] and [rebuildDerived] *)

(** X4. On a finished game [makeMove] only pushes the hash on the
    history, whatever the action, and [undoMove] takes it off again. *)
Theorem makeMove_finished (p : Position) (m : Move) :
  WF p -> gameOver p = true ->
  fst (makeMove p m) = set_history (history_ p ++ [hash_ p]) p /\
  undoMove (fst (makeMove p m)) (snd (makeMove p m)) = p.
Proof.
  intros W Hgo.
  assert (E : makeMove p m
              = (set_history (history_ p ++ [hash_ p]) p,
                 mkUndo (turn_ p) (bastionRight_ p) (wallBuiltLast_ p) (sovereignSq_ p)
                   (wallTokens_ p) (halfmove_ p) (fullmove_ p) (winner_ p)
                   (winReason_ p) [])).
  { unfold makeMove. cbv zeta.
    change (gameOver (set_history (history_ p ++ [hash_ p]) p)) with (gameOver p).
    rewrite Hgo. reflexivity. }
  rewrite E. cbn [fst snd]. split; [reflexivity|].
  apply undoMove_MakeInv; [exact W|]. now apply MakeInv_init.
Qed.

Lemma makeMove_finished_witness :
  let p := fst (makeMove (positionOf "4s4/4C4/9/9/9/9/9/9/3IS4 w Bb - 0 1")
                         (mkMove CatapultMove 13 4 SQ_NONE SQ_NONE)) in
  WF p /\ gameOver p = true /\
  undoMove (fst (makeMove p nullMove)) (snd (makeMove p nullMove)) = p.
Proof.
  cbv zeta.
  assert (W : WF (fst (makeMove (positionOf "4s4/4C4/9/9/9/9/9/9/3IS4 w Bb - 0 1")
                         (mkMove CatapultMove 13 4 SQ_NONE SQ_NONE))))
    by (apply WFb_sound; vm_compute; reflexivity).
  assert (G : gameOver (fst (makeMove (positionOf "4s4/4C4/9/9/9/9/9/9/3IS4 w Bb - 0 1")
                         (mkMove CatapultMove 13 4 SQ_NONE SQ_NONE))) = true)
    by (vm_compute; reflexivity).
  split; [exact W|]. split; [exact G|].
  apply (makeMove_finished _ nullMove W G).
Defined.

Lemma flagsHash_flagsOf p q : flagsOf p = flagsOf q -> flagsHash p = flagsHash q.
Proof.
  intros F. destruct (flagsOf_fields _ _ F) as (F1 & F2 & F3 & _).
  unfold flagsHash. now rewrite F1, F2, F3.
Qed.

(** X5. Whatever the derived fields held, [rebuildDerived] on a valid
    board yields a well-formed position, and rebuilding once more
    changes nothing. *)
Theorem rebuildDerived_idempotent (p : Position) :
  validBoard (b_ p) ->
  WF (rebuildDerived p) /\
  rebuildDerived (rebuildDerived p) = rebuildDerived p.
Proof.
  intros Hb.
  destruct (rebuildDerived_spec p Hb) as (B & F & H & T & S & Hok). cbv zeta in *.
  assert (W : WF (rebuildDerived p)) by (split; [now rewrite B|exact Hok]).
  split; [exact W|]. apply Consistent_rebuild.
  split; [exact W|]. rewrite B. split; [exact T|]. split; [exact S|].
  rewrite H. f_equal. symmetry. now apply flagsHash_flagsOf.
Qed.

Lemma rebuildDerived_idempotent_witness :
  let p := set_hash 12345 (set_wallTokens (mkArr2 7 7) initial) in
  validBoard (b_ p) /\ rebuildDerived p = initial /\
  rebuildDerived (rebuildDerived p) = rebuildDerived p.
Proof.
  cbv zeta.
  assert (V : validBoard (b_ (set_hash 12345 (set_wallTokens (mkArr2 7 7) initial))))
    by (apply validBoardb_sound; vm_compute; reflexivity).
  split; [exact V|]. split; [vm_compute; reflexivity|].
  apply (rebuildDerived_idempotent _ V).
Defined.

(** ** The undo record never outgrows its six slots *)

(** [u] holds at most [n] squares, each once. *)
Definition SavedWithin (n : nat) (u : Undo) : Prop :=
  (List.length (u_saved u) <= n)%nat /\ NoDup (map fst (u_saved u)).

Lemma SavedWithin_nil n a b c d e f g h i :
  SavedWithin n (mkUndo a b c d e f g h i []).
Proof. split; [cbn; lia|constructor]. Qed.

Lemma NoDup_snoc {A} (l : list A) (x : A) :
  NoDup l -> ~ In x l -> NoDup (l ++ [x]).
Proof.
  induction l as [|a l IH]; intros D Hn; cbn.
  - constructor; [intros []|constructor].
  - inversion D as [|? ? Ha Dl]; subst. constructor.
    + rewrite in_app_iff. intros [H|[<-|[]]]; [contradiction|].
      apply Hn. now left.
    + apply IH; [exact Dl|]. intros H. apply Hn. now right.
Qed.

Lemma SavedWithin_save n p u s :
  SavedWithin n u -> SavedWithin (S n) (saveSquare p u s).
Proof.
  intros [L D]. unfold saveSquare.
  destruct (existsb _ (u_saved u)) eqn:E.
  - split; [lia|exact D].
  - split; cbn [u_saved set_saved].
    + rewrite length_app. cbn. lia.
    + rewrite map_app. cbn [map fst].
      apply NoDup_snoc; [exact D|].
      intros Hx. apply in_map_iff in Hx. destruct Hx as (e & He & Hin).
      assert (existsb (fun e0 => fst e0 =? s) (u_saved u) = true) as Hc.
      { apply existsb_exists. exists e. split; [exact Hin|].
        rewrite He. apply Z.eqb_refl. }
      congruence.
Qed.

Lemma SavedWithin_le n k u : (n <= k)%nat -> SavedWithin n u -> SavedWithin k u.
Proof. intros H [L D]. split; [lia|exact D]. Qed.

(** X6. Whatever the action, [makeMove] records at most four squares in
    the undo record, each of them once; the six slots of [Undo] are never
    exceeded although [saveSquare] does not check the count. *)
Theorem makeMove_saves_at_most_four (p : Position) (m : Move) :
  (List.length (u_saved (snd (makeMove p m))) <= 4)%nat /\
  NoDup (map fst (u_saved (snd (makeMove p m)))).
Proof.
  change (SavedWithin 4 (snd (makeMove p m))).
  unfold makeMove, captureSovereign, relocate. cbv zeta.
  destruct (gameOver _); [apply SavedWithin_nil|].
  destruct (m_type m);
    repeat match goal with
    | |- context [if ?c then _ else _] => destruct c
    end;
    cbn [snd];
    repeat first [ apply SavedWithin_nil | apply SavedWithin_save ].
Qed.

(** ** Where each kind of action is generated *)

(** A property of every listed action follows from the property at each
    place where the generator emits one; the conditions under which the
    place is reached are available there. *)
Section Sites.

Variable Q : Move -> Prop.

Definition AllQ (l : list Move) : Prop := forall m, In m l -> Q m.

Lemma AllQ_nil : AllQ [].
Proof. intros m []. Qed.

Lemma AllQ_cons m l : Q m -> AllQ l -> AllQ (m :: l).
Proof. intros H Hl x [<-|Hx]; auto. Qed.

Lemma AllQ_app l1 l2 : AllQ l1 -> AllQ l2 -> AllQ (l1 ++ l2).
Proof. intros H1 H2 m Hm. apply in_app_iff in Hm. destruct Hm; auto. Qed.

Lemma AllQ_flat_map {A} (f : A -> list Move) l :
  (forall x, In x l -> AllQ (f x)) -> AllQ (flat_map f l).
Proof.
  intros H m Hm. apply in_flat_map in Hm. destruct Hm as (x & Hx & Hm).
  eapply H; eauto.
Qed.

Lemma AllQ_map {A} (f : A -> Move) l : (forall x, Q (f x)) -> AllQ (map f l).
Proof. intros H m Hm. apply in_map_iff in Hm. destruct Hm as (x & <- & _). apply H. Qed.

Ltac allq :=
  repeat first
    [ assumption
    | apply AllQ_nil
    | apply AllQ_cons; [solve [auto]|]
    | apply AllQ_app
    | apply AllQ_flat_map; intros ? _
    | apply AllQ_map; intros ?; solve [auto]
    | match goal with |- AllQ (if ?c then _ else _) => destruct c end
    | progress cbv zeta ].

Section Normal.

Variable s : Z.
Hypothesis HN : forall t, Q (normalMove s t).

Lemma masonSlide_all p r c d steps : AllQ (masonSlide p s r c d steps).
Proof. induction steps; cbn [masonSlide]; allq. Qed.

Lemma lancerSlide_all p us them sqs : AllQ (lancerSlide p s us them sqs).
Proof. induction sqs; cbn [lancerSlide]; allq. Qed.

Lemma courtSlide_all p them sqs : AllQ (courtSlide p s them sqs).
Proof. induction sqs; cbn [courtSlide]; allq. Qed.

Lemma genNormal_all p pt us : AllQ (genNormalMovesForPiece p s pt us).
Proof.
  unfold genNormalMovesForPiece. destruct pt; allq;
    first [apply masonSlide_all | apply lancerSlide_all | apply courtSlide_all].
Qed.

End Normal.

(** A besieged Sovereign (more than 15 wall tokens) has range 0. *)
Lemma genNormal_sovereign_all p s us :
  (wallTokens p us <= 15 -> forall t, Q (normalMove s t)) ->
  AllQ (genNormalMovesForPiece p s Sovereign us).
Proof.
  intros H. unfold genNormalMovesForPiece, sovereignMoveRange. cbv zeta.
  destruct (Z.ltb_spec 15 (wallTokens p us)) as [Hlt|Hle].
  - change (0 <=? 0) with true. cbv iota. apply AllQ_nil.
  - specialize (H Hle).
    match goal with |- AllQ (if ?c then _ else _) => destruct c end;
      [apply AllQ_nil|].
    apply AllQ_flat_map. intros dir _. now apply courtSlide_all.
Qed.

Section Catapults.

Variable s : Z.
Hypothesis HR : forall t, Q (mkMove CatapultRangedDemolish s t SQ_NONE SQ_NONE).
Hypothesis HC : forall t a, Q (mkMove CatapultMove s t a SQ_NONE).

Lemma rangedDemolish_all p sqs : AllQ (rangedDemolish p s sqs).
Proof. induction sqs; cbn [rangedDemolish]; allq. Qed.

Lemma catapultVariants_all t ws : AllQ (catapultVariants s t ws).
Proof. unfold catapultVariants. allq. Qed.

Lemma catapultSlide_all p us sqs : AllQ (catapultSlide p s us sqs).
Proof. induction sqs; cbn [catapultSlide]; allq; apply catapultVariants_all. Qed.

Lemma genCatapultExtras_all p us : AllQ (genCatapultExtras p s us).
Proof.
  unfold genCatapultExtras. allq;
    first [apply rangedDemolish_all | apply catapultSlide_all].
Qed.

End Catapults.

Section Masons.

Variable s : Z.
Variable canBuild : bool.
Hypothesis HS : forall t, Q (mkMove MasonCommand s t SQ_NONE SQ_NONE).
Hypothesis HB : canBuild = true ->
  forall t a, inBoard a -> Q (mkMove MasonCommand s t a SQ_NONE).

Lemma considerCommandDest_all p us d :
  AllQ (snd (considerCommandDest p s us canBuild d)).
Proof.
  unfold considerCommandDest. cbv zeta.
  match goal with |- AllQ (snd (if ?c then _ else _)) => destruct c end;
    cbn [snd]; [allq|].
  apply AllQ_app; [allq|].
  destruct canBuild; cbn [andb]; [|apply AllQ_nil].
  match goal with |- AllQ (if ?c then _ else _) => destruct c end;
    [|apply AllQ_nil].
  apply AllQ_flat_map. intros d0 _.
  destruct (inBounds (row d + fst d0) (col d + snd d0)) eqn:Eb; cbn [negb];
    [|apply AllQ_nil].
  match goal with |- AllQ (if ?c then _ else _) => destruct c end;
    [|apply AllQ_nil].
  apply AllQ_cons; [|apply AllQ_nil].
  apply HB; [reflexivity|]. now apply sq_range.
Qed.

Lemma commandLoop_all us want cands : forall p,
  AllQ (snd (commandLoop p s us canBuild want cands)).
Proof.
  induction cands as [|[rr cc] cands IH]; intros p; cbn [commandLoop].
  - apply AllQ_nil.
  - destruct (negb (inBounds rr cc)); [apply IH|]. cbv zeta.
    destruct (want p (sq rr cc)); [|apply IH].
    pose proof (considerCommandDest_all p us (sq rr cc)) as H1.
    destruct (considerCommandDest p s us canBuild (sq rr cc)) as [p1 ms].
    pose proof (IH p1) as H2.
    destruct (commandLoop p1 s us canBuild want cands) as [p2 ms'].
    cbn [snd] in *. now apply AllQ_app.
Qed.

End Masons.

Lemma genMasonExtras_all p s us ea :
  (wallBuiltLast p us = false -> bb_test ea s = false ->
   forall t, In t (stepTargets DIRS4 (row s) (col s)) -> at_ p t = 0 ->
             Q (mkMove MasonConstruct s t SQ_NONE SQ_NONE)) ->
  (forall t, Q (mkMove MasonCommand s t SQ_NONE SQ_NONE)) ->
  (wallBuiltLast p us = false ->
   forall t a, inBoard a -> Q (mkMove MasonCommand s t a SQ_NONE)) ->
  AllQ (snd (genMasonExtras p s us ea)).
Proof.
  intros H1 H2 H3. unfold genMasonExtras. cbv zeta.
  match goal with |- context [flat_map ?f DIRS4] => set (cons := flat_map f DIRS4) end.
  match goal with |- context [if ?c then cons else []] =>
    set (construct := if c then cons else []) end.
  assert (Hc : AllQ construct).
  { unfold construct, cons.
    destruct (wallBuiltLast p us); cbn [negb andb]; [apply AllQ_nil|].
    destruct (bb_test ea s); cbn [negb]; [apply AllQ_nil|].
    specialize (H1 eq_refl eq_refl). apply AllQ_flat_map. intros d Hd.
    cbv zeta.
    destruct (inBounds (row s + fst d) (col s + snd d)) eqn:Eb; cbn [negb];
      [|apply AllQ_nil].
    destruct (Z.eqb_spec (at_ p (sq (row s + fst d) (col s + snd d))) 0);
      cbn [negb]; [|apply AllQ_nil].
    apply AllQ_cons; [|apply AllQ_nil].
    apply H1; [apply stepTargets_In; exists d; auto|assumption]. }
  clearbody construct. clear cons.
  assert (H3' : negb (wallBuiltLast p us) = true ->
                forall t a, inBoard a -> Q (mkMove MasonCommand s t a SQ_NONE)).
  { intros E. apply H3. now destruct (wallBuiltLast p us). }
  match goal with |- AllQ (snd (if ?c then _ else _)) => destruct c end.
  - exact Hc.
  - match goal with |- context [commandLoop p s us ?cb ?w ?l] =>
      pose proof (commandLoop_all s cb H2 H3' us w l p) as L1;
      destruct (commandLoop p s us cb w l) as [p1 orth] end.
    match goal with |- context [commandLoop p1 s us ?cb ?w ?l] =>
      pose proof (commandLoop_all s cb H2 H3' us w l p1) as L2;
      destruct (commandLoop p1 s us cb w l) as [p2 diag] end.
    cbn [snd] in *. allq.
Qed.

Lemma genBastion_all p s us :
  (wallBuiltLast p us = false -> bastionRight p us = true ->
   wallTokens p us <= 15 -> forall t a b, Q (mkMove Bastion s t a b)) ->
  AllQ (genBastion p s us).
Proof.
  intros H. unfold genBastion.
  destruct (wallBuiltLast p us); [apply AllQ_nil|].
  destruct (bastionRight p us); cbn [negb]; [|apply AllQ_nil].
  destruct (Z.ltb_spec 15 (wallTokens p us)); [apply AllQ_nil|].
  specialize (H eq_refl eq_refl ltac:(assumption)). allq.
Qed.

Lemma masonLoop_all p us ea sqs :
  WF p ->
  (forall s, In s sqs -> inBoard s /\ isPieceOf us Mason (at_ p s) = true) ->
  (forall s, In s sqs ->
     AllQ (genNormalMovesForPiece p s Mason us) /\
     AllQ (snd (genMasonExtras p s us ea))) ->
  AllQ (snd (masonLoop p us ea sqs)).
Proof.
  intros Hwf. induction sqs as [|s sqs IH]; intros Hs Hq.
  - apply AllQ_nil.
  - cbn [masonLoop]. cbv zeta.
    destruct (Hs s (or_introl eq_refl)) as [Hin Hp].
    destruct (Hq s (or_introl eq_refl)) as [Q1 Q2].
    destruct (genMasonExtras_ok p s us ea Hwf Hin Hp) as [E1 _].
    destruct (genMasonExtras p s us ea) as [p1 extras].
    cbn [fst snd] in *. subst p1.
    assert (I : AllQ (snd (masonLoop p us ea sqs))).
    { apply IH; intros; [apply Hs|apply Hq]; now right. }
    destruct (masonLoop p us ea sqs) as [p2 more].
    cbn [snd] in *. allq.
Qed.

(** The generator as a whole. *)
Lemma movesOf_sites p :
  WF p ->
  let us := turn_ p in
  (forall s pt t, inBoard s -> isPieceOf us pt (at_ p s) = true ->
     pt <> Catapult -> (pt = Sovereign -> wallTokens p us <= 15) ->
     Q (normalMove s t)) ->
  (forall s t, inBoard s -> isPieceOf us Mason (at_ p s) = true ->
     wallBuiltLast p us = false ->
     bb_test (computeAttacks p (other us)) s = false ->
     In t (stepTargets DIRS4 (row s) (col s)) -> at_ p t = 0 ->
     Q (mkMove MasonConstruct s t SQ_NONE SQ_NONE)) ->
  (forall s t a, inBoard s -> isPieceOf us Mason (at_ p s) = true ->
     a = SQ_NONE \/ (inBoard a /\ wallBuiltLast p us = false) ->
     Q (mkMove MasonCommand s t a SQ_NONE)) ->
  (forall s t, inBoard s -> isPieceOf us Catapult (at_ p s) = true ->
     Q (mkMove CatapultRangedDemolish s t SQ_NONE SQ_NONE)) ->
  (forall s t a, inBoard s -> isPieceOf us Catapult (at_ p s) = true ->
     Q (mkMove CatapultMove s t a SQ_NONE)) ->
  (forall s t a b, inBoard s -> isPieceOf us Sovereign (at_ p s) = true ->
     wallBuiltLast p us = false -> bastionRight p us = true ->
     wallTokens p us <= 15 ->
     Q (mkMove Bastion s t a b)) ->
  forall m, In m (movesOf p) -> Q m.
Proof.
  intros Hwf us HN HCo HCm HR HC HB.
  change (AllQ (movesOf p)).
  unfold movesOf, generateMoves.
  destruct (gameOver p); [apply AllQ_nil|]. cbv zeta. fold us.
  assert (Hsq : forall pt s, In s (bb_squares (pieceBB p us pt)) ->
                  inBoard s /\ isPieceOf us pt (at_ p s) = true).
  { intros pt s. now apply pieceBB_squares. }
  destruct (masonLoop_ok p us (computeAttacks p (other us))
              (bb_squares (pieceBB p us Mason)) Hwf (Hsq Mason)) as [M1 _].
  pose proof (masonLoop_all p us (computeAttacks p (other us))
                (bb_squares (pieceBB p us Mason)) Hwf (Hsq Mason)) as M2.
  destruct (masonLoop p us _ _) as [p1 masons].
  cbn [fst snd] in *. subst p1.
  repeat apply AllQ_app.
  - apply M2. intros s Hs. destruct (Hsq _ _ Hs) as [Hin Hp]. split.
    + apply genNormal_all. intros t.
      apply (HN s Mason t); auto; discriminate.
    + apply genMasonExtras_all; eauto.
  - apply AllQ_flat_map. intros s Hs. destruct (Hsq _ _ Hs) as [Hin Hp].
    apply genNormal_all. intros t. apply (HN s Pegasus t); auto; discriminate.
  - apply AllQ_flat_map. intros s Hs. destruct (Hsq _ _ Hs) as [Hin Hp].
    apply genNormal_all. intros t. apply (HN s Lancer t); auto; discriminate.
  - apply AllQ_flat_map. intros s Hs. destruct (Hsq _ _ Hs) as [Hin Hp].
    apply genCatapultExtras_all; eauto.
  - apply AllQ_flat_map. intros s Hs. destruct (Hsq _ _ Hs) as [Hin Hp].
    apply genNormal_all. intros t. apply (HN s Minister t); auto; discriminate.
  - apply AllQ_flat_map. intros s Hs. destruct (Hsq _ _ Hs) as [Hin Hp].
    apply AllQ_app.
    + apply genNormal_sovereign_all. intros Hle t.
      apply (HN s Sovereign t); auto; discriminate.
    + apply genBastion_all; eauto.
Qed.

End Sites.

(** ** Turn bookkeeping of [makeMove] *)

(** The actions that put a wall on the board. *)
Definition buildsWall (m : Move) : bool :=
  match m_type m with
  | MasonConstruct | Bastion => true
  | MasonCommand => negb (m_aux1 m =? SQ_NONE)
  | _ => false
  end.

(** What the board part of [makeMove] leaves alone: everything but the
    squares, the tokens, the Sovereign squares and the clock, and the
    mover's Bastion right, which may be dropped. *)
Definition Frame (us : Color) (p q : Position) : Prop :=
  turn_ q = turn_ p /\ fullmove_ q = fullmove_ p /\ winner_ q = winner_ p /\
  history_ q = history_ p /\ wallBuiltLast_ q = wallBuiltLast_ p /\
  (bastionRight_ q = bastionRight_ p \/
   bastionRight_ q = setC us false (bastionRight_ p)).

Lemma Frame_refl us p : Frame us p p.
Proof. unfold Frame. auto 10. Qed.

Lemma setC_setC {A} (c : Color) (v w : A) a : setC c v (setC c w a) = setC c v a.
Proof. now destruct c. Qed.

Lemma Frame_trans us p q r : Frame us p q -> Frame us q r -> Frame us p r.
Proof.
  intros (A1 & A2 & A3 & A4 & A5 & A6) (B1 & B2 & B3 & B4 & B5 & B6).
  unfold Frame. repeat split; try congruence.
  destruct A6 as [A6|A6], B6 as [B6|B6]; rewrite B6, A6; auto.
  right. apply setC_setC.
Qed.

Lemma Frame_setSquareRaw us s v p : Frame us p (setSquareRaw s v p).
Proof. unfold Frame. fields. auto 10. Qed.

Lemma Frame_hitWall us s p : Frame us p (hitWall s p).
Proof. unfold Frame. fields. auto 10. Qed.

Lemma Frame_addWallTokens us c hp p : Frame us p (addWallTokens c hp p).
Proof. unfold Frame. cbn. auto 10. Qed.

Lemma Frame_set_sovereignSq us v p : Frame us p (set_sovereignSq v p).
Proof. unfold Frame. cbn. auto 10. Qed.

Lemma Frame_dropBastionRight us p : Frame us p (dropBastionRight us p).
Proof.
  unfold Frame, dropBastionRight. destruct (getC us (bastionRight_ p)); cbn; auto 10.
Qed.

Ltac frame_bk :=
  repeat
    match goal with
    | |- Frame _ _ (if ?c then _ else _) => destruct c
    | |- Frame _ _ (setSquareRaw _ _ _) =>
        eapply Frame_trans; [|apply Frame_setSquareRaw]
    | |- Frame _ _ (hitWall _ _) =>
        eapply Frame_trans; [|apply Frame_hitWall]
    | |- Frame _ _ (addWallTokens _ _ _) =>
        eapply Frame_trans; [|apply Frame_addWallTokens]
    | |- Frame _ _ (dropBastionRight _ _) =>
        eapply Frame_trans; [|apply Frame_dropBastionRight]
    | |- Frame _ _ (set_sovereignSq _ _) =>
        eapply Frame_trans; [|apply Frame_set_sovereignSq]
    end;
  try apply Frame_refl.

Lemma setWallBuiltLast_flag c v p :
  getC c (wallBuiltLast_ (setWallBuiltLast c v p)) = v /\
  getC (other c) (wallBuiltLast_ (setWallBuiltLast c v p))
  = getC (other c) (wallBuiltLast_ p) /\
  turn_ (setWallBuiltLast c v p) = turn_ p /\
  fullmove_ (setWallBuiltLast c v p) = fullmove_ p /\
  halfmove_ (setWallBuiltLast c v p) = halfmove_ p /\
  winner_ (setWallBuiltLast c v p) = winner_ p /\
  history_ (setWallBuiltLast c v p) = history_ p /\
  bastionRight_ (setWallBuiltLast c v p) = bastionRight_ p.
Proof.
  unfold setWallBuiltLast.
  destruct (Bool.eqb (getC c (wallBuiltLast_ p)) v) eqn:E.
  - apply Bool.eqb_prop in E. auto 10.
  - cbn. rewrite getC_setC_eq, getC_setC_other. auto 10.
Qed.

Lemma finalizeTurn_flags pre :
  winner_ pre = SQ_NONE ->
  let q := finalizeTurn pre in
  history_ q = history_ pre /\ wallBuiltLast_ q = wallBuiltLast_ pre /\
  bastionRight_ q = bastionRight_ pre /\
  ((winner_ q = cidx (turn_ pre) /\ turn_ q = turn_ pre /\
    fullmove_ q = fullmove_ pre /\ halfmove_ q = 0)
   \/
   (winner_ q = SQ_NONE /\ turn_ q = other (turn_ pre) /\
    halfmove_ q = halfmove_ pre /\
    fullmove_ q = fullmove_ pre + (if color_eqb (turn_ pre) Black then 1 else 0))).
Proof.
  intros Hw. unfold finalizeTurn. rewrite Hw.
  change (negb (SQ_NONE =? SQ_NONE)) with false. cbv iota zeta.
  destruct (isEntombed pre (other (turn_ pre))).
  - cbn. auto 10.
  - change (turn_ (xorHash turnKey pre)) with (turn_ pre).
    destruct (color_eqb (turn_ pre) Black); cbn;
      repeat split; auto; right; repeat split; auto; lia.
Qed.

Lemma Frame_bastion us p q :
  Frame us p q ->
  getC (other us) (bastionRight_ q) = getC (other us) (bastionRight_ p) /\
  (getC us (bastionRight_ q) = true -> getC us (bastionRight_ p) = true).
Proof.
  intros (_ & _ & _ & _ & _ & [E|E]); rewrite E; [auto|].
  rewrite getC_setC_other, getC_setC_eq. split; [reflexivity|discriminate].
Qed.

(** The bookkeeping a finished [makeMove] shows, [b] telling whether the
    action put a wall on the board. *)
Definition Booked (p : Position) (b : bool) (q : Position) : Prop :=
  let us := turn_ p in
  history_ q = history_ p ++ [hash_ p] /\
  wallBuiltLast q (other us) = wallBuiltLast p (other us) /\
  bastionRight q (other us) = bastionRight p (other us) /\
  (bastionRight q us = true -> bastionRight p us = true) /\
  ((winner_ q = cidx us /\ turn_ q = us /\ fullmove_ q = fullmove_ p /\
    halfmove_ q = 0)
   \/
   (winner_ q = SQ_NONE /\ turn_ q = other us /\
    fullmove_ q = fullmove_ p + (if color_eqb us Black then 1 else 0) /\
    wallBuiltLast q us = b)).

Lemma Booked_capture p b pre :
  Frame (turn_ p) (set_history (history_ p ++ [hash_ p]) p) pre ->
  Booked p b
    (setWallBuiltLast (turn_ p) false
       (set_halfmove 0 (set_winReason Regicide (set_winner (cidx (turn_ p)) pre)))).
Proof.
  intros F. unfold Booked, wallBuiltLast, bastionRight. cbv zeta.
  destruct (Frame_bastion _ _ _ F) as [B1 B2].
  destruct F as (F1 & F2 & F3 & F4 & F5 & _). cbn in F1, F2, F3, F4, F5, B1, B2.
  match goal with |- context [setWallBuiltLast ?c ?v ?x] =>
    destruct (setWallBuiltLast_flag c v x) as (S1 & S2 & S3 & S4 & S5 & S6 & S7 & S8)
  end.
  rewrite S2, S3, S4, S5, S6, S7, S8. cbn.
  rewrite F1, F2, F4, F5, B1. auto 10.
Qed.

Lemma Booked_finish p b pre h :
  gameOver p = false ->
  Frame (turn_ p) (set_history (history_ p ++ [hash_ p]) p) pre ->
  Booked p b (finalizeTurn (setWallBuiltLast (turn_ p) b (set_halfmove h pre))).
Proof.
  intros Hgo F. unfold Booked, wallBuiltLast, bastionRight. cbv zeta.
  assert (Hw : winner_ p = SQ_NONE).
  { unfold gameOver in Hgo. apply negb_false_iff, Z.eqb_eq in Hgo. exact Hgo. }
  destruct (Frame_bastion _ _ _ F) as [B1 B2].
  destruct F as (F1 & F2 & F3 & F4 & F5 & _). cbn in F1, F2, F3, F4, F5, B1, B2.
  match goal with |- context [setWallBuiltLast ?c ?v ?x] =>
    destruct (setWallBuiltLast_flag c v x) as (S1 & S2 & S3 & S4 & S5 & S6 & S7 & S8);
    set (pre' := setWallBuiltLast c v x) in *
  end.
  cbn in S3, S4, S5, S6, S7, S8, S2.
  assert (Hw' : winner_ pre' = SQ_NONE) by congruence.
  destruct (finalizeTurn_flags pre' Hw') as (G1 & G2 & G3 & G). cbv zeta in *.
  rewrite G1, G2, G3, S7, S8, S2, F4, F5, B1.
  repeat split; auto.
  destruct G as [(G4 & G5 & G6 & G7)|(G4 & G5 & G6 & G7)]; [left|right].
  + rewrite G4, G5, G6, G7, S3, S4, F1, F2. auto.
  + rewrite G4, G5, G7, S3, S4, S1, F1, F2. auto.
Qed.

Lemma captureSovereign_booked p b m toSq srcV pc u :
  Frame (turn_ p) (set_history (history_ p ++ [hash_ p]) p) pc ->
  Booked p b (fst (captureSovereign m (turn_ p) toSq srcV pc u)).
Proof.
  intros F. unfold captureSovereign. cbv zeta. cbn [fst].
  apply Booked_capture.
  eapply Frame_trans; [exact F|]. frame_bk.
Qed.

Lemma relocate_frame us m srcV p0 pc u :
  Frame us p0 pc -> Frame us p0 (fst (relocate m srcV pc u)).
Proof.
  intros F. unfold relocate. cbv zeta. cbn [fst].
  eapply Frame_trans; [exact F|]. frame_bk.
Qed.

Lemma makeMove_booked p m :
  gameOver p = false -> Booked p (buildsWall m) (fst (makeMove p m)).
Proof.
  intros Hgo. unfold makeMove, buildsWall. cbv zeta.
  set (p0 := set_history (history_ p ++ [hash_ p]) p).
  change (gameOver p0) with (gameOver p). rewrite Hgo.
  change (turn_ p0) with (turn_ p).
  set (u0 := mkUndo _ _ _ _ _ _ _ _ _ _).
  pose proof (Frame_refl (turn_ p) p0) as F0.
  destruct (m_type m);
    try match goal with
        |- context [if ?c then captureSovereign _ _ _ _ _ _ else _] =>
          destruct c; [now apply captureSovereign_booked|];
          pose proof (relocate_frame (turn_ p) m (at_ p0 (m_from m)) p0 p0 u0 F0) as F1;
          destruct (relocate m (at_ p0 (m_from m)) p0 u0) as [p2 u2];
          cbn [fst snd] in F1 |- *
        end;
    try destruct (negb (m_aux1 m =? SQ_NONE)); cbn [fst];
    apply Booked_finish; auto;
    frame_bk; try exact F1.
Qed.



(** ** Rules the generator enforces *)

Lemma movesOf_no_build p m :
  WF p -> wallBuiltLast p (turn_ p) = true ->
  In m (movesOf p) -> buildsWall m = false.
Proof.
  intros W Hf. revert m.
  apply (movesOf_sites (fun m => buildsWall m = false) p W); try reflexivity.
  - intros s t _ _ H _ _ _. congruence.
  - intros s t a _ _ [->|[_ H]]; [reflexivity|congruence].
  - intros s t a b _ _ H. congruence.
Qed.

(** X8. A side whose wall-built flag is set is offered no action that
    puts a wall on the board: no MasonConstruct, no Bastion, and Mason
    Commands only in the variant without a wall. *)
Theorem no_build_when_flagged (p : Position) (m : Move) :
  WF p -> wallBuiltLast p (turn_ p) = true ->
  In m (movesOf p) ->
  m_type m <> MasonConstruct /\ m_type m <> Bastion /\
  (m_type m = MasonCommand -> m_aux1 m = SQ_NONE).
Proof.
  intros W Hf Hin. pose proof (movesOf_no_build p m W Hf Hin) as H.
  unfold buildsWall in H.
  destruct (m_type m); try discriminate; repeat split; try discriminate.
  intros _. apply negb_false_iff, Z.eqb_eq in H. exact H.
Qed.

Lemma no_build_when_flagged_witness :
  let p := positionOf "clpisiplc/mmmmmmmmm/9/9/9/9/9/MMMMMMMMM/CLPISIPLC w Bb w 0 1" in
  WF p /\ wallBuiltLast p (turn_ p) = true /\
  In (mkMove MasonCommand 66 57 SQ_NONE SQ_NONE) (movesOf p) /\
  m_aux1 (mkMove MasonCommand 66 57 SQ_NONE SQ_NONE) = SQ_NONE.
Proof.
  cbv zeta.
  set (p := positionOf "clpisiplc/mmmmmmmmm/9/9/9/9/9/MMMMMMMMM/CLPISIPLC w Bb w 0 1").
  assert (W : WF p) by (apply WFb_sound; vm_compute; reflexivity).
  assert (F : wallBuiltLast p (turn_ p) = true) by (vm_compute; reflexivity).
  assert (I : In (mkMove MasonCommand 66 57 SQ_NONE SQ_NONE) (movesOf p)).
  { vm_compute. repeat (first [left; reflexivity | right]). }
  split; [exact W|]. split; [exact F|]. split; [exact I|].
  destruct (no_build_when_flagged p _ W F I) as (_ & _ & H). apply H. reflexivity.
Defined.

Lemma makeMove_WF p m : WF p -> In m (movesOf p) -> WF (fst (makeMove p m)).
Proof.
  intros W Hin.
  destruct (makeMove_inv p m W) as [H _]; [|exact H].
  now apply generateMoves_ok.
Qed.

Lemma gameOver_false_winner p : gameOver p = false -> winner_ p = SQ_NONE.
Proof. unfold gameOver. intros H. now apply negb_false_iff, Z.eqb_eq in H. Qed.

Lemma cidx_not_none c : cidx c <> SQ_NONE.
Proof. destruct c; discriminate. Qed.

Lemma other_other c : other (other c) = c.
Proof. now destruct c. Qed.

(** After an action that leaves the game running: the turn has passed
    and the flags are as [Booked] says. *)
Lemma makeMove_running p m :
  gameOver p = false -> gameOver (fst (makeMove p m)) = false ->
  turn_ (fst (makeMove p m)) = other (turn_ p) /\
  wallBuiltLast (fst (makeMove p m)) (turn_ p) = buildsWall m /\
  wallBuiltLast (fst (makeMove p m)) (other (turn_ p))
  = wallBuiltLast p (other (turn_ p)).
Proof.
  intros G1 G2. destruct (makeMove_booked p m G1) as (_ & H2 & _ & _ & H).
  apply gameOver_false_winner in G2.
  destruct H as [(H & _)|(_ & H3 & _ & H4)]; [|auto].
  rewrite G2 in H. symmetry in H. now apply cidx_not_none in H.
Qed.

(** X9. No side builds on two consecutive turns of its own: after an
    action that puts a wall on the board and any reply of the opponent,
    the generator offers the first side no wall-building action. *)
Theorem no_consecutive_builds (p : Position) (m m' m'' : Move) :
  WF p -> In m (movesOf p) -> buildsWall m = true ->
  In m' (movesOf (fst (makeMove p m))) ->
  In m'' (movesOf (fst (makeMove (fst (makeMove p m)) m'))) ->
  turn_ (fst (makeMove (fst (makeMove p m)) m')) = turn_ p /\
  buildsWall m'' = false.
Proof.
  intros W H1 Hb H2 H3.
  set (q := fst (makeMove p m)) in *.
  set (r := fst (makeMove q m')) in *.
  assert (Wq : WF q) by now apply makeMove_WF.
  assert (Wr : WF r) by now apply makeMove_WF.
  pose proof (movesOf_not_over _ _ H1) as G1.
  pose proof (movesOf_not_over _ _ H2) as G2.
  pose proof (movesOf_not_over _ _ H3) as G3.
  destruct (makeMove_running p m G1 G2) as (T1 & B1 & _).
  destruct (makeMove_running q m' G2 G3) as (T2 & _ & B2).
  fold q in T1, B1. fold r in T2, B2.
  rewrite T1, other_other in T2, B2.
  split; [exact T2|].
  apply (movesOf_no_build r m'' Wr); [|exact H3].
  rewrite T2, B2, B1. exact Hb.
Qed.

Lemma no_consecutive_builds_witness :
  let m := mkMove MasonCommand 66 57 66 SQ_NONE in
  let m' := mkMove Normal 9 18 SQ_NONE SQ_NONE in
  let m'' := mkMove Normal 57 48 SQ_NONE SQ_NONE in
  WF initial /\ In m (movesOf initial) /\ buildsWall m = true /\
  In m' (movesOf (fst (makeMove initial m))) /\
  In m'' (movesOf (fst (makeMove (fst (makeMove initial m)) m'))) /\
  buildsWall m'' = false.
Proof.
  cbv zeta.
  assert (W : WF initial) by (apply WFb_sound; vm_compute; reflexivity).
  assert (I1 : In (mkMove MasonCommand 66 57 66 SQ_NONE) (movesOf initial)).
  { vm_compute. repeat (first [left; reflexivity | right]). }
  assert (B : buildsWall (mkMove MasonCommand 66 57 66 SQ_NONE) = true) by reflexivity.
  assert (I2 : In (mkMove Normal 9 18 SQ_NONE SQ_NONE)
                 (movesOf (fst (makeMove initial (mkMove MasonCommand 66 57 66 SQ_NONE))))).
  { vm_compute. repeat (first [left; reflexivity | right]). }
  assert (I3 : In (mkMove Normal 57 48 SQ_NONE SQ_NONE)
                 (movesOf (fst (makeMove
                    (fst (makeMove initial (mkMove MasonCommand 66 57 66 SQ_NONE)))
                    (mkMove Normal 9 18 SQ_NONE SQ_NONE))))).
  { vm_compute. repeat (first [left; reflexivity | right]). }
  split; [exact W|]. split; [exact I1|]. split; [exact B|].
  split; [exact I2|]. split; [exact I3|].
  apply (no_consecutive_builds initial _ _ _ W I1 B I2 I3).
Defined.

Lemma isPieceOf_unique c pt pt' v :
  isPieceOf c pt v = true -> pt' <> pt -> isPieceOf c pt' v = false.
Proof.
  unfold isPieceOf. intros H Hne.
  apply andb_true_iff in H. destruct H as [H1 H2]. rewrite H1. cbn [andb].
  destruct (pieceOf v), pt, pt'; try discriminate; try reflexivity; congruence.
Qed.

(** X10. Siege attrition: a side holding more than 15 wall tokens is
    offered no action of its Sovereign, neither a step nor a Bastion. *)
Theorem siege_freezes_sovereign (p : Position) (m : Move) :
  WF p -> 15 < wallTokens p (turn_ p) ->
  In m (movesOf p) ->
  isPieceOf (turn_ p) Sovereign (at_ p (m_from m)) = false /\
  m_type m <> Bastion.
Proof.
  intros W Hs. revert m.
  apply (movesOf_sites
           (fun m => isPieceOf (turn_ p) Sovereign (at_ p (m_from m)) = false /\
                     m_type m <> Bastion) p W); cbn [m_from m_type normalMove].
  - intros s pt t _ Hp _ Hle. split; [|discriminate].
    apply (isPieceOf_unique _ pt); [exact Hp|]. intros <-.
    specialize (Hle eq_refl). lia.
  - intros s t _ Hp _ _ _ _. split; [|discriminate].
    apply (isPieceOf_unique _ Mason); [exact Hp|discriminate].
  - intros s t a _ Hp _. split; [|discriminate].
    apply (isPieceOf_unique _ Mason); [exact Hp|discriminate].
  - intros s t _ Hp. split; [|discriminate].
    apply (isPieceOf_unique _ Catapult); [exact Hp|discriminate].
  - intros s t a _ Hp. split; [|discriminate].
    apply (isPieceOf_unique _ Catapult); [exact Hp|discriminate].
  - intros s t a b _ _ _ _ Hle. lia.
Qed.

Lemma siege_freezes_sovereign_witness :
  let p := positionOf "4s4/9/9/RRRRRRRR1/9/9/9/4M4/4S4 w Bb - 0 1" in
  let m := mkMove Normal 67 58 SQ_NONE SQ_NONE in
  WF p /\ 15 < wallTokens p (turn_ p) /\ In m (movesOf p) /\
  isPieceOf (turn_ p) Sovereign (at_ p (m_from m)) = false.
Proof.
  cbv zeta.
  set (p := positionOf "4s4/9/9/RRRRRRRR1/9/9/9/4M4/4S4 w Bb - 0 1").
  assert (W : WF p) by (apply WFb_sound; vm_compute; reflexivity).
  assert (T : 15 < wallTokens p (turn_ p)) by (vm_compute; reflexivity).
  assert (I : In (mkMove Normal 67 58 SQ_NONE SQ_NONE) (movesOf p)).
  { vm_compute. repeat (first [left; reflexivity | right]). }
  split; [exact W|]. split; [exact T|]. split; [exact I|].
  apply (siege_freezes_sovereign p _ W T I).
Defined.

(** ** The Bastion right *)

Lemma setWallBuiltLast_bastionRight_ c v p :
  bastionRight_ (setWallBuiltLast c v p) = bastionRight_ p.
Proof. apply setWallBuiltLast_flag. Qed.

Lemma finalizeTurn_bastionRight_ p :
  bastionRight_ (finalizeTurn p) = bastionRight_ p.
Proof.
  unfold finalizeTurn. cbv zeta.
  repeat match goal with |- context [if ?c then _ else _] => destruct c end;
    reflexivity.
Qed.

Lemma addWallTokens_bastionRight_ c hp p :
  bastionRight_ (addWallTokens c hp p) = bastionRight_ p.
Proof. reflexivity. Qed.

Lemma dropBastionRight_false us p :
  getC us (bastionRight_ (dropBastionRight us p)) = false.
Proof.
  unfold dropBastionRight. destruct (getC us (bastionRight_ p)) eqn:E; [|exact E].
  cbn. apply getC_setC_eq.
Qed.

Lemma isPieceOf_sovereign us v :
  isPieceOf us Sovereign v = true ->
  isPieceVal v && piece_eqb (pieceOf v) Sovereign = true.
Proof.
  unfold isPieceOf. intros H.
  apply andb_true_iff in H. destruct H as [H1 H2].
  apply andb_true_iff in H1. destruct H1 as [H0 _]. now rewrite H0, H2.
Qed.

Lemma set_halfmove_bastionRight_ v p :
  bastionRight_ (set_halfmove v p) = bastionRight_ p.
Proof. reflexivity. Qed.

Lemma set_winReason_bastionRight_ v p :
  bastionRight_ (set_winReason v p) = bastionRight_ p.
Proof. reflexivity. Qed.

Lemma set_winner_bastionRight_ v p :
  bastionRight_ (set_winner v p) = bastionRight_ p.
Proof. reflexivity. Qed.

Lemma set_sovereignSq_bastionRight_ v p :
  bastionRight_ (set_sovereignSq v p) = bastionRight_ p.
Proof. reflexivity. Qed.

Ltac right_fields :=
  repeat
    match goal with
    | |- context [bastionRight_ (finalizeTurn ?x)] =>
        rewrite (finalizeTurn_bastionRight_ x)
    | |- context [bastionRight_ (setWallBuiltLast ?c ?v ?x)] =>
        rewrite (setWallBuiltLast_bastionRight_ c v x)
    | |- context [bastionRight_ (addWallTokens ?c ?h ?x)] =>
        rewrite (addWallTokens_bastionRight_ c h x)
    | |- context [bastionRight_ (setSquareRaw ?s ?v ?x)] =>
        rewrite (setSquareRaw_bastionRight_ s v x)
    | |- context [bastionRight_ (hitWall ?s ?x)] =>
        rewrite (hitWall_bastionRight_ s x)
    | |- context [bastionRight_ (set_halfmove ?v ?x)] =>
        rewrite (set_halfmove_bastionRight_ v x)
    | |- context [bastionRight_ (set_winReason ?v ?x)] =>
        rewrite (set_winReason_bastionRight_ v x)
    | |- context [bastionRight_ (set_winner ?v ?x)] =>
        rewrite (set_winner_bastionRight_ v x)
    | |- context [bastionRight_ (set_sovereignSq ?v ?x)] =>
        rewrite (set_sovereignSq_bastionRight_ v x)
    end.

Lemma captureSovereign_spends m us toSq srcV pc u :
  isPieceVal srcV && piece_eqb (pieceOf srcV) Sovereign = true ->
  getC us (bastionRight_ (fst (captureSovereign m us toSq srcV pc u))) = false.
Proof.
  intros H. unfold captureSovereign. cbv zeta. cbn [fst]. rewrite H.
  right_fields. apply dropBastionRight_false.
Qed.

Lemma makeMove_spends p m :
  gameOver p = false ->
  isPieceOf (turn_ p) Sovereign (at_ p (m_from m)) = true ->
  m_type m = Normal \/ m_type m = Bastion ->
  bastionRight (fst (makeMove p m)) (turn_ p) = false.
Proof.
  intros Hgo Hs Ht. apply isPieceOf_sovereign in Hs.
  unfold bastionRight, makeMove. cbv zeta.
  set (p0 := set_history (history_ p ++ [hash_ p]) p).
  change (gameOver p0) with (gameOver p). rewrite Hgo.
  change (turn_ p0) with (turn_ p).
  change (at_ p0 (m_from m)) with (at_ p (m_from m)).
  set (u0 := mkUndo _ _ _ _ _ _ _ _ _ _).
  destruct Ht as [-> | ->].
  - match goal with
    |- context [if ?c then captureSovereign _ _ _ _ _ _ else _] => destruct c
    end; [now apply captureSovereign_spends|].
    destruct (relocate m (at_ p (m_from m)) p0 u0) as [p2 u2].
    rewrite Hs. cbn [fst]. right_fields. apply dropBastionRight_false.
  - cbn [fst]. right_fields. apply dropBastionRight_false.
Qed.

(** X11. The Bastion right: a Bastion is offered only to a side that
    still has the right, did not build on its previous turn and holds at
    most 15 wall tokens; and every action of the Sovereign, the Bastion
    included, spends the right. *)
Theorem bastion_right_spent (p : Position) (m : Move) :
  WF p -> In m (movesOf p) ->
  let us := turn_ p in
  (m_type m = Bastion ->
   bastionRight p us = true /\ wallBuiltLast p us = false /\
   wallTokens p us <= 15) /\
  (isPieceOf us Sovereign (at_ p (m_from m)) = true ->
   bastionRight (fst (makeMove p m)) us = false).
Proof.
  intros W Hin. cbv zeta. split.
  - revert m Hin.
    apply (movesOf_sites
             (fun m => m_type m = Bastion ->
                bastionRight p (turn_ p) = true /\
                wallBuiltLast p (turn_ p) = false /\
                wallTokens p (turn_ p) <= 15) p W);
      cbn [m_type normalMove]; try (intros; discriminate).
    intros s t a b _ _ H1 H2 H3 _. auto.
  - intros Hs. apply makeMove_spends; [now apply (movesOf_not_over p m)|exact Hs|].
    destruct (generateMoves_ok p W) as [_ HL]. specialize (HL m Hin).
    unfold Legal, LegalFor in HL.
    destruct (m_type m); auto;
      [destruct HL as (_ & _ & Hp & _)..];
      rewrite (isPieceOf_unique _ _ Sovereign _ Hp) in Hs by discriminate;
      discriminate.
Qed.

Lemma bastion_right_spent_witness :
  let p := positionOf "4s4/9/9/9/9/9/9/9/3IS4 w Bb - 0 1" in
  let m := mkMove Normal 76 67 SQ_NONE SQ_NONE in
  WF p /\ In m (movesOf p) /\
  isPieceOf (turn_ p) Sovereign (at_ p (m_from m)) = true /\
  bastionRight p (turn_ p) = true /\
  bastionRight (fst (makeMove p m)) (turn_ p) = false.
Proof.
  cbv zeta.
  set (p := positionOf "4s4/9/9/9/9/9/9/9/3IS4 w Bb - 0 1").
  assert (W : WF p) by (apply WFb_sound; vm_compute; reflexivity).
  assert (I : In (mkMove Normal 76 67 SQ_NONE SQ_NONE) (movesOf p)).
  { vm_compute. repeat (first [left; reflexivity | right]). }
  assert (S : isPieceOf (turn_ p) Sovereign
                (at_ p (m_from (mkMove Normal 76 67 SQ_NONE SQ_NONE))) = true)
    by (vm_compute; reflexivity).
  split; [exact W|]. split; [exact I|]. split; [exact S|].
  split; [vm_compute; reflexivity|].
  destruct (bastion_right_spent p _ W I) as [_ H]. exact (H S).
Defined.

(** ** What [fromFEN] returns *)

Lemma parseBoard_valid s : forall b r c b' r' c',
  validBoard b -> 0 <= r -> 0 <= c ->
  parseBoard s b r c = Some (b', r', c') -> validBoard b'.
Proof.
  induction s as [|raw s IH]; intros b r c b' r' c' Hb Hr Hc; cbn [parseBoard].
  - intros E. injection E as <- _ _. exact Hb.
  - cbv zeta. destruct (code raw =? 47).
    + destruct (negb (c =? N)); [discriminate|]. apply IH; auto; lia.
    + destruct (Z.leb_spec N r); [discriminate|].
      destruct ((49 <=? code raw) && (code raw <=? 57)) eqn:Ed.
      * destruct (N <? c + (code raw - 48)); [discriminate|].
        apply IH; auto. apply andb_prop in Ed. lia.
      * destruct (Z.leb_spec N c); [discriminate|].
        assert (Hs : 0 <= sq r c < 81).
        { apply sq_range. unfold inBounds, N in *.
          rewrite !andb_true_iff, !Z.leb_le, !Z.ltb_lt. lia. }
        repeat match goal with
               | |- context [if ?x =? ?y then Some ?v else _] =>
                   destruct (x =? y);
                   [apply IH; auto; try lia; apply validBoard_upd; auto;
                    first [apply makePiece_valid | apply makeWall_valid; lia]|]
               end.
        discriminate.
Qed.

Lemma fromFEN_fenTail fen p :
  fromFEN fen = Some p ->
  exists B T R Wl h f, fenTail B T R Wl h f = Some p.
Proof.
  unfold fromFEN. cbv zeta.
  destruct (readWord (Some fen)) as [oboard iss1].
  destruct (readWord iss1) as [oturn iss2].
  destruct oboard as [B|]; [|discriminate].
  destruct oturn as [T|]; [|discriminate].
  destruct (readWord iss2) as [otok iss3].
  match goal with |- context [match ?X with (_, _) => _ end] =>
    destruct X as [[[R Wl] h] f] end.
  intros H. exists B, T, R, Wl, h, f. exact H.
Qed.

Lemma rebuildDerived_Consistent p :
  validBoard (b_ p) -> Consistent (rebuildDerived p).
Proof.
  intros Hb.
  destruct (rebuildDerived_spec p Hb) as (B & F & H & T & S & Hok). cbv zeta in *.
  split; [split; [now rewrite B|exact Hok]|].
  rewrite B. split; [exact T|]. split; [exact S|].
  rewrite H. f_equal. symmetry. now apply flagsHash_flagsOf.
Qed.

Lemma validBoard_empty : validBoard (repeat 0 81).
Proof. apply validBoardb_sound. vm_compute. reflexivity. Qed.

(** X12. Whatever the text, a position [fromFEN] returns is well formed
    and its derived state (bitboards, wall tokens, Sovereign squares and
    hash) is the one of its board; it has no winner and an empty
    history. *)
Theorem fromFEN_consistent (fen : string) (p : Position) :
  fromFEN fen = Some p ->
  Consistent p /\ gameOver p = false /\ winReason_ p = WinNone /\
  history_ p = [].
Proof.
  intros H. apply fromFEN_fenTail in H. destruct H as (B & T & R & Wl & h & f & H).
  unfold fenTail in H. cbv zeta in H.
  assert (He : history_ emptyPosition = []) by (vm_compute; reflexivity).
  revert He H. generalize emptyPosition. intros e He H.
  destruct (headChar T); [|discriminate].
  match type of H with match ?x with _ => _ end = _ => destruct x as [tc|] end;
    [|discriminate].
  destruct (parseBoard B (repeat 0 81) 0 0) as [[[b r] c]|] eqn:Ep; [|discriminate].
  destruct (negb (r =? N - 1) || negb (c =? N)); [discriminate|].
  apply some_inj in H. subst p.
  assert (Hb : validBoard b).
  { eapply parseBoard_valid; eauto using validBoard_empty; lia. }
  match goal with |- context [rebuildDerived ?x] => set (X := x) end.
  assert (HbX : validBoard (b_ X)) by exact Hb.
  split; [now apply rebuildDerived_Consistent|].
  destruct (rebuildDerived_spec X HbX) as (_ & F & _). cbv zeta in F.
  destruct (flagsOf_fields _ _ F) as (_ & _ & _ & _ & _ & F6 & F7 & F8).
  unfold gameOver. rewrite F6, F7, F8. repeat split. exact He.
Qed.

Lemma fromFEN_consistent_witness :
  exists p, fromFEN "4s4/9/9/9/4R4/9/9/9/4S4 b - w 3 7" = Some p /\
            Consistent p /\ history_ p = [].
Proof.
  eexists. split; [vm_compute; reflexivity|].
  match goal with |- Consistent ?q /\ _ =>
    destruct (fromFEN_consistent "4s4/9/9/9/4R4/9/9/9/4S4 b - w 3 7" q) as (C & _ & _ & Hh)
  end; [vm_compute; reflexivity|].
  split; [exact C|exact Hh].
Defined.

(** ** Short forms of a FEN text *)

Section FenShort.
Local Open Scope string_scope.
Local Open Scope Z_scope.

Lemma takeWord_nospace w : noSpace w = true -> takeWord w = (w, "").
Proof.
  induction w as [|ch w IH]; intros H; [reflexivity|].
  cbn [noSpace] in H. apply andb_prop in H. destruct H as [H1 H2].
  apply negb_true_iff in H1. cbn [takeWord]. rewrite H1, IH by assumption.
  reflexivity.
Qed.

(** The last word of the text: the stream is left at its end. *)
Lemma readWord_last w :
  w <> "" -> noSpace w = true -> readWord (Some w) = (Some w, Some "").
Proof.
  intros Hne Hns. unfold readWord.
  assert (E : skipSpaces w = w).
  { destruct w as [|ch w]; [contradiction|].
    cbn [noSpace] in Hns. apply andb_prop in Hns. destruct Hns as [H1 _].
    apply negb_true_iff in H1. cbn [skipSpaces]. now rewrite H1. }
  rewrite E, takeWord_nospace by assumption.
  destruct w; [contradiction|reflexivity].
Qed.

Lemma takeDigits_all s : forall acc seen a b,
  takeDigits s acc seen = (a, b, "") -> allDigits s = true.
Proof.
  induction s as [|ch s IH]; intros acc seen a b H; [reflexivity|].
  cbn [takeDigits allDigits] in *. destruct (isDigitCh ch); [|discriminate].
  cbn [andb]. eapply IH; eauto.
Qed.

Lemma digit_not_space ch : isDigitCh ch = true -> isSpaceCh ch = false.
Proof.
  destruct ch as [[] [] [] [] [] [] [] []]; vm_compute; congruence.
Qed.

Lemma allDigits_noSpace s : allDigits s = true -> noSpace s = true.
Proof.
  induction s as [|ch s IH]; [reflexivity|]. cbn [allDigits noSpace].
  intros H. apply andb_prop in H. destruct H as [H1 H2].
  now rewrite (digit_not_space ch H1), IH.
Qed.

(** The decimal text of a count: digits only, read back by [atoi]. *)
Lemma showInt_digits n :
  0 <= n <= INT_MAX ->
  showInt n <> "" /\ noSpace (showInt n) = true /\
  isDigits (showInt n) = true /\ atoiDigits (showInt n) = n.
Proof.
  intros Hn. unfold showInt. destruct (Z.ltb_spec n 0); [lia|].
  assert (T : takeDigits (revString (digitsRev 10 n) "") 0 false = (n, true, "")).
  { rewrite takeDigits_digitsRev; [reflexivity|].
    unfold INT_MAX in Hn. change (10 ^ Z.of_nat 10) with 10000000000. lia. }
  destruct (revString_digitsRev_head 9 n "") as (d & t & _ & E); [lia|].
  pose proof (takeDigits_all _ _ _ _ _ T) as A.
  split; [rewrite E; discriminate|].
  split; [now apply allDigits_noSpace|].
  split.
  - unfold isDigits. rewrite E in *. exact A.
  - unfold atoiDigits. now rewrite T.
Qed.

Lemma fromFEN_two B T :
  B <> "" -> noSpace B = true -> T <> "" -> noSpace T = true ->
  fromFEN (B ++ " " ++ T) = fenTail B T "Bb" "-" 0 1.
Proof.
  intros HB1 HB2 HT1 HT2. unfold fromFEN. cbv zeta. cbn [append].
  rewrite (readWord_word B _ HB1 HB2).
  rewrite readWord_space, (readWord_last T HT1 HT2).
  reflexivity.
Qed.

Lemma fromFEN_three B T R :
  B <> "" -> noSpace B = true -> T <> "" -> noSpace T = true ->
  R <> "" -> noSpace R = true ->
  fromFEN (B ++ " " ++ T ++ " " ++ R) = fenTail B T R "-" 0 1.
Proof.
  intros HB1 HB2 HT1 HT2 HR1 HR2. unfold fromFEN. cbv zeta. cbn [append].
  rewrite (readWord_word B _ HB1 HB2).
  rewrite readWord_space, (readWord_word T _ HT1 HT2).
  rewrite readWord_space, (readWord_last R HR1 HR2).
  reflexivity.
Qed.

Lemma fromFEN_five B T R h f :
  B <> "" -> noSpace B = true -> T <> "" -> noSpace T = true ->
  R <> "" -> noSpace R = true ->
  0 <= h <= INT_MAX -> 0 <= f <= INT_MAX ->
  fromFEN (B ++ " " ++ T ++ " " ++ R ++ " " ++ showInt h ++ " " ++ showInt f)
  = fenTail B T R "-" h f.
Proof.
  intros HB1 HB2 HT1 HT2 HR1 HR2 Hh Hf.
  destruct (showInt_digits h Hh) as (D1 & D2 & D3 & D4).
  rewrite <- (string_app_nil_r (showInt f)).
  unfold fromFEN. cbv zeta. cbn [append].
  rewrite (readWord_word B _ HB1 HB2).
  rewrite readWord_space, (readWord_word T _ HT1 HT2).
  rewrite readWord_space, (readWord_word R _ HR1 HR2).
  rewrite readWord_space, (readWord_word (showInt h) _ D1 D2).
  rewrite D3, D4.
  rewrite (readInt_show f _ Hf) by (left; reflexivity).
  reflexivity.
Qed.

(** X13. Short forms of a FEN text.  With the board and turn fields
    alone the rights default to both sides, the wall-built field to none
    and the clocks to 0 and 1; with three fields the wall-built field and
    the clocks default; and in the five-field form, where a number
    follows the rights, that number is the halfmove clock and the
    wall-built field is taken as none. *)
Theorem fromFEN_short_forms (B T R : string) (h f : Z) :
  B <> "" -> noSpace B = true -> T <> "" -> noSpace T = true ->
  R <> "" -> noSpace R = true ->
  0 <= h <= INT_MAX -> 0 <= f <= INT_MAX ->
  fromFEN (B ++ " " ++ T) = fromFEN (B ++ " " ++ T ++ " Bb - 0 1") /\
  fromFEN (B ++ " " ++ T ++ " " ++ R)
  = fromFEN (B ++ " " ++ T ++ " " ++ R ++ " - 0 1") /\
  fromFEN (B ++ " " ++ T ++ " " ++ R ++ " " ++ showInt h ++ " " ++ showInt f)
  = fromFEN (B ++ " " ++ T ++ " " ++ R ++ " - " ++ showInt h ++ " " ++ showInt f).
Proof.
  intros HB1 HB2 HT1 HT2 HR1 HR2 Hh Hf.
  assert (Hd : "-" <> "" /\ noSpace "-" = true /\ isDigits "-" = false)
    by (repeat split; discriminate).
  destruct Hd as (Hd1 & Hd2 & Hd3).
  assert (Hb : "Bb" <> "" /\ noSpace "Bb" = true) by (split; [discriminate|reflexivity]).
  destruct Hb as (Hb1 & Hb2).
  assert (H0 : 0 <= 0 <= INT_MAX) by (unfold INT_MAX; lia).
  assert (H1 : 0 <= 1 <= INT_MAX) by (unfold INT_MAX; lia).
  split; [|split].
  - rewrite fromFEN_two by assumption. symmetry.
    exact (fromFEN_fields B T "Bb" "-" 0 1 HB1 HB2 HT1 HT2 Hb1 Hb2 Hd1 Hd2 Hd3 H0 H1).
  - rewrite fromFEN_three by assumption. symmetry.
    exact (fromFEN_fields B T R "-" 0 1 HB1 HB2 HT1 HT2 HR1 HR2 Hd1 Hd2 Hd3 H0 H1).
  - rewrite fromFEN_five by assumption. symmetry.
    exact (fromFEN_fields B T R "-" h f HB1 HB2 HT1 HT2 HR1 HR2 Hd1 Hd2 Hd3 Hh Hf).
Qed.

Lemma fromFEN_short_forms_witness :
  fromFEN "clpisiplc/mmmmmmmmm/9/9/9/9/9/MMMMMMMMM/CLPISIPLC w" = Some initial /\
  fromFEN "clpisiplc/mmmmmmmmm/9/9/9/9/9/MMMMMMMMM/CLPISIPLC w Bb" = Some initial.
Proof.
  assert (B1 : "clpisiplc/mmmmmmmmm/9/9/9/9/9/MMMMMMMMM/CLPISIPLC"%string <> ""%string)
    by discriminate.
  assert (B2 : noSpace "clpisiplc/mmmmmmmmm/9/9/9/9/9/MMMMMMMMM/CLPISIPLC" = true)
    by reflexivity.
  assert (T1 : "w"%string <> ""%string) by discriminate.
  assert (T2 : noSpace "w" = true) by reflexivity.
  assert (R1 : "Bb"%string <> ""%string) by discriminate.
  assert (R2 : noSpace "Bb" = true) by reflexivity.
  assert (H0 : 0 <= 0 <= INT_MAX) by (unfold INT_MAX; lia).
  assert (H1 : 0 <= 1 <= INT_MAX) by (unfold INT_MAX; lia).
  destruct (fromFEN_short_forms _ _ _ 0 1 B1 B2 T1 T2 R1 R2 H0 H1) as (E1 & E2 & _).
  cbn [append] in E1, E2.
  split; [rewrite E1|rewrite E2]; vm_compute; reflexivity.
Defined.

End FenShort.

(** ** Coordinates and action tokens *)

Section MoveTextFacts.
Local Open Scope string_scope.
Local Open Scope Z_scope.

Lemma chr_code ch : chr (code ch) = ch.
Proof.
  unfold chr, code. rewrite Nat2Z.id. apply ascii_nat_embedding.
Qed.

Lemma coordToString_board s :
  inBoard s ->
  coordToString s
  = String (toChar (65 + col s)) (String (toChar (48 + (N - row s))) "").
Proof.
  intros Hs. unfold coordToString.
  destruct (Z.eqb_spec s SQ_NONE) as [E|E]; [|reflexivity].
  unfold inBoard, SQ_NONE in *. lia.
Qed.

Lemma coord_round_trip_all :
  forallb (fun s => match parseCoord (coordToString s) with
                    | Some t => t =? s
                    | None => false
                    end) allSquares = true.
Proof. vm_compute. reflexivity. Qed.

(** X14. The text of a board square is read back as that square, while
    the text of [SQ_NONE] is rejected. *)
Theorem parseCoord_coordToString (s : Z) :
  inBoard s ->
  parseCoord (coordToString s) = Some s /\
  parseCoord (coordToString SQ_NONE) = None.
Proof.
  intros Hs. split; [|reflexivity].
  pose proof coord_round_trip_all as H. rewrite forallb_forall in H.
  specialize (H s (proj2 (allSquares_In s) Hs)).
  destruct (parseCoord (coordToString s)) as [t|]; [|discriminate].
  apply Z.eqb_eq in H. now subst t.
Qed.

Lemma parseCoord_coordToString_witness :
  inBoard 40 /\ coordToString 40 = "E5" /\ parseCoord "E5" = Some 40.
Proof.
  assert (I : inBoard 40) by (unfold inBoard; lia).
  split; [exact I|]. split; [reflexivity|].
  exact (proj1 (parseCoord_coordToString 40 I)).
Defined.

(** X15. [parseCoord] returns board squares only, and the square it
    returns is the one whose text is the trimmed input with its file
    letter in upper case. *)
Theorem parseCoord_sound (sv : string) (t : Z) :
  parseCoord sv = Some t ->
  inBoard t /\
  exists a b,
    trimBack (String.length (skipSpaces sv)) (skipSpaces sv) = String a (String b "") /\
    coordToString t = String (toUpperCh a) (String b "").
Proof.
  unfold parseCoord. cbv zeta.
  destruct (trimBack _ _) as [|a [|b [|? ?]]]; try discriminate.
  destruct ((code (toUpperCh a) <? 65) || (65 + N <=? code (toUpperCh a))) eqn:E1;
    [discriminate|].
  destruct ((code b <? 49) || (57 <? code b)) eqn:E2; [discriminate|].
  destruct (inBounds (N - (code b - 48)) (code (toUpperCh a) - 65)) eqn:E3;
    [|discriminate].
  cbn [negb]. intros H. apply some_inj in H. subst t.
  destruct (sq_inBounds _ _ E3) as (_ & Hr & Hrow & Hcol).
  split; [exact Hr|]. exists a, b. split; [reflexivity|].
  rewrite coordToString_board by exact Hr. rewrite Hrow, Hcol.
  apply orb_false_iff in E1, E2. destruct E1 as [E1 E1'], E2 as [E2 E2'].
  unfold N in *.
  apply Z.ltb_ge in E1, E2. apply Z.leb_gt in E1'. apply Z.ltb_ge in E2'.
  unfold toChar.
  replace (65 + (code (toUpperCh a) - 65)) with (code (toUpperCh a)) by lia.
  replace (48 + (9 - (9 - (code b - 48)))) with (code b) by lia.
  rewrite !Z.mod_small by lia. now rewrite !chr_code.
Qed.

Lemma parseCoord_sound_witness :
  parseCoord "  e5 " = Some 40 /\ inBoard 40 /\ coordToString 40 = "E5".
Proof.
  assert (H : parseCoord "  e5 " = Some 40) by reflexivity.
  split; [exact H|].
  destruct (parseCoord_sound "  e5 " 40 H) as (I & _). split; [exact I|reflexivity].
Defined.

End MoveTextFacts.

(** ** One token, one action *)

Section TokenFacts.
Local Open Scope string_scope.
Local Open Scope Z_scope.

Definition fileCh (s : Z) : ascii := toChar (65 + col s).
Definition rankCh (s : Z) : ascii := toChar (48 + (N - row s)).

Lemma code_toChar n : 0 <= n < 256 -> code (toChar n) = n.
Proof.
  intros H. unfold toChar. rewrite Z.mod_small by lia.
  unfold code, chr. rewrite nat_ascii_embedding; lia.
Qed.

Lemma coord_codes s :
  inBoard s ->
  code (fileCh s) = 65 + col s /\ code (rankCh s) = 57 - row s /\
  0 <= col s <= 8 /\ 0 <= row s <= 8.
Proof.
  intros Hs. unfold inBoard in Hs. unfold fileCh, rankCh, row, col, N.
  assert (0 <= s mod 9 < 9) by (apply Z.mod_pos_bound; lia).
  assert (0 <= s / 9 <= 8).
  { split; [apply Z.div_pos; lia|].
    assert (s / 9 < 9) by (apply Z.div_lt_upper_bound; lia). lia. }
  rewrite !code_toChar by lia. lia.
Qed.

Lemma coord_chars s :
  inBoard s -> coordToString s = String (fileCh s) (String (rankCh s) "").
Proof. apply coordToString_board. Qed.

Lemma coord_inj s t :
  inBoard s -> inBoard t -> fileCh s = fileCh t -> rankCh s = rankCh t -> s = t.
Proof.
  intros Hs Ht Ef Er.
  destruct (coord_codes s Hs) as (F1 & R1 & _).
  destruct (coord_codes t Ht) as (F2 & R2 & _).
  rewrite Ef in F1. rewrite Er in R1.
  unfold row, col, N in *.
  rewrite (Z.div_mod s 9), (Z.div_mod t 9) by lia. lia.
Qed.

Lemma removeBlanks_app a b :
  removeBlanks (a ++ b) = removeBlanks a ++ removeBlanks b.
Proof.
  induction a as [|ch a IH]; [reflexivity|]. cbn [append removeBlanks].
  destruct (code ch =? 32); [exact IH|]. cbn [append]. now rewrite IH.
Qed.

Lemma removeBlanks_coord s : inBoard s -> removeBlanks (coordToString s) = coordToString s.
Proof.
  intros Hs. rewrite coord_chars by assumption.
  destruct (coord_codes s Hs) as (F & R & Hc & Hr).
  cbn [removeBlanks]. rewrite F, R.
  destruct (Z.eqb_spec (65 + col s) 32); [lia|].
  destruct (Z.eqb_spec (57 - row s) 32); [lia|]. reflexivity.
Qed.

(** The squares an action of each type carries. *)
Definition WellShaped (m : Move) : Prop :=
  inBoard (m_from m) /\ inBoard (m_to m) /\
  match m_type m with
  | Normal | MasonConstruct | CatapultRangedDemolish =>
      m_aux1 m = SQ_NONE /\ m_aux2 m = SQ_NONE
  | MasonCommand | CatapultMove =>
      (m_aux1 m = SQ_NONE \/ inBoard (m_aux1 m)) /\ m_aux2 m = SQ_NONE
  | Bastion => inBoard (m_aux1 m) /\ inBoard (m_aux2 m)
  end.

Lemma movesOf_shaped p m : WF p -> In m (movesOf p) -> WellShaped m.
Proof.
  intros W Hin.
  assert (A : match m_type m with
              | Normal | MasonConstruct | CatapultRangedDemolish =>
                  m_aux1 m = SQ_NONE /\ m_aux2 m = SQ_NONE
              | MasonCommand | CatapultMove => m_aux2 m = SQ_NONE
              | Bastion => True
              end).
  { revert m Hin.
    apply (movesOf_sites
             (fun m => match m_type m with
                       | Normal | MasonConstruct | CatapultRangedDemolish =>
                           m_aux1 m = SQ_NONE /\ m_aux2 m = SQ_NONE
                       | MasonCommand | CatapultMove => m_aux2 m = SQ_NONE
                       | Bastion => True
                       end) p W); intros; cbn; auto. }
  destruct (generateMoves_ok p W) as [_ HL]. specialize (HL m Hin).
  unfold Legal, LegalFor in HL. unfold WellShaped.
  destruct (m_type m); tauto.
Qed.

Lemma inBoard_not_none s : inBoard s -> (s =? SQ_NONE) = false.
Proof. unfold inBoard, SQ_NONE. intros H. apply Z.eqb_neq. lia. Qed.

Ltac coords :=
  repeat match goal with
  | H : inBoard ?s |- _ =>
      lazymatch goal with
      | _ : code (fileCh s) = _ |- _ => fail
      | _ => let F := fresh "F" in let R := fresh "R" in
             let Hc := fresh "Hc" in let Hr := fresh "Hr" in
             destruct (coord_codes s H) as (F & R & Hc & Hr)
      end
  end.

Ltac clash :=
  repeat match goal with
  | H : String _ _ = String _ _ |- _ => injection H; clear H; intros
  | H : String _ _ = EmptyString |- _ => discriminate H
  | H : EmptyString = String _ _ |- _ => discriminate H
  end;
  try discriminate;
  try match goal with
      | H : fileCh ?s = Ascii _ _ _ _ _ _ _ _, F : code (fileCh ?s) = _ |- _ =>
          rewrite H in F; vm_compute in F; lia
      | H : Ascii _ _ _ _ _ _ _ _ = fileCh ?s, F : code (fileCh ?s) = _ |- _ =>
          rewrite <- H in F; vm_compute in F; lia
      | H : rankCh ?s = Ascii _ _ _ _ _ _ _ _, F : code (rankCh ?s) = _ |- _ =>
          rewrite H in F; vm_compute in F; lia
      | H : Ascii _ _ _ _ _ _ _ _ = rankCh ?s, F : code (rankCh ?s) = _ |- _ =>
          rewrite <- H in F; vm_compute in F; lia
      end.

Lemma token_inj m1 m2 :
  WellShaped m1 -> WellShaped m2 ->
  moveToPgnToken m1 = moveToPgnToken m2 -> m1 = m2.
Proof.
  destruct m1 as [t1 f1 o1 a1 b1], m2 as [t2 f2 o2 a2 b2].
  unfold WellShaped, moveToPgnToken, moveToString.
  cbn [m_type m_from m_to m_aux1 m_aux2]. cbv zeta.
  intros (Hf1 & Ho1 & S1) (Hf2 & Ho2 & S2).
  destruct t1;
    [destruct S1 as [-> ->]|destruct S1 as [-> ->]
    |destruct S1 as [[->|Ha1] ->]|destruct S1 as [[->|Ha1] ->]
    |destruct S1 as [-> ->]|destruct S1 as [Ha1 Hb1]];
    (destruct t2;
     [destruct S2 as [-> ->]|destruct S2 as [-> ->]
     |destruct S2 as [[->|Ha2] ->]|destruct S2 as [[->|Ha2] ->]
     |destruct S2 as [-> ->]|destruct S2 as [Ha2 Hb2]]);
    rewrite ?Z.eqb_refl, ?inBoard_not_none by assumption; cbn [negb];
    rewrite ?removeBlanks_app, ?removeBlanks_coord by assumption;
    repeat match goal with
    | |- context [removeBlanks ?l] =>
        let v := eval vm_compute in (removeBlanks l) in
        change (removeBlanks l) with v
    end;
    rewrite ?coord_chars by assumption;
    cbn [append];
    intros E; coords; clash;
    repeat match goal with
    | H1 : fileCh ?s = fileCh ?t, H2 : rankCh ?s = rankCh ?t |- _ =>
        assert (s = t) by (apply coord_inj; assumption); subst s; clear H1 H2
    end;
    reflexivity.
Qed.

(** X16. One token, one action: two actions of the move list of a
    well-formed position that are written alike, with [moveToString] or
    as blank-free tokens, are the same action. *)
Theorem token_identifies_move (p : Position) (m1 m2 : Move) :
  WF p -> In m1 (movesOf p) -> In m2 (movesOf p) ->
  moveToString m1 = moveToString m2 \/ moveToPgnToken m1 = moveToPgnToken m2 ->
  m1 = m2.
Proof.
  intros W H1 H2 E.
  apply token_inj; try (eapply movesOf_shaped; eassumption).
  destruct E as [E|E]; [|exact E]. unfold moveToPgnToken. now rewrite E.
Qed.

Lemma token_identifies_move_witness :
  let m := mkMove MasonCommand 66 57 66 SQ_NONE in
  WF initial /\ In m (movesOf initial) /\
  moveToPgnToken m = "cmdD2D3@D2" /\ m = m.
Proof.
  cbv zeta.
  assert (W : WF initial) by (apply WFb_sound; vm_compute; reflexivity).
  assert (I : In (mkMove MasonCommand 66 57 66 SQ_NONE) (movesOf initial)).
  { vm_compute. repeat (first [left; reflexivity | right]). }
  split; [exact W|]. split; [exact I|]. split; [reflexivity|].
  exact (token_identifies_move initial _ _ W I I (or_introl eq_refl)).
Defined.

End TokenFacts.

(** * Aborting the search *)

Section SearchAbort.

Variable Heur : Type.
Variable limitHit : Z -> bool.
Variable useNNUE : bool.
Variable useTT : bool.
Variable evalStm : Position -> Z -> Z.
Variable generateNoisyMoves : Position -> list Move.
Variable moveHeuristic : Position -> Move -> Z.
Variable orderScore : Position -> Move -> Move -> Heur -> Z -> Z.
Variable recordQuietCutoff : Heur -> Move -> Z -> Z -> Heur.
Variable hashAfterMake : Z -> Position -> Undo -> Z.
Variable ttIndex : Z -> Z.
Variable zobristTurn : Z.

#[local] Abbreviation ACtx := (SearchContext Heur).
#[local] Abbreviation shouldStopA := (shouldStop Heur limitHit).
#[local] Abbreviation enterNodeA := (enterNode Heur).
#[local] Abbreviation storeTTA := (storeTT Heur useTT ttIndex).
#[local] Abbreviation qLoopA := (qLoop Heur hashAfterMake).
#[local] Abbreviation quiescenceA :=
  (quiescence Heur limitHit evalStm generateNoisyMoves moveHeuristic hashAfterMake).
#[local] Abbreviation searchMoveA := (searchMove Heur).
#[local] Abbreviation nLoopA :=
  (nLoop Heur useNNUE evalStm recordQuietCutoff hashAfterMake).
#[local] Abbreviation negamaxA :=
  (negamax Heur limitHit useNNUE useTT evalStm generateNoisyMoves moveHeuristic
           orderScore recordQuietCutoff hashAfterMake ttIndex zobristTurn).

(** [shouldStop] answers yes exactly when it leaves the context aborted. *)
Lemma shouldStop_aborted (ctx : ACtx) :
  aborted (snd (shouldStopA ctx)) = fst (shouldStopA ctx).
Proof.
  unfold shouldStop.
  destruct (aborted ctx) eqn:E; [exact E|].
  destruct (negb _); [exact E|].
  destruct (limitHit _); [reflexivity|exact E].
Qed.

Lemma storeTT_aborted (ctx : ACtx) key depth a b best ply bm :
  aborted (storeTTA ctx key depth a b best ply bm) = aborted ctx.
Proof.
  unfold storeTT. destruct useTT; [|reflexivity]. cbv zeta.
  destruct (_ || _); reflexivity.
Qed.

(** The capture loop, started in a running context, ends aborted only
    with the score 0. *)
Lemma qLoop_aborted child n : forall l pos alpha beta (ctx : ACtx) ply key,
  aborted ctx = false ->
  aborted (snd (qLoopA child n l pos alpha beta ctx ply key)) = true ->
  fst (qLoopA child n l pos alpha beta ctx ply key) = 0.
Proof.
  induction n as [|n IH]; intros l pos alpha beta ctx ply key Hc.
  - destruct l; cbn; congruence.
  - destruct l as [|x rest]; [cbn; congruence|]. cbn [qLoop].
    destruct (selectBest x rest) as [ms rest'].
    destruct (makeMove pos (fst ms)) as [pos1 u].
    match goal with |- context [let '(s, c) := ?e in _] =>
      destruct e as [score ctx1] end.
    destruct (aborted ctx1) eqn:E1; [reflexivity|].
    destruct (beta <=? score); [cbn; congruence|].
    now apply IH.
Qed.

Lemma quiescence_aborted qd pos alpha beta (ctx : ACtx) ply key :
  aborted (snd (quiescenceA qd pos alpha beta ctx ply key)) = true ->
  fst (quiescenceA qd pos alpha beta ctx ply key) = 0.
Proof.
  assert (Hfin : forall (r : Z * ACtx),
            aborted (snd r) = false -> aborted (snd r) = true -> fst r = 0)
    by (intros r E1 E2; congruence).
  destruct qd as [|qd]; cbn [quiescence];
    (pose proof (shouldStop_aborted (enterNodeA ctx ply)) as Hs;
     destruct (shouldStopA (enterNodeA ctx ply)) as [stop ctx2];
     cbn [fst snd] in Hs;
     destruct stop; [intros _; reflexivity|];
     destruct (gameOver pos); [now apply Hfin|];
     destruct (MAX_PLY <=? ply); [now apply Hfin|]; cbv zeta;
     match goal with |- context [if ?c then (_, ctx2) else _] =>
       destruct c; [now apply Hfin|] end;
     match goal with |- context [if ?c then (_, ctx2) else _] =>
       destruct c; [now apply Hfin|] end).
  - now apply Hfin.
  - destruct (generateNoisyMoves pos); [now apply Hfin|].
    now apply qLoop_aborted.
Qed.

(** The move loop, started in a running context, hands on a running
    context unless it reports the abort. *)
Lemma nLoop_running child n : forall l i pos depth alpha beta best bestMove
    (ctx : ACtx) ply key pvNode out,
  aborted ctx = false ->
  nLoopA child n l i pos depth alpha beta best bestMove ctx ply key pvNode = Some out ->
  match out with LoopAborted _ => True | LoopDone _ _ c => aborted c = false end.
Proof.
  induction n as [|n IH]; intros l i pos depth alpha beta best bestMove ctx ply key
    pvNode out Hc H.
  - destruct l; apply some_inj in H; subst out; exact Hc.
  - destruct l as [|x rest]; [apply some_inj in H; subst out; exact Hc|].
    cbn [nLoop] in H.
    destruct (selectBest x rest) as [ms rest'].
    match type of H with (if ?c then _ else _) = _ => destruct c end;
      [eapply IH; eauto|].
    match type of H with (if ?c then _ else _) = _ => destruct c end;
      [eapply IH; eauto|].
    destruct (makeMove pos (fst ms)) as [pos1 u].
    match type of H with match ?e with _ => _ end = _ =>
      destruct e as [[score ctx1]|] end; [|discriminate].
    destruct (aborted ctx1) eqn:E1; [apply some_inj in H; subst out; exact I|].
    match type of H with (if ?c then _ else _) = _ => destruct c end.
    + apply some_inj in H. subst out.
      destruct (isQuietMove pos (fst ms)); exact E1.
    + eapply IH; eauto.
Qed.

(** X17. An aborted search scores 0: whenever [negamax] (and so
    [quiescence], which it runs at depth 0) hands back an aborted
    context, the score it returns with it is 0. *)
Theorem aborted_search_scores_zero (fuel : nat) (pos : Position)
    (depth alpha beta : Z) (ctx : ACtx) (ply key : Z) (pvNode : bool)
    (score : Z) (ctx' : ACtx) :
  negamaxA fuel pos depth alpha beta ctx ply key pvNode = Some (score, ctx') ->
  aborted ctx' = true -> score = 0.
Proof.
  intros H Ha.
  assert (Hfin : forall (r : Z * ACtx) s c,
            Some r = Some (s, c) -> aborted (snd r) = false -> aborted c = true ->
            s = 0).
  { intros r s c E E1 E2. apply some_inj in E. subst r. cbn in E1. congruence. }
  destruct fuel as [|f]; cbn [negamax] in H; cbv zeta in H.
  - destruct (depth <=? 0); [|discriminate].
    pose proof (quiescence_aborted QS_MAX_DEPTH pos alpha beta ctx ply key) as Q.
    destruct (quiescenceA QS_MAX_DEPTH pos alpha beta ctx ply key) as [q c1].
    apply some_inj in H. apply pair_inj in H; destruct H as [<- <-]. cbn [fst snd] in Q.
    rewrite (Q Ha). now destruct (_ && _).
  - destruct (depth <=? 0).
    { pose proof (quiescence_aborted QS_MAX_DEPTH pos alpha beta ctx ply key) as Q.
      destruct (quiescenceA QS_MAX_DEPTH pos alpha beta ctx ply key) as [q c1].
      apply some_inj in H. apply pair_inj in H; destruct H as [<- <-]. cbn [fst snd] in Q.
      rewrite (Q Ha). now destruct (_ && _). }
    pose proof (shouldStop_aborted (enterNodeA ctx ply)) as Hs.
    destruct (shouldStopA (enterNodeA ctx ply)) as [stop ctx2].
    cbn [fst snd] in Hs.
    destruct stop; [apply some_inj in H; apply pair_inj in H; now destruct H as [<- _]|].
    repeat match type of H with
           | (if ?c then Some (_, ctx2) else _) = _ =>
               destruct c; [eapply Hfin; eauto|]
           end.
    match type of H with match ?e with _ => _ end = _ =>
      destruct e as [s0|] end; [eapply Hfin; eauto|].
    match type of H with (if ?c then Some (quiescence _ _ _ _ _ _ _ _ _ _ _ _ _) else _) = _ =>
      destruct c end.
    { pose proof (quiescence_aborted QS_MAX_DEPTH pos
                    (Z.max (if (0 <? ply) && isRepetition pos && (alpha <? (if (0 <? ply) && isRepetition pos then 0 else - INF))
                            then (if (0 <? ply) && isRepetition pos then 0 else - INF) else alpha) (- MATE + ply))
                    (Z.min beta (MATE - ply - 1)) ctx2 ply key) as Q.
      apply some_inj in H. rewrite H in Q. exact (Q Ha). }
    match type of H with (if ?c then Some (_, ctx2) else _) = _ =>
      destruct c; [eapply Hfin; eauto|] end.
    match type of H with match ?e with _ => _ end = _ =>
      assert (Hn : match e with
                   | Some (Some s, c3) => aborted c3 = true -> s = 0
                   | Some (None, c3) => aborted c3 = false
                   | None => True
                   end);
      [|destruct e as [[[s3|] ctx3]|]]
    end.
    { match goal with |- context [if ?c then _ else Some (None, ctx2)] =>
        destruct c; [|exact Hs] end.
      destruct (makeNullMove pos) as [posN nu].
      match goal with |- context [negate ?r] => destruct (negate r) as [[sc c3]|] end;
        [|exact I].
      destruct (aborted c3) eqn:E3; [reflexivity|].
      destruct (_ <=? sc); [congruence|exact E3]. }
    + apply some_inj in H. apply pair_inj in H; destruct H as [<- <-]. now apply Hn.
    + destruct (movesOf pos) as [|m0 moves]; [eapply Hfin; eauto|].
      match type of H with match ?e with _ => _ end = _ =>
        destruct e as [[c4|b' bm' c4]|] eqn:EL end; [| |discriminate].
      * apply some_inj in H. apply pair_inj in H; now destruct H as [<- _].
      * pose proof (nLoop_running _ _ _ _ _ _ _ _ _ _ _ _ _ _ _ Hn EL) as L.
        cbn in L. apply some_inj in H. apply pair_inj in H; destruct H as [<- <-].
        rewrite storeTT_aborted in Ha. congruence.
    + discriminate.
Qed.

(** ** Without a limit the search never aborts *)

Section NoLimit.

Hypothesis no_limit : forall n, limitHit n = false.

Lemma shouldStop_running (ctx : ACtx) :
  aborted ctx = false -> shouldStopA ctx = (false, ctx).
Proof.
  intros E. unfold shouldStop. rewrite E, no_limit.
  now destruct (negb _).
Qed.

Lemma qLoop_running child n :
  (forall pos a b (c : ACtx) ply key,
     aborted c = false -> aborted (snd (child pos a b c ply key)) = false) ->
  forall l pos alpha beta (ctx : ACtx) ply key,
  aborted ctx = false ->
  aborted (snd (qLoopA child n l pos alpha beta ctx ply key)) = false.
Proof.
  intros Hch.
  induction n as [|n IH]; intros l pos alpha beta ctx ply key Hc.
  - destruct l; exact Hc.
  - destruct l as [|x rest]; [exact Hc|]. cbn [qLoop].
    destruct (selectBest x rest) as [ms rest'].
    destruct (makeMove pos (fst ms)) as [pos1 u].
    match goal with |- context [let '(s, c) := ?e in _] =>
      assert (E1 : aborted (snd e) = false);
      [|destruct e as [score ctx1]; cbn [snd] in E1] end.
    { destruct (gameOver pos1); [exact Hc|].
      match goal with |- context [child ?a ?b ?c ?d ?e ?f] =>
        pose proof (Hch a b c d e f Hc) as Hx;
        destruct (child a b c d e f) as [v c1] end.
      exact Hx. }
    rewrite E1. destruct (beta <=? score); [exact E1|]. now apply IH.
Qed.

Lemma quiescence_running qd : forall pos alpha beta (ctx : ACtx) ply key,
  aborted ctx = false ->
  aborted (snd (quiescenceA qd pos alpha beta ctx ply key)) = false.
Proof.
  induction qd as [|qd IH]; intros pos alpha beta ctx ply key Hc; cbn [quiescence];
    (rewrite shouldStop_running by exact Hc;
     destruct (gameOver pos); [exact Hc|];
     destruct (MAX_PLY <=? ply); [exact Hc|]; cbv zeta;
     match goal with |- context [if ?c then (_, enterNodeA ctx ply) else _] =>
       destruct c; [exact Hc|] end;
     match goal with |- context [if ?c then (_, enterNodeA ctx ply) else _] =>
       destruct c; [exact Hc|] end).
  - exact Hc.
  - destruct (generateNoisyMoves pos); [exact Hc|].
    apply qLoop_running; [|exact Hc]. intros. now apply IH.
Qed.

(** What a child search must do for the loops to stay running. *)
Definition KeepsRunning
  (child : Position -> Z -> Z -> Z -> ACtx -> Z -> Z -> bool -> option (Z * ACtx))
  : Prop :=
  forall pos d a b (c : ACtx) ply key pv s c',
    aborted c = false -> child pos d a b c ply key pv = Some (s, c') ->
    aborted c' = false.

Lemma negate_running (r : option (Z * ACtx)) s c :
  negate r = Some (s, c) -> exists v, r = Some (v, c).
Proof.
  destruct r as [[v c0]|]; [|discriminate]. cbn. intros H.
  apply some_inj, pair_inj in H. destruct H as [_ <-]. now exists v.
Qed.

Lemma searchMove_running child pos1 i depth alpha beta quiet (ctx : ACtx)
    ply key1 pvNode s c :
  KeepsRunning child -> aborted ctx = false ->
  searchMoveA child pos1 i depth alpha beta quiet ctx ply key1 pvNode = Some (s, c) ->
  aborted c = false.
Proof.
  intros Hch Hc. unfold searchMove. cbv zeta.
  destruct (gameOver pos1).
  { intros H. apply some_inj, pair_inj in H. now destruct H as [_ <-]. }
  destruct (pvNode && (i =? 0)).
  { intros H. apply negate_running in H. destruct H as (v & H). eauto. }
  match goal with |- context [negate ?r] =>
    destruct (negate r) as [[s1 c1]|] eqn:E1 end; [|discriminate].
  apply negate_running in E1. destruct E1 as (v1 & E1).
  assert (H1 : aborted c1 = false) by eauto.
  rewrite H1.
  destruct (alpha <? s1);
    [|intros H; apply some_inj, pair_inj in H; now destruct H as [_ <-]].
  match goal with |- context [if ?c then negate ?r else Some (s1, c1)] =>
    assert (E2 : forall s2 c2,
              (if c then negate r else Some (s1, c1)) = Some (s2, c2) ->
              aborted c2 = false);
    [|destruct (if c then negate r else Some (s1, c1)) as [[s2 c2]|]] end.
  { intros s2 c2.
    match goal with |- (if ?c then _ else _) = _ -> _ => destruct c end.
    - intros H. apply negate_running in H. destruct H as (v & H). eauto.
    - intros H. apply some_inj, pair_inj in H. now destruct H as [_ <-]. }
  - specialize (E2 s2 c2 eq_refl).
    destruct ((alpha <? s2) && (s2 <? beta)).
    + intros H. apply negate_running in H. destruct H as (v & H). eauto.
    + intros H. apply some_inj, pair_inj in H. now destruct H as [_ <-].
  - discriminate.
Qed.

Lemma nLoop_never_aborts child n :
  KeepsRunning child ->
  forall l i pos depth alpha beta best bestMove (ctx : ACtx) ply key pvNode out,
  aborted ctx = false ->
  nLoopA child n l i pos depth alpha beta best bestMove ctx ply key pvNode = Some out ->
  exists b bm c, out = LoopDone b bm c /\ aborted c = false.
Proof.
  intros Hch.
  induction n as [|n IH]; intros l i pos depth alpha beta best bestMove ctx ply key
    pvNode out Hc H.
  - destruct l; apply some_inj in H; subst out; eauto.
  - destruct l as [|x rest]; [apply some_inj in H; subst out; eauto|].
    cbn [nLoop] in H.
    destruct (selectBest x rest) as [ms rest'].
    match type of H with (if ?c then _ else _) = _ => destruct c end;
      [eapply IH; eauto|].
    match type of H with (if ?c then _ else _) = _ => destruct c end;
      [eapply IH; eauto|].
    destruct (makeMove pos (fst ms)) as [pos1 u].
    match type of H with match ?e with _ => _ end = _ =>
      destruct e as [[score ctx1]|] eqn:Es end; [|discriminate].
    assert (E1 : aborted ctx1 = false) by (eapply searchMove_running; eauto).
    rewrite E1 in H.
    match type of H with (if ?c then _ else _) = _ => destruct c end.
    + apply some_inj in H. subst out. do 3 eexists. split; [reflexivity|].
      destruct (isQuietMove pos (fst ms)); exact E1.
    + eapply IH; eauto.
Qed.

Lemma negamax_running fuel : KeepsRunning (negamaxA fuel).
Proof.
  induction fuel as [|f IH]; intros pos depth alpha beta ctx ply key pvNode s c Hc H;
    cbn [negamax] in H; cbv zeta in H.
  - destruct (depth <=? 0); [|discriminate].
    pose proof (quiescence_running QS_MAX_DEPTH pos alpha beta ctx ply key Hc) as Q.
    destruct (quiescenceA QS_MAX_DEPTH pos alpha beta ctx ply key) as [q c1].
    apply some_inj, pair_inj in H. now destruct H as [_ <-].
  - destruct (depth <=? 0).
    { pose proof (quiescence_running QS_MAX_DEPTH pos alpha beta ctx ply key Hc) as Q.
      destruct (quiescenceA QS_MAX_DEPTH pos alpha beta ctx ply key) as [q c1].
      apply some_inj, pair_inj in H. now destruct H as [_ <-]. }
    rewrite shouldStop_running in H by exact Hc.
    set (ctx2 := enterNodeA ctx ply) in *.
    assert (H2 : aborted ctx2 = false) by exact Hc.
    assert (Hfin : forall v, Some (v, ctx2) = Some (s, c) -> aborted c = false).
    { intros v E. apply some_inj, pair_inj in E. now destruct E as [_ <-]. }
    repeat match type of H with
           | (if ?c then Some (_, ctx2) else _) = _ =>
               destruct c; [eapply Hfin; eauto|]
           end.
    match type of H with match ?e with _ => _ end = _ =>
      destruct e as [s0|] end; [eapply Hfin; eauto|].
    match type of H with (if ?c then Some (quiescence _ _ _ _ _ _ _ _ _ _ _ _ _) else _) = _ =>
      destruct c end.
    { apply some_inj in H.
      match type of H with ?q = _ =>
        assert (Q : aborted (snd q) = false) by (now apply quiescence_running) end.
      rewrite H in Q. exact Q. }
    match type of H with (if ?c then Some (_, ctx2) else _) = _ =>
      destruct c; [eapply Hfin; eauto|] end.
    match type of H with match ?e with _ => _ end = _ =>
      assert (Hn : match e with
                   | Some (_, c3) => aborted c3 = false
                   | None => True
                   end);
      [|destruct e as [[[s3|] ctx3]|]]
    end.
    { match goal with |- context [if ?c then _ else Some (None, ctx2)] =>
        destruct c; [|exact H2] end.
      destruct (makeNullMove pos) as [posN nu].
      match goal with |- context [negate ?r] =>
        destruct (negate r) as [[sc c3]|] eqn:En end; [|exact I].
      apply negate_running in En. destruct En as (v & En).
      assert (E3 : aborted c3 = false) by (eapply IH; eauto).
      rewrite E3. now destruct (_ <=? sc). }
    + apply some_inj, pair_inj in H. now destruct H as [_ <-].
    + destruct (movesOf pos) as [|m0 moves].
      { apply some_inj, pair_inj in H. now destruct H as [_ <-]. }
      match type of H with match ?e with _ => _ end = _ =>
        destruct e as [out|] eqn:EL end; [|discriminate].
      destruct (nLoop_never_aborts _ _ IH _ _ _ _ _ _ _ _ _ _ _ _ _ Hn EL)
        as (b' & bm' & c4 & -> & E4).
      apply some_inj, pair_inj in H. destruct H as [_ <-].
      now rewrite storeTT_aborted.
    + discriminate.
Qed.

(** X18. The search gives up only on a limit: when [limitHit] never
    answers yes, a search started in a running context hands back a
    running context. *)
Theorem search_aborts_only_on_limit (fuel : nat) (pos : Position)
    (depth alpha beta : Z) (ctx : ACtx) (ply key : Z) (pvNode : bool)
    (score : Z) (ctx' : ACtx) :
  aborted ctx = false ->
  negamaxA fuel pos depth alpha beta ctx ply key pvNode = Some (score, ctx') ->
  aborted ctx' = false.
Proof. intros Hc H. exact (negamax_running fuel _ _ _ _ _ _ _ _ _ _ Hc H). Qed.

End NoLimit.

End SearchAbort.

(** A context one node short of the next poll of the limits. *)
Definition pollCtx : SearchContext unit :=
  mkCtx unit 2047 0 false (fun _ => mkTTEntry 0 0 0 Exact nullMove) tt.

Lemma aborted_search_scores_zero_witness :
  exists score ctx',
    negamax unit (fun _ => true) false false (fun _ _ => 50) (fun _ => [])
            (fun _ _ => 0) (fun _ _ _ _ _ => 0) (fun h _ _ _ => h)
            (fun k _ _ => k) (fun _ => 0) 0
            1 initial 1 (- INF) INF pollCtx 0 0 true = Some (score, ctx')
    /\ aborted ctx' = true /\ score = 0.
Proof.
  eexists. eexists.
  assert (H : negamax unit (fun _ => true) false false (fun _ _ => 50) (fun _ => [])
            (fun _ _ => 0) (fun _ _ _ _ _ => 0) (fun h _ _ _ => h)
            (fun k _ _ => k) (fun _ => 0) 0
            1 initial 1 (- INF) INF pollCtx 0 0 true
          = Some (0, set_aborted unit true (enterNode unit pollCtx 0))).
  { vm_compute. reflexivity. }
  split; [exact H|]. split; [reflexivity|].
  eapply aborted_search_scores_zero; [exact H|reflexivity].
Defined.

Lemma search_aborts_only_on_limit_witness :
  exists score ctx',
    negamax unit (fun _ => false) false false (fun _ _ => 50) (fun _ => [])
            (fun _ _ => 0) (fun _ _ _ _ _ => 0) (fun h _ _ _ => h)
            (fun k _ _ => k) (fun _ => 0) 0
            1 initial 1 (- INF) INF pollCtx 0 0 true = Some (score, ctx')
    /\ aborted pollCtx = false /\ aborted ctx' = false.
Proof.
  destruct (negamax unit (fun _ => false) false false (fun _ _ => 50) (fun _ => [])
            (fun _ _ => 0) (fun _ _ _ _ _ => 0) (fun h _ _ _ => h)
            (fun k _ _ => k) (fun _ => 0) 0
            1 initial 1 (- INF) INF pollCtx 0 0 true) as [[score ctx']|] eqn:H.
  - exists score, ctx'. split; [reflexivity|]. split; [reflexivity|].
    eapply search_aborts_only_on_limit; [| |exact H];
      [intros n; reflexivity|reflexivity].
  - vm_compute in H. discriminate.
Defined.

(** * The transposition table and the move picker *)

Section TableFacts.

Variable Heur : Type.
Variable ttIndex : Z -> Z.

#[local] Abbreviation TCtx := (SearchContext Heur).

(** X19. Store, then probe.  With the table in use and the slot of [key]
    free for this entry (empty, of the same key, or not deeper), a probe
    of [key] at depth [d <= depth] after [storeTT] finds the stored score,
    re-based from the storing ply to the probing ply, and returns it
    according to its bound: a fail-low score only if it is at most the
    probing [alpha], a fail-high score only if it is at least the probing
    [beta], an exact score always. *)
Theorem storeTT_probeTT (ctx : TCtx) (key depth alphaOrig beta best ply : Z)
    (bestMove : Move) (d a b ply' : Z) :
  (e_key (ttSlot Heur ttIndex ctx key) =? 0)
  || (e_key (ttSlot Heur ttIndex ctx key) =? key)
  || (e_depth (ttSlot Heur ttIndex ctx key) <=? depth) = true ->
  d <= depth ->
  let v := scoreFromTT (scoreToTT best ply) ply' in
  probeTT Heur true ttIndex
    (storeTT Heur true ttIndex ctx key depth alphaOrig beta best ply bestMove)
    key d a b ply' false
  = if best <=? alphaOrig then (if v <=? a then Some v else None)
    else if beta <=? best then (if b <=? v then Some v else None)
    else Some v.
Proof.
  intros Hrep Hd. cbv zeta. unfold storeTT. cbv zeta. rewrite Hrep.
  unfold probeTT, ttSlot. cbn [TT set_TT]. rewrite Z.eqb_refl.
  cbn [e_key e_depth e_score e_flag andb]. rewrite Z.eqb_refl.
  destruct (Z.leb_spec d depth); [|lia]. cbn [andb negb orb].
  destruct (best <=? alphaOrig); cbn [flag_eqb andb].
  - reflexivity.
  - destruct (beta <=? best); cbn [flag_eqb andb]; reflexivity.
Qed.

End TableFacts.

Lemma storeTT_probeTT_witness :
  let ctx := mkCtx unit 0 0 false (fun _ => mkTTEntry 0 0 0 Exact nullMove) tt in
  probeTT unit true (fun k => k mod 1024)
    (storeTT unit true (fun k => k mod 1024) ctx 4242 5 (-50) 50 17 3 nullMove)
    4242 4 (-10) 10 3 false = Some 17.
Proof.
  cbv zeta.
  assert (Hrep : (e_key (ttSlot unit (fun k => k mod 1024)
                    (mkCtx unit 0 0 false (fun _ => mkTTEntry 0 0 0 Exact nullMove) tt)
                    4242) =? 0)
                 || (e_key (ttSlot unit (fun k => k mod 1024)
                    (mkCtx unit 0 0 false (fun _ => mkTTEntry 0 0 0 Exact nullMove) tt)
                    4242) =? 4242)
                 || (e_depth (ttSlot unit (fun k => k mod 1024)
                    (mkCtx unit 0 0 false (fun _ => mkTTEntry 0 0 0 Exact nullMove) tt)
                    4242) <=? 5) = true) by reflexivity.
  assert (Hd : 4 <= 5) by lia.
  exact (storeTT_probeTT unit (fun k => k mod 1024) _ 4242 5 (-50) 50 17 3 nullMove
           4 (-10) 10 3 Hrep Hd).
Defined.


(** ** Picking the next move *)

Lemma setNth_length {A} (x : A) : forall l k, List.length (setNth k l x) = List.length l.
Proof.
  induction l as [|y l IH]; intros k; [now destruct k|].
  destruct k; cbn [setNth List.length]; [reflexivity|]. now rewrite IH.
Qed.

(** Swapping the head with entry [k] of the tail. *)
Lemma swap_Permutation {A} (x : A) : forall l k,
  (k < List.length l)%nat ->
  Permutation (x :: l) (nth k l x :: setNth k l x).
Proof.
  induction l as [|y l IH]; intros k Hk; [cbn in Hk; lia|].
  destruct k; cbn [nth setNth].
  - apply perm_swap.
  - cbn [List.length] in Hk.
    eapply perm_trans; [apply perm_swap|].
    eapply perm_trans; [apply perm_skip, (IH k); lia|].
    apply perm_swap.
Qed.

(** [argBest] returns the index it was given when no later score is
    greater than [bestSc], and the index of the first greatest later
    score otherwise. *)
Lemma argBest_spec : forall l j bestIdx bestSc,
  let k := argBest l j bestIdx bestSc in
  (k = bestIdx /\ forall y, In y l -> snd y <= bestSc)
  \/ ((j <= k < j + List.length l)%nat /\
      bestSc < snd (nth (k - j) l (nullMove, 0)) /\
      forall y, In y l -> snd y <= snd (nth (k - j) l (nullMove, 0))).
Proof.
  induction l as [|[m s] l IH]; intros j bestIdx bestSc; cbv zeta.
  - left. split; [reflexivity|intros y []].
  - cbn [argBest].
    destruct (Z.ltb_spec bestSc s) as [Hlt|Hge].
    + specialize (IH (S j) j s). cbv zeta in IH.
      destruct IH as [[E Hall]|(Hr & Hb & Hall)].
      * right. rewrite E, Nat.sub_diag. cbn [nth snd List.length].
        split; [lia|]. split; [exact Hlt|].
        intros y [<-|Hy]; [cbn; lia|now apply Hall].
      * right. cbn [List.length].
        replace (argBest l (S j) j s - j)%nat
          with (S (argBest l (S j) j s - S j)) by lia.
        cbn [nth]. split; [lia|]. split; [lia|].
        intros y [<-|Hy]; [cbn; lia|now apply Hall].
    + specialize (IH (S j) bestIdx bestSc). cbv zeta in IH.
      destruct IH as [[E Hall]|(Hr & Hb & Hall)].
      * left. split; [exact E|].
        intros y [<-|Hy]; [cbn; lia|now apply Hall].
      * right. cbn [List.length].
        replace (argBest l (S j) bestIdx bestSc - j)%nat
          with (S (argBest l (S j) bestIdx bestSc - S j)) by lia.
        cbn [nth]. split; [lia|]. split; [lia|].
        intros y [<-|Hy]; [cbn; lia|now apply Hall].
Qed.

(** X20. The move picker: [selectBest] hands out an entry of greatest
    score among the current one and those left, and leaves the others,
    every entry once, for the later iterations. *)
Theorem selectBest_greatest (x : Move * Z) (rest : list (Move * Z)) :
  let picked := fst (selectBest x rest) in
  let left := snd (selectBest x rest) in
  Permutation (x :: rest) (picked :: left) /\
  (forall y, In y (x :: rest) -> snd y <= snd picked) /\
  List.length left = List.length rest.
Proof.
  cbv zeta. unfold selectBest.
  pose proof (argBest_spec rest 1 0 (snd x)) as H. cbv zeta in H.
  destruct (argBest rest 1 0 (snd x)) as [|k] eqn:E.
  - cbn [fst snd]. split; [apply Permutation_refl|]. split; [|reflexivity].
    destruct H as [[_ Hall]|(Hr & _)]; [|lia].
    intros y [<-|Hy]; [lia|now apply Hall].
  - cbn [fst snd]. destruct H as [[H _]|(Hr & Hb & Hall)]; [discriminate|].
    replace (S k - 1)%nat with k in * by lia.
    assert (Hk : (k < List.length rest)%nat) by lia.
    rewrite (nth_indep rest x (nullMove, 0) Hk).
    split; [rewrite <- (nth_indep rest x (nullMove, 0) Hk); now apply swap_Permutation|].
    split; [|apply setNth_length].
    intros y [<-|Hy]; [lia|now apply Hall].
Qed.

(** * perft *)

Lemma make_undo_legal p m :
  WF p -> In m (movesOf p) ->
  WF (fst (makeMove p m)) /\
  undoMove (fst (makeMove p m)) (snd (makeMove p m)) = p.
Proof.
  intros W Hin.
  assert (HL : Legal p m) by now apply generateMoves_ok.
  pose proof (makeMove_inv p m W HL) as I.
  split; [apply I|]. now apply undoMove_MakeInv.
Qed.

Lemma perftAt_restores n : forall pos, WF pos -> snd (perftAt n pos) = pos.
Proof.
  induction n as [|n IH]; intros pos W; [reflexivity|].
  cbn [perftAt].
  destruct (generateMoves_ok pos W) as [E _].
  unfold movesOf in *.
  pose proof (fun m => make_undo_legal pos m W) as Hm. unfold movesOf in Hm.
  destruct (generateMoves pos) as [pos0 moves]. cbn [fst snd] in *. subst pos0.
  destruct moves as [|m0 moves']; [reflexivity|].
  destruct n as [|n']; [reflexivity|].
  remember (m0 :: moves') as moves eqn:Em. clear Em.
  assert (G : forall ms nodes,
            (forall m, In m ms -> In m moves) ->
            snd (fold_left (fun (acc : Z * Position) m =>
                   let '(nodes, p) := acc in
                   let '(p1, u) := makeMove p m in
                   let '(c, p2) := perftAt (S n') p1 in
                   (add64 nodes c, undoMove p2 u)) ms (nodes, pos)) = pos).
  { induction ms as [|m ms IHms]; intros nodes Hsub; [reflexivity|].
    cbn [fold_left].
    destruct (Hm m (Hsub m (or_introl eq_refl))) as [W1 U1].
    pose proof (IH (fst (makeMove pos m)) W1) as R.
    destruct (makeMove pos m) as [p1 u]. cbn [fst snd] in *.
    destruct (perftAt (S n') p1) as [c p2]. cbn [snd] in R. subst p2.
    rewrite U1. apply IHms. intros x Hx. apply Hsub. now right. }
  apply G. auto.
Qed.

(** X21. [perft] and [perftDivide] give a well-formed position back as
    they found it, whatever the depth. *)
Theorem perft_restores_position (pos : Position) (depth : Z) :
  WF pos ->
  snd (perft pos depth) = pos /\ snd (perftDivide pos depth) = pos.
Proof.
  intros W. split; [now apply perftAt_restores|].
  unfold perftDivide. destruct (depth <=? 0); [reflexivity|].
  destruct (generateMoves_ok pos W) as [E _].
  pose proof (fun m => make_undo_legal pos m W) as Hm. unfold movesOf in Hm.
  destruct (generateMoves pos) as [pos0 moves]. cbn [fst snd] in *. subst pos0.
  assert (G : forall ms out,
            (forall m, In m ms -> In m moves) ->
            snd (fold_left (fun (acc : list (Move * Z) * Position) m =>
                   let '(out, p) := acc in
                   let '(p1, u) := makeMove p m in
                   let '(n, p2) := perft p1 (depth - 1) in
                   (out ++ [(m, n)], undoMove p2 u)) ms (out, pos)) = pos).
  { induction ms as [|m ms IHms]; intros out Hsub; [reflexivity|].
    cbn [fold_left].
    destruct (Hm m (Hsub m (or_introl eq_refl))) as [W1 U1].
    pose proof (perftAt_restores (Z.to_nat (depth - 1)) (fst (makeMove pos m)) W1) as R.
    fold (perft (fst (makeMove pos m)) (depth - 1)) in R.
    destruct (makeMove pos m) as [p1 u]. cbn [fst snd] in *.
    destruct (perft p1 (depth - 1)) as [c p2]. cbn [snd] in R. subst p2.
    rewrite U1. apply IHms. intros x Hx. apply Hsub. now right. }
  apply G. auto.
Qed.

Lemma perft_restores_position_witness :
  WF initial /\ perft initial 2 = (3223, initial).
Proof.
  assert (W : WF initial) by (apply WFb_sound; vm_compute; reflexivity).
  split; [exact W|].
  destruct (perft_restores_position initial 2 W) as [H _].
  destruct (perft initial 2) as [n p] eqn:E. cbn [snd] in H. subst p.
  f_equal. apply (f_equal fst) in E. cbn [fst] in E. rewrite <- E.
  vm_compute. reflexivity.
Defined.

(** The counts of a divide list, added up as [uint64_t]. *)
Definition sum64 (l : list (Move * Z)) : Z := fold_left add64 (map snd l) 0.

Lemma sum64_snoc l m c : sum64 (l ++ [(m, c)]) = add64 (sum64 l) c.
Proof. unfold sum64. now rewrite map_app, fold_left_app. Qed.

Lemma add64_range a b : 0 <= add64 a b < W64.
Proof. unfold add64. apply Z.mod_pos_bound. reflexivity. Qed.

(** The two loops run the same actions on the same positions. *)
Lemma divide_fold n' d pos ms : forall out nodes,
  Z.to_nat d = n' ->
  sum64 out = nodes ->
  let rd := fold_left (fun (acc : list (Move * Z) * Position) m =>
              let '(out, p) := acc in
              let '(p1, u) := makeMove p m in
              let '(n, p2) := perft p1 d in
              (out ++ [(m, n)], undoMove p2 u)) ms (out, pos) in
  let rp := fold_left (fun (acc : Z * Position) m =>
              let '(nodes, p) := acc in
              let '(p1, u) := makeMove p m in
              let '(c, p2) := perftAt n' p1 in
              (add64 nodes c, undoMove p2 u)) ms (nodes, pos) in
  sum64 (fst rd) = fst rp /\ snd rd = snd rp /\
  map fst (fst rd) = map fst out ++ ms.
Proof.
  revert pos. induction ms as [|m ms IH]; intros pos out nodes Hd Hs; cbv zeta.
  - cbn [fold_left fst snd]. now rewrite app_nil_r.
  - cbn [fold_left].
    destruct (makeMove pos m) as [p1 u].
    assert (Ep : perft p1 d = perftAt n' p1) by (unfold perft; now rewrite Hd).
    rewrite Ep.
    destruct (perftAt n' p1) as [c p2].
    assert (Hs' : sum64 (out ++ [(m, c)]) = add64 nodes c)
      by (rewrite sum64_snoc; now rewrite Hs).
    specialize (IH (undoMove p2 u) (out ++ [(m, c)]) (add64 nodes c) Hd Hs').
    cbv zeta in IH. destruct IH as (I1 & I2 & I3).
    rewrite map_app in I3. cbn [map fst] in I3. rewrite <- app_assoc in I3.
    cbn [app] in I3. split; [exact I1|]. split; [exact I2|exact I3].
Qed.

Lemma fold_add64_range (f : Z * Position -> Move -> Z * Position) ms :
  (forall acc m, 0 <= fst (f acc m) < W64) ->
  forall acc, 0 <= fst acc < W64 -> 0 <= fst (fold_left f ms acc) < W64.
Proof.
  intros Hf. induction ms as [|m ms IH]; intros acc Ha; [exact Ha|].
  cbn [fold_left]. apply IH. apply Hf.
Qed.

Lemma sum64_ones (l : list (Move * Z)) :
  (forall x, In x l -> snd x = 1) -> sum64 l = Z.of_nat (List.length l) mod W64.
Proof.
  induction l as [|x l IH] using rev_ind; intros H; [reflexivity|].
  destruct x as [m c]. rewrite sum64_snoc, length_app. cbn [List.length].
  rewrite IH by (intros y Hy; apply H, in_or_app; now left).
  assert (Ec : c = 1) by (apply (H (m, c)), in_or_app; right; now left).
  subst c. unfold add64. rewrite Nat2Z.inj_add. cbn [Z.of_nat].
  rewrite Z.add_mod_idemp_l by discriminate. reflexivity.
Qed.

(** X22. For a depth of at least 1, [perftDivide] lists the actions of
    the move list in order, and its counts add up, in 64-bit arithmetic,
    to the count of [perft]. *)
Theorem perftDivide_sums_to_perft (pos : Position) (depth : Z) :
  1 <= depth ->
  map fst (fst (perftDivide pos depth)) = snd (generateMoves pos) /\
  sum64 (fst (perftDivide pos depth)) = fst (perft pos depth) mod W64.
Proof.
  intros Hd. unfold perftDivide, perft.
  destruct (Z.leb_spec depth 0); [lia|].
  assert (En : Z.to_nat depth = S (Z.to_nat (depth - 1))) by lia.
  rewrite En. cbn [perftAt].
  destruct (generateMoves pos) as [pos0 moves]. cbn [snd].
  destruct (divide_fold (Z.to_nat (depth - 1)) (depth - 1) pos0 moves [] 0
              eq_refl eq_refl) as (D1 & D2 & D3).
  cbv zeta in D1, D2, D3. cbn [map app] in D3. unfold perft in D1, D2, D3.
  set (n' := Z.to_nat (depth - 1)) in *. clearbody n'.
  split; [exact D3|].
  destruct moves as [|m0 moves']; [reflexivity|].
  destruct n' as [|n'].
  - (* depth = 1: every entry counts one leaf *)
    set (moves := m0 :: moves') in *. cbn [fst].
    pose proof (f_equal (@List.length _) D3) as EL. rewrite length_map in EL.
    rewrite <- EL. apply sum64_ones. clear EL.
    clear D1 D2 D3.
    assert (G : forall ms out p,
              (forall x, In x out -> snd x = 1) ->
              forall x,
              In x (fst (fold_left (fun (acc : list (Move * Z) * Position) m =>
                      let '(out, p) := acc in
                      let '(p1, u) := makeMove p m in
                      let '(n, p2) := perftAt 0 p1 in
                      (out ++ [(m, n)], undoMove p2 u)) ms (out, p))) ->
              snd x = 1).
    { induction ms as [|m ms IHms]; intros out p Ho x; [exact (Ho x)|].
      cbn [fold_left perftAt].
      destruct (makeMove p m) as [p1 u].
      apply IHms. intros y Hy. apply in_app_or in Hy.
      destruct Hy as [Hy|[<-|[]]]; [now apply Ho|reflexivity]. }
    apply G. intros x [].
  - rewrite D1.
    match goal with |- fst ?r = fst ?r mod W64 =>
      assert (R : 0 <= fst r < W64) end.
    { apply fold_add64_range.
      - intros [nodes p] m. destruct (makeMove p m) as [p1 u].
        destruct (perftAt (S n') p1) as [c p2]. apply add64_range.
      - cbn. unfold W64. lia. }
    now rewrite Z.mod_small.
Qed.

Lemma perftDivide_sums_to_perft_witness :
  1 <= 2 /\ sum64 (fst (perftDivide initial 2)) = 3223.
Proof.
  assert (H : 1 <= 2) by lia.
  split; [exact H|].
  destruct (perftDivide_sums_to_perft initial 2 H) as [_ E]. rewrite E.
  vm_compute. reflexivity.
Defined.

(** * Two views of an attack *)

(** [computeAttacks] walks from every piece of the attacker and marks
    the squares it reaches; [isSquareAttackedBy] walks from the square
    and looks for a piece that reaches it.  The two agree. *)

(** ** Geometry of the tables *)

(** The direction opposite to [dir] in [DIRS8]. *)
Definition opp (dir : nat) : nat :=
  match dir with
  | 0 => 1 | 1 => 0 | 2 => 3 | 3 => 2 | 4 => 7 | 5 => 6 | 6 => 5 | 7 => 4
  | _ => dir
  end%nat.

Definition sameList (a b : list Z) : bool :=
  if list_eq_dec Z.eq_dec a b then true else false.

Definition rayReverseOK (s : Z) (dir k : nat) : bool :=
  match nth_error (ray s dir) k with
  | None => true
  | Some t =>
      (0 <=? t) && (t <? 81) &&
      match nth_error (ray t (opp dir)) k with
      | Some s' =>
          (s' =? s)
          && sameList (firstn k (ray t (opp dir))) (rev (firstn k (ray s dir)))
      | None => false
      end
  end.

Lemma ray_reverse_all :
  forallb (fun s =>
    forallb (fun dir => forallb (rayReverseOK s dir) (seq 0 9)) (seq 0 8))
    allSquares = true.
Proof. vm_compute. reflexivity. Qed.

Lemma rayFrom_length fuel d : forall rr cc,
  (List.length (rayFrom fuel d rr cc) <= fuel)%nat.
Proof.
  induction fuel as [|f IH]; intros rr cc; cbn [rayFrom]; [cbn; lia|].
  destruct (inBounds rr cc); cbn [List.length]; [|lia].
  specialize (IH (rr + fst d) (cc + snd d)). lia.
Qed.

(** Seen from the square reached, the ray back is the ray out reversed. *)
Lemma ray_reverse s dir k t :
  inBoard s -> (dir < 8)%nat ->
  nth_error (ray s dir) k = Some t ->
  inBoard t /\ nth_error (ray t (opp dir)) k = Some s /\
  firstn k (ray t (opp dir)) = rev (firstn k (ray s dir)).
Proof.
  intros Hs Hd Hn.
  assert (Hk : (k < 9)%nat).
  { assert (k < List.length (ray s dir))%nat
      by (apply nth_error_Some; congruence).
    pose proof (rayFrom_length 9 (nth dir DIRS8 (0, 0))
                  (row s + fst (nth dir DIRS8 (0, 0)))
                  (col s + snd (nth dir DIRS8 (0, 0)))) as L.
    unfold ray in H. cbv zeta in H. lia. }
  pose proof ray_reverse_all as A.
  rewrite forallb_forall in A.
  specialize (A s (proj2 (allSquares_In s) Hs)).
  rewrite forallb_forall in A.
  specialize (A dir (proj2 (in_seq 8 0 dir) ltac:(lia))).
  rewrite forallb_forall in A.
  specialize (A k (proj2 (in_seq 9 0 k) ltac:(lia))).
  unfold rayReverseOK in A. rewrite Hn in A.
  apply andb_prop in A. destruct A as [A1 A2].
  apply andb_prop in A1. destruct A1 as [A0 A1].
  destruct (nth_error (ray t (opp dir)) k) as [s'|]; [|discriminate].
  apply andb_prop in A2. destruct A2 as [A2 A3].
  apply Z.eqb_eq in A2. subst s'.
  unfold sameList in A3.
  destruct (list_eq_dec Z.eq_dec _ _) as [E|]; [|discriminate].
  unfold inBoard. split; [lia|]. split; [reflexivity|exact E].
Qed.

Lemma opp_range dir :
  ((dir < 4)%nat -> (opp dir < 4)%nat) /\
  ((4 <= dir < 8)%nat -> (4 <= opp dir < 8)%nat) /\
  ((dir < 8)%nat -> (opp dir < 8)%nat /\ opp (opp dir) = dir).
Proof.
  do 8 (destruct dir as [|dir]; [cbn; lia|]). cbn. lia.
Qed.

Lemma knight_sym_all :
  forallb (fun s => forallb (fun t =>
    Bool.eqb (existsb (Z.eqb t) (knightTargets s))
             (existsb (Z.eqb s) (knightTargets t))) allSquares) allSquares = true.
Proof. vm_compute. reflexivity. Qed.

Lemma existsb_eqb_In (t : Z) l : existsb (Z.eqb t) l = true <-> In t l.
Proof.
  rewrite existsb_exists. split.
  - intros (x & Hx & E). apply Z.eqb_eq in E. now subst.
  - intros H. exists t. split; [exact H|apply Z.eqb_refl].
Qed.

Lemma knight_sym s t :
  inBoard s -> inBoard t -> (In t (knightTargets s) <-> In s (knightTargets t)).
Proof.
  intros Hs Ht. pose proof knight_sym_all as A.
  rewrite forallb_forall in A.
  specialize (A s (proj2 (allSquares_In s) Hs)).
  rewrite forallb_forall in A.
  specialize (A t (proj2 (allSquares_In t) Ht)).
  apply Bool.eqb_prop in A.
  rewrite <- !existsb_eqb_In. now rewrite A.
Qed.

(** The squares a Mason of colour [us] on [s] attacks, and the squares
    from which such a Mason attacks [t]. *)
Definition masonTargets (us : Color) (s : Z) : list Z :=
  flat_map (fun dc =>
    if negb (inBounds (row s + forwardOf us) (col s + dc)) then []
    else [sq (row s + forwardOf us) (col s + dc)]) [-1; 1].

Definition masonSources (us : Color) (t : Z) : list Z :=
  let mr := row t - forwardOf us in
  if (0 <=? mr) && (mr <? N) then
    (if 0 <=? col t - 1 then [sq mr (col t - 1)] else [])
    ++ (if col t + 1 <? N then [sq mr (col t + 1)] else [])
  else [].

Lemma mason_sym_all :
  forallb (fun us => forallb (fun s => forallb (fun t =>
    Bool.eqb (existsb (Z.eqb t) (masonTargets us s))
             (existsb (Z.eqb s) (masonSources us t))) allSquares) allSquares)
    [White; Black] = true.
Proof. vm_compute. reflexivity. Qed.

Lemma mason_sym us s t :
  inBoard s -> inBoard t ->
  (In t (masonTargets us s) <-> In s (masonSources us t)).
Proof.
  intros Hs Ht. pose proof mason_sym_all as A.
  rewrite forallb_forall in A.
  specialize (A us ltac:(destruct us; cbn; auto)).
  rewrite forallb_forall in A.
  specialize (A s (proj2 (allSquares_In s) Hs)).
  rewrite forallb_forall in A.
  specialize (A t (proj2 (allSquares_In t) Ht)).
  apply Bool.eqb_prop in A.
  rewrite <- !existsb_eqb_In. now rewrite A.
Qed.

Lemma masonSources_range_all :
  forallb (fun us => forallb (fun t =>
    forallb (fun s => (0 <=? s) && (s <? 81)) (masonSources us t)) allSquares)
    [White; Black] = true.
Proof. vm_compute. reflexivity. Qed.

Lemma masonSources_range us t s :
  inBoard t -> In s (masonSources us t) -> inBoard s.
Proof.
  intros Ht Hin. pose proof masonSources_range_all as A.
  rewrite forallb_forall in A.
  specialize (A us ltac:(destruct us; cbn; auto)).
  rewrite forallb_forall in A.
  specialize (A t (proj2 (allSquares_In t) Ht)).
  rewrite forallb_forall in A. specialize (A s Hin).
  unfold inBoard. lia.
Qed.
(** ** The walkers, square by square *)

(** Cells a Catapult, Minister or Sovereign slides over, and cells a
    Lancer of colour [us] slides over. *)
Definition passC (v : Z) : bool := negb (isWallVal v) && negb (isPieceVal v).

Definition passL (us : Color) (v : Z) : bool :=
  negb (isWallVal v)
  && (negb (isPieceVal v)
      || (color_eqb (colorOf v) us && piece_eqb (pieceOf v) Mason)).

Lemma piece_not_wall v : isPieceVal v = true -> isWallVal v = false.
Proof.
  unfold isPieceVal, isWallVal. cbv zeta. intros H.
  apply andb_prop in H. destruct H as [_ H]. apply Z.leb_le in H.
  apply Z.leb_gt. lia.
Qed.

Lemma isPieceOf_parts us pt v :
  isPieceOf us pt v = true <->
  isPieceVal v = true /\ color_eqb (colorOf v) us = true /\
  piece_eqb (pieceOf v) pt = true.
Proof. unfold isPieceOf. rewrite !andb_true_iff. tauto. Qed.

Lemma piece_eqb_true a b : piece_eqb a b = true <-> a = b.
Proof. destruct a, b; cbn; split; intros H; try discriminate; reflexivity. Qed.

Section Walkers.

Variable p : Position.
Variable us : Color.

Lemma sliderMarks_In l t :
  In t (sliderMarks p l) <->
  exists k, nth_error l k = Some t /\ isWallVal (at_ p t) = false /\
            forallb (fun u => passC (at_ p u)) (firstn k l) = true.
Proof.
  induction l as [|u rest IH]; cbn [sliderMarks].
  - split; [intros []|]. intros (k & H & _). destruct k; discriminate.
  - cbv zeta. unfold passC in *.
    destruct (isWallVal (at_ p u)) eqn:Ew.
    + split; [intros []|]. intros ([|k] & H & Hw & Hf).
      * cbn in H. apply some_inj in H. subst t. congruence.
      * cbn [firstn forallb] in Hf. rewrite Ew in Hf. discriminate.
    + destruct (isPieceVal (at_ p u)) eqn:Ep.
      * split.
        -- intros [<-|[]]. exists 0%nat. auto.
        -- intros ([|k] & H & Hw & Hf).
           ++ cbn in H. apply some_inj in H. now left.
           ++ cbn [firstn forallb] in Hf. rewrite Ew, Ep in Hf. discriminate.
      * split.
        -- intros [<-|H]; [exists 0%nat; auto|].
           apply IH in H. destruct H as (k & H & Hw & Hf).
           exists (S k). cbn [nth_error firstn forallb]. rewrite Ew, Ep. auto.
        -- intros ([|k] & H & Hw & Hf).
           ++ cbn in H. apply some_inj in H. now left.
           ++ right. apply IH. exists k. cbn [nth_error firstn forallb] in *.
              rewrite Ew, Ep in Hf. auto.
Qed.

Lemma lancerMarks_In l t :
  In t (lancerMarks p us l) <->
  exists k, nth_error l k = Some t /\ isWallVal (at_ p t) = false /\
            forallb (fun u => passL us (at_ p u)) (firstn k l) = true.
Proof.
  induction l as [|u rest IH]; cbn [lancerMarks].
  - split; [intros []|]. intros (k & H & _). destruct k; discriminate.
  - cbv zeta. unfold passL in *.
    destruct (isWallVal (at_ p u)) eqn:Ew.
    + split; [intros []|]. intros ([|k] & H & Hw & Hf).
      * cbn in H. apply some_inj in H. subst t. congruence.
      * cbn [firstn forallb] in Hf. rewrite Ew in Hf. discriminate.
    + destruct (isPieceVal (at_ p u)) eqn:Ep; cbn [negb andb orb].
      * destruct (color_eqb (colorOf (at_ p u)) us
                  && piece_eqb (pieceOf (at_ p u)) Mason) eqn:Em.
        -- split.
           ++ intros [<-|H]; [exists 0%nat; auto|].
              apply IH in H. destruct H as (k & H & Hw & Hf).
              exists (S k). cbn [nth_error firstn forallb].
              rewrite Ew, Ep, Em. auto.
           ++ intros ([|k] & H & Hw & Hf).
              ** cbn in H. apply some_inj in H. now left.
              ** right. apply IH. exists k. cbn [nth_error firstn forallb] in *.
                 rewrite Ew, Ep, Em in Hf. auto.
        -- split.
           ++ intros [<-|[]]. exists 0%nat. auto.
           ++ intros ([|k] & H & Hw & Hf).
              ** cbn in H. apply some_inj in H. now left.
              ** cbn [firstn forallb] in Hf. rewrite Ew, Ep, Em in Hf. discriminate.
      * split.
        -- intros [<-|H]; [exists 0%nat; auto|].
           apply IH in H. destruct H as (k & H & Hw & Hf).
           exists (S k). cbn [nth_error firstn forallb]. rewrite Ew, Ep. auto.
        -- intros ([|k] & H & Hw & Hf).
           ++ cbn in H. apply some_inj in H. now left.
           ++ right. apply IH. exists k. cbn [nth_error firstn forallb] in *.
              rewrite Ew, Ep in Hf. auto.
Qed.

Lemma catapultHits_iff l :
  catapultHits p us l = true <->
  exists k s, nth_error l k = Some s /\
              isPieceOf us Catapult (at_ p s) = true /\
              forallb (fun u => passC (at_ p u)) (firstn k l) = true.
Proof.
  induction l as [|u rest IH]; cbn [catapultHits].
  - split; [discriminate|]. intros (k & s & H & _). destruct k; discriminate.
  - cbv zeta. unfold passC in *.
    destruct (isWallVal (at_ p u)) eqn:Ew.
    + split; [discriminate|]. intros ([|k] & s & H & Hp & Hf).
      * cbn in H. apply some_inj in H. subst s.
        apply isPieceOf_parts in Hp. destruct Hp as (Hp & _).
        apply piece_not_wall in Hp. congruence.
      * cbn [firstn forallb] in Hf. rewrite Ew in Hf. discriminate.
    + destruct (isPieceVal (at_ p u)) eqn:Ep.
      * split.
        -- intros H. exists 0%nat, u. split; [reflexivity|].
           split; [|reflexivity]. unfold isPieceOf. now rewrite Ep.
        -- intros ([|k] & s & H & Hp & Hf).
           ++ cbn in H. apply some_inj in H. subst s.
              unfold isPieceOf in Hp. now rewrite Ep in Hp.
           ++ cbn [firstn forallb] in Hf. rewrite Ew, Ep in Hf. discriminate.
      * rewrite IH. split.
        -- intros (k & s & H & Hp & Hf). exists (S k), s.
           cbn [nth_error firstn forallb]. rewrite Ew, Ep. auto.
        -- intros ([|k] & s & H & Hp & Hf).
           ++ cbn in H. apply some_inj in H. subst s.
              apply isPieceOf_parts in Hp. destruct Hp as (Hp & _). congruence.
           ++ exists k, s. cbn [nth_error firstn forallb] in *.
              rewrite Ew, Ep in Hf. auto.
Qed.

Lemma lancerHits_iff l :
  lancerHits p us l = true <->
  exists k s, nth_error l k = Some s /\
              isPieceOf us Lancer (at_ p s) = true /\
              forallb (fun u => passL us (at_ p u)) (firstn k l) = true.
Proof.
  induction l as [|u rest IH]; cbn [lancerHits].
  - split; [discriminate|]. intros (k & s & H & _). destruct k; discriminate.
  - cbv zeta. unfold passL in *.
    destruct (isWallVal (at_ p u)) eqn:Ew.
    + split; [discriminate|]. intros ([|k] & s & H & Hp & Hf).
      * cbn in H. apply some_inj in H. subst s.
        apply isPieceOf_parts in Hp. destruct Hp as (Hp & _).
        apply piece_not_wall in Hp. congruence.
      * cbn [firstn forallb] in Hf. rewrite Ew in Hf. discriminate.
    + destruct (isPieceVal (at_ p u)) eqn:Ep; cbn [negb andb orb].
      * destruct (color_eqb (colorOf (at_ p u)) us) eqn:Ec; cbn [andb].
        -- destruct (piece_eqb (pieceOf (at_ p u)) Lancer) eqn:El.
           ++ split.
              ** intros _. exists 0%nat, u. split; [reflexivity|].
                 split; [|reflexivity]. unfold isPieceOf. now rewrite Ep, Ec, El.
              ** reflexivity.
           ++ destruct (piece_eqb (pieceOf (at_ p u)) Mason) eqn:Em.
              ** rewrite IH. split.
                 --- intros (k & s & H & Hp & Hf). exists (S k), s.
                     cbn [nth_error firstn forallb]. rewrite Ew, Ep, Ec, Em. auto.
                 --- intros ([|k] & s & H & Hp & Hf).
                     +++ cbn in H. apply some_inj in H. subst s.
                         unfold isPieceOf in Hp. rewrite Ep, Ec, El in Hp.
                         discriminate.
                     +++ exists k, s. cbn [nth_error firstn forallb] in *.
                         rewrite Ew, Ep, Ec, Em in Hf. auto.
              ** split; [discriminate|].
                 intros ([|k] & s & H & Hp & Hf).
                 --- cbn in H. apply some_inj in H. subst s.
                     unfold isPieceOf in Hp. rewrite Ep, Ec, El in Hp.
                     discriminate.
                 --- cbn [firstn forallb] in Hf. rewrite Ew, Ep, Ec, Em in Hf.
                     discriminate.
        -- split; [discriminate|].
           intros ([|k] & s & H & Hp & Hf).
           ++ cbn in H. apply some_inj in H. subst s.
              unfold isPieceOf in Hp. rewrite Ep, Ec in Hp. discriminate.
           ++ cbn [firstn forallb] in Hf. rewrite Ew, Ep, Ec in Hf. discriminate.
      * rewrite IH. split.
        -- intros (k & s & H & Hp & Hf). exists (S k), s.
           cbn [nth_error firstn forallb]. rewrite Ew, Ep. auto.
        -- intros ([|k] & s & H & Hp & Hf).
           ++ cbn in H. apply some_inj in H. subst s.
              apply isPieceOf_parts in Hp. destruct Hp as (Hp & _). congruence.
           ++ exists k, s. cbn [nth_error firstn forallb] in *.
              rewrite Ew, Ep in Hf. auto.
Qed.

(** The Minister or Sovereign of [us] on [s] reaches [dist] squares. *)
Definition courtReach (s dist : Z) : Prop :=
  (isPieceOf us Minister (at_ p s) = true /\ dist <= ministerMoveRange p s us)
  \/ (isPieceOf us Sovereign (at_ p s) = true /\ dist <= sovereignMoveRange p s us).

Lemma courtHits_iff l : forall step,
  courtHits p us l step = true <->
  exists k s, nth_error l k = Some s /\
              forallb (fun u => passC (at_ p u)) (firstn k l) = true /\
              courtReach s (step + Z.of_nat k + 1).
Proof.
  induction l as [|u rest IH]; intros step; cbn [courtHits].
  - split; [discriminate|]. intros (k & s & H & _). destruct k; discriminate.
  - cbv zeta. unfold passC in *.
    destruct (isWallVal (at_ p u)) eqn:Ew.
    + split; [discriminate|]. intros ([|k] & s & H & Hf & Hr).
      * cbn in H. apply some_inj in H. subst s.
        assert (Hp : isPieceVal (at_ p u) = true).
        { destruct Hr as [[Hr _]|[Hr _]];
            apply isPieceOf_parts in Hr; apply Hr. }
        apply piece_not_wall in Hp. congruence.
      * cbn [firstn forallb] in Hf. rewrite Ew in Hf. discriminate.
    + destruct (isPieceVal (at_ p u)) eqn:Ep.
      * assert (Hhead : forall k s,
                  nth_error (u :: rest) k = Some s ->
                  forallb (fun u0 => negb (isWallVal (at_ p u0))
                                     && negb (isPieceVal (at_ p u0)))
                          (firstn k (u :: rest)) = true ->
                  k = 0%nat /\ s = u).
        { intros [|k] s H Hf.
          - cbn in H. apply some_inj in H. auto.
          - cbn [firstn forallb] in Hf. rewrite Ew, Ep in Hf. discriminate. }
        unfold courtReach, isPieceOf. split.
        -- intros H. exists 0%nat, u. split; [reflexivity|]. split; [reflexivity|].
           rewrite Ep. cbn [andb Z.of_nat]. rewrite Z.add_0_r.
           destruct (color_eqb (colorOf (at_ p u)) us); [|discriminate].
           cbn [andb].
           destruct (piece_eqb (pieceOf (at_ p u)) Minister) eqn:Em.
           ++ left. split; [reflexivity|]. now apply Z.leb_le.
           ++ destruct (piece_eqb (pieceOf (at_ p u)) Sovereign) eqn:Es;
                [|discriminate].
              right. split; [reflexivity|]. now apply Z.leb_le.
        -- intros (k & s & H & Hf & Hr).
           destruct (Hhead k s H Hf) as [-> ->].
           cbn [Z.of_nat] in Hr. rewrite Z.add_0_r in Hr.
           rewrite Ep in Hr. cbn [andb] in Hr.
           destruct (color_eqb (colorOf (at_ p u)) us);
             [|destruct Hr as [[Hr _]|[Hr _]]; discriminate].
           cbn [andb] in Hr.
           destruct (piece_eqb (pieceOf (at_ p u)) Minister) eqn:Em.
           ++ destruct Hr as [[_ Hr]|[Hr _]]; [now apply Z.leb_le|].
              apply piece_eqb_true in Em, Hr. congruence.
           ++ destruct Hr as [[Hr _]|[Hr Hd]]; [discriminate|].
              rewrite Hr. now apply Z.leb_le.
      * rewrite IH. split.
        -- intros (k & s & H & Hf & Hr). exists (S k), s.
           cbn [nth_error firstn forallb]. rewrite Ew, Ep.
           split; [exact H|]. split; [exact Hf|].
           replace (step + Z.of_nat (S k) + 1) with (step + 1 + Z.of_nat k + 1) by lia.
           exact Hr.
        -- intros ([|k] & s & H & Hf & Hr).
           ++ cbn in H. apply some_inj in H. subst s.
              assert (Hp : isPieceVal (at_ p u) = true).
              { destruct Hr as [[Hr _]|[Hr _]];
                  apply isPieceOf_parts in Hr; apply Hr. }
              congruence.
           ++ exists k, s. cbn [nth_error firstn forallb] in *.
              rewrite Ew, Ep in Hf.
              split; [exact H|]. split; [exact Hf|].
              replace (step + 1 + Z.of_nat k + 1) with (step + Z.of_nat (S k) + 1) by lia.
              exact Hr.
Qed.

End Walkers.
(** ** From marks to hits *)

Lemma markAll_test sqs : forall bb t,
  (forall s, In s sqs -> 0 <= s < 81) -> 0 <= t < 81 ->
  (bb_test (markAll sqs bb) t = true <-> bb_test bb t = true \/ In t sqs).
Proof.
  unfold markAll. induction sqs as [|s sqs IH]; intros bb t Hr Ht; cbn [fold_left].
  - cbn [In]. tauto.
  - rewrite IH by (auto; intros x Hx; apply Hr; now right).
    rewrite bb_test_set by (auto; apply Hr; now left).
    rewrite orb_true_iff, Z.eqb_eq. cbn [In]. intuition congruence.
Qed.

Lemma bb_test_zero t : bb_test bb_zero t = false.
Proof.
  unfold bb_test, bb_zero. cbn [lo hi].
  repeat match goal with |- context [if ?c then _ else _] => destruct c end;
    rewrite ?Z.shiftr_0_l, ?Z.land_0_l; reflexivity.
Qed.

Lemma pieces_In p us pt s :
  WF p ->
  (In s (bb_squares (pieceBB p us pt)) <->
   inBoard s /\ isPieceOf us pt (at_ p s) = true).
Proof.
  intros [Hb Hok]. destruct (Hok us) as (H1 & _). destruct (H1 pt) as [W T].
  rewrite bb_squares_In by exact W. unfold inBoard, at_.
  split; intros [Hr Ht]; (split; [exact Hr|]); [rewrite <- T|rewrite T]; auto.
Qed.

Lemma nth_error_firstn_iff {A} (l : list A) n k x :
  nth_error (firstn n l) k = Some x <-> (k < n)%nat /\ nth_error l k = Some x.
Proof.
  revert n k. induction l as [|a l IH]; intros n k.
  - rewrite firstn_nil. destruct k; cbn; split; try discriminate; intros [_ H];
      discriminate.
  - destruct n as [|n]; cbn [firstn].
    + destruct k; cbn; split; try discriminate; intros [H _]; lia.
    + destruct k as [|k]; cbn [nth_error].
      * split; [intros H; split; [lia|exact H]|intros [_ H]; exact H].
      * rewrite IH. split; intros [H1 H2]; (split; [lia|exact H2]).
Qed.

Lemma firstn_firstn_le {A} (l : list A) n k :
  (k <= n)%nat -> firstn k (firstn n l) = firstn k l.
Proof. intros H. rewrite firstn_firstn. f_equal. lia. Qed.

Lemma forallb_rev {A} (f : A -> bool) l : forallb f (rev l) = forallb f l.
Proof.
  apply eq_true_iff_eq. rewrite !forallb_forall.
  split; intros H x Hx; apply H;
    [exact (proj1 (in_rev l x) Hx)|exact (proj2 (in_rev l x) Hx)].
Qed.

(** A clear way out is a clear way back. *)
Lemma ray_dual (pass : Z -> bool) s dir k t :
  inBoard s -> (dir < 8)%nat ->
  nth_error (ray s dir) k = Some t ->
  forallb pass (firstn k (ray s dir)) = true ->
  inBoard t /\ nth_error (ray t (opp dir)) k = Some s /\
  forallb pass (firstn k (ray t (opp dir))) = true.
Proof.
  intros Hs Hd Hn Hf.
  destruct (ray_reverse s dir k t Hs Hd Hn) as (Ht & Hb & E).
  split; [exact Ht|]. split; [exact Hb|]. now rewrite E, forallb_rev.
Qed.

Lemma in_seq_lt lo n d : In d (seq lo n) <-> (lo <= d < lo + n)%nat.
Proof. apply in_seq. Qed.

Section Views.

Variable p : Position.
Variable us : Color.
Hypothesis Hwf : WF p.

Variable t : Z.
Hypothesis Ht : inBoard t.

(** Sliders: some piece of kind [pt] on a ray of the range [lo, lo+n),
    with the way clear for [pass]. *)
Lemma slider_views (pass : Z -> bool) (pt : PieceType) (lo n : nat) :
  (forall d, (lo <= d < lo + n)%nat -> (lo <= opp d < lo + n)%nat) ->
  (lo + n <= 8)%nat ->
  forall (okS okT : Z -> nat -> Prop),
  (forall s k, okS s k <-> okT s k) ->
  (exists s, (inBoard s /\ isPieceOf us pt (at_ p s) = true) /\
     exists d, In d (seq lo n) /\
       exists k, nth_error (ray s d) k = Some t /\ okS s k /\
                 forallb pass (firstn k (ray s d)) = true)
  <->
  (exists d, In d (seq lo n) /\
     exists k s, nth_error (ray t d) k = Some s /\
                 (isPieceOf us pt (at_ p s) = true /\ okT s k) /\
                 forallb pass (firstn k (ray t d)) = true).
Proof.
  intros Hopp H8 okS okT Hok. split.
  - intros (s & (Hs & Hp) & d & Hd & k & Hn & Ho & Hf).
    apply in_seq in Hd.
    destruct (ray_dual pass s d k t Hs ltac:(lia) Hn Hf) as (_ & Hb & Hf').
    exists (opp d). split; [apply in_seq; now apply Hopp|].
    exists k, s. split; [exact Hb|]. split; [|exact Hf'].
    split; [exact Hp|now apply Hok].
  - intros (d & Hd & k & s & Hn & (Hp & Ho) & Hf).
    apply in_seq in Hd.
    destruct (ray_dual pass t d k s Ht ltac:(lia) Hn Hf) as (Hs & Hb & Hf').
    exists s. split; [split; assumption|].
    exists (opp d). split; [apply in_seq; now apply Hopp|].
    exists k. split; [exact Hb|]. split; [now apply Hok|exact Hf'].
Qed.

End Views.
(** ** The marks of [computeAttacks], kind by kind *)

Definition marksMason (p : Position) (us : Color) : list Z :=
  flat_map (fun s =>
    flat_map (fun dc =>
      let rr := row s + forwardOf us in
      let cc := col s + dc in
      if negb (inBounds rr cc) then []
      else if isWallVal (at_ p (sq rr cc)) then []
      else [sq rr cc]) [-1; 1])
    (bb_squares (pieceBB p us Mason)).

Definition marksPegasus (p : Position) (us : Color) : list Z :=
  flat_map (fun s =>
    filter (fun tsq => negb (isWallVal (at_ p tsq))) (knightTargets s))
    (bb_squares (pieceBB p us Pegasus)).

Definition marksCatapult (p : Position) (us : Color) : list Z :=
  flat_map (fun s => flat_map (fun dir => sliderMarks p (ray s dir)) (seq 0 4))
    (bb_squares (pieceBB p us Catapult)).

Definition marksLancer (p : Position) (us : Color) : list Z :=
  flat_map (fun s => flat_map (fun dir => lancerMarks p us (ray s dir)) (seq 4 4))
    (bb_squares (pieceBB p us Lancer)).

Definition marksMinister (p : Position) (us : Color) : list Z :=
  flat_map (fun s =>
    let max := 2 + (if hasDominance p us && isKeepSq s then 1 else 0) in
    flat_map (fun dir => sliderMarks p (firstn (Z.to_nat max) (ray s dir))) (seq 0 8))
    (bb_squares (pieceBB p us Minister)).

Definition marksSovereign (p : Position) (us : Color) : list Z :=
  flat_map (fun s =>
    let max := 1 + (if hasDominance p us && isKeepSq s then 1 else 0) in
    flat_map (fun dir => sliderMarks p (firstn (Z.to_nat max) (ray s dir))) (seq 0 8))
    (bb_squares (pieceBB p us Sovereign)).

Lemma computeAttacks_marks p us :
  computeAttacks p us
  = let a5 :=
      markAll (marksMinister p us)
        (markAll (marksLancer p us)
          (markAll (marksCatapult p us)
            (markAll (marksPegasus p us)
              (markAll (marksMason p us) bb_zero)))) in
    if wallTokens p us <=? 15 then markAll (marksSovereign p us) a5 else a5.
Proof. reflexivity. Qed.

Lemma sliderMarks_sub p l t : In t (sliderMarks p l) -> In t l.
Proof.
  intros H. apply sliderMarks_In in H. destruct H as (k & H & _).
  eapply nth_error_In; eauto.
Qed.

Lemma lancerMarks_sub p us l t : In t (lancerMarks p us l) -> In t l.
Proof.
  intros H. apply lancerMarks_In in H. destruct H as (k & H & _).
  eapply nth_error_In; eauto.
Qed.

Lemma In_firstn_sub {A} n (l : list A) x : In x (firstn n l) -> In x l.
Proof. apply In_firstn. Qed.

Lemma marks_range p us t :
  In t (marksMason p us) \/ In t (marksPegasus p us) \/ In t (marksCatapult p us)
  \/ In t (marksLancer p us) \/ In t (marksMinister p us)
  \/ In t (marksSovereign p us) ->
  0 <= t < 81.
Proof.
  unfold marksMason, marksPegasus, marksCatapult, marksLancer, marksMinister,
    marksSovereign.
  rewrite !in_flat_map.
  intros [(s & _ & H)|[(s & _ & H)|[(s & _ & H)|[(s & _ & H)|[(s & _ & H)|(s & _ & H)]]]]].
  - apply in_flat_map in H. destruct H as (dc & _ & H). cbv zeta in H.
    destruct (inBounds _ _) eqn:Eb; cbn [negb] in H; [|destruct H].
    destruct (isWallVal _); [destruct H|]. destruct H as [<-|[]].
    now apply sq_range.
  - apply filter_In in H. destruct H as [H _]. eapply knightTargets_range; eauto.
  - apply in_flat_map in H. destruct H as (d & _ & H).
    apply sliderMarks_sub in H. eapply ray_range; eauto.
  - apply in_flat_map in H. destruct H as (d & _ & H).
    apply lancerMarks_sub in H. eapply ray_range; eauto.
  - cbv zeta in H. apply in_flat_map in H. destruct H as (d & _ & H).
    apply sliderMarks_sub, In_firstn_sub in H. eapply ray_range; eauto.
  - cbv zeta in H. apply in_flat_map in H. destruct H as (d & _ & H).
    apply sliderMarks_sub, In_firstn_sub in H. eapply ray_range; eauto.
Qed.

Lemma computeAttacks_In p us t :
  0 <= t < 81 ->
  (bb_test (computeAttacks p us) t = true <->
   In t (marksMason p us) \/ In t (marksPegasus p us) \/ In t (marksCatapult p us)
   \/ In t (marksLancer p us) \/ In t (marksMinister p us)
   \/ (wallTokens p us <= 15 /\ In t (marksSovereign p us))).
Proof.
  intros Ht. rewrite computeAttacks_marks. cbv zeta.
  assert (R : forall x,
            In x (marksMason p us) \/ In x (marksPegasus p us)
            \/ In x (marksCatapult p us) \/ In x (marksLancer p us)
            \/ In x (marksMinister p us) \/ In x (marksSovereign p us) ->
            0 <= x < 81) by apply marks_range.
  destruct (Z.leb_spec (wallTokens p us) 15) as [Hle|Hgt].
  - rewrite !markAll_test by (auto 10).
    rewrite bb_test_zero. intuition discriminate.
  - rewrite !markAll_test by (auto 10).
    rewrite bb_test_zero. intuition (try discriminate; lia).
Qed.
(** ** Marks and hits agree *)

Section Agreement.

Variable p : Position.
Variable us : Color.
Hypothesis Hwf : WF p.
Variable t : Z.
Hypothesis Ht : inBoard t.

Lemma mason_marks_hits :
  In t (marksMason p us) <->
  isWallVal (at_ p t) = false /\
  exists s, In s (masonSources us t) /\ isPieceOf us Mason (at_ p s) = true.
Proof.
  unfold marksMason. rewrite in_flat_map.
  assert (Hin : forall s,
            In t (flat_map (fun dc =>
                   let rr := row s + forwardOf us in
                   let cc := col s + dc in
                   if negb (inBounds rr cc) then []
                   else if isWallVal (at_ p (sq rr cc)) then []
                   else [sq rr cc]) [-1; 1])
            <-> In t (masonTargets us s) /\ isWallVal (at_ p t) = false).
  { intros s. unfold masonTargets. rewrite !in_flat_map. split.
    - intros (dc & Hdc & H). cbv zeta in H.
      destruct (inBounds _ _) eqn:Eb; cbn [negb] in H; [|destruct H].
      destruct (isWallVal _) eqn:Ew; [destruct H|]. destruct H as [<-|[]].
      split; [|exact Ew]. exists dc. split; [exact Hdc|].
      rewrite Eb. now left.
    - intros [(dc & Hdc & H) Hw]. exists dc. split; [exact Hdc|]. cbv zeta.
      destruct (inBounds _ _) eqn:Eb; cbn [negb] in *; [|destruct H].
      destruct H as [<-|[]]. rewrite Hw. now left. }
  split.
  - intros (s & Hs & H). apply (pieces_In p us Mason s Hwf) in Hs.
    destruct Hs as [Hs Hp]. apply Hin in H. destruct H as [H Hw].
    split; [exact Hw|]. exists s. split; [now apply mason_sym|exact Hp].
  - intros [Hw (s & Hs & Hp)].
    assert (Hb : inBoard s) by (eapply masonSources_range; eauto).
    exists s. split; [apply (pieces_In p us Mason s Hwf); auto|].
    apply Hin. split; [now apply mason_sym|exact Hw].
Qed.

Lemma pegasus_marks_hits :
  In t (marksPegasus p us) <->
  isWallVal (at_ p t) = false /\
  existsb (fun from => isPieceOf us Pegasus (at_ p from)) (knightTargets t) = true.
Proof.
  unfold marksPegasus. rewrite in_flat_map, existsb_exists. split.
  - intros (s & Hs & H). apply (pieces_In p us Pegasus s Hwf) in Hs.
    destruct Hs as [Hs Hp]. apply filter_In in H. destruct H as [H Hw].
    apply negb_true_iff in Hw. split; [exact Hw|].
    exists s. split; [now apply knight_sym|exact Hp].
  - intros [Hw (s & Hs & Hp)].
    assert (Hb : inBoard s) by (eapply knightTargets_range; eauto).
    exists s. split; [apply (pieces_In p us Pegasus s Hwf); auto|].
    apply filter_In. split; [now apply knight_sym|]. now rewrite Hw.
Qed.

Lemma opp_rook d : (0 <= d < 0 + 4)%nat -> (0 <= opp d < 0 + 4)%nat.
Proof. intros H. pose proof (opp_range d). lia. Qed.

Lemma opp_bishop d : (4 <= d < 4 + 4)%nat -> (4 <= opp d < 4 + 4)%nat.
Proof. intros H. pose proof (opp_range d). lia. Qed.

Lemma opp_any d : (0 <= d < 0 + 8)%nat -> (0 <= opp d < 0 + 8)%nat.
Proof. intros H. pose proof (opp_range d). lia. Qed.

Lemma catapult_marks_hits :
  In t (marksCatapult p us) <->
  isWallVal (at_ p t) = false /\
  existsb (fun dir => catapultHits p us (ray t dir)) (seq 0 4) = true.
Proof.
  pose proof (slider_views p us t Ht (fun u => passC (at_ p u)) Catapult 0 4
                opp_rook ltac:(lia) (fun _ _ => True) (fun _ _ => True)
                (fun _ _ => iff_refl _)) as V.
  unfold marksCatapult. rewrite in_flat_map, existsb_exists. split.
  - intros (s & Hs & H). apply (pieces_In p us Catapult s Hwf) in Hs.
    apply in_flat_map in H. destruct H as (d & Hd & H).
    apply sliderMarks_In in H. destruct H as (k & Hn & Hw & Hf).
    split; [exact Hw|].
    destruct (proj1 V) as (d' & Hd' & k' & s' & Hn' & (Hp' & _) & Hf').
    { exists s. split; [exact Hs|]. exists d. split; [exact Hd|].
      exists k. auto. }
    exists d'. split; [exact Hd'|]. apply catapultHits_iff. exists k', s'. auto.
  - intros [Hw (d & Hd & H)].
    apply catapultHits_iff in H. destruct H as (k & s & Hn & Hp & Hf).
    destruct (proj2 V) as (s' & Hs' & d' & Hd' & k' & Hn' & _ & Hf').
    { exists d. split; [exact Hd|]. exists k, s. auto. }
    exists s'. split; [apply (pieces_In p us Catapult s' Hwf); exact Hs'|].
    apply in_flat_map. exists d'. split; [exact Hd'|].
    apply sliderMarks_In. exists k'. auto.
Qed.

Lemma lancer_marks_hits :
  In t (marksLancer p us) <->
  isWallVal (at_ p t) = false /\
  existsb (fun dir => lancerHits p us (ray t dir)) (seq 4 4) = true.
Proof.
  pose proof (slider_views p us t Ht (fun u => passL us (at_ p u)) Lancer 4 4
                opp_bishop ltac:(lia) (fun _ _ => True) (fun _ _ => True)
                (fun _ _ => iff_refl _)) as V.
  unfold marksLancer. rewrite in_flat_map, existsb_exists. split.
  - intros (s & Hs & H). apply (pieces_In p us Lancer s Hwf) in Hs.
    apply in_flat_map in H. destruct H as (d & Hd & H).
    apply lancerMarks_In in H. destruct H as (k & Hn & Hw & Hf).
    split; [exact Hw|].
    destruct (proj1 V) as (d' & Hd' & k' & s' & Hn' & (Hp' & _) & Hf').
    { exists s. split; [exact Hs|]. exists d. split; [exact Hd|].
      exists k. auto. }
    exists d'. split; [exact Hd'|]. apply lancerHits_iff. exists k', s'. auto.
  - intros [Hw (d & Hd & H)].
    apply lancerHits_iff in H. destruct H as (k & s & Hn & Hp & Hf).
    destruct (proj2 V) as (s' & Hs' & d' & Hd' & k' & Hn' & _ & Hf').
    { exists d. split; [exact Hd|]. exists k, s. auto. }
    exists s'. split; [apply (pieces_In p us Lancer s' Hwf); exact Hs'|].
    apply in_flat_map. exists d'. split; [exact Hd'|].
    apply lancerMarks_In. exists k'. auto.
Qed.

(** A court piece of kind [pt] whose range on [s] is [range s]. *)
Lemma court_marks (pt : PieceType) (range : Z -> Z) :
  (exists s, In s (bb_squares (pieceBB p us pt)) /\
     In t (flat_map (fun dir =>
             sliderMarks p (firstn (Z.to_nat (range s)) (ray s dir))) (seq 0 8)))
  <->
  isWallVal (at_ p t) = false /\
  exists d, In d (seq 0 8) /\
    exists k s, nth_error (ray t d) k = Some s /\
      (isPieceOf us pt (at_ p s) = true /\ Z.of_nat k + 1 <= range s) /\
      forallb (fun u => passC (at_ p u)) (firstn k (ray t d)) = true.
Proof.
  assert (Hok : forall s k,
            (k < Z.to_nat (range s))%nat <-> Z.of_nat k + 1 <= range s)
    by (intros; lia).
  pose proof (slider_views p us t Ht (fun u => passC (at_ p u)) pt 0 8
                opp_any ltac:(lia)
                (fun s k => (k < Z.to_nat (range s))%nat)
                (fun s k => Z.of_nat k + 1 <= range s) Hok) as V.
  split.
  - intros (s & Hs & H). apply (pieces_In p us pt s Hwf) in Hs.
    apply in_flat_map in H. destruct H as (d & Hd & H).
    apply sliderMarks_In in H. destruct H as (k & Hn & Hw & Hf).
    apply nth_error_firstn_iff in Hn. destruct Hn as [Hk Hn].
    rewrite firstn_firstn_le in Hf by lia.
    split; [exact Hw|]. apply V.
    exists s. split; [exact Hs|]. exists d. split; [exact Hd|]. exists k. auto.
  - intros [Hw H]. apply V in H.
    destruct H as (s & Hs & d & Hd & k & Hn & Hk & Hf).
    exists s. split; [apply (pieces_In p us pt s Hwf); exact Hs|].
    apply in_flat_map. exists d. split; [exact Hd|].
    apply sliderMarks_In. exists k.
    split; [apply nth_error_firstn_iff; auto|]. split; [exact Hw|].
    rewrite firstn_firstn_le by lia. exact Hf.
Qed.

Lemma court_marks_hits :
  In t (marksMinister p us)
  \/ (wallTokens p us <= 15 /\ In t (marksSovereign p us))
  <->
  isWallVal (at_ p t) = false /\
  existsb (fun dir => courtHits p us (firstn 3 (ray t dir)) 0) (seq 0 8) = true.
Proof.
  pose proof (court_marks Minister (fun s => ministerMoveRange p s us)) as VM.
  pose proof (court_marks Sovereign
                (fun s => 1 + (if hasDominance p us && isKeepSq s then 1 else 0)))
    as VS.
  unfold marksMinister, marksSovereign. rewrite !in_flat_map. cbv zeta.
  unfold ministerMoveRange in VM. cbv zeta in VM.
  rewrite VM, VS. clear VM VS.
  rewrite existsb_exists.
  assert (Hsov : forall s k,
            wallTokens p us <= 15 /\
            Z.of_nat k + 1 <= 1 + (if hasDominance p us && isKeepSq s then 1 else 0)
            <-> Z.of_nat k + 1 <= sovereignMoveRange p s us).
  { intros s k. unfold sovereignMoveRange. cbv zeta.
    destruct (Z.ltb_spec 15 (wallTokens p us)); [|lia].
    split; [intros [H1 _]; lia|intros H1; lia]. }
  split.
  - intros [[Hw (d & Hd & k & s & Hn & (Hp & Hk) & Hf)]
           |[Hle [Hw (d & Hd & k & s & Hn & (Hp & Hk) & Hf)]]];
      (split; [exact Hw|]); exists d; (split; [exact Hd|]);
      apply courtHits_iff; exists k, s.
    + assert (k < 3)%nat by (destruct (_ && _); lia).
      split; [apply nth_error_firstn_iff; auto|].
      split; [rewrite firstn_firstn_le by lia; exact Hf|].
      left. split; [exact Hp|]. unfold ministerMoveRange. cbv zeta. lia.
    + assert (k < 3)%nat by (destruct (_ && _); lia).
      split; [apply nth_error_firstn_iff; auto|].
      split; [rewrite firstn_firstn_le by lia; exact Hf|].
      right. split; [exact Hp|]. apply Hsov. split; [exact Hle|]. lia.
  - intros [Hw (d & Hd & H)].
    apply courtHits_iff in H. destruct H as (k & s & Hn & Hf & Hr).
    apply nth_error_firstn_iff in Hn. destruct Hn as [Hk Hn].
    rewrite firstn_firstn_le in Hf by lia.
    destruct Hr as [[Hp Hr]|[Hp Hr]].
    + left. split; [exact Hw|]. exists d. split; [exact Hd|].
      exists k, s. split; [exact Hn|]. split; [|exact Hf].
      split; [exact Hp|]. unfold ministerMoveRange in Hr. cbv zeta in Hr. lia.
    + replace (0 + Z.of_nat k + 1) with (Z.of_nat k + 1) in Hr by lia.
      apply Hsov in Hr. destruct Hr as [Hle Hr].
      right. split; [exact Hle|]. split; [exact Hw|].
      exists d. split; [exact Hd|].
      exists k, s. split; [exact Hn|]. split; [|exact Hf]. auto.
Qed.

Lemma byMason_sources :
  (let r := row t in
   let c := col t in
   let f := forwardOf us in
   let mr := r - f in
   if (0 <=? mr) && (mr <? N) then
     (let c1 := c - 1 in
      if 0 <=? c1 then isPieceOf us Mason (at_ p (sq mr c1)) else false)
     || (let c2 := c + 1 in
         if c2 <? N then isPieceOf us Mason (at_ p (sq mr c2)) else false)
   else false) = true
  <-> exists s, In s (masonSources us t) /\ isPieceOf us Mason (at_ p s) = true.
Proof.
  unfold masonSources. cbv zeta.
  destruct ((0 <=? row t - forwardOf us) && (row t - forwardOf us <? N)).
  - rewrite orb_true_iff. split.
    + intros [H|H].
      * destruct (0 <=? col t - 1); [|discriminate].
        eexists. split; [apply in_or_app; left; left; reflexivity|exact H].
      * destruct (col t + 1 <? N); [|discriminate].
        eexists. split; [apply in_or_app; right; left; reflexivity|exact H].
    + intros (s & Hin & Hp). apply in_app_or in Hin. destruct Hin as [Hin|Hin].
      * destruct (0 <=? col t - 1); [|destruct Hin].
        destruct Hin as [<-|[]]. now left.
      * destruct (col t + 1 <? N); [|destruct Hin].
        destruct Hin as [<-|[]]. now right.
  - split; [discriminate|]. intros (s & [] & _).
Qed.

Lemma isSquareAttackedBy_hits :
  isSquareAttackedBy p us t = true <->
  isWallVal (at_ p t) = false /\
  ((exists s, In s (masonSources us t) /\ isPieceOf us Mason (at_ p s) = true)
   \/ existsb (fun from => isPieceOf us Pegasus (at_ p from)) (knightTargets t) = true
   \/ existsb (fun dir => catapultHits p us (ray t dir)) (seq 0 4) = true
   \/ existsb (fun dir => lancerHits p us (ray t dir)) (seq 4 4) = true
   \/ existsb (fun dir => courtHits p us (firstn 3 (ray t dir)) 0) (seq 0 8) = true).
Proof.
  rewrite <- byMason_sources.
  unfold isSquareAttackedBy.
  rewrite (inBoard_not_none t Ht).
  destruct (isWallVal (at_ p t)); [split; [discriminate|intros [H _]; discriminate]|].
  cbv zeta.
  repeat match goal with
         | |- (if ?c then true else _) = true <-> _ =>
             destruct c; [intuition auto|]
         end.
  intuition (auto; try discriminate).
Qed.

Lemma attack_views :
  bb_test (computeAttacks p us) t = isSquareAttackedBy p us t.
Proof.
  apply eq_true_iff_eq.
  rewrite (computeAttacks_In p us t Ht), isSquareAttackedBy_hits.
  pose proof mason_marks_hits as M. pose proof pegasus_marks_hits as P.
  pose proof catapult_marks_hits as C. pose proof lancer_marks_hits as L.
  pose proof court_marks_hits as K.
  tauto.
Qed.

End Agreement.

(** X23. The two attack detectors agree: on a well-formed position the
    squares [computeAttacks] marks for a colour are exactly the board
    squares of which [isSquareAttackedBy] says that the colour attacks
    them. *)
Theorem computeAttacks_isSquareAttackedBy (p : Position) (us : Color) (t : Z) :
  WF p -> inBoard t ->
  bb_test (computeAttacks p us) t = isSquareAttackedBy p us t.
Proof. intros W Ht. now apply attack_views. Qed.

Lemma computeAttacks_isSquareAttackedBy_witness :
  let p := positionOf "4s4/2W1l4/3m5/2L1M4/3ISC3/2w1R1p2/4P4/1c2i4/4S4 w Bb - 0 1" in
  WF p /\ inBoard 40 /\
  bb_test (computeAttacks p Black) 40 = true /\
  isSquareAttackedBy p Black 40 = true.
Proof.
  cbv zeta.
  set (p := positionOf "4s4/2W1l4/3m5/2L1M4/3ISC3/2w1R1p2/4P4/1c2i4/4S4 w Bb - 0 1").
  assert (W : WF p) by (apply WFb_sound; vm_compute; reflexivity).
  assert (I : inBoard 40) by (unfold inBoard; lia).
  split; [exact W|]. split; [exact I|].
  assert (E : isSquareAttackedBy p Black 40 = true) by (vm_compute; reflexivity).
  split; [|exact E].
  rewrite (computeAttacks_isSquareAttackedBy p Black 40 W I). exact E.
Defined.

(** ** Mason construction *)

Lemma masonLoop_In p us ea sqs s m :
  WF p ->
  (forall s, In s sqs -> inBoard s /\ isPieceOf us Mason (at_ p s) = true) ->
  In s sqs -> In m (snd (genMasonExtras p s us ea)) ->
  In m (snd (masonLoop p us ea sqs)).
Proof.
  intros Hwf. induction sqs as [|s0 sqs IH]; intros Hs Hin Hm.
  - destruct Hin.
  - cbn [masonLoop]. cbv zeta.
    destruct (Hs s0 (or_introl eq_refl)) as [Hb Hp].
    destruct (genMasonExtras_ok p s0 us ea Hwf Hb Hp) as [E1 _].
    assert (I : In s sqs -> In m (snd (masonLoop p us ea sqs))).
    { intros H. apply IH; auto. intros; apply Hs; now right. }
    destruct Hin as [->|Hin].
    + destruct (genMasonExtras p s us ea) as [p1 extras].
      cbn [fst snd] in *. subst p1.
      destruct (masonLoop p us ea sqs) as [p2 more]. cbn [snd].
      rewrite !in_app_iff. auto.
    + specialize (I Hin).
      destruct (genMasonExtras p s0 us ea) as [p1 extras].
      cbn [fst snd] in *. subst p1.
      destruct (masonLoop p us ea sqs) as [p2 more]. cbn [snd] in *.
      rewrite !in_app_iff. auto.
Qed.

Lemma movesOf_mason_extras p s m :
  WF p -> gameOver p = false -> inBoard s ->
  isPieceOf (turn_ p) Mason (at_ p s) = true ->
  In m (snd (genMasonExtras p s (turn_ p)
               (computeAttacks p (other (turn_ p))))) ->
  In m (movesOf p).
Proof.
  intros Hwf Hg Hs Hp Hm. unfold movesOf, generateMoves. rewrite Hg.
  cbv zeta.
  assert (Hsq : forall s, In s (bb_squares (pieceBB p (turn_ p) Mason)) ->
                  inBoard s /\ isPieceOf (turn_ p) Mason (at_ p s) = true).
  { intros s0. now apply pieceBB_squares. }
  pose proof (masonLoop_In p (turn_ p) (computeAttacks p (other (turn_ p)))
                (bb_squares (pieceBB p (turn_ p) Mason)) s m Hwf Hsq
                (pieceBB_squares_conv p _ _ s Hwf Hs Hp) Hm) as I.
  destruct (masonLoop p (turn_ p) _ _) as [p1 masons].
  cbn [snd] in *. rewrite !in_app_iff. auto.
Qed.

Lemma construct_in_extras p s us ea t :
  wallBuiltLast p us = false -> bb_test ea s = false ->
  In t (stepTargets DIRS4 (row s) (col s)) -> at_ p t = 0 ->
  In (mkMove MasonConstruct s t SQ_NONE SQ_NONE)
     (snd (genMasonExtras p s us ea)).
Proof.
  intros Hw Ha Ht He. unfold genMasonExtras. cbv zeta.
  rewrite Hw, Ha. cbn [negb andb].
  match goal with |- context [flat_map ?f DIRS4] => set (cons := flat_map f DIRS4) end.
  assert (Hc : In (mkMove MasonConstruct s t SQ_NONE SQ_NONE) cons).
  { unfold cons. apply in_flat_map.
    apply stepTargets_In in Ht. destruct Ht as (d & Hd & Hb & ->).
    exists d. split; [exact Hd|]. cbv zeta. rewrite Hb, He. cbn. auto. }
  clearbody cons.
  match goal with |- In _ (snd (if ?c then _ else _)) => destruct c end.
  - exact Hc.
  - match goal with |- context [commandLoop p s us ?cb ?w ?l] =>
      destruct (commandLoop p s us cb w l) as [p1 orth] end.
    match goal with |- context [commandLoop p1 s us ?cb ?w ?l] =>
      destruct (commandLoop p1 s us cb w l) as [p2 diag] end.
    cbn [snd]. rewrite in_app_iff. auto.
Qed.

(** The four orthogonal neighbours of a square, by coordinates. *)
Lemma orth_neighbour s t :
  inBoard s ->
  In t (stepTargets DIRS4 (row s) (col s)) <->
  inBoard t /\ Z.abs (row t - row s) + Z.abs (col t - col s) = 1.
Proof.
  intros Hs. rewrite stepTargets_In. split.
  - intros (d & Hd & Hb & ->). destruct (sq_inBounds _ _ Hb) as (_ & Hr & -> & ->).
    split; [exact Hr|].
    cbn [In DIRS4] in Hd.
    destruct Hd as [<-|[<-|[<-|[<-|[]]]]]; cbn [fst snd]; lia.
  - intros [Ht Hd].
    assert (Rs : 0 <= row s < 9 /\ 0 <= col s < 9).
    { unfold inBoard, row, col, N in *. split;
        [split; [apply Z.div_pos; lia|apply Z.div_lt_upper_bound; lia]
        |apply Z.mod_pos_bound; lia]. }
    assert (Rt : 0 <= row t < 9 /\ 0 <= col t < 9).
    { unfold inBoard, row, col, N in *. split;
        [split; [apply Z.div_pos; lia|apply Z.div_lt_upper_bound; lia]
        |apply Z.mod_pos_bound; lia]. }
    assert (Et : t = sq (row t) (col t)).
    { unfold sq, row, col, N. unfold inBoard in Ht.
      rewrite (Z.mul_comm (t / 9) 9), <- Z.div_mod by lia.
      symmetry. apply Z.mod_small. lia. }
    exists (row t - row s, col t - col s). cbn [fst snd].
    replace (row s + (row t - row s)) with (row t) by lia.
    replace (col s + (col t - col s)) with (col t) by lia.
    split; [|split; [|exact Et]].
    + cbn [In DIRS4].
      assert (C : (row t - row s = -1 /\ col t - col s = 0) \/
                  (row t - row s = 1 /\ col t - col s = 0) \/
                  (row t - row s = 0 /\ col t - col s = -1) \/
                  (row t - row s = 0 /\ col t - col s = 1)) by lia.
      destruct C as [[-> ->]|[[-> ->]|[[-> ->]|[-> ->]]]]; auto.
    + unfold inBounds, N.
      rewrite !andb_true_iff, !Z.leb_le, !Z.ltb_lt. lia.
Qed.

(** X24. The Mason Construct actions offered are exactly these: the game
    is running, a Mason of the side to move stands on the origin, that
    side built no wall on its previous turn, the opponent does not attack
    the Mason's square, and the target is an empty orthogonal neighbour;
    the two auxiliary squares are unused. *)
Theorem construct_offered_iff (p : Position) (m : Move) :
  WF p -> m_type m = MasonConstruct ->
  let us := turn_ p in
  In m (movesOf p) <->
  gameOver p = false /\
  m_aux1 m = SQ_NONE /\ m_aux2 m = SQ_NONE /\
  inBoard (m_from m) /\ isPieceOf us Mason (at_ p (m_from m)) = true /\
  wallBuiltLast p us = false /\
  isSquareAttackedBy p (other us) (m_from m) = false /\
  inBoard (m_to m) /\
  Z.abs (row (m_to m) - row (m_from m)) +
  Z.abs (col (m_to m) - col (m_from m)) = 1 /\
  at_ p (m_to m) = 0.
Proof.
  intros W Ht. cbv zeta. split.
  - intros Hin. split; [now apply (movesOf_not_over p m)|].
    revert m Hin Ht.
    apply (movesOf_sites
             (fun m => m_type m = MasonConstruct ->
                m_aux1 m = SQ_NONE /\ m_aux2 m = SQ_NONE /\
                inBoard (m_from m) /\
                isPieceOf (turn_ p) Mason (at_ p (m_from m)) = true /\
                wallBuiltLast p (turn_ p) = false /\
                isSquareAttackedBy p (other (turn_ p)) (m_from m) = false /\
                inBoard (m_to m) /\
                Z.abs (row (m_to m) - row (m_from m)) +
                Z.abs (col (m_to m) - col (m_from m)) = 1 /\
                at_ p (m_to m) = 0) p W);
      cbn [m_type m_from m_to m_aux1 m_aux2 normalMove];
      try (intros; discriminate).
    intros s t Hs Hp Hw Ha Hn He _.
    rewrite (attack_views p (other (turn_ p)) W s Hs) in Ha.
    apply (orth_neighbour s t Hs) in Hn. tauto.
  - intros (Hg & A1 & A2 & Hs & Hp & Hw & Ha & Hb & Hn & He).
    assert (Em : m = mkMove MasonConstruct (m_from m) (m_to m) SQ_NONE SQ_NONE).
    { destruct m as [ty f t a1 a2]. cbn in *. now subst. }
    rewrite Em. apply (movesOf_mason_extras p (m_from m)); auto.
    apply construct_in_extras; auto.
    + now rewrite (attack_views p (other (turn_ p)) W _ Hs).
    + apply orth_neighbour; auto.
Qed.

Lemma construct_offered_iff_witness :
  let p := positionOf "clpisiplc/mmmmmmmmm/9/9/9/9/9/MMMMMMMMM/CLPISIPLC w Bb - 0 1" in
  let m := mkMove MasonConstruct 67 58 SQ_NONE SQ_NONE in
  WF p /\ m_type m = MasonConstruct /\ In m (movesOf p) /\
  isSquareAttackedBy p (other (turn_ p)) (m_from m) = false.
Proof.
  cbv zeta.
  set (p := positionOf "clpisiplc/mmmmmmmmm/9/9/9/9/9/MMMMMMMMM/CLPISIPLC w Bb - 0 1").
  assert (W : WF p) by (apply WFb_sound; vm_compute; reflexivity).
  assert (I : In (mkMove MasonConstruct 67 58 SQ_NONE SQ_NONE) (movesOf p)).
  { vm_compute. repeat (first [left; reflexivity | right]). }
  split; [exact W|]. split; [reflexivity|]. split; [exact I|].
  destruct (proj1 (construct_offered_iff p
              (mkMove MasonConstruct 67 58 SQ_NONE SQ_NONE) W eq_refl) I)
    as (_ & _ & _ & _ & _ & _ & Ha & _).
  exact Ha.
Defined.

(** ** The search's own Zobrist key *)

Ltac xor_bits :=
  apply Z.bits_inj'; intros ? _;
  rewrite ?Z.lxor_spec, ?Z.bits_0; btauto.

Lemma length_upd b s v : List.length (upd b s v) = List.length b.
Proof.
  unfold upd. generalize (Z.to_nat s). revert b.
  induction b as [|x b IH]; intros [|n]; cbn; auto.
Qed.

(** XOR-folds of per-square keys, for any key table. *)
Section KeyFold.

Variable k : Z -> Z -> Z.

Definition keyFold (b : list Z) : Z := cellFold Z.lxor k b allSquares 0.

Lemma keyFold_upd b s v :
  List.length b = 81%nat -> 0 <= s < 81 ->
  keyFold (upd b s v) = Z.lxor (Z.lxor (keyFold b) (k s (cell b s))) (k s v).
Proof.
  intros Hl Hs. unfold keyFold.
  apply (cellFold_upd_in Z.lxor (fun x => x)).
  - apply Z.lxor_assoc.
  - apply Z.lxor_comm.
  - apply lxor_cancel.
  - lia.
  - intros t Ht. apply allSquares_In in Ht. lia.
  - apply allSquares_NoDup.
  - now apply allSquares_In.
Qed.

Lemma keyFold_ext b1 b2 :
  (forall s, inBoard s -> cell b1 s = cell b2 s) -> keyFold b1 = keyFold b2.
Proof.
  intros H. unfold keyFold.
  assert (E : forall l h, (forall s, In s l -> inBoard s) ->
            cellFold Z.lxor k b1 l h = cellFold Z.lxor k b2 l h).
  { unfold cellFold.
    induction l as [|s l IH]; intros h A; cbn [fold_left]; [reflexivity|].
    rewrite (H s) by (apply A; now left).
    apply IH. intros; apply A; now right. }
  apply E. intros s Hs. now apply allSquares_In.
Qed.

(** Replace, for each saved square, the key of the old content by the key
    of the content in [b]. *)
Definition patchKeys (b : list Z) (saved : list (Z * Z)) (h : Z) : Z :=
  fold_left (fun h e =>
    Z.lxor (Z.lxor h (k (fst e) (snd e))) (k (fst e) (cell b (fst e))))
    saved h.

Lemma patchKeys_cons b s v saved h :
  patchKeys b ((s, v) :: saved) h
  = patchKeys b saved (Z.lxor (Z.lxor h (k s v)) (k s (cell b s))).
Proof. reflexivity. Qed.

Lemma patchKeys_shift b saved : forall h x,
  patchKeys b saved (Z.lxor h x) = Z.lxor (patchKeys b saved h) x.
Proof.
  induction saved as [|[s v] saved IH]; intros h x; [reflexivity|].
  rewrite !patchKeys_cons, <- IH. f_equal. xor_bits.
Qed.

Lemma patchKeys_board b saved : forall b0,
  List.length b0 = 81%nat ->
  NoDup (map fst saved) ->
  (forall s v, In (s, v) saved -> inBoard s /\ v = cell b0 s) ->
  (forall s, inBoard s -> isSaved s saved = false -> cell b s = cell b0 s) ->
  patchKeys b saved (keyFold b0) = keyFold b.
Proof.
  induction saved as [|[s v] saved IH]; intros b0 Hl Hd Hs Hr.
  - change (keyFold b0 = keyFold b). apply keyFold_ext. intros s Hin.
    symmetry. now apply Hr.
  - rewrite patchKeys_cons.
    destruct (Hs s v (or_introl eq_refl)) as [Hin Hv]. rewrite Hv.
    assert (Hn : ~ In s (map fst saved)).
    { intros F. inversion Hd as [|? ? Hn Hd']. now apply Hn. }
    assert (Hd' : NoDup (map fst saved)).
    { now inversion Hd. }
    rewrite <- (keyFold_upd b0 s (cell b s) Hl Hin).
    apply IH.
    + now rewrite length_upd.
    + exact Hd'.
    + intros s' v' H'. destruct (Hs s' v' (or_intror H')) as [Hin' Hv'].
      split; [exact Hin'|]. rewrite Hv'.
      rewrite cell_upd_ne; [reflexivity|unfold inBoard in *; lia..|].
      intros E. apply Hn. apply in_map_iff. exists (s', v').
      split; [symmetry; exact E|exact H'].
    + intros s' Hin' Hsv. destruct (Z.eq_dec s s') as [E|Hne].
      * rewrite <- E. rewrite cell_upd_eq; [reflexivity|].
        unfold inBoard in Hin. lia.
      * rewrite cell_upd_ne by (unfold inBoard in *; lia).
        apply Hr; [exact Hin'|]. unfold isSaved in *.
        change (((s =? s') || existsb (fun e => fst e =? s') saved) = false).
        rewrite Hsv. apply orb_false_iff. split; [|reflexivity].
        now apply Z.eqb_neq.
Qed.

End KeyFold.

(** The key of one square with content [v]. *)
Definition zKey (s v : Z) : Z :=
  if v =? 0 then 0 else z_sq zobrist s (zobristIndex v).

Definition zBoard (b : list Z) : Z := keyFold zKey b.

Definition zFlags (t : Color) (br wb : Arr2 bool) : Z :=
  Z.lxor (if color_eqb t Black then z_turn zobrist else 0)
    (Z.lxor (if getC White br then z_bastionW zobrist else 0)
      (Z.lxor (if getC Black br then z_bastionB zobrist else 0)
        (Z.lxor (if getC White wb then z_wallBuiltW zobrist else 0)
                (if getC Black wb then z_wallBuiltB zobrist else 0)))).

Lemma hashPosition_split p :
  hashPosition p
  = Z.lxor (zBoard (b_ p)) (zFlags (turn_ p) (bastionRight_ p) (wallBuiltLast_ p)).
Proof.
  unfold hashPosition. cbv zeta.
  assert (E : forall l h, fold_left (fun h s =>
                if at_ p s =? 0 then h
                else Z.lxor h (z_sq zobrist s (zobristIndex (at_ p s))))
                l h = cellFold Z.lxor zKey (b_ p) l h).
  { unfold cellFold.
    induction l as [|s l IH]; intros h; cbn [fold_left]; [reflexivity|].
    rewrite <- IH. f_equal. unfold zKey, at_.
    destruct (cell (b_ p) s =? 0); [now rewrite Z.lxor_0_r|reflexivity]. }
  assert (E0 : fold_left (fun h s =>
                 if at_ p s =? 0 then h
                 else Z.lxor h (z_sq zobrist s (zobristIndex (at_ p s))))
                 allSquares 0 = zBoard (b_ p)) by (unfold zBoard, keyFold; apply E).
  rewrite E0. clear E E0. unfold zFlags, bastionRight, wallBuiltLast.
  generalize (zBoard (b_ p)) as B. intros B.
  destruct (color_eqb (turn_ p) Black), (getC White (bastionRight_ p)),
    (getC Black (bastionRight_ p)), (getC White (wallBuiltLast_ p)),
    (getC Black (wallBuiltLast_ p)); xor_bits.
Qed.

(** The square loop of [hashAfterMake]. *)
Definition zPatch (pos : Position) (saved : list (Z * Z)) (h : Z) : Z :=
  fold_left (fun h e =>
    let s := fst e in
    let oldV := snd e in
    let newV := at_ pos s in
    let h := if negb (oldV =? 0)
             then Z.lxor h (z_sq zobrist s (zobristIndex oldV)) else h in
    if negb (newV =? 0)
    then Z.lxor h (z_sq zobrist s (zobristIndex newV)) else h) saved h.

Lemma zPatch_keys pos saved : forall h,
  zPatch pos saved h = patchKeys zKey (b_ pos) saved h.
Proof.
  unfold zPatch, patchKeys. induction saved as [|[s v] saved IH]; intros h;
    cbn [fold_left fst snd]; [reflexivity|].
  cbv zeta. rewrite IH. f_equal. unfold zKey, at_.
  destruct (v =? 0), (cell (b_ pos) s =? 0); cbn [negb];
    now rewrite ?Z.lxor_0_r.
Qed.

Lemma makeMove_saved_once p m : SavedWithin 4 (snd (makeMove p m)).
Proof.
  unfold makeMove, captureSovereign, relocate. cbv zeta.
  destruct (gameOver _); [apply SavedWithin_nil|].
  destruct (m_type m);
    repeat match goal with
    | |- context [if ?c then _ else _] => destruct c
    end;
    cbn [snd];
    repeat first [ apply SavedWithin_nil | apply SavedWithin_save ].
Qed.

Lemma flip_bool (a b : bool) h k :
  (if negb (Bool.eqb a b) then Z.lxor h k else h)
  = Z.lxor h (Z.lxor (if a then k else 0) (if b then k else 0)).
Proof. destruct a, b; cbn [Bool.eqb negb]; xor_bits. Qed.

Lemma flip_turn (a b : Color) h k :
  (if negb (color_eqb a b) then Z.lxor h k else h)
  = Z.lxor h (Z.lxor (if color_eqb a Black then k else 0)
                     (if color_eqb b Black then k else 0)).
Proof. destruct a, b; cbn [color_eqb negb]; xor_bits. Qed.

Lemma hashAfterMake_step p q u :
  Saved (b_ p) (b_ q) (u_saved u) ->
  NoDup (map fst (u_saved u)) ->
  undoGlobals u = posGlobals p ->
  hashAfterMake (hashPosition p) q u = hashPosition q.
Proof.
  intros (L1 & L0 & S1 & S2) D G.
  unfold undoGlobals, posGlobals in G.
  assert (G1 : prevTurn u = turn_ p) by congruence.
  assert (G2 : prevBastionRight u = bastionRight_ p) by congruence.
  assert (G3 : prevWallBuiltLast u = wallBuiltLast_ p) by congruence.
  clear G.
  unfold hashAfterMake. cbv zeta. fold (zPatch q (u_saved u) (hashPosition p)).
  rewrite G1, G2, G3, !hashPosition_split, zPatch_keys, patchKeys_shift.
  unfold zBoard.
  rewrite (patchKeys_board zKey (b_ q) (u_saved u) (b_ p) L0 D S1 S2).
  unfold zFlags, bastionRight, wallBuiltLast.
  rewrite flip_turn, !flip_bool. xor_bits.
Qed.

(** X25. The key the search carries along stays the key of the position:
    from the key [hashPosition] of a position, the position after any
    offered action and the undo record of that action, [hashAfterMake]
    computes exactly [hashPosition] of the new position. *)
Theorem hashAfterMake_hashPosition (p : Position) (m : Move) :
  WF p -> In m (movesOf p) ->
  hashAfterMake (hashPosition p) (fst (makeMove p m)) (snd (makeMove p m))
  = hashPosition (fst (makeMove p m)).
Proof.
  intros W Hin.
  assert (HL : Legal p m) by now apply generateMoves_ok.
  destruct (makeMove_inv p m W HL) as (_ & S & _ & G).
  destruct (makeMove_saved_once p m) as [_ D].
  now apply hashAfterMake_step.
Qed.

Lemma hashAfterMake_hashPosition_witness :
  let p := positionOf "clpisiplc/mmmmmmmmm/9/9/9/9/9/MMMMMMMMM/CLPISIPLC w Bb - 0 1" in
  let m := mkMove MasonConstruct 67 58 SQ_NONE SQ_NONE in
  WF p /\ In m (movesOf p) /\
  hashAfterMake (hashPosition p) (fst (makeMove p m)) (snd (makeMove p m))
  = hashPosition (fst (makeMove p m)).
Proof.
  cbv zeta.
  set (p := positionOf "clpisiplc/mmmmmmmmm/9/9/9/9/9/MMMMMMMMM/CLPISIPLC w Bb - 0 1").
  assert (W : WF p) by (apply WFb_sound; vm_compute; reflexivity).
  assert (I : In (mkMove MasonConstruct 67 58 SQ_NONE SQ_NONE) (movesOf p)).
  { vm_compute. repeat (first [left; reflexivity | right]). }
  split; [exact W|]. split; [exact I|].
  exact (hashAfterMake_hashPosition p _ W I).
Defined.

(** X26. The key the search uses below a null move, the current key with
    the turn key XORed in, is the key of the position [makeNullMove]
    produces, whenever the game is running. *)
Theorem nullKey_hashPosition (p : Position) :
  gameOver p = false ->
  hashPosition (fst (makeNullMove p))
  = Z.lxor (hashPosition p) (z_turn zobrist).
Proof.
  intros Hg. rewrite !hashPosition_split.
  assert (E : b_ (fst (makeNullMove p)) = b_ p /\
              turn_ (fst (makeNullMove p)) = other (turn_ p) /\
              bastionRight_ (fst (makeNullMove p)) = bastionRight_ p /\
              wallBuiltLast_ (fst (makeNullMove p)) = wallBuiltLast_ p).
  { unfold makeNullMove. rewrite Hg. cbv zeta.
    destruct (color_eqb (turn_ p) Black); cbn [fst]; repeat split. }
  destruct E as (-> & -> & -> & ->).
  unfold zFlags. destruct (turn_ p); cbn [other color_eqb]; xor_bits.
Qed.

Lemma nullKey_hashPosition_witness :
  let p := positionOf "clpisiplc/mmmmmmmmm/9/9/9/9/9/MMMMMMMMM/CLPISIPLC w Bb - 0 1" in
  gameOver p = false /\
  hashPosition (fst (makeNullMove p))
  = Z.lxor (hashPosition p) (z_turn zobrist).
Proof.
  cbv zeta. split; [reflexivity|].
  apply nullKey_hashPosition. reflexivity.
Defined.

(** ** Bitboards: enumeration and counting *)

Lemma count_filter_map {A B} (f : B -> bool) (g : A -> B) (l : list A) :
  List.length (filter f (map g l)) = List.length (filter (fun x => f (g x)) l).
Proof.
  induction l as [|x l IH]; cbn [map filter]; [reflexivity|].
  destruct (f (g x)); cbn [List.length]; now rewrite IH.
Qed.

Lemma count_filter_ext {A} (f g : A -> bool) (l : list A) :
  (forall x, In x l -> f x = g x) ->
  List.length (filter f l) = List.length (filter g l).
Proof. intros H. now rewrite (filter_ext_in f g l H). Qed.

Lemma count_filter_none {A} (f : A -> bool) (l : list A) :
  (forall x, In x l -> f x = false) -> List.length (filter f l) = 0%nat.
Proof.
  induction l as [|x l IH]; intros H; cbn [filter]; [reflexivity|].
  rewrite (H x (or_introl eq_refl)). apply IH. intros; apply H; now right.
Qed.

Lemma popcount_squares bb :
  wfBB bb -> popcount bb = Z.of_nat (List.length (setSquares bb)).
Proof.
  intros [Wl Wh]. unfold popcount, popcountZ, setSquares, allSquares.
  change (seq 0 81) with (seq 0 (64 + 17)).
  change (seq 0 64) with (seq 0 (17 + 47)) at 2.
  rewrite !seq_app, !map_app, !filter_app, !length_app, !count_filter_map.
  cbn [Nat.add].
  rewrite (count_filter_none _ (seq 17 47)).
  2:{ intros n Hn. apply in_seq in Hn. apply Wh. lia. }
  rewrite (count_filter_ext (fun x => bb_test bb (Z.of_nat x))
             (fun x => Z.testbit (lo bb) (Z.of_nat x)) (seq 0 64)).
  2:{ intros n Hn. apply in_seq in Hn. apply bb_test_lo. lia. }
  replace (seq 64 17) with (map (fun n => (n + 64)%nat) (seq 0 17)) by reflexivity.
  rewrite count_filter_map.
  rewrite (count_filter_ext (fun x => bb_test bb (Z.of_nat (x + 64)))
             (fun x => Z.testbit (hi bb) (Z.of_nat x)) (seq 0 17)).
  2:{ intros n Hn. apply in_seq in Hn. rewrite bb_test_hi by lia.
      f_equal. lia. }
  lia.
Qed.

(** X27. On a board whose words hold no bit beyond square 80, the loop
    that pops the lowest set square until the board is empty visits
    exactly the set squares, in increasing order and each once, and
    [popcount] is the number of squares visited. *)
Theorem pop_lsb_loop_enumerates (bb : Bitboard81) :
  wfBB bb ->
  bb_squares bb = filter (bb_test bb) allSquares /\
  popcount bb = Z.of_nat (List.length (bb_squares bb)).
Proof.
  intros W. rewrite (bb_squares_spec bb W). split; [reflexivity|].
  now apply popcount_squares.
Qed.

Lemma pop_lsb_loop_enumerates_witness :
  let bb := mkBB (2 ^ 63 + 5) (2 ^ 16 + 1) in
  wfBB bb /\ bb_squares bb = [0; 2; 63; 64; 80] /\ popcount bb = 5.
Proof.
  cbv zeta.
  assert (W : wfBB (mkBB (2 ^ 63 + 5) (2 ^ 16 + 1))).
  { apply wfBBb_sound. vm_compute. reflexivity. }
  destruct (pop_lsb_loop_enumerates _ W) as [E P].
  split; [exact W|]. split.
  - rewrite E. vm_compute. reflexivity.
  - rewrite P, E. vm_compute. reflexivity.
Defined.

(** ** Reading back the engine's own move tokens *)

Section CliTokenFacts.
Local Open Scope string_scope.
Local Open Scope Z_scope.

Lemma normalizeToken_app a b :
  normalizeToken (a ++ b) = normalizeToken a ++ normalizeToken b.
Proof.
  induction a as [|ch a IH]; [reflexivity|]. cbn [append normalizeToken].
  destruct (isSpaceCh ch); [exact IH|]. cbn [append]. now rewrite IH.
Qed.

Lemma normalizeToken_removeBlanks s :
  normalizeToken (removeBlanks s) = normalizeToken s.
Proof.
  induction s as [|ch s IH]; [reflexivity|]. cbn [removeBlanks normalizeToken].
  destruct (code ch =? 32) eqn:E.
  - unfold isSpaceCh. rewrite E. cbn [orb]. exact IH.
  - cbn [normalizeToken]. now rewrite IH.
Qed.

Lemma lower_char ch :
  isSpaceCh ch = false ->
  isSpaceCh (toLowerCh ch) = false /\ toLowerCh (toLowerCh ch) = toLowerCh ch.
Proof.
  destruct ch as [[] [] [] [] [] [] [] []]; vm_compute; intros H;
    first [discriminate H | split; reflexivity].
Qed.

Lemma normalizeToken_idem s :
  normalizeToken (normalizeToken s) = normalizeToken s.
Proof.
  induction s as [|ch s IH]; [reflexivity|]. cbn [normalizeToken].
  destruct (isSpaceCh ch) eqn:E; [exact IH|].
  destruct (lower_char ch E) as [E1 E2].
  cbn [normalizeToken]. now rewrite E1, E2, IH.
Qed.

(** The lower-case file letter of a square. *)
Definition lowFileCh (s : Z) : ascii := toChar (97 + col s).

Lemma lowFile_code s : inBoard s -> code (lowFileCh s) = 97 + col s.
Proof.
  intros Hs. destruct (coord_codes s Hs) as (_ & _ & Hc & _).
  unfold lowFileCh. apply code_toChar. lia.
Qed.

Lemma normalizeToken_coord s :
  inBoard s ->
  normalizeToken (coordToString s) = String (lowFileCh s) (String (rankCh s) "").
Proof.
  intros Hs. rewrite coord_chars by assumption.
  destruct (coord_codes s Hs) as (F & R & Hc & Hr).
  cbn [normalizeToken]. unfold isSpaceCh, toLowerCh, isUpperCh.
  rewrite F, R.
  replace (65 + col s =? 32) with false by (symmetry; apply Z.eqb_neq; lia).
  replace (57 - row s =? 32) with false by (symmetry; apply Z.eqb_neq; lia).
  replace (9 <=? 65 + col s) with true by (symmetry; apply Z.leb_le; lia).
  replace (65 + col s <=? 13) with false by (symmetry; apply Z.leb_gt; lia).
  replace (9 <=? 57 - row s) with true by (symmetry; apply Z.leb_le; lia).
  replace (57 - row s <=? 13) with false by (symmetry; apply Z.leb_gt; lia).
  replace (65 <=? 65 + col s) with true by (symmetry; apply Z.leb_le; lia).
  replace (65 + col s <=? 90) with true by (symmetry; apply Z.leb_le; lia).
  replace (65 <=? 57 - row s) with false by (symmetry; apply Z.leb_gt; lia).
  cbn [orb andb]. unfold lowFileCh, toChar.
  rewrite (Z.mod_small (97 + col s)) by lia.
  replace (65 + col s + 32) with (97 + col s) by lia. reflexivity.
Qed.

Lemma lowCoord_inj s t :
  inBoard s -> inBoard t ->
  lowFileCh s = lowFileCh t -> rankCh s = rankCh t -> s = t.
Proof.
  intros Hs Ht Ef Er.
  pose proof (lowFile_code s Hs) as F1. pose proof (lowFile_code t Ht) as F2.
  destruct (coord_codes s Hs) as (_ & R1 & _).
  destruct (coord_codes t Ht) as (_ & R2 & _).
  rewrite Ef in F1. rewrite Er in R1.
  unfold row, col, N in *.
  rewrite (Z.div_mod s 9), (Z.div_mod t 9) by lia. lia.
Qed.

Ltac lowcoords :=
  repeat match goal with
  | H : inBoard ?s |- _ =>
      lazymatch goal with
      | _ : code (lowFileCh s) = _ |- _ => fail
      | _ => let F := fresh "F" in let R := fresh "R" in
             let Hc := fresh "Hc" in let Hr := fresh "Hr" in
             let L := fresh "L" in
             pose proof (lowFile_code s H) as L;
             destruct (coord_codes s H) as (F & R & Hc & Hr)
      end
  end.

Ltac lowclash :=
  repeat match goal with
  | H : String _ _ = String _ _ |- _ => injection H; clear H; intros
  | H : String _ _ = EmptyString |- _ => discriminate H
  | H : EmptyString = String _ _ |- _ => discriminate H
  end;
  try discriminate;
  try match goal with
      | H : lowFileCh ?s = Ascii _ _ _ _ _ _ _ _, F : code (lowFileCh ?s) = _ |- _ =>
          rewrite H in F; vm_compute in F; lia
      | H : Ascii _ _ _ _ _ _ _ _ = lowFileCh ?s, F : code (lowFileCh ?s) = _ |- _ =>
          rewrite <- H in F; vm_compute in F; lia
      | H : rankCh ?s = Ascii _ _ _ _ _ _ _ _, F : code (rankCh ?s) = _ |- _ =>
          rewrite H in F; vm_compute in F; lia
      | H : Ascii _ _ _ _ _ _ _ _ = rankCh ?s, F : code (rankCh ?s) = _ |- _ =>
          rewrite <- H in F; vm_compute in F; lia
      end.

Lemma uciToken_inj m1 m2 :
  WellShaped m1 -> WellShaped m2 ->
  moveToUciToken m1 = moveToUciToken m2 -> m1 = m2.
Proof.
  destruct m1 as [t1 f1 o1 a1 b1], m2 as [t2 f2 o2 a2 b2].
  unfold WellShaped, moveToUciToken, moveToString.
  cbn [m_type m_from m_to m_aux1 m_aux2]. cbv zeta.
  intros (Hf1 & Ho1 & S1) (Hf2 & Ho2 & S2).
  destruct t1;
    [destruct S1 as [-> ->]|destruct S1 as [-> ->]
    |destruct S1 as [[->|Ha1] ->]|destruct S1 as [[->|Ha1] ->]
    |destruct S1 as [-> ->]|destruct S1 as [Ha1 Hb1]];
    (destruct t2;
     [destruct S2 as [-> ->]|destruct S2 as [-> ->]
     |destruct S2 as [[->|Ha2] ->]|destruct S2 as [[->|Ha2] ->]
     |destruct S2 as [-> ->]|destruct S2 as [Ha2 Hb2]]);
    rewrite ?Z.eqb_refl, ?inBoard_not_none by assumption; cbn [negb];
    rewrite ?normalizeToken_app, ?normalizeToken_coord by assumption;
    repeat match goal with
    | |- context [normalizeToken ?l] =>
        let v := eval vm_compute in (normalizeToken l) in
        change (normalizeToken l) with v
    end;
    cbn [append];
    intros E; lowcoords; lowclash;
    repeat match goal with
    | H1 : lowFileCh ?s = lowFileCh ?t, H2 : rankCh ?s = rankCh ?t |- _ =>
        assert (s = t) by (apply lowCoord_inj; assumption); subst s; clear H1 H2
    end;
    reflexivity.
Qed.

Lemma moveToString_head m :
  WellShaped m ->
  exists ch rest, moveToString m = String ch rest /\ isSpaceCh ch = false.
Proof.
  destruct m as [t f o a b].
  unfold WellShaped, moveToString.
  cbn [m_type m_from m_to m_aux1 m_aux2]. cbv zeta.
  intros (Hf & Ho & S).
  destruct t.
  - rewrite (coord_chars f Hf). cbn [append].
    do 2 eexists. split; [reflexivity|].
    destruct (coord_codes f Hf) as (F & _ & Hc & _).
    unfold isSpaceCh. rewrite F.
    replace (65 + col f =? 32) with false by (symmetry; apply Z.eqb_neq; lia).
    replace (65 + col f <=? 13) with false by (symmetry; apply Z.leb_gt; lia).
    now rewrite andb_false_r.
  - cbn [append]. do 2 eexists. split; reflexivity.
  - destruct (negb (a =? SQ_NONE)); cbn [append];
      do 2 eexists; split; reflexivity.
  - destruct (negb (a =? SQ_NONE)); cbn [append];
      do 2 eexists; split; reflexivity.
  - cbn [append]. do 2 eexists. split; reflexivity.
  - cbn [append]. do 2 eexists. split; reflexivity.
Qed.

Lemma uciToken_nonempty m :
  WellShaped m -> exists ch rest, moveToUciToken m = String ch rest.
Proof.
  intros S. destruct (moveToString_head m S) as (ch & rest & E & Hs).
  unfold moveToUciToken. rewrite E. cbn [normalizeToken]. rewrite Hs.
  eauto.
Qed.

Lemma find_first {A} (f : A -> bool) (l : list A) (x : A) :
  In x l -> f x = true ->
  exists y, find f l = Some y /\ In y l /\ f y = true.
Proof.
  induction l as [|a l IH]; intros Hin Hx; [destruct Hin|].
  cbn [find]. destruct (f a) eqn:E.
  - exists a. split; [reflexivity|]. split; [now left|exact E].
  - destruct Hin as [->|Hin]; [congruence|].
    destruct (IH Hin Hx) as (y & Hy & Iy & Fy).
    exists y. split; [exact Hy|]. split; [now right|exact Fy].
Qed.

Lemma find_none_all {A} (f : A -> bool) (l : list A) :
  (forall x, In x l -> f x = false) -> find f l = None.
Proof.
  induction l as [|a l IH]; intros H; [reflexivity|]. cbn [find].
  rewrite (H a (or_introl eq_refl)). apply IH. intros; apply H; now right.
Qed.

Lemma parseMoveToken_found p m tok :
  WF p -> In m (movesOf p) ->
  normalizeToken tok = moveToUciToken m ->
  parseMoveToken p tok = (Some m, p).
Proof.
  intros W Hin E.
  pose proof (movesOf_shaped p m W Hin) as Sm.
  destruct (uciToken_nonempty m Sm) as (ch & rest & Hne).
  destruct (generateMoves_ok p W) as [Hp _].
  assert (Hall : forall y, In y (snd (generateMoves p)) -> WellShaped y).
  { intros y Hy. now apply (movesOf_shaped p). }
  unfold parseMoveToken. cbv zeta. rewrite E. rewrite Hne at 1.
  unfold movesOf in Hin.
  destruct (generateMoves p) as [p1 moves]. cbn [fst snd] in *. subst p1.
  destruct (find_first (fun m0 => String.eqb (moveToUciToken m0) (moveToUciToken m))
              moves m Hin (String.eqb_refl _)) as (y & Hy & Iy & Fy).
  rewrite Hy. apply String.eqb_eq in Fy.
  now rewrite (uciToken_inj y m (Hall y Iy) Sm Fy).
Qed.

(** X28. The command line reads back what the engine writes: for every
    action offered in a well-formed position, [parseMoveToken] applied to
    its [moveToString] text, to its PGN token, to its UCI token or to its
    bestmove token returns that very action, and leaves the position as
    it was. *)
Theorem parseMoveToken_round_trip (p : Position) (m : Move) :
  WF p -> In m (movesOf p) ->
  parseMoveToken p (moveToString m) = (Some m, p) /\
  parseMoveToken p (moveToPgnToken m) = (Some m, p) /\
  parseMoveToken p (moveToUciToken m) = (Some m, p) /\
  parseMoveToken p (uciBestmoveToken m) = (Some m, p).
Proof.
  intros W Hin.
  assert (U : parseMoveToken p (moveToUciToken m) = (Some m, p)).
  { apply parseMoveToken_found; auto. apply normalizeToken_idem. }
  split; [|split; [|split]].
  - now apply parseMoveToken_found.
  - apply parseMoveToken_found; auto. apply normalizeToken_removeBlanks.
  - exact U.
  - unfold uciBestmoveToken.
    destruct (movesOf_shaped p m W Hin) as (_ & Ho & _).
    now rewrite (inBoard_not_none _ Ho).
Qed.

Lemma parseMoveToken_round_trip_witness :
  let m := mkMove MasonCommand 66 57 66 SQ_NONE in
  WF initial /\ In m (movesOf initial) /\
  moveToUciToken m = "cmdd2d3@d2" /\
  parseMoveToken initial "cmd D2D3@D2" = (Some m, initial).
Proof.
  cbv zeta.
  assert (W : WF initial) by (apply WFb_sound; vm_compute; reflexivity).
  assert (I : In (mkMove MasonCommand 66 57 66 SQ_NONE) (movesOf initial)).
  { vm_compute. repeat (first [left; reflexivity | right]). }
  split; [exact W|]. split; [exact I|]. split; [reflexivity|].
  exact (proj1 (parseMoveToken_round_trip initial _ W I)).
Defined.

(** X29. [parseMoveToken] never invents an action: what it returns is in
    the move list of the position and is written like the token, up to
    case and white space; it returns nothing exactly when the token is
    blank or no listed action is written like it. *)
Theorem parseMoveToken_sound (p : Position) (tok : string) :
  WF p ->
  snd (parseMoveToken p tok) = p /\
  (forall m, fst (parseMoveToken p tok) = Some m ->
     In m (movesOf p) /\ moveToUciToken m = normalizeToken tok) /\
  (fst (parseMoveToken p tok) = None <->
   normalizeToken tok = "" \/
   forall m, In m (movesOf p) -> moveToUciToken m <> normalizeToken tok).
Proof.
  intros W.
  destruct (normalizeToken tok) as [|c w] eqn:En.
  - unfold parseMoveToken. cbv zeta. rewrite En. cbn [fst snd].
    split; [reflexivity|]. split; [discriminate|]. tauto.
  - assert (Hyes : forall m, In m (movesOf p) ->
                     moveToUciToken m = String c w ->
                     parseMoveToken p tok = (Some m, p)).
    { intros m Hin E. apply parseMoveToken_found; auto. now rewrite En. }
    assert (Hno : (forall m, In m (movesOf p) ->
                     moveToUciToken m <> String c w) ->
                  parseMoveToken p tok = (None, p)).
    { intros H. destruct (generateMoves_ok p W) as [Hp _].
      unfold parseMoveToken. cbv zeta. rewrite En.
      unfold movesOf in H.
      destruct (generateMoves p) as [p1 moves]. cbn [fst snd] in *. subst p1.
      assert (F1 : find (fun m => String.eqb (moveToUciToken m) (String c w))
                     moves = None).
      { apply find_none_all. intros y Iy. apply not_true_is_false.
        intros Fy. apply String.eqb_eq in Fy. now destruct (H y Iy). }
      assert (F2 : find (fun m => String.eqb (normalizeToken (moveToPgnToken m))
                                    (String c w)) moves = None).
      { apply find_none_all. intros y Iy. apply not_true_is_false.
        intros Fy. apply String.eqb_eq in Fy. unfold moveToPgnToken in Fy.
        rewrite normalizeToken_removeBlanks in Fy. now destruct (H y Iy). }
      now rewrite F1, F2. }
    assert (D : (exists m, In m (movesOf p) /\ moveToUciToken m = String c w) \/
                (forall m, In m (movesOf p) -> moveToUciToken m <> String c w)).
    { generalize (movesOf p) as l. induction l as [|a l IH].
      - right. intros m [].
      - destruct (string_dec (moveToUciToken a) (String c w)) as [E|E].
        + left. exists a. split; [now left|exact E].
        + destruct IH as [(m & Hm & E')|IH].
          * left. exists m. split; [now right|exact E'].
          * right. intros m [<-|Hm]; auto. }
    destruct D as [(m & Hm & E)|D].
    + rewrite (Hyes m Hm E). cbn [fst snd]. split; [reflexivity|]. split.
      * intros m' E'. apply some_inj in E'. subst m'. auto.
      * split; [discriminate|].
        intros [F|F]; [discriminate F|]. now destruct (F m Hm).
    + rewrite (Hno D). cbn [fst snd]. split; [reflexivity|]. split.
      * discriminate.
      * split; auto.
Qed.

Lemma parseMoveToken_sound_witness :
  let m := mkMove Normal 66 57 SQ_NONE SQ_NONE in
  WF initial /\
  parseMoveToken initial " d2 D3 " = (Some m, initial) /\
  In m (movesOf initial) /\ moveToUciToken m = "d2d3".
Proof.
  cbv zeta.
  assert (W : WF initial) by (apply WFb_sound; vm_compute; reflexivity).
  assert (P : parseMoveToken initial " d2 D3 "
              = (Some (mkMove Normal 66 57 SQ_NONE SQ_NONE), initial)).
  { vm_compute. reflexivity. }
  destruct (parseMoveToken_sound initial " d2 D3 " W) as (_ & S & _).
  rewrite P in S. destruct (S _ eq_refl) as [I T].
  split; [exact W|]. split; [exact P|]. split; [exact I|exact T].
Defined.

End CliTokenFacts.

(** ** Repeated positions on a line of play *)

(** A line of play and search from a root: actions of the move list,
    and the null moves of the search. *)
Inductive Line (r : Position) : Position -> Prop :=
| Line_root : Line r r
| Line_move p m : Line r p -> In m (movesOf p) -> Line r (fst (makeMove p m))
| Line_null p : Line r p -> gameOver p = false -> Line r (fst (makeNullMove p)).

Lemma makeNullMove_history p :
  history_ (fst (makeNullMove p)) = history_ p.
Proof.
  unfold makeNullMove. destruct (gameOver p); [reflexivity|]. cbv zeta.
  destruct (color_eqb (turn_ p) Black); reflexivity.
Qed.

(** Every hash the line has put on the history is the hash of a position
    of the line from which an action was made. *)
Lemma line_history r p :
  Line r p ->
  forall h, In h (history_ p) ->
    In h (history_ r) \/
    exists q m, Line r q /\ hash_ q = h /\ In m (movesOf q).
Proof.
  induction 1 as [|p m L IH Hm|p L IH Hg]; intros h Hh.
  - now left.
  - destruct (makeMove_booked p m (movesOf_not_over p m Hm)) as (Hhist & _).
    rewrite Hhist in Hh. apply in_app_iff in Hh. destruct Hh as [Hh|[<-|[]]].
    + now apply IH.
    + right. exists p, m. auto.
  - rewrite makeNullMove_history in Hh. now apply IH.
Qed.

Lemma repetitionScan_In h hist : forall c,
  repetitionScan h hist c = true -> In h hist.
Proof.
  induction hist as [|x rest IH]; intros c H; cbn [repetitionScan] in H.
  - discriminate.
  - destruct (Z.eqb_spec x h) as [->|_]; [now left|]. right. eapply IH; eauto.
Qed.

(** A position that repeats, on a line from a root without history such
    as [fromFEN] gives, carries the hash of a position of the line that
    was left by an action. *)
Lemma repeated_hash_was_left r p :
  Line r p -> history_ r = [] -> isRepetition p = true ->
  exists q m, Line r q /\ hash_ q = hash_ p /\ In m (movesOf q).
Proof.
  intros L Hr Hrep. unfold isRepetition in Hrep.
  apply repetitionScan_In in Hrep.
  destruct (line_history r p L _ Hrep) as [H|H]; [|exact H].
  rewrite Hr in H. destruct H.
Qed.
